(** * lingua: message template lexer, parser and renderer

    A shallow embedding of [internal/parser/lexer.go],
    [internal/parser/iterator.go], [internal/parser/parser.go] and of
    [Container.format] in [container.go], then of the languages of
    [language.go], of the container of [container.go] and of the loop of
    the extract command over the translations, followed by the properties
    that are proved about them.

    Conventions of the embedding:
    - a Go [string] is a sequence of bytes: [list ascii];
    - a Go [rune] and a Go [int] are [Z]; cursor positions and lengths,
      which are never negative, are [nat];
    - a [map[string]T] is a [gmap (list ascii) T];
    - a loop without a structural bound takes fuel and returns [None] when
      the fuel runs out; every entry point computes its own fuel and is
      shown never to run out of it. *)

From Stdlib Require Import ZArith Ascii String List Lia Bool.
From stdpp Require Import base tactics option list strings gmap.

Open Scope Z_scope.

(** ** Strings and runes *)

Abbreviation bytes := (list ascii).

(** Go string literals are written [$"..."]. *)
Notation "$ s" := (list_ascii_of_string s) (at level 1, s at level 0, format "$ s").

Definition byteZ (c : ascii) : Z := Z.of_N (N_of_ascii c).

Definition rune_of (c : ascii) : Z := byteZ c.

(** [s[a:b]] *)
Definition slice (s : bytes) (lo hi : nat) : bytes := take (hi - lo)%nat (drop lo s).

Module utf8.

(** unicode/utf8: the error rune and the first-byte table. *)
Definition RuneError : Z := 0xFFFD.
Definition MaxRune : Z := 0x10FFFF.
Definition RuneSelf : Z := 0x80.

Definition xx : Z := 0xF1.
Definition as_ : Z := 0xF0.

(** [first[b]]: information about the first byte of an encoding. *)
Definition first (b0 : Z) : Z :=
  if b0 <? 0x80 then as_
  else if b0 <? 0xC2 then xx
  else if b0 <? 0xE0 then 0x02
  else if b0 =? 0xE0 then 0x13
  else if b0 <? 0xED then 0x03
  else if b0 =? 0xED then 0x23
  else if b0 <? 0xF0 then 0x03
  else if b0 =? 0xF0 then 0x34
  else if b0 <? 0xF4 then 0x04
  else if b0 =? 0xF4 then 0x44
  else xx.

(** [acceptRanges[i]]: the range of valid second bytes. *)
Definition acceptRanges (i : Z) : Z * Z :=
  if i =? 0 then (0x80, 0xBF)
  else if i =? 1 then (0xA0, 0xBF)
  else if i =? 2 then (0x80, 0x9F)
  else if i =? 3 then (0x90, 0xBF)
  else if i =? 4 then (0x80, 0x8F)
  else (0, 0).

Definition locb : Z := 0x80.
Definition hicb : Z := 0xBF.
Definition maskx : Z := 0x3F.
Definition mask2 : Z := 0x1F.
Definition mask3 : Z := 0x0F.
Definition mask4 : Z := 0x07.

(** [utf8.DecodeRuneInString]: the first rune of [s] and its width in
    bytes; [(RuneError, 0)] for the empty string and [(RuneError, 1)] for
    an invalid encoding.  For a first byte that is ASCII or invalid, the
    source selects between the byte and [RuneError] with a mask computed
    from the low bit of [first[s0]]; the conditional below is that
    selection. *)
Definition DecodeRuneInString (s : bytes) : Z * nat :=
  match s with
  | [] => (RuneError, 0%nat)
  | c0 :: s' =>
    let s0 := byteZ c0 in
    let x := first s0 in
    if as_ <=? x then
      ((if Z.testbit x 0 then RuneError else s0), 1%nat)
    else
      let sz := Z.land x 7 in
      let accept := acceptRanges (Z.shiftr x 4) in
      if Z.of_nat (length s) <? sz then (RuneError, 1%nat)
      else
        match s' with
        | [] => (RuneError, 1%nat)
        | c1 :: s'' =>
          let s1 := byteZ c1 in
          if (s1 <? fst accept) || (snd accept <? s1) then (RuneError, 1%nat)
          else if sz <=? 2 then
            (Z.lor (Z.shiftl (Z.land s0 mask2) 6) (Z.land s1 maskx), 2%nat)
          else
            match s'' with
            | [] => (RuneError, 1%nat)
            | c2 :: s''' =>
              let s2 := byteZ c2 in
              if (s2 <? locb) || (hicb <? s2) then (RuneError, 1%nat)
              else if sz <=? 3 then
                (Z.lor (Z.lor (Z.shiftl (Z.land s0 mask3) 12)
                              (Z.shiftl (Z.land s1 maskx) 6))
                       (Z.land s2 maskx), 3%nat)
              else
                match s''' with
                | [] => (RuneError, 1%nat)
                | c3 :: _ =>
                  let s3 := byteZ c3 in
                  if (s3 <? locb) || (hicb <? s3) then (RuneError, 1%nat)
                  else
                    (Z.lor (Z.lor (Z.lor (Z.shiftl (Z.land s0 mask4) 18)
                                         (Z.shiftl (Z.land s1 maskx) 12))
                                  (Z.shiftl (Z.land s2 maskx) 6))
                           (Z.land s3 maskx), 4%nat)
                end
            end
        end
  end.

Definition byte_of (z : Z) : ascii := ascii_of_N (Z.to_N (Z.land z 0xFF)).

Definition surrogateMin : Z := 0xD800.
Definition surrogateMax : Z := 0xDFFF.

(** The UTF-8 encoding of a valid scalar value, as [utf8.AppendRune]
    writes it. *)
Definition encodeValid (r : Z) : bytes :=
  if r <=? 0x7F then [byte_of r]
  else if r <=? 0x7FF then
    [byte_of (Z.lor 0xC0 (Z.shiftr r 6));
     byte_of (Z.lor 0x80 (Z.land r maskx))]
  else if r <=? 0xFFFF then
    [byte_of (Z.lor 0xE0 (Z.shiftr r 12));
     byte_of (Z.lor 0x80 (Z.land (Z.shiftr r 6) maskx));
     byte_of (Z.lor 0x80 (Z.land r maskx))]
  else
    [byte_of (Z.lor 0xF0 (Z.shiftr r 18));
     byte_of (Z.lor 0x80 (Z.land (Z.shiftr r 12) maskx));
     byte_of (Z.lor 0x80 (Z.land (Z.shiftr r 6) maskx));
     byte_of (Z.lor 0x80 (Z.land r maskx))].

Definition ValidRune (r : Z) : bool :=
  ((0 <=? r) && (r <? surrogateMin)) || ((surrogateMax <? r) && (r <=? MaxRune)).

(** The conversion [string(r)] of a rune: its UTF-8 encoding, and the
    encoding of [RuneError] for a value that is not a valid scalar. *)
Definition string_of_rune (r : Z) : bytes :=
  if ValidRune r then encodeValid r else encodeValid RuneError.

End utf8.


Module strconv.

(** The two errors of package strconv. *)
Inductive NumError := ErrSyntax | ErrRange.

Definition digit_byte (d : Z) : ascii := ascii_of_N (Z.to_N (48 + d)).

Fixpoint formatBits (fuel : nat) (u : Z) (acc : bytes) : bytes :=
  let acc' := digit_byte (u mod 10) :: acc in
  match fuel with
  | O => acc'
  | S fuel' => if u <? 10 then acc' else formatBits fuel' (u / 10) acc'
  end.

(** [strconv.Itoa]: the decimal text of [i], with a leading '-' when
    negative. *)
Definition Itoa (i : Z) : bytes :=
  if i <? 0 then "-"%char :: formatBits (Z.to_nat (Z.log2 (- i))) (- i) []
  else formatBits (Z.to_nat (Z.log2 i)) i [].

Definition maxUint64 : Z := 2 ^ 64 - 1.

(** The digit loop of [strconv.ParseUint] for base 10 and 64 bits.  A
    letter is a digit of a larger base and any other byte is no digit:
    both are syntax errors. *)
Fixpoint ParseUint_loop (s : bytes) (n : Z) : Z * option NumError :=
  match s with
  | [] => (n, None)
  | c :: s' =>
    let c := byteZ c in
    if (48 <=? c) && (c <=? 57) then
      let d := c - 48 in
      if maxUint64 / 10 + 1 <=? n then (maxUint64, Some ErrRange)
      else
        let n1 := n * 10 + d in
        if maxUint64 <? n1 then (maxUint64, Some ErrRange)
        else ParseUint_loop s' n1
    else (0, Some ErrSyntax)
  end.

Definition ParseUint (s : bytes) : Z * option NumError :=
  match s with
  | [] => (0, Some ErrSyntax)
  | _ => ParseUint_loop s 0
  end.

(** [strconv.ParseInt(s, 10, 0)] where [int] has 64 bits. *)
Definition ParseInt (s : bytes) : Z * option NumError :=
  match s with
  | [] => (0, Some ErrSyntax)
  | c :: s' =>
    let neg := Ascii.eqb c "-" in
    let s1 := if Ascii.eqb c "+" then s' else if neg then s' else s in
    let '(un, err) := ParseUint s1 in
    match err with
    | Some ErrSyntax => (0, err)
    | _ =>
      let cutoff := 2 ^ 63 in
      if negb neg && (cutoff <=? un) then (cutoff - 1, Some ErrRange)
      else if neg && (cutoff <? un) then (- cutoff, Some ErrRange)
      else ((if neg then - un else un), None)
    end
  end.

(** The fast path of [strconv.Atoi] for short inputs. *)
Fixpoint Atoi_fast_loop (s : bytes) (n : Z) : Z * option NumError :=
  match s with
  | [] => (n, None)
  | ch :: s' =>
    let ch := (byteZ ch - 48) mod 256 in
    if 9 <? ch then (0, Some ErrSyntax)
    else Atoi_fast_loop s' (n * 10 + ch)
  end.

(** [strconv.Atoi] on a platform whose [int] has 64 bits: the value and
    the error, [None] for success. *)
Definition Atoi (s : bytes) : Z * option NumError :=
  let sLen := length s in
  if (0 <? sLen)%nat && (sLen <? 19)%nat then
    match s with
    | [] => (0, Some ErrSyntax)
    | c :: s' =>
      let signed := Ascii.eqb c "-" || Ascii.eqb c "+" in
      let s1 := if signed then s' else s in
      if signed && (length s1 <? 1)%nat then (0, Some ErrSyntax)
      else
        let '(n, err) := Atoi_fast_loop s1 0 in
        match err with
        | Some _ => (0, err)
        | None => ((if Ascii.eqb c "-" then - n else n), None)
        end
    end
  else ParseInt s.

End strconv.

(** ** Package parser: the lexer *)

Module parser.

Inductive tokenType :=
| literal
| replacement
| transformer
| pluralNumeric
| pluralRange
| pluralOther
| pluralTranslationStart
| pluralTranslationEnd
| pluralCount
| errTok.

#[global] Instance tokenType_eq_dec : EqDecision tokenType.
Proof. solve_decision. Defined.

Definition eof : Z := -1.

Definition lowercase : bytes := $"abcdefghijklmnopqrstuvwxyz".
Definition uppercase : bytes := $"ABCDEFGHIJKLMNOPQRSTUVWXYZ".
Definition digits : bytes := $"0123456789".
Definition spaces : bytes := [" "; "009"; "010"; " "]%char.

Record Token := { TokenType : tokenType; Data : bytes }.

Record lexer := {
  input : bytes;        (* the string being scanned *)
  start : nat;          (* start position of this item *)
  pos : nat;            (* current position in the input *)
  width : nat;          (* width of last rune read from input *)
  tokens : list Token   (* slice of tokens *)
}.

Definition set_start (l : lexer) (v : nat) : lexer :=
  {| input := input l; start := v; pos := pos l; width := width l; tokens := tokens l |}.
Definition set_pos (l : lexer) (v : nat) : lexer :=
  {| input := input l; start := start l; pos := v; width := width l; tokens := tokens l |}.
Definition set_width (l : lexer) (v : nat) : lexer :=
  {| input := input l; start := start l; pos := pos l; width := v; tokens := tokens l |}.
Definition set_tokens (l : lexer) (v : list Token) : lexer :=
  {| input := input l; start := start l; pos := pos l; width := width l; tokens := v |}.

(** The states of the lexer: the six functions of type [lexerStateFn];
    the [nil] state is [None]. *)
Inductive lexerStateFn :=
| state_lexLiteral
| state_lexerPlaceholder
| state_lexerTransformer
| state_lexerPluralArgs
| state_lexerPluralNumericArg
| state_lexerPluralTranslation.

(** [strings.ContainsRune(valid, r)] for a set [valid] of ASCII
    characters: a rune below [utf8.RuneSelf] is searched as a byte; the
    error rune is found only in a string that has an invalid encoding, an
    invalid rune (such as [eof]) is never found, and the encoding of any
    other rune starts with a byte that is not ASCII. *)
Definition ContainsRune (valid : bytes) (r : Z) : bool :=
  if (0 <=? r) && (r <? utf8.RuneSelf) then existsb (fun c => byteZ c =? r) valid
  else false.

(** collect the current data as a new token on the tokens slice. *)
Definition collect (t : tokenType) (l : lexer) : lexer :=
  if (start l =? pos l)%nat then l
  else
    set_start
      (set_tokens l (tokens l ++ [{| TokenType := t; Data := slice (input l) (start l) (pos l) |}]))
      (pos l).

Definition data (l : lexer) : bytes := slice (input l) (start l) (pos l).

Definition next (l : lexer) : Z * lexer :=
  if (length (input l) <=? pos l)%nat then (eof, set_width l 0)
  else
    let '(r, w) := utf8.DecodeRuneInString (drop (pos l) (input l)) in
    (r, set_pos (set_width l w) (pos l + w)).

Definition backup (l : lexer) : lexer := set_pos l (pos l - width l).

Definition peek (l : lexer) : Z * lexer :=
  let '(r, l) := next l in (r, backup l).

Definition ignore (l : lexer) : lexer := set_start l (pos l).

(** accept consumes the next rune if it's from the valid set. *)
Definition accept (valid : bytes) (l : lexer) : bool * lexer :=
  let '(r, l) := next l in
  if ContainsRune valid r then (true, l) else (false, backup l).

Fixpoint acceptRun_loop (fuel : nat) (valid : bytes) (l : lexer) : option lexer :=
  match fuel with
  | O => None
  | S fuel' =>
    let '(r, l) := next l in
    if ContainsRune valid r then acceptRun_loop fuel' valid l else Some l
  end.

(** The fuel of a loop that reads at least one rune per round: the number
    of bytes left, and one round to meet the end of the input. *)
Definition rest_fuel (l : lexer) : nat := S (length (input l) - pos l).

(** acceptRun consumes a run of runes from the valid set. *)
Definition acceptRun (valid : bytes) (l : lexer) : option lexer :=
  l ← acceptRun_loop (rest_fuel l) valid l;
  Some (backup l).

Section Lexer.

(** Whether standard output is a terminal, [term.IsTerminal] in
    [lexer.error]: the one fact of the environment the lexer reads. *)
Variable isTerminal : bool.

Definition esc : ascii := "027"%char.

Definition error (msg : bytes) (l : lexer) : lexer :=
  let dataSample := slice (input l) 0 (pos l) in
  let dataSample :=
    if isTerminal && (0 <? length dataSample)%nat then
      slice dataSample 0 (start l) ++ esc :: $"[4m" ++ esc :: $"[1;31m" ++
      slice dataSample (start l) (pos l) ++ esc :: $"[0m"
    else dataSample in
  let errorMsg :=
    msg ++ $" at position " ++ strconv.Itoa (Z.of_nat (pos l)) ++ $" (" ++ dataSample ++ $")" in
  set_start (set_tokens l (tokens l ++ [{| TokenType := errTok; Data := errorMsg |}])) (pos l).

Definition rune (c : ascii) : Z := byteZ c.

Fixpoint lexLiteral_loop (fuel : nat) (l : lexer) : option (option lexerStateFn * lexer) :=
  match fuel with
  | O => None
  | S fuel' =>
    let '(r, l) := peek l in
    if r =? eof then Some (None, collect literal l)
    else
      let '(r, l) := peek l in
      if r =? rune ":" then Some (Some state_lexerPlaceholder, collect literal l)
      else
        (* Check if we are dealing with an escape character that escapes the : sign. *)
        let '(r, l) := peek l in
        if r =? rune "\" then
          let '(_, l) := next l in
          (* Check if the next character is a : sign, if so we ignore it. *)
          let '(r, l) := peek l in
          let l := if r =? rune ":" then snd (next l) else l in
          lexLiteral_loop fuel' l
        else
          let '(_, l) := next l in
          lexLiteral_loop fuel' l
  end.

Definition lexLiteral (l : lexer) : option (option lexerStateFn * lexer) :=
  lexLiteral_loop (rest_fuel l) l.

Definition lexerPlaceholder (l : lexer) : option (option lexerStateFn * lexer) :=
  let '(_, l) := next l in (* Collect the ':' *)
  let '(ok, l) := accept lowercase l in
  if negb ok then
    (* We are not dealing with a placeholder but a normal : sign. *)
    Some (Some state_lexLiteral, l)
  else
    let l := backup l in
    let l := ignore l in (* Ignore the ':' *)
    l ← acceptRun lowercase l;
    let l := collect replacement l in
    (* Check if we need to lex a transformer. *)
    let '(r, l) := peek l in
    if r =? rune "|" then Some (Some state_lexerTransformer, l)
    else Some (Some state_lexLiteral, l).

Definition lexerTransformer (l : lexer) : option (option lexerStateFn * lexer) :=
  let '(r, l) := peek l in
  if negb (r =? rune "|") then Some (Some state_lexLiteral, l)
  else
    let '(_, l) := next l in (* Collect the '|' and ignore it. *)
    let l := ignore l in
    let '(ok, l) := accept lowercase l in
    if negb ok then
      (* Lex the invalid character. *)
      let '(_, l) := next l in
      Some (None, error $"expected lowercase transformer name" l)
    else
      l ← acceptRun lowercase l;
      (* Check what kind of transformer we are dealing with. *)
      let transformerType := data l in
      if bool_decide (transformerType = $"plural") then
        let '(r, l) := peek l in
        if negb (r =? rune "(") then
          Some (None, error $"expected '(' after plural transformer" l)
        else
          let l := collect transformer l in
          let '(_, l) := next l in (* Collect the '(' *)
          Some (Some state_lexerPluralArgs, l)
      else if bool_decide (transformerType = $"capitalize")
              || bool_decide (transformerType = $"replace") then
        let l := collect transformer l in
        (* We can chain transformers, so we need to check if there is another transformer. *)
        Some (Some state_lexerTransformer, l)
      else
        Some (None, error $"unknown transformer" l).

(** [strings.HasPrefix] *)
Fixpoint HasPrefix (s prefix : bytes) : bool :=
  match prefix, s with
  | [], _ => true
  | p :: prefix', c :: s' => Ascii.eqb c p && HasPrefix s' prefix'
  | _ :: _, [] => false
  end.

Fixpoint lexerPluralArgs_loop (fuel : nat) (l : lexer) : option (option lexerStateFn * lexer) :=
  match fuel with
  | O => None
  | S fuel' =>
    (* Ignore all whitespace characters between args. *)
    l ← acceptRun spaces l;
    let l := ignore l in
    (* There are no more arguments. *)
    let '(r, l) := peek l in
    if r =? rune ")" then
      let '(_, l) := next l in (* Collect the ')' *)
      let l := ignore l in
      (* We can chain transformers, so we need to check if there is another transformer. *)
      Some (Some state_lexerTransformer, l)
    else
      (* Check if we are dealing with a number or with other. *)
      let '(r, l) := peek l in
      if r =? rune "=" then Some (Some state_lexerPluralNumericArg, l)
      else
        (* Check if we are dealing with 'other'. *)
        if HasPrefix (drop (pos l) (input l)) $"other" then
          let l := Nat.iter 5 (fun l => snd (next l)) l in
          let l := collect pluralOther l in
          Some (Some state_lexerPluralTranslation, l)
        else
          let '(x, l) := next l in
          if x =? eof then Some (None, error $"unexpected EOF" l)
          else lexerPluralArgs_loop fuel' l
  end.

Definition lexerPluralArgs (l : lexer) : option (option lexerStateFn * lexer) :=
  lexerPluralArgs_loop (rest_fuel l) l.

Definition lexerPluralNumericArg (l : lexer) : option (option lexerStateFn * lexer) :=
  let '(_, l) := next l in (* Collect the '=' *)
  let l := ignore l in
  (* Expect a number (of at least 1 digit). *)
  let '(ok, l) := accept digits l in
  if negb ok then Some (None, error $"expected number after '='" l)
  else
    l ← acceptRun digits l; (* Collect the rest of the digits. *)
    let l := collect pluralNumeric l in
    (* Check if we are dealing with a range. *)
    let '(r, l) := peek l in
    if r =? rune "-" then
      let '(_, l) := next l in (* Collect the '-' *)
      let l := collect pluralRange l in
      (* Expect a number (of at least 1 digit). *)
      let '(ok, l) := accept digits l in
      if negb ok then Some (None, error $"expected number after '-'" l)
      else
        l ← acceptRun digits l; (* Collect the rest of the digits. *)
        let l := collect pluralNumeric l in
        Some (Some state_lexerPluralTranslation, l)
    else Some (Some state_lexerPluralTranslation, l).

Fixpoint lexerPluralTranslation_loop (fuel : nat) (l : lexer)
  : option (option lexerStateFn * lexer) :=
  match fuel with
  | O => None
  | S fuel' =>
    (* Check if we have reached the end of the translation. *)
    let '(r, l) := peek l in
    if r =? rune "}" then
      (* Collect the current buffer as a literal. *)
      let l := collect literal l in
      let '(_, l) := next l in (* Collect the '}' *)
      let l := collect pluralTranslationEnd l in
      (* Continue and try to parse the next plural argument. *)
      Some (Some state_lexerPluralArgs, l)
    else
      let '(n, l) := next l in
      if n =? eof then Some (None, error $"unexpected EOF" l)
      else if n =? rune "#" then
        let l := backup l in
        let l := collect literal l in
        let '(_, l) := next l in
        let l := collect pluralCount l in
        lexerPluralTranslation_loop fuel' l
      else lexerPluralTranslation_loop fuel' l
  end.

Definition lexerPluralTranslation (l : lexer) : option (option lexerStateFn * lexer) :=
  (* Collect all whitespace chars and ignore them. *)
  (* Now we expect the translation. *)
  l ← acceptRun spaces l;
  let l := ignore l in
  let '(r, l) := peek l in
  if negb (r =? rune "{") then
    Some (None, error $"expected '{' for plural translation start" l)
  else
    let '(_, l) := next l in (* Collect the '{' *)
    let l := collect pluralTranslationStart l in
    (* Collect the translation. *)
    lexerPluralTranslation_loop (rest_fuel l) l.

(** Calling a state function. *)
Definition call (state : lexerStateFn) (l : lexer) : option (option lexerStateFn * lexer) :=
  match state with
  | state_lexLiteral => lexLiteral l
  | state_lexerPlaceholder => lexerPlaceholder l
  | state_lexerTransformer => lexerTransformer l
  | state_lexerPluralArgs => lexerPluralArgs l
  | state_lexerPluralNumericArg => lexerPluralNumericArg l
  | state_lexerPluralTranslation => lexerPluralTranslation l
  end.

(** [for state := lexLiteral; state != nil; { state = state(l) }] *)
Fixpoint run (fuel : nat) (state : option lexerStateFn) (l : lexer) : option lexer :=
  match state with
  | None => Some l
  | Some st =>
    match fuel with
    | O => None
    | S fuel' =>
      match call st l with
      | None => None
      | Some (state', l') => run fuel' state' l'
      end
    end
  end.

(** What [runLexer] returns: the tokens, or the text of the error. *)
Inductive lexResult :=
| LexOk (toks : list Token)
| LexErr (msg : bytes).

(** Of any three state functions called in a row one reads a byte, so
    three calls for each byte of the input and two more are enough. *)
Definition run_fuel (input : bytes) : nat := (3 * length input + 2)%nat.

Definition runLexer (input : bytes) : option lexResult :=
  let l := {| input := input; start := 0; pos := 0; width := 0; tokens := [] |} in
  l ← run (run_fuel input) (Some state_lexLiteral) l;
  (* Check if the last state was an error. *)
  match last (tokens l) with
  | Some t =>
    if bool_decide (TokenType t = errTok) then Some (LexErr ($"lexer error: " ++ Data t))
    else Some (LexOk (tokens l))
  | None => Some (LexOk (tokens l))
  end.

End Lexer.

(** ** Package parser: the token iterator *)

(** iterator wraps a slice and provides iteration methods.  It is used
    at the type [Token] only. *)
Record iterator := { items : list Token; index : Z }.

(** newIterator creates a new iterator *)
Definition newIterator (items : list Token) : iterator :=
  {| items := items; index := -1 |}.

Definition item_at (it : iterator) (i : Z) : option Token := items it !! Z.to_nat i.

(** [Peek]: the pair [(item, true)] is [Some item], and the zero value
    with [false] is [None]. *)
Definition Peek (it : iterator) : option Token :=
  if (index it + 1 <? 0) || (Z.of_nat (length (items it)) <=? index it + 1) then None
  else item_at it (index it + 1).

(** Next advances to the next item and returns it *)
Definition Next (it : iterator) : option Token * iterator :=
  if Z.of_nat (length (items it)) <=? index it + 1 then (None, it)
  else
    let it := {| items := items it; index := index it + 1 |} in (* Move to next item *)
    (item_at it (index it), it).

(** HasNext checks if there are more items left *)
Definition HasNext (it : iterator) : bool :=
  index it + 1 <? Z.of_nat (length (items it)).

(** Current returns the current item without advancing *)
Definition Current (it : iterator) : option Token :=
  if (index it <? 0) || (Z.of_nat (length (items it)) <=? index it) then None
  else item_at it (index it).

(** Reset resets the iterator to the beginning *)
Definition Reset (it : iterator) : iterator := {| items := items it; index := -1 |}.

(** ** Package parser: the parser *)

Inductive OpPluralCaseType :=
| OpPluralCaseTypeRange
| OpPluralCaseTypeExact
| OpPluralCaseOther.

#[global] Instance OpPluralCaseType_eq_dec : EqDecision OpPluralCaseType.
Proof. solve_decision. Defined.

(** The operations and transformers that the slices of type [[]any]
    hold. *)
Inductive op :=
| LiteralOp (Value : bytes)
| ReplacementOp (Key : bytes) (Transformers : list transformer_)
| PluralCountOp
with transformer_ :=
| CapitalizeTransformer
| ReplaceTransformer
| PluralTransformer (Cases : list PluralCase) (Other : list op)
with PluralCase :=
| Build_PluralCase (Type_ : OpPluralCaseType) (A B : Z)
    (* Ops is a list of operations that should be applied if the case is true.
       This can be a list of LiteralOp and PluralCountOp. *)
    (Ops : list op).

Definition Type_ (c : PluralCase) : OpPluralCaseType := let '(Build_PluralCase t _ _ _) := c in t.
Definition A (c : PluralCase) : Z := let '(Build_PluralCase _ a _ _) := c in a.
Definition B (c : PluralCase) : Z := let '(Build_PluralCase _ _ b0 _) := c in b0.
Definition Ops_of (c : PluralCase) : list op := let '(Build_PluralCase _ _ _ ops) := c in ops.

Record Message := { Ops : list op }.

(** The errors that [Parse] returns, one constructor per [fmt.Errorf]. *)
Inductive error_ :=
| ErrLexer (msg : bytes)
    (* the error of runLexer *)
| ErrParseTransformers (err : error_)
    (* "unable to parse transformers: %w" *)
| ErrParsePluralCase (err : error_)
    (* "unable to parse plural case: %w" *)
| ErrMissingOther
    (* "missing 'other' case for plural transformer" *)
| ErrConvertA (data : bytes) (err : strconv.NumError)
    (* "unable to convert A value %q to int: %w" *)
| ErrConvertB (data : bytes) (err : strconv.NumError)
    (* "unable to convert B value %q to int: %w" *)
| ErrUnexpectedEndWithType (t : tokenType)
    (* "unexpected end of plural case with type %s" *)
| ErrExpectedTranslationStart (t : tokenType)
    (* "expected translation start token, got %s" *)
| ErrUnexpectedEnd.
    (* "unexpected end of plural case" *)

(** The outcome of a parsing function: a value, an error, or no fuel
    left. *)
Inductive outcome (T : Type) :=
| Done (v : T)
| Fail (err : error_)
| OutOfFuel.
Arguments Done {T} v.
Arguments Fail {T} err.
Arguments OutOfFuel {T}.

(** The fuel of a loop that takes at least one token per round. *)
Definition tokens_fuel (it : iterator) : nat :=
  S (Z.to_nat (Z.of_nat (length (items it)) - (index it + 1))).

(** First grab the case type and args. *)
Fixpoint parsePluralCase_args (fuel : nat) (pcase : PluralCase) (it : iterator)
  : outcome (option PluralCase * iterator) :=
  match fuel with
  | O => OutOfFuel
  | S fuel' =>
    if negb (HasNext it) then Done (Some pcase, it)
    else
      match Peek it with
      | None => Done (None, it)
      | Some token =>
        if bool_decide (TokenType token = pluralTranslationStart) then Done (Some pcase, it)
        else
          (* The first token could be a numeric or the other keyword. *)
          let r :=
            match TokenType token with
            | pluralNumeric =>
              (* If the type of pcase is range then we have already got the A value,
                 if not we need to set it. *)
              if negb (bool_decide (Type_ pcase = OpPluralCaseTypeRange)) then
                let '(a, err) := strconv.Atoi (Data token) in
                match err with
                | Some e => inl (ErrConvertA (Data token) e)
                | None => inr (Build_PluralCase (Type_ pcase) a (B pcase) (Ops_of pcase))
                end
              else
                let '(b0, err) := strconv.Atoi (Data token) in
                match err with
                | Some e => inl (ErrConvertB (Data token) e)
                | None => inr (Build_PluralCase (Type_ pcase) (A pcase) b0 (Ops_of pcase))
                end
            | pluralRange =>
              inr (Build_PluralCase OpPluralCaseTypeRange (A pcase) (B pcase) (Ops_of pcase))
            | pluralOther =>
              inr (Build_PluralCase OpPluralCaseOther (A pcase) (B pcase) (Ops_of pcase))
            | t => inl (ErrUnexpectedEndWithType t)
            end in
          match r with
          | inl e => Fail e
          | inr pcase =>
            (* Make sure we continue the iterator. *)
            let '(_, it) := Next it in
            parsePluralCase_args fuel' pcase it
          end
      end
  end.

(** Collect all operations until we reach the end of the translation. *)
Fixpoint parsePluralCase_body (fuel : nat) (pcase : PluralCase) (it : iterator)
  : outcome (PluralCase * iterator) :=
  match fuel with
  | O => OutOfFuel
  | S fuel' =>
    if negb (HasNext it) then Done (pcase, it)
    else
      match Next it with
      | (None, _) => Fail ErrUnexpectedEnd
      | (Some token, it) =>
        if bool_decide (TokenType token = pluralTranslationEnd) then Done (pcase, it)
        else
          let pcase :=
            match TokenType token with
            | literal =>
              Build_PluralCase (Type_ pcase) (A pcase) (B pcase)
                (Ops_of pcase ++ [LiteralOp (Data token)])
            | pluralCount =>
              Build_PluralCase (Type_ pcase) (A pcase) (B pcase)
                (Ops_of pcase ++ [PluralCountOp])
            | _ => pcase
            end in
          parsePluralCase_body fuel' pcase it
      end
  end.

(** [parsePluralCase]: the case and the iterator after it; the case is
    [None] where the source returns [nil, nil]. *)
Definition parsePluralCase (it : iterator) : outcome (option PluralCase * iterator) :=
  let pcase := Build_PluralCase OpPluralCaseTypeExact 0 0 [] in
  (* Check if there is a case to parse. *)
  match Peek it with
  | None => Done (None, it)
  | Some peek =>
    if negb (bool_decide (TokenType peek = pluralNumeric))
       && negb (bool_decide (TokenType peek = pluralOther)) then Done (None, it)
    else
      match parsePluralCase_args (tokens_fuel it) pcase it with
      | OutOfFuel => OutOfFuel
      | Fail e => Fail e
      | Done (None, it) => Done (None, it)
      | Done (Some pcase, it) =>
        (* We expect the following token to be an translation opening. *)
        match Next it with
        | (None, it) => Done (None, it)
        | (Some token, it) =>
          if negb (bool_decide (TokenType token = pluralTranslationStart)) then
            Fail (ErrExpectedTranslationStart (TokenType token))
          else
            match parsePluralCase_body (tokens_fuel it) pcase it with
            | OutOfFuel => OutOfFuel
            | Fail e => Fail e
            | Done (pcase, it) => Done (Some pcase, it)
            end
        end
      end
  end.

(** Parse all cases. *)
Fixpoint parseTransformers_cases (fuel : nat) (cases : list PluralCase) (other : list op)
    (it : iterator) : outcome (list PluralCase * list op * iterator) :=
  match fuel with
  | O => OutOfFuel
  | S fuel' =>
    if negb (HasNext it) then Done (cases, other, it)
    else
      match parsePluralCase it with
      | OutOfFuel => OutOfFuel
      | Fail e => Fail (ErrParsePluralCase e)
      | Done (None, it) => Done (cases, other, it)
      | Done (Some pcase, it) =>
        if bool_decide (Type_ pcase = OpPluralCaseOther) then
          parseTransformers_cases fuel' cases (Ops_of pcase) it
        else parseTransformers_cases fuel' (cases ++ [pcase]) other it
      end
  end.

Fixpoint parseTransformers_loop (fuel : nat) (transformers : list transformer_) (it : iterator)
  : outcome (list transformer_ * iterator) :=
  match fuel with
  | O => OutOfFuel
  | S fuel' =>
    if negb (HasNext it) then Done (transformers, it)
    else
      match Peek it with
      | None => Done (transformers, it)
      | Some token =>
        if negb (bool_decide (TokenType token = transformer)) then Done (transformers, it)
        else
          let '(token, it) := Next it in
          let data := match token with Some t => Data t | None => [] end in
          if bool_decide (data = $"capitalize") then
            parseTransformers_loop fuel' (transformers ++ [CapitalizeTransformer]) it
          else if bool_decide (data = $"replace") then
            parseTransformers_loop fuel' (transformers ++ [ReplaceTransformer]) it
          else if bool_decide (data = $"plural") then
            match parseTransformers_cases (tokens_fuel it) [] [] it with
            | OutOfFuel => OutOfFuel
            | Fail e => Fail e
            | Done (cases, other, it) =>
              if (length other =? 0)%nat then Fail ErrMissingOther
              else
                parseTransformers_loop fuel' (transformers ++ [PluralTransformer cases other]) it
            end
          else parseTransformers_loop fuel' transformers it
      end
  end.

Definition parseTransformers (it : iterator) : outcome (list transformer_ * iterator) :=
  parseTransformers_loop (tokens_fuel it) [] it.

Fixpoint Parse_loop (fuel : nat) (msg : Message) (it : iterator) : outcome Message :=
  match fuel with
  | O => OutOfFuel
  | S fuel' =>
    if negb (HasNext it) then Done msg
    else
      match Next it with
      | (None, _) => Done msg
      | (Some token, it) =>
        match TokenType token with
        | literal =>
          Parse_loop fuel' {| Ops := Ops msg ++ [LiteralOp (Data token)] |} it
        | replacement =>
          match parseTransformers it with
          | OutOfFuel => OutOfFuel
          | Fail e => Fail (ErrParseTransformers e)
          | Done (transformers, it) =>
            let replacementOp := ReplacementOp (Data token) transformers in
            Parse_loop fuel' {| Ops := Ops msg ++ [replacementOp] |} it
          end
        | _ => Parse_loop fuel' msg it
        end
      end
  end.

Section Parse.

Variable isTerminal : bool.

Definition Parse (input : bytes) : outcome Message :=
  match runLexer isTerminal input with
  | None => OutOfFuel
  | Some (LexErr msg) => Fail (ErrLexer msg)
  | Some (LexOk tokens) =>
    let it := newIterator tokens in
    let msg := {| Ops := [] |} in
    Parse_loop (tokens_fuel it) msg it
  end.

End Parse.

(** [Message.Raw]: the body of a plural case or of the [other] case. *)
Definition Raw_body (ops : list op) : bytes :=
  concat (map (fun c =>
    match c with
    | LiteralOp v => v
    | PluralCountOp => $"#"
    | ReplacementOp _ _ => []
    end) ops).

Definition Raw_case (c : PluralCase) : bytes :=
  $"=" ++
  (if bool_decide (Type_ c = OpPluralCaseTypeRange)
   then strconv.Itoa (A c) ++ $"-" ++ strconv.Itoa (B c)
   else strconv.Itoa (A c)) ++
  $" " ++ $"{" ++ Raw_body (Ops_of c) ++ $"}".

Definition Raw_transformer (t : transformer_) : bytes :=
  $"|" ++
  match t with
  | CapitalizeTransformer => $"capitalize"
  | ReplaceTransformer => $"replace"
  | PluralTransformer cases other =>
    $"plural" ++ $"(" ++ concat (map Raw_case cases) ++
    (if (0 <? length other)%nat then $" other {" ++ Raw_body other ++ $"}" else []) ++
    $")"
  end.

Definition Raw_op (o : op) : bytes :=
  match o with
  | LiteralOp v => v
  | ReplacementOp key transformers => ($":" ++ key) ++ concat (map Raw_transformer transformers)
  | PluralCountOp => []
  end.

(** [Message.Raw]: what the string builder holds after the loop. *)
Definition Raw (m : Message) : bytes := concat (map Raw_op (Ops m)).

Definition Match (c : PluralCase) (count : Z) : bool :=
  match Type_ c with
  | OpPluralCaseTypeRange => (A c <=? count) && (count <=? B c)
  | OpPluralCaseTypeExact => count =? A c
  | OpPluralCaseOther => false
  end.

End parser.

(** ** Package lingua: the renderer *)

Module lingua.

Import parser.

Module unicode.

Definition MaxASCII : Z := 0x7F.

Section ToUpper.

(** [unicode.To(unicode.UpperCase, r)]: the upper case of a rune that is
    not ASCII, which the standard library reads from its table
    [unicode.CaseRanges]. *)
Variable To_UpperCase : Z → Z.

(** [unicode.ToUpper] *)
Definition ToUpper (r : Z) : Z :=
  if r <=? MaxASCII then
    if (rune "a" <=? r) && (r <=? rune "z") then r - (rune "a" - rune "A") else r
  else To_UpperCase r.

End ToUpper.

End unicode.

Section Format.

Variable To_UpperCase : Z → Z.

(** The case [parser.CapitalizeTransformer] of [Container.format]. *)
Definition capitalize (value : bytes) : bytes :=
  let '(r, size) := utf8.DecodeRuneInString value in
  utf8.string_of_rune (unicode.ToUpper To_UpperCase r) ++ drop size value.

(** The case [parser.ReplaceTransformer]. *)
Definition replace (messages : gmap bytes Message) (value : bytes) : bytes :=
  match messages !! value with
  | Some rep =>
    (* Only allow literals as replacements. *)
    Raw rep
  | None => value
  end.

(** [for _, c := range t.Cases { if c.Match(count) { ops = c.Ops; break } }] *)
Fixpoint matching_ops (cases : list PluralCase) (count : Z) (ops : list op) : list op :=
  match cases with
  | [] => ops
  | c :: cases' => if Match c count then Ops_of c else matching_ops cases' count ops
  end.

(** The operations that the plural transformer renders for [count]. *)
Definition plural_ops (cases : list PluralCase) (other : list op) (count : Z) : list op :=
  let ops := matching_ops cases count [] in
  if (length ops =? 0)%nat then other else ops.

(** What [replacementB] holds after the loop over [ops]. *)
Fixpoint plural_write (ops : list op) (count : Z) (replacementB : bytes) : bytes :=
  match ops with
  | [] => replacementB
  | c :: ops' =>
    match c with
    | LiteralOp v => plural_write ops' count (replacementB ++ v)
    | PluralCountOp => plural_write ops' count (replacementB ++ strconv.Itoa count)
    | ReplacementOp _ _ => plural_write ops' count replacementB
    end
  end.

(** Convert value to int. If that fails we assume 0. *)
Definition plural_count (value : bytes) : Z :=
  let '(count, err) := strconv.Atoi value in
  match err with
  | Some _ => 0
  | None => count
  end.

(** The case [parser.PluralTransformer]. *)
Definition plural (cases : list PluralCase) (other : list op) (value : bytes) : bytes :=
  let count := plural_count value in
  let ops := plural_ops cases other count in
  plural_write ops count [].

(** One round of the loop over [v.Transformers]. *)
Definition transform (messages : gmap bytes Message) (value : bytes) (t : transformer_) : bytes :=
  match t with
  | CapitalizeTransformer => capitalize value
  | ReplaceTransformer => replace messages value
  | PluralTransformer cases other => plural cases other value
  end.

(** The second loop of [Container.format]; [b0] is the string builder.
    The first loop only computes a capacity for the builder and has no
    effect on the result. *)
Fixpoint format_loop (ops : list op) (replacements : gmap bytes bytes)
    (messages : gmap bytes Message) (b0 : bytes) : bytes :=
  match ops with
  | [] => b0
  | t :: ops' =>
    match t with
    | LiteralOp v => format_loop ops' replacements messages (b0 ++ v)
    | ReplacementOp key transformers =>
      match replacements !! key with
      | None =>
        (* If no replacement provided, leave the placeholder as-is. *)
        format_loop ops' replacements messages (b0 ++ ($":" ++ key))
      | Some value =>
        let value := fold_left (transform messages) transformers value in
        format_loop ops' replacements messages (b0 ++ value)
      end
    | PluralCountOp => format_loop ops' replacements messages b0
    end
  end.

Definition format (msg : Message) (replacements : gmap bytes bytes)
    (messages : gmap bytes Message) : bytes :=
  format_loop (Ops msg) replacements messages [].

End Format.

End lingua.


(** * Definitions used in the statements and proofs *)

Import parser lingua.

(** The decoder without bit operations. *)
Definition decode_arith (s : bytes) : Z * nat :=
  match s with
  | [] => (utf8.RuneError, 0%nat)
  | c0 :: s' =>
    let s0 := byteZ c0 in
    if s0 <? 0x80 then (s0, 1%nat)
    else if (s0 <? 0xC2) || (0xF4 <? s0) then (utf8.RuneError, 1%nat)
    else
      match s' with
      | [] => (utf8.RuneError, 1%nat)
      | c1 :: s'' =>
        let s1 := byteZ c1 in
        let lo := if s0 =? 0xE0 then 0xA0 else if s0 =? 0xF0 then 0x90 else 0x80 in
        let hi := if s0 =? 0xED then 0x9F else if s0 =? 0xF4 then 0x8F else 0xBF in
        if (s1 <? lo) || (hi <? s1) then (utf8.RuneError, 1%nat)
        else if s0 <? 0xE0 then ((s0 mod 32) * 64 + s1 mod 64, 2%nat)
        else
          match s'' with
          | [] => (utf8.RuneError, 1%nat)
          | c2 :: s''' =>
            let s2 := byteZ c2 in
            if (s2 <? 0x80) || (0xBF <? s2) then (utf8.RuneError, 1%nat)
            else if s0 <? 0xF0 then
              ((s0 mod 16) * 4096 + (s1 mod 64) * 64 + s2 mod 64, 3%nat)
            else
              match s''' with
              | [] => (utf8.RuneError, 1%nat)
              | c3 :: _ =>
                let s3 := byteZ c3 in
                if (s3 <? 0x80) || (0xBF <? s3) then (utf8.RuneError, 1%nat)
                else ((s0 mod 8) * 262144 + (s1 mod 64) * 4096 + (s2 mod 64) * 64
                      + s3 mod 64, 4%nat)
              end
          end
      end
  end.

(** A byte that is not ASCII. *)
Definition high (c : ascii) : Prop := 0x80 ≤ byteZ c.

(** The first case of [cases] that matches [count], in declared order. *)
Fixpoint first_match (cases : list PluralCase) (count : Z) : option PluralCase :=
  match cases with
  | [] => None
  | c :: cases' => if Match c count then Some c else first_match cases' count
  end.

(** An upper-case table for the Latin-1 letters, an excerpt of
    [unicode.CaseRanges] with which the statements about the capitalize
    transformer are tried out. *)
Definition latin1_To_UpperCase (r : Z) : Z :=
  if (0xE0 <=? r) && (r <=? 0xFE) && negb (r =? 0xF7) then r - 32
  else if r =? 0xFF then 0x178
  else if r =? 0xB5 then 0x39C
  else r.

(** ** The lexer seen from its cursor *)

(** [view l pend rest toks]: the lexer [l] has read and emitted some
    prefix of its input, holds [pend] between [start] and [pos], has
    [rest] left to read, and has emitted the tokens [toks]. *)
Definition view (l : lexer) (pend rest : bytes) (toks : list Token) : Prop :=
  ∃ pre, input l = pre ++ pend ++ rest ∧ start l = length pre ∧
         pos l = (length pre + length pend)%nat ∧ tokens l = toks.

(** The rune that [peek] returns when [rest] is left. *)
Definition peek_rune (rest : bytes) : Z :=
  match rest with
  | [] => eof
  | _ => (utf8.DecodeRuneInString rest).1
  end.

(** The number of leading bytes of [rest] that belong to [valid]. *)
Fixpoint span_len (valid rest : bytes) : nat :=
  match rest with
  | c :: rest' => if ContainsRune valid (byteZ c) then S (span_len valid rest') else 0%nat
  | [] => 0%nat
  end.

(** Whether the first byte of [rest] is the ASCII character [z]. *)
Definition head_is (z : Z) (rest : bytes) : bool :=
  match rest with
  | c :: _ => byteZ c =? z
  | [] => false
  end.

(** Whether [accept valid] reads a byte of [rest]. *)
Definition accepts (valid rest : bytes) : bool :=
  match rest with
  | c :: _ => ContainsRune valid (byteZ c)
  | [] => false
  end.

(** The token that [collect] emits for the pending text, if any. *)
Definition emit (t : tokenType) (pend : bytes) : list Token :=
  if bool_decide (pend = []) then [] else [{| TokenType := t; Data := pend |}].

(** ** What each state function does, byte by byte *)

(** The result of one state function: an error token was emitted and
    lexing stops, or the tokens [new] were emitted and lexing goes on in
    [st] with [pend] pending and [rest] left. *)
Inductive step_result :=
| StepErr
| StepTo (new : list Token) (st : option lexerStateFn) (pend rest : bytes).

Definition prepend (toks : list Token) (r : step_result) : step_result :=
  match r with
  | StepErr => StepErr
  | StepTo new st pend rest => StepTo (toks ++ new) st pend rest
  end.

Definition tok (t : tokenType) (d : bytes) : Token := {| TokenType := t; Data := d |}.

(** The number of bytes that [lexLiteral] reads: up to the first colon
    that no backslash precedes. *)
Fixpoint scan_lit (rest : bytes) : nat :=
  match rest with
  | [] => 0%nat
  | c :: rest' =>
    if byteZ c =? rune ":" then 0%nat
    else if byteZ c =? rune "\" then
      match rest' with
      | c' :: rest'' =>
        if byteZ c' =? rune ":" then S (S (scan_lit rest'')) else S (scan_lit rest')
      | [] => 1%nat
      end
    else S (scan_lit rest')
  end.

Definition step_lexLiteral (pend rest : bytes) : step_result :=
  let k := scan_lit rest in
  StepTo (emit literal (pend ++ take k rest))
    (match drop k rest with [] => None | _ => Some state_lexerPlaceholder end)
    [] (drop k rest).

(** [rest] is what follows the colon. *)
Definition step_lexerPlaceholder (pend rest : bytes) : step_result :=
  if accepts lowercase rest then
    let k := span_len lowercase rest in
    StepTo [tok replacement (take k rest)]
      (Some (if head_is (rune "|") (drop k rest) then state_lexerTransformer
             else state_lexLiteral))
      [] (drop k rest)
  else StepTo [] (Some state_lexLiteral) (pend ++ $":") rest.

Definition step_lexerTransformer (pend rest : bytes) : step_result :=
  match rest with
  | c :: rest1 =>
    if byteZ c =? rune "|" then
      if accepts lowercase rest1 then
        let k := span_len lowercase rest1 in
        let name := take k rest1 in
        let rest2 := drop k rest1 in
        if bool_decide (name = $"plural") then
          match rest2 with
          | c2 :: rest3 =>
            if byteZ c2 =? rune "(" then
              StepTo [tok transformer name] (Some state_lexerPluralArgs) [c2] rest3
            else StepErr
          | [] => StepErr
          end
        else if bool_decide (name = $"capitalize") || bool_decide (name = $"replace") then
          StepTo [tok transformer name] (Some state_lexerTransformer) [] rest2
        else StepErr
      else StepErr
    else StepTo [] (Some state_lexLiteral) pend rest
  | [] => StepTo [] (Some state_lexLiteral) pend rest
  end.

Fixpoint step_lexerPluralArgs (rest : bytes) : step_result :=
  match rest with
  | [] => StepErr
  | c :: rest' =>
    if ContainsRune spaces (byteZ c) then step_lexerPluralArgs rest'
    else if byteZ c =? rune ")" then StepTo [] (Some state_lexerTransformer) [] rest'
    else if byteZ c =? rune "=" then StepTo [] (Some state_lexerPluralNumericArg) [] rest
    else if HasPrefix rest $"other" then
      StepTo [tok pluralOther $"other"] (Some state_lexerPluralTranslation) [] (drop 5 rest)
    else step_lexerPluralArgs rest'
  end.

(** [rest] is what follows the equals sign. *)
Definition step_lexerPluralNumericArg (rest : bytes) : step_result :=
  if accepts digits rest then
    let k := span_len digits rest in
    let rest1 := drop k rest in
    match rest1 with
    | c :: rest2 =>
      if byteZ c =? rune "-" then
        if accepts digits rest2 then
          let k2 := span_len digits rest2 in
          StepTo [tok pluralNumeric (take k rest); tok pluralRange [c];
                  tok pluralNumeric (take k2 rest2)]
            (Some state_lexerPluralTranslation) [] (drop k2 rest2)
        else StepErr
      else StepTo [tok pluralNumeric (take k rest)] (Some state_lexerPluralTranslation) [] rest1
    | [] => StepTo [tok pluralNumeric (take k rest)] (Some state_lexerPluralTranslation) [] rest1
    end
  else StepErr.

(** The body of a plural case, after the opening brace. *)
Fixpoint step_body (pend rest : bytes) : step_result :=
  match rest with
  | [] => StepErr
  | c :: rest' =>
    if byteZ c =? rune "}" then
      StepTo (emit literal pend ++ [tok pluralTranslationEnd [c]])
        (Some state_lexerPluralArgs) [] rest'
    else if byteZ c =? rune "#" then
      prepend (emit literal pend ++ [tok pluralCount [c]]) (step_body [] rest')
    else step_body (pend ++ [c]) rest'
  end.

Definition step_lexerPluralTranslation (rest : bytes) : step_result :=
  match drop (span_len spaces rest) rest with
  | c :: rest' =>
    if byteZ c =? rune "{" then
      prepend [tok pluralTranslationStart [c]] (step_body [] rest')
    else StepErr
  | [] => StepErr
  end.

Definition step (st : lexerStateFn) (pend rest : bytes) : step_result :=
  match st with
  | state_lexLiteral => step_lexLiteral pend rest
  | state_lexerPlaceholder => step_lexerPlaceholder pend (tail rest)
  | state_lexerTransformer => step_lexerTransformer pend rest
  | state_lexerPluralArgs => step_lexerPluralArgs rest
  | state_lexerPluralNumericArg => step_lexerPluralNumericArg (tail rest)
  | state_lexerPluralTranslation => step_lexerPluralTranslation rest
  end.

(** The states that are entered on a particular character only. *)
Definition config_ok (st : lexerStateFn) (rest : bytes) : Prop :=
  match st with
  | state_lexerPlaceholder => head_is (rune ":") rest = true
  | state_lexerPluralNumericArg => head_is (rune "=") rest = true
  | _ => True
  end.

(** The tokens of the whole run from a state, [Some None] for a lexing
    error and [None] when the fuel runs out. *)
Fixpoint lex_from (fuel : nat) (st : option lexerStateFn) (pend rest : bytes)
  : option (option (list Token)) :=
  match st with
  | None => Some (Some [])
  | Some st =>
    match fuel with
    | O => None
    | S fuel' =>
      match step st pend rest with
      | StepErr => Some None
      | StepTo new st' pend' rest' =>
        match lex_from fuel' st' pend' rest' with
        | Some (Some toks) => Some (Some (new ++ toks))
        | r => r
        end
      end
    end
  end.

(** What a state function returns and leaves behind, against its
    byte-level description. *)
Definition step_post (res : option (option lexerStateFn * lexer)) (toks : list Token)
    (sr : step_result) : Prop :=
  match sr with
  | StepErr =>
    ∃ l' toks' text, res = Some (None, l') ∧ tokens l' = toks' ++ [tok errTok text]
  | StepTo new st' pend' rest' =>
    ∃ l', res = Some (st', l') ∧ view l' pend' rest' (toks ++ new)
  end.

(** The rank of a state in the termination measure of the lexer: how
    many state functions can follow it before a byte is read. *)
Definition rank (st : lexerStateFn) : nat :=
  match st with
  | state_lexerTransformer => 2
  | state_lexLiteral => 1
  | state_lexerPluralArgs => 1
  | _ => 0
  end.

Definition measure (st : option lexerStateFn) (rest : bytes) : nat :=
  match st with
  | Some st => (3 * length rest + rank st + 1)%nat
  | None => 0%nat
  end.

Definition not_err (t : Token) : Prop := TokenType t ≠ errTok.

(** The tokens that [runLexer] returns, [None] for a lexing error. *)
Definition lex (input : bytes) : option (list Token) :=
  match lex_from (run_fuel input) (Some state_lexLiteral) [] input with
  | Some r => r
  | None => None
  end.

(** ** The parser seen from the tokens that are left *)

(** [iview it todo]: the iterator [it] has [todo] left to return. *)
Definition iview (it : iterator) (todo : list Token) : Prop :=
  ∃ seen, items it = seen ++ todo ∧ index it = Z.of_nat (length seen) - 1.

Definition set_Type (pcase : PluralCase) (t : OpPluralCaseType) : PluralCase :=
  Build_PluralCase t (A pcase) (B pcase) (Ops_of pcase).
Definition set_A (pcase : PluralCase) (a : Z) : PluralCase :=
  Build_PluralCase (Type_ pcase) a (B pcase) (Ops_of pcase).
Definition set_B (pcase : PluralCase) (b0 : Z) : PluralCase :=
  Build_PluralCase (Type_ pcase) (A pcase) b0 (Ops_of pcase).
Definition add_op (pcase : PluralCase) (o : op) : PluralCase :=
  Build_PluralCase (Type_ pcase) (A pcase) (B pcase) (Ops_of pcase ++ [o]).

(** What one token of the head of a plural case does to the case. *)
Definition arg_token (pcase : PluralCase) (token : Token) : error_ + PluralCase :=
  match TokenType token with
  | pluralNumeric =>
    if negb (bool_decide (Type_ pcase = OpPluralCaseTypeRange)) then
      let '(a, err) := strconv.Atoi (Data token) in
      match err with
      | Some e => inl (ErrConvertA (Data token) e)
      | None => inr (set_A pcase a)
      end
    else
      let '(b0, err) := strconv.Atoi (Data token) in
      match err with
      | Some e => inl (ErrConvertB (Data token) e)
      | None => inr (set_B pcase b0)
      end
  | pluralRange => inr (set_Type pcase OpPluralCaseTypeRange)
  | pluralOther => inr (set_Type pcase OpPluralCaseOther)
  | t => inl (ErrUnexpectedEndWithType t)
  end.

(** What one token of the body of a plural case does to the case. *)
Definition body_token (pcase : PluralCase) (token : Token) : PluralCase :=
  match TokenType token with
  | literal => add_op pcase (LiteralOp (Data token))
  | pluralCount => add_op pcase PluralCountOp
  | _ => pcase
  end.

Fixpoint p_args (pcase : PluralCase) (todo : list Token)
  : outcome (option PluralCase * list Token) :=
  match todo with
  | [] => Done (Some pcase, [])
  | token :: todo' =>
    if bool_decide (TokenType token = pluralTranslationStart) then Done (Some pcase, todo)
    else
      match arg_token pcase token with
      | inl e => Fail e
      | inr pcase => p_args pcase todo'
      end
  end.

Fixpoint p_body (pcase : PluralCase) (todo : list Token) : outcome (PluralCase * list Token) :=
  match todo with
  | [] => Done (pcase, [])
  | token :: todo' =>
    if bool_decide (TokenType token = pluralTranslationEnd) then Done (pcase, todo')
    else p_body (body_token pcase token) todo'
  end.

Definition p_case (todo : list Token) : outcome (option PluralCase * list Token) :=
  match todo with
  | [] => Done (None, [])
  | peek :: _ =>
    if negb (bool_decide (TokenType peek = pluralNumeric))
       && negb (bool_decide (TokenType peek = pluralOther)) then Done (None, todo)
    else
      match p_args (Build_PluralCase OpPluralCaseTypeExact 0 0 []) todo with
      | OutOfFuel => OutOfFuel
      | Fail e => Fail e
      | Done (None, todo1) => Done (None, todo1)
      | Done (Some pcase, todo1) =>
        match todo1 with
        | [] => Done (None, [])
        | token :: todo2 =>
          if negb (bool_decide (TokenType token = pluralTranslationStart)) then
            Fail (ErrExpectedTranslationStart (TokenType token))
          else
            match p_body pcase todo2 with
            | OutOfFuel => OutOfFuel
            | Fail e => Fail e
            | Done (pcase, todo3) => Done (Some pcase, todo3)
            end
        end
      end
  end.

Fixpoint p_cases (fuel : nat) (cases : list PluralCase) (other : list op)
    (todo : list Token) : outcome (list PluralCase * list op * list Token) :=
  match fuel with
  | O => OutOfFuel
  | S fuel' =>
    match todo with
    | [] => Done (cases, other, todo)
    | _ =>
      match p_case todo with
      | OutOfFuel => OutOfFuel
      | Fail e => Fail (ErrParsePluralCase e)
      | Done (None, todo) => Done (cases, other, todo)
      | Done (Some pcase, todo) =>
        if bool_decide (Type_ pcase = OpPluralCaseOther) then
          p_cases fuel' cases (Ops_of pcase) todo
        else p_cases fuel' (cases ++ [pcase]) other todo
      end
    end
  end.

Fixpoint p_transformers (fuel : nat) (transformers : list transformer_)
    (todo : list Token) : outcome (list transformer_ * list Token) :=
  match fuel with
  | O => OutOfFuel
  | S fuel' =>
    match todo with
    | [] => Done (transformers, todo)
    | token :: todo' =>
      if negb (bool_decide (TokenType token = transformer)) then Done (transformers, todo)
      else if bool_decide (Data token = $"capitalize") then
        p_transformers fuel' (transformers ++ [CapitalizeTransformer]) todo'
      else if bool_decide (Data token = $"replace") then
        p_transformers fuel' (transformers ++ [ReplaceTransformer]) todo'
      else if bool_decide (Data token = $"plural") then
        match p_cases (S (length todo')) [] [] todo' with
        | OutOfFuel => OutOfFuel
        | Fail e => Fail e
        | Done (cases, other, todo'') =>
          if (length other =? 0)%nat then Fail ErrMissingOther
          else p_transformers fuel' (transformers ++ [PluralTransformer cases other]) todo''
        end
      else p_transformers fuel' transformers todo'
    end
  end.

Fixpoint p_parse (fuel : nat) (ops : list op) (todo : list Token) : outcome (list op) :=
  match fuel with
  | O => OutOfFuel
  | S fuel' =>
    match todo with
    | [] => Done ops
    | token :: todo' =>
      match TokenType token with
      | literal => p_parse fuel' (ops ++ [LiteralOp (Data token)]) todo'
      | replacement =>
        match p_transformers (S (length todo')) [] todo' with
        | OutOfFuel => OutOfFuel
        | Fail e => Fail (ErrParseTransformers e)
        | Done (transformers, todo'') =>
          p_parse fuel' (ops ++ [ReplacementOp (Data token) transformers]) todo''
        end
      | _ => p_parse fuel' ops todo'
      end
    end
  end.

(** The operations that [Parse] builds from the tokens of the lexer. *)
Definition parse_tokens (toks : list Token) : outcome (list op) :=
  p_parse (S (length toks)) [] toks.

(** ** Predicates of the statements *)

(** Every colon of [s] stands right after a backslash. *)
Definition escaped (s : bytes) : Prop :=
  ∀ i, s !! i = Some ":"%char → ∃ j, i = S j ∧ s !! j = Some "\"%char.

(** A lowercase ASCII letter. *)
Definition is_lower (c : ascii) : Prop := rune "a" ≤ byteZ c ≤ rune "z".

(** The [other] body of a plural transformer is not empty. *)
Definition has_other (t : transformer_) : Prop :=
  match t with
  | PluralTransformer _ other => other ≠ []
  | _ => True
  end.

(** ** The structure of a template *)

Import parser lingua.

(** The tokens of a template, grouped the way [Parse] consumes them: the
    pieces of the body of a plural case, the head of a case with its
    digits as they are written, the transformers of a placeholder, and the
    literals and placeholders of the template. *)
Inductive bitem := BLit (v : bytes) | BCount.
Inductive chead := HExact (d : bytes) | HRange (d1 d2 : bytes) | HOther.
Record ccase := { c_head : chead; c_body : list bitem }.
Inductive ctrans := CCapitalize | CReplace | CPlural (cs : list ccase).
Inductive item := ILit (text : bytes) | IRepl (key : bytes) (trs : list ctrans).

(** The tokens of each group. *)
Definition bitem_tok (b : bitem) : Token :=
  match b with
  | BLit v => tok literal v
  | BCount => tok pluralCount $"#"
  end.

Definition head_toks (h : chead) : list Token :=
  match h with
  | HExact d => [tok pluralNumeric d]
  | HRange d1 d2 => [tok pluralNumeric d1; tok pluralRange $"-"; tok pluralNumeric d2]
  | HOther => [tok pluralOther $"other"]
  end.

Definition case_toks (c : ccase) : list Token :=
  head_toks (c_head c) ++
  tok pluralTranslationStart $"{" :: map bitem_tok (c_body c) ++
  [tok pluralTranslationEnd $"}"].

Definition trans_toks (t : ctrans) : list Token :=
  match t with
  | CCapitalize => [tok transformer $"capitalize"]
  | CReplace => [tok transformer $"replace"]
  | CPlural cs => tok transformer $"plural" :: concat (map case_toks cs)
  end.

Definition item_toks (i : item) : list Token :=
  match i with
  | ILit text => [tok literal text]
  | IRepl key trs => tok replacement key :: concat (map trans_toks trs)
  end.

(** The operations that [Parse] makes of each group, [None] where it
    returns an error. *)
Definition bop (b : bitem) : op :=
  match b with
  | BLit v => LiteralOp v
  | BCount => PluralCountOp
  end.

Definition atoi (d : bytes) : option Z :=
  match strconv.Atoi d with
  | (a, None) => Some a
  | (_, Some _) => None
  end.

Definition case_of (c : ccase) : option PluralCase :=
  let ops := map bop (c_body c) in
  match c_head c with
  | HExact d => a ← atoi d; Some (Build_PluralCase OpPluralCaseTypeExact a 0 ops)
  | HRange d1 d2 =>
    a ← atoi d1; b0 ← atoi d2; Some (Build_PluralCase OpPluralCaseTypeRange a b0 ops)
  | HOther => Some (Build_PluralCase OpPluralCaseOther 0 0 ops)
  end.

Fixpoint cases_of (cs : list ccase) (cases : list PluralCase) (other : list op)
  : option (list PluralCase * list op) :=
  match cs with
  | [] => Some (cases, other)
  | c :: cs' =>
    match case_of c with
    | Some pcase =>
      if bool_decide (Type_ pcase = OpPluralCaseOther) then cases_of cs' cases (Ops_of pcase)
      else cases_of cs' (cases ++ [pcase]) other
    | None => None
    end
  end.

Definition transformer_of (t : ctrans) : option transformer_ :=
  match t with
  | CCapitalize => Some CapitalizeTransformer
  | CReplace => Some ReplaceTransformer
  | CPlural cs =>
    match cases_of cs [] [] with
    | Some (cases, other) =>
      if (length other =? 0)%nat then None else Some (PluralTransformer cases other)
    | None => None
    end
  end.

Definition op_of (i : item) : option op :=
  match i with
  | ILit text => Some (LiteralOp text)
  | IRepl key trs =>
    match mapM transformer_of trs with
    | Some ts => Some (ReplacementOp key ts)
    | None => None
    end
  end.

(** A parsing function agrees with the operations of the groups: it
    returns them, or an error where there are none. *)
Definition agrees {T : Type} (o : outcome T) (v : option T) : Prop :=
  match v with
  | Some v => o = Done v
  | None => ∃ e, o = Fail e
  end.

(** The first token of what follows the cases of a plural transformer,
    and of what follows the transformers of a placeholder. *)
Definition top_start (todo : list Token) : Prop :=
  match todo with
  | [] => True
  | t :: _ => TokenType t = literal ∨ TokenType t = replacement
  end.

Definition after_cases (todo : list Token) : Prop :=
  match todo with
  | [] => True
  | t :: _ => TokenType t = literal ∨ TokenType t = replacement ∨ TokenType t = transformer
  end.

(** ** The lexer, group by group *)

Definition lit_bitems (pend : bytes) : list bitem :=
  if bool_decide (pend = []) then [] else [BLit pend].

Definition lit_items (text : bytes) : list item :=
  if bool_decide (text = []) then [] else [ILit text].

(** The body of a plural case after the opening brace, and what is left
    after the closing one. *)
Fixpoint lex_body (pend rest : bytes) : option (list bitem * bytes) :=
  match rest with
  | [] => None
  | c :: rest' =>
    if byteZ c =? rune "}" then Some (lit_bitems pend, rest')
    else if byteZ c =? rune "#" then
      match lex_body [] rest' with
      | Some (body, rest'') => Some (lit_bitems pend ++ BCount :: body, rest'')
      | None => None
      end
    else lex_body (pend ++ [c]) rest'
  end.

Definition lex_translation (rest : bytes) : option (list bitem * bytes) :=
  match drop (span_len spaces rest) rest with
  | c :: rest' => if byteZ c =? rune "{" then lex_body [] rest' else None
  | [] => None
  end.

(** The head of a numeric case after the equals sign. *)
Definition lex_head (rest : bytes) : option (chead * bytes) :=
  if accepts digits rest then
    let k := span_len digits rest in
    match drop k rest with
    | c :: rest2 =>
      if byteZ c =? rune "-" then
        if accepts digits rest2 then
          let k2 := span_len digits rest2 in
          Some (HRange (take k rest) (take k2 rest2), drop k2 rest2)
        else None
      else Some (HExact (take k rest), drop k rest)
    | [] => Some (HExact (take k rest), drop k rest)
    end
  else None.

(** [lexes_args rest cs rest']: from [lexerPluralArgs] with [rest] left,
    the lexer reads the cases [cs] and the closing parenthesis, and
    [rest'] is left for [lexerTransformer]. *)
Inductive lexes_args : bytes → list ccase → bytes → Prop :=
| lexes_args_end rest rest' :
    step_lexerPluralArgs rest = StepTo [] (Some state_lexerTransformer) [] rest' →
    lexes_args rest [] rest'
| lexes_args_numeric rest rest1 h rest2 body rest3 cs rest' :
    step_lexerPluralArgs rest = StepTo [] (Some state_lexerPluralNumericArg) [] rest1 →
    lex_head (tail rest1) = Some (h, rest2) →
    lex_translation rest2 = Some (body, rest3) →
    lexes_args rest3 cs rest' →
    lexes_args rest ({| c_head := h; c_body := body |} :: cs) rest'
| lexes_args_other rest rest2 body rest3 cs rest' :
    step_lexerPluralArgs rest =
      StepTo [tok pluralOther $"other"] (Some state_lexerPluralTranslation) [] rest2 →
    lex_translation rest2 = Some (body, rest3) →
    lexes_args rest3 cs rest' →
    lexes_args rest ({| c_head := HOther; c_body := body |} :: cs) rest'.

(** [lexes_chain rest trs rest']: from [lexerTransformer] with [rest]
    left, the lexer reads the transformers [trs], and [rest'] is left for
    [lexLiteral]. *)
Inductive lexes_chain : bytes → list ctrans → bytes → Prop :=
| lexes_chain_end rest :
    head_is (rune "|") rest = false → lexes_chain rest [] rest
| lexes_chain_capitalize rest rest1 trs rest' :
    step_lexerTransformer [] rest =
      StepTo [tok transformer $"capitalize"] (Some state_lexerTransformer) [] rest1 →
    lexes_chain rest1 trs rest' →
    lexes_chain rest (CCapitalize :: trs) rest'
| lexes_chain_replace rest rest1 trs rest' :
    step_lexerTransformer [] rest =
      StepTo [tok transformer $"replace"] (Some state_lexerTransformer) [] rest1 →
    lexes_chain rest1 trs rest' →
    lexes_chain rest (CReplace :: trs) rest'
| lexes_chain_plural rest pend rest1 cs rest2 trs rest' :
    step_lexerTransformer [] rest =
      StepTo [tok transformer $"plural"] (Some state_lexerPluralArgs) pend rest1 →
    lexes_args rest1 cs rest2 →
    lexes_chain rest2 trs rest' →
    lexes_chain rest (CPlural cs :: trs) rest'.

(** [lexes pend rest items]: from [lexLiteral] with [pend] pending and
    [rest] left, the lexer reads [items] up to the end of the input. *)
Inductive lexes : bytes → bytes → list item → Prop :=
| lexes_end pend rest :
    drop (scan_lit rest) rest = [] →
    lexes pend rest (lit_items (pend ++ rest))
| lexes_colon pend rest c rest1 items :
    drop (scan_lit rest) rest = c :: rest1 →
    accepts lowercase rest1 = false →
    lexes $":" rest1 items →
    lexes pend rest (lit_items (pend ++ take (scan_lit rest) rest) ++ items)
| lexes_placeholder pend rest c rest1 trs rest2 items :
    drop (scan_lit rest) rest = c :: rest1 →
    accepts lowercase rest1 = true →
    lexes_chain (drop (span_len lowercase rest1) rest1) trs rest2 →
    lexes [] rest2 items →
    lexes pend rest
      (lit_items (pend ++ take (scan_lit rest) rest) ++
       IRepl (take (span_len lowercase rest1) rest1) trs :: items).

(** ** The text that [Raw] writes *)

Definition is_digit (c : ascii) : Prop := 48 ≤ byteZ c ≤ 57.

(** The value of a run of digits that follows digits of value [n]. *)
Fixpoint dec (s : bytes) (n : Z) : Z :=
  match s with
  | [] => n
  | c :: s' => dec s' (n * 10 + (byteZ c - 48))
  end.

Definition unbop (o : op) : bitem :=
  match o with
  | LiteralOp v => BLit v
  | _ => BCount
  end.

(** The body of a case is read back from the text that [Raw] writes for
    it. *)
Definition body_ok (ops : list op) : Prop :=
  map bop (map unbop ops) = ops ∧
  ∀ rest, lex_body [] (Raw_body ops ++ $"}" ++ rest) = Some (map unbop ops, rest).

(** A case that [Parse] builds from the tokens of the lexer. *)
Definition case_ok (c : PluralCase) : Prop :=
  0 ≤ A c < 2 ^ 63 ∧
  match Type_ c with
  | OpPluralCaseTypeExact => B c = 0
  | OpPluralCaseTypeRange => 0 ≤ B c < 2 ^ 63
  | OpPluralCaseOther => False
  end ∧
  body_ok (Ops_of c).

(** The case as [Raw] writes it. *)
Definition canon_case (c : PluralCase) : ccase :=
  {| c_head :=
       match Type_ c with
       | OpPluralCaseTypeExact => HExact (strconv.Itoa (A c))
       | OpPluralCaseTypeRange => HRange (strconv.Itoa (A c)) (strconv.Itoa (B c))
       | OpPluralCaseOther => HOther
       end;
     c_body := map unbop (Ops_of c) |}.

(** ** The calls of [runLexer] *)

(** [enters isTerminal s st l]: in the loop of [runLexer] on the input
    [s], the state function [st] is called on the lexer [l]. *)
Inductive enters (isTerminal : bool) (s : bytes) : lexerStateFn → lexer → Prop :=
| enters_first :
    enters isTerminal s state_lexLiteral
      {| input := s; start := 0; pos := 0; width := 0; tokens := [] |}
| enters_next st l st' l' :
    enters isTerminal s st l →
    call isTerminal st l = Some (Some st', l') →
    enters isTerminal s st' l'.

(** The text does not end in a backslash. *)
Definition unescaped (text : bytes) : Prop := last text ≠ Some "\"%char.

(** The states that are entered only where the text read so far does
    not end in a backslash. *)
Definition guarded (st : lexerStateFn) : bool :=
  match st with
  | state_lexLiteral | state_lexerPlaceholder | state_lexerTransformer => true
  | _ => false
  end.

(** ** Invariants of the proofs *)

(** What [lexLiteral] returns and leaves behind. *)
Definition lit_post (res : option (option lexerStateFn * lexer)) (toks : list Token)
    (pend rest : bytes) : Prop :=
  ∃ l', res = Some (match drop (scan_lit rest) rest with
                    | [] => None
                    | _ => Some state_lexerPlaceholder
                    end, l') ∧
        view l' [] (drop (scan_lit rest) rest)
          (toks ++ emit literal (pend ++ take (scan_lit rest) rest)).

(** What a step leaves to read is no longer than what it found, the
    tokens it emits are no error tokens, and the state it enters finds the
    character that it expects. *)
Definition step_ok (st : lexerStateFn) (rest : bytes) (sr : step_result) : Prop :=
  match sr with
  | StepErr => True
  | StepTo new st' pend' rest' =>
    Forall not_err new ∧
    (measure st' rest' < measure (Some st) rest)%nat ∧
    match st' with Some st' => config_ok st' rest' | None => True end
  end.

(** A parsing function of the source against its description on the
    tokens that are left. *)
Definition parse_post {T : Type} (res : outcome (T * iterator))
    (spec : outcome (T * list Token)) : Prop :=
  match spec with
  | Done (v, todo) => ∃ it, res = Done (v, it) ∧ iview it todo
  | Fail e => res = Fail e
  | OutOfFuel => res = OutOfFuel
  end.

(** The properties of the operations that are proved of every parsed
    message: the key of a replacement is made of lowercase letters and is
    not empty, and its plural transformers have an [other] body. *)
Definition op_ok (o : op) : Prop :=
  match o with
  | ReplacementOp key transformers =>
    key ≠ [] ∧ Forall is_lower key ∧ Forall has_other transformers
  | _ => True
  end.

(** A replacement token carries a key of lowercase letters. *)
Definition token_ok (t : Token) : Prop :=
  TokenType t = replacement → Data t ≠ [] ∧ Forall is_lower (Data t).

(** The tokens that a step emits are such tokens. *)
Definition step_tokens_ok (sr : step_result) : Prop :=
  match sr with
  | StepErr => True
  | StepTo new _ _ _ => Forall token_ok new
  end.

(** A run of the lexer to its end, without its fuel. *)
Definition run_to (st : option lexerStateFn) (pend rest : bytes) (T : list Token) : Prop :=
  ∃ n, lex_from n st pend rest = Some (Some T).

(** ** What the lexer and the parser guarantee *)

Import parser lingua.

(** The groups of tokens that the lexer emits: no literal is empty and
    the numbers of a plural case are runs of digits. *)
Definition bitem_ok (b : bitem) : Prop :=
  match b with
  | BLit v => v ≠ []
  | BCount => True
  end.

Definition chead_ok (h : chead) : Prop :=
  match h with
  | HExact d => Forall is_digit d ∧ d ≠ []
  | HRange d1 d2 => (Forall is_digit d1 ∧ d1 ≠ []) ∧ (Forall is_digit d2 ∧ d2 ≠ [])
  | HOther => True
  end.

Definition ccase_ok (c : ccase) : Prop :=
  chead_ok (c_head c) ∧ Forall bitem_ok (c_body c).

Definition ctrans_ok (t : ctrans) : Prop :=
  match t with
  | CPlural cs => Forall ccase_ok cs
  | _ => True
  end.

Definition item_ok (i : item) : Prop :=
  match i with
  | ILit text => text ≠ []
  | IRepl key trs => Forall ctrans_ok trs
  end.

(** The operations of a message that [Parse] returns.  In the body of
    a plural case there are literals, none of them empty, and count
    markers, and no replacement. *)
Definition body_op_ok (o : op) : Prop :=
  match o with
  | LiteralOp v => v ≠ []
  | PluralCountOp => True
  | ReplacementOp _ _ => False
  end.

(** A case is exact or a range, and its numbers fit in 63 bits. *)
Definition plural_case_ok (c : PluralCase) : Prop :=
  0 ≤ A c < 2 ^ 63 ∧
  match Type_ c with
  | OpPluralCaseTypeExact => B c = 0
  | OpPluralCaseTypeRange => 0 ≤ B c < 2 ^ 63
  | OpPluralCaseOther => False
  end ∧
  Forall body_op_ok (Ops_of c).

Definition transformer_ok (t : transformer_) : Prop :=
  match t with
  | PluralTransformer cases other => Forall plural_case_ok cases ∧ Forall body_op_ok other
  | _ => True
  end.

(** At the top of a message there are literals, none of them empty, and
    replacements, and no count marker. *)
Definition top_op_ok (o : op) : Prop :=
  match o with
  | LiteralOp v => v ≠ []
  | ReplacementOp _ transformers => Forall transformer_ok transformers
  | PluralCountOp => False
  end.

(** The errors of [strconv.Atoi] that the parser can meet: a run of at
    least 19 digits whose value is out of range. *)
Definition conversion_error (e : error_) : Prop :=
  ∃ d, Forall is_digit d ∧ (19 ≤ length d)%nat ∧
       (e = ErrConvertA d strconv.ErrRange ∨ e = ErrConvertB d strconv.ErrRange).

(** The errors of [parseTransformers] that [Parse] can return. *)
Definition transformers_error (e : error_) : Prop :=
  e = ErrMissingOther ∨ ∃ e', e = ErrParsePluralCase e' ∧ conversion_error e'.

(** A parsing function returns the operations of the groups, or an
    error of the kind [P] where there are none. *)
Definition fails_with {T : Type} (P : error_ → Prop) (o : outcome T) (v : option T) : Prop :=
  match v with
  | Some v => o = Done v
  | None => ∃ e, o = Fail e ∧ P e
  end.

(** No transformer of the operation is a plural transformer. *)
Definition plural_free (o : op) : Prop :=
  match o with
  | ReplacementOp _ transformers =>
    Forall (λ t, match t with PluralTransformer _ _ => False | _ => True end) transformers
  | _ => True
  end.

(** The operation is a replacement without transformers whose key the
    map [replacements] does not hold, or no replacement at all. *)
Definition unreplaced (replacements : gmap bytes bytes) (o : op) : Prop :=
  match o with
  | ReplacementOp key transformers => transformers = [] ∧ replacements !! key = None
  | _ => True
  end.

(** [n] calls of [Next] in a row. *)
Fixpoint advance (n : nat) (it : iterator) : iterator :=
  match n with
  | O => it
  | S n => advance n (Next it).2
  end.

(** A literal, or a replacement without transformers. *)
Definition plain_op (o : op) : Prop :=
  match o with
  | LiteralOp _ => True
  | ReplacementOp _ transformers => transformers = []
  | PluralCountOp => False
  end.

(** * Package lingua: languages and the container *)

(** The embedding of [language.go] and of the container of
    [container.go].  Reading the files of a directory, decoding YAML,
    the regular expressions and the language tags of
    [golang.org/x/text] are outside of it: a context is the language
    that [fromCtx] finds in it, and [addFile] starts from the map that
    the YAML decoder returns.

    The order in which [range] goes over a Go map is not specified.  A
    function with such a loop takes the entries in the order in which
    the loop meets them, and the statements about it are made for every
    order: [ranges m order] tells that [order] lists each entry of [m]
    once. *)

Module container.

Import parser lingua.

(** ** language.go *)

(** LanguageID holds the language and an optional region. *)
Record LanguageID := { Language : bytes; Region : bytes }.

#[global] Instance LanguageID_eq_dec : EqDecision LanguageID.
Proof. solve_decision. Defined.

#[global] Instance LanguageID_countable : Countable LanguageID :=
  inj_countable' (λ l, (Language l, Region l))
    (λ p, {| Language := p.1; Region := p.2 |})
    (λ l, match l with Build_LanguageID _ _ => eq_refl end).

(** The zero value [LanguageID{}]. *)
Definition no_language : LanguageID := {| Language := []; Region := [] |}.

Definition LanguageID_String (l : LanguageID) : bytes :=
  if negb (bool_decide (Region l = [])) then Language l ++ $"-" ++ Region l
  else Language l.

Definition LanguageID_Empty (l : LanguageID) : bool :=
  bool_decide (Language l = []) && bool_decide (Region l = []).

(** [Match] returns the pair [(match, strongMatch)]. *)
Definition LanguageID_Match (l cmp : LanguageID) : bool * bool :=
  if bool_decide (Language l = Language cmp) && bool_decide (Region l = Region cmp) then
    (true, true)
  else if bool_decide (Language l = Language cmp) then (true, false)
  else (false, false).

(** ** container.go *)

(** Key is a unique identifier for a translation message. *)
Definition Key : Type := bytes.

(** [messages] is the map as it is read: the nil map of the zero
    value [Container{}] reads as the empty map.  [receiver], further
    down, tells the two apart for [Merge], which writes into the map of
    a container that its caller gives. *)
Record Container := {
  messages : gmap LanguageID (gmap Key Message);
  defaultLanguage : LanguageID
}.

(** [m[k]] for a map of maps: the inner map, and the nil map, which
    reads as the empty map, where there is none. *)
Definition inner {V : Type} (m : gmap LanguageID (gmap Key V)) (language : LanguageID)
  : gmap Key V :=
  match m !! language with
  | Some messages => messages
  | None => ∅
  end.

(** [ranges m order]: [order] lists the entries of the map [m], each
    one once. *)
Definition ranges {K V : Type} `{Countable K} (m : gmap K V) (order : list (K * V)) : Prop :=
  order ≡ₚ map_to_list m.

(** The same for a map of maps and the two loops, one inside the
    other, that go over it. *)
Definition ranges2 {V : Type} (m : gmap LanguageID (gmap Key V))
    (order : list (LanguageID * list (Key * V))) : Prop :=
  ∃ order' : list (LanguageID * gmap Key V),
    ranges m order' ∧
    Forall2 (λ x y, x.1 = y.1 ∧ ranges y.2 x.2) order order'.

(** [WithDefaultLanguage] *)
Definition WithDefaultLanguage (lang : LanguageID) (c : Container) : Container :=
  {| messages := messages c; defaultLanguage := lang |}.

(** [Container.Messages] *)
Definition Messages (c : Container) (lang : LanguageID) : gmap Key Message :=
  inner (messages c) lang.

(** The loop of [ScopedLanguage] over the languages of the container:
    [inl] for the [return] inside of the loop, [inr] for the value of
    [firstMatch] after it. *)
Fixpoint ScopedLanguage_loop (lang : LanguageID) (order : list LanguageID)
    (firstMatch : LanguageID) : LanguageID + LanguageID :=
  match order with
  | [] => inr firstMatch
  | scoped :: order' =>
    let '(isMatch, isExactMatch) := LanguageID_Match scoped lang in
    if isMatch && isExactMatch then inl scoped
    else if isMatch then ScopedLanguage_loop lang order' scoped
    else ScopedLanguage_loop lang order' firstMatch
  end.

(** ScopedLanguage returns the language in the context or falls back
    to no strict matches or the default lang.  [ctx] is the language of
    the context and [order] the languages of [c.messages] as the loop
    meets them. *)
Definition ScopedLanguage (c : Container) (ctx : LanguageID) (order : list LanguageID)
  : LanguageID :=
  let after (lang : LanguageID) :=
    match ScopedLanguage_loop lang order no_language with
    | inl scoped => scoped
    | inr firstMatch =>
      if negb (LanguageID_Empty firstMatch) then firstMatch
      else if negb (LanguageID_Empty (defaultLanguage c)) then defaultLanguage c
      else no_language
    end in
  if LanguageID_Empty ctx then
    if LanguageID_Empty (defaultLanguage c) then no_language
    else after (defaultLanguage c)
  else after ctx.

(** The languages of [c.messages] in some order. *)
Definition ranges_languages (c : Container) (order : list LanguageID) : Prop :=
  order ≡ₚ (map_to_list (messages c)).*1.

(** [Container.Raw]: the inner loop, after [raw[lang]] is made. *)
Definition Raw_messages (lang : LanguageID) (raw : gmap LanguageID (gmap bytes bytes))
    (entry : Key * Message) : gmap LanguageID (gmap bytes bytes) :=
  let '(key, message) := entry in
  <[lang := <[key := Raw message]> (inner raw lang)]> raw.

(** Raw returns the raw messages from the container; [order] lists the
    entries of [c.messages]. *)
Definition Container_Raw (order : list (LanguageID * list (Key * Message)))
  : gmap LanguageID (gmap bytes bytes) :=
  fold_left (λ raw '(lang, messages),
               fold_left (Raw_messages lang) messages (<[lang := ∅]> raw))
    order ∅.

Inductive MergeStrategy :=
| SkipAndClean
    (* SkipAndClean will skip existing messages and remove the messages from to that are not in from. *)
| Skip
    (* Skip will skip the merge for messages that already exist in to. *)
| Overwrite
    (* Overwrite will overwrite the messages in to with the messages from from. *)
| OverWriteAndClean.
    (* OverWriteAndClean will overwrite the messages in to with the messages from from and remove the messages from to that are not in from. *)

(** [Merge] writes into the map of [to].  The map of a container is
    the nil map until it is made: [ContainerFromFsAndMatcher] makes it,
    and the zero value [Container{}] has the nil map.  Reading the nil
    map is reading the empty map, and the functions that only read the
    messages take a [Container] for both; an assignment into the nil
    map panics.  [made c] is the container [c] with its map made, and
    [unmade d] the container with the nil map and the default language
    [d]. *)
Inductive receiver :=
| made (c : Container)
| unmade (defaultLanguage : LanguageID).

(** [to.messages], as it is read. *)
Definition messages_of (to : receiver) : gmap LanguageID (gmap Key Message) :=
  match to with
  | made c => messages c
  | unmade _ => ∅
  end.

(** [to.messages[language] = msgs]; [None] is the panic of an
    assignment to an entry of the nil map. *)
Definition assign (to : receiver) (language : LanguageID) (msgs : gmap Key Message)
  : option receiver :=
  match to with
  | made c =>
    Some (made {| messages := <[language := msgs]> (messages c);
                  defaultLanguage := defaultLanguage c |})
  | unmade _ => None
  end.

(** [to.messages[language][key] = msg], which panics as well where
    [to.messages[language]] is the nil map. *)
Definition assign_message (to : receiver) (language : LanguageID) (key : Key) (msg : Message)
  : option receiver :=
  match messages_of to !! language with
  | Some msgs => assign to language (<[key := msg]> msgs)
  | None => None
  end.

(** [delete(to.messages[language], key)], which does nothing where
    [to.messages[language]] is the nil map. *)
Definition delete_message (to : receiver) (language : LanguageID) (key : Key) : receiver :=
  match to with
  | made c =>
    made {| messages := alter (delete key) language (messages c);
            defaultLanguage := defaultLanguage c |}
  | unmade d => unmade d
  end.

(** A loop over [entries] whose body can panic. *)
Fixpoint range_over {A E : Type} (body : A → E → option A) (entries : list E) (a : A)
  : option A :=
  match entries with
  | [] => Some a
  | entry :: entries' =>
    match body a entry with
    | Some a' => range_over body entries' a'
    | None => None
    end
  end.

(** One round of the first loop of [Merge], for the message [msg] of
    the key [key] in the language [language] of [from]. *)
Definition Merge_add (strategy : MergeStrategy) (language : LanguageID) (to : receiver)
    (entry : Key * Message) : option receiver :=
  let '(key, msg) := entry in
  let skip :=
    match strategy with
    | Skip | SkipAndClean =>
      (* If the message exists in the to container we skip it. *)
      match inner (messages_of to) language !! key with
      | Some _ => true
      | None => false
      end
    | _ => false
    end in
  if skip then Some to
  else
    match
      match messages_of to !! language with
      | Some _ => Some to
      | None => assign to language ∅
      end
    with
    | Some to => assign_message to language key msg
    | None => None
    end.

(** Add messages to the to container that are in from. *)
Definition Merge_added (strategy : MergeStrategy)
    (order : list (LanguageID * list (Key * Message))) (to : receiver) : option receiver :=
  range_over (λ to '(language, msgs), range_over (Merge_add strategy language) msgs to)
    order to.

(** One round of the second loop, for the key [key] of the language
    [language] of [to]. *)
Definition Merge_clean (from : gmap LanguageID (gmap Key Message)) (language : LanguageID)
    (to : receiver) (entry : Key * Message) : receiver :=
  let '(key, _) := entry in
  match from !! language with
  | None =>
    (* If the whole language does not exist. *)
    delete_message to language key
  | Some msgs =>
    match msgs !! key with
    | None =>
      (* Or the message does not exist. *)
      delete_message to language key
    | Some _ => to
    end
  end.

(** Merge merges the messages from the from container to the to
    container based on the strategy.  [order_from] lists the entries of
    [from.messages] and [order_to] the entries that [to.messages] has
    after the first loop.  [None] is a panic. *)
Definition Merge (from : Container) (to : receiver) (strategy : MergeStrategy)
    (order_from order_to : list (LanguageID * list (Key * Message))) : option receiver :=
  match Merge_added strategy order_from to with
  | Some added =>
    Some
      match strategy with
      | OverWriteAndClean | SkipAndClean =>
        let from := messages from in
        fold_left (λ to '(language, msgs), fold_left (Merge_clean from language) msgs to)
          order_to added
      | _ => added
      end
  | None => None
  end.

(** What [addFile] returns: the container, or the error of [Parse]
    with the key of the message, after which the caller gives the
    container up. *)
Inductive loaded :=
| Loaded (c : Container)
| ErrParseMessage (key : bytes) (err : error_)
    (* "unable to parse message %q: %w" *)
| LoadOutOfFuel.

Section Container.

Variable isTerminal : bool.

(** The loop of [addFile] over the decoded file. *)
Fixpoint addFile_loop (msgs : gmap Key Message) (order : list (bytes * bytes))
  : bytes * error_ + option (gmap Key Message) :=
  match order with
  | [] => inr (Some msgs)
  | (key, raw) :: order' =>
    match Parse isTerminal raw with
    | Done m => addFile_loop (<[key := m]> msgs) order'
    | Fail err => inl (key, err)
    | OutOfFuel => inr None
    end
  end.

(** [addFile] after the YAML is decoded: [order] lists the entries of
    [rawMessages].  The map of [c] was made by [ContainerFromFsAndMatcher],
    the only caller. *)
Definition addFile (c : Container) (language : LanguageID) (order : list (bytes * bytes))
  : loaded :=
  match addFile_loop ∅ order with
  | inr (Some msgs) =>
    Loaded {| messages := <[language := msgs]> (messages c);
              defaultLanguage := defaultLanguage c |}
  | inl (key, err) => ErrParseMessage key err
  | inr None => LoadOutOfFuel
  end.

(** The values of the replacements have the type [any]; what
    [formatReplacement] makes of them, with [fmt] and [reflect], is not
    part of the embedding. *)
Variable any : Type.
Variable formatReplacement : any → bytes.

Variable To_UpperCase : Z → Z.

(** [Container.Message]; [languages] lists the languages of
    [c.messages] and [replacements] the entries of the replacements,
    as the loops meet them. *)
Definition Container_Message (c : Container) (ctx : LanguageID) (languages : list LanguageID)
    (key : Key) (replacements : list (bytes * any)) : bytes :=
  let lang := ScopedLanguage c ctx languages in
  if LanguageID_Empty lang then key
  else
    let scope := inner (messages c) lang in
    match scope !! key with
    | None => key
    | Some msg =>
      let formattedReplacements :=
        fold_left (λ (formatted : gmap bytes bytes) '(key, value),
                     <[key := formatReplacement value]> formatted)
          replacements ∅ in
      format To_UpperCase msg formattedReplacements scope
    end.

(** ScopedContainer: a container type with the ctx embedded. *)
Record ScopedContainer := { ctx_of : LanguageID; c_of : Container }.

Definition Scope (c : Container) (ctx : LanguageID) : ScopedContainer :=
  {| ctx_of := ctx; c_of := c |}.

Definition ScopedContainer_Message (s : ScopedContainer) (languages : list LanguageID)
    (key : Key) (replacements : list (bytes * any)) : bytes :=
  Container_Message (c_of s) (ctx_of s) languages key replacements.

End Container.

(** The message of a key in a language, if there is one. *)
Definition message_of {V : Type} (m : gmap LanguageID (gmap Key V)) (language : LanguageID)
    (key : Key) : option V :=
  inner m language !! key.

(** The strategies that skip the messages that [to] has, and the ones
    that clean [to]. *)
Definition skips (strategy : MergeStrategy) : bool :=
  match strategy with
  | Skip | SkipAndClean => true
  | _ => false
  end.

Definition cleans (strategy : MergeStrategy) : bool :=
  match strategy with
  | OverWriteAndClean | SkipAndClean => true
  | _ => false
  end.

(** The two loops of [Merge] on a map that was made, where nothing
    panics. *)
Definition add_made (strategy : MergeStrategy) (language : LanguageID)
    (to : gmap LanguageID (gmap Key Message)) (entry : Key * Message)
  : gmap LanguageID (gmap Key Message) :=
  if skips strategy && bool_decide (is_Some (inner to language !! entry.1)) then to
  else <[language := <[entry.1 := entry.2]> (inner to language)]> to.

Definition added_made (strategy : MergeStrategy)
    (order : list (LanguageID * list (Key * Message)))
    (to : gmap LanguageID (gmap Key Message)) : gmap LanguageID (gmap Key Message) :=
  fold_left (λ to '(language, msgs), fold_left (add_made strategy language) msgs to) order to.

Definition clean_made (from : gmap LanguageID (gmap Key Message)) (language : LanguageID)
    (to : gmap LanguageID (gmap Key Message)) (entry : Key * Message)
  : gmap LanguageID (gmap Key Message) :=
  match inner from language !! entry.1 with
  | Some _ => to
  | None => alter (delete entry.1) language to
  end.

Definition cleaned_made (from : gmap LanguageID (gmap Key Message))
    (order : list (LanguageID * list (Key * Message)))
    (to : gmap LanguageID (gmap Key Message)) : gmap LanguageID (gmap Key Message) :=
  fold_left (λ to '(language, msgs), fold_left (clean_made from language) msgs to) order to.

(** The container [c] with the messages [m]. *)
Definition with_messages (c : Container) (m : gmap LanguageID (gmap Key Message))
  : Container :=
  {| messages := m; defaultLanguage := defaultLanguage c |}.

(** The message of a key after the first loop of [Merge], and after
    the second one. *)
Definition added (strategy : MergeStrategy) (from to : option Message) : option Message :=
  match from with
  | None => to
  | Some msg =>
    if skips strategy then match to with Some m => Some m | None => Some msg end
    else Some msg
  end.

Definition kept (from to : option Message) : option Message :=
  match from with
  | Some _ => to
  | None => None
  end.

(** The entries of the nested loops hold the key [k] of the language
    [l]. *)
Definition covers {V : Type} (order : list (LanguageID * list (Key * V))) (l : LanguageID)
    (k : Key) : bool :=
  existsb (λ x, bool_decide (x.1 = l) && bool_decide (k ∈ x.2.*1)) order.

(** What [Merge] leaves for a key in a language, from the message of
    [from] and the message of [to]. *)
Definition merged (strategy : MergeStrategy) (from to : option Message) : option Message :=
  match strategy, from, to with
  | Skip, _, Some msg => Some msg
  | Skip, _, None => from
  | Overwrite, Some msg, _ => Some msg
  | Overwrite, None, _ => to
  | SkipAndClean, Some _, Some msg => Some msg
  | SkipAndClean, _, _ => from
  | OverWriteAndClean, _, _ => from
  end.

(** ** A container with two languages, on which the statements are
    tried out *)

Definition en_GB : LanguageID := {| Language := $"en"; Region := $"GB" |}.
Definition nl : LanguageID := {| Language := $"nl"; Region := [] |}.
Definition fr : LanguageID := {| Language := $"fr"; Region := [] |}.

Definition hello_en : Message :=
  {| Ops := [LiteralOp $"Hello "; ReplacementOp $"name" [CapitalizeTransformer]] |}.
Definition hello_nl : Message :=
  {| Ops := [LiteralOp $"Hallo "; ReplacementOp $"name" [CapitalizeTransformer]] |}.
Definition bye_nl : Message := {| Ops := [LiteralOp $"Dag"] |}.

Definition shop : Container :=
  {| messages := {[ en_GB := {[ $"hello" := hello_en ]};
                    nl := {[ $"hello" := hello_nl; $"bye" := bye_nl ]} ]};
     defaultLanguage := nl |}.

(** A container to merge into [shop]. *)
Definition tot_ziens : Message := {| Ops := [LiteralOp $"Tot ziens"] |}.

Definition update : Container :=
  {| messages := {[ nl := {[ $"bye" := tot_ziens ]} ]}; defaultLanguage := fr |}.

End container.

(** * The extract command *)

(** The loop of [extractCmd] that brings the translations of one
    language up to date with the keys found in the source code.
    Reading the translations and the source code and writing the YAML
    files are outside of the embedding. *)

Module extract_command.

(** One round of the loop over [srcMessages]. *)
Definition add_key (messages : gmap bytes bytes) (key : bytes) : gmap bytes bytes :=
  match messages !! key with
  | Some _ => messages
  | None =>
    (* Add the key as empty translation. *)
    <[key := []]> messages
  end.

(** One round of the loop over [messages] when [remove] is set. *)
Definition remove_key (srcMessages : list bytes) (messages : gmap bytes bytes)
    (entry : bytes * bytes) : gmap bytes bytes :=
  let '(key, _) := entry in
  if bool_decide (key ∈ srcMessages) then messages
  else
    (* Remove the key from the translations. *)
    delete key messages.

(** Traverse all existing translations and add new keys if they are
    not present. *)
Definition add_keys (srcMessages : list bytes) (messages : gmap bytes bytes)
  : gmap bytes bytes :=
  fold_left add_key srcMessages messages.

(** The body of the loop over the languages; [order] lists the entries
    that [messages] has after the keys are added. *)
Definition update_language (remove : bool) (srcMessages : list bytes)
    (messages : gmap bytes bytes) (order : list (bytes * bytes)) : gmap bytes bytes :=
  let messages := add_keys srcMessages messages in
  if remove then fold_left (remove_key srcMessages) order messages else messages.

End extract_command.

(** * Properties *)

(** ** UTF-8 decoding and encoding *)

Lemma lor_add hi lo k :
  0 ≤ k → 0 ≤ lo < 2 ^ k → Z.lor (hi * 2 ^ k) lo = hi * 2 ^ k + lo.
Proof.
  intros Hk Hlo.
  assert (Z.land (hi * 2 ^ k) lo = 0) as Hland.
  { apply Z.bits_inj'; intros n Hn. rewrite Z.land_spec, Z.bits_0.
    destruct (Z.lt_ge_cases n k).
    - by rewrite Z.mul_pow2_bits_low.
    - rewrite <- (Z.mod_small lo (2 ^ k)) by lia.
      rewrite Z.mod_pow2_bits_high by lia. apply andb_false_r. }
  rewrite <- Z.lxor_lor by done. by rewrite <- Z.add_nocarry_lxor.
Qed.

Lemma byteZ_range c : 0 ≤ byteZ c < 256.
Proof.
  unfold byteZ. pose proof (N_ascii_bounded c). lia.
Qed.

Ltac zcmp :=
  repeat match goal with
  | |- context [?a <? ?b] => destruct (Z.ltb_spec a b)
  | |- context [?a <=? ?b] => destruct (Z.leb_spec a b)
  | |- context [?a =? ?b] => destruct (Z.eqb_spec a b)
  end.

Lemma first_cases b0 :
  0 ≤ b0 < 256 →
  (b0 < 0x80 ∧ utf8.first b0 = 0xF0) ∨
  ((0x80 ≤ b0 < 0xC2 ∨ 0xF5 ≤ b0) ∧ utf8.first b0 = 0xF1) ∨
  (0xC2 ≤ b0 < 0xE0 ∧ utf8.first b0 = 0x02) ∨
  (b0 = 0xE0 ∧ utf8.first b0 = 0x13) ∨
  ((0xE1 ≤ b0 < 0xED ∨ 0xEE ≤ b0 < 0xF0) ∧ utf8.first b0 = 0x03) ∨
  (b0 = 0xED ∧ utf8.first b0 = 0x23) ∨
  (b0 = 0xF0 ∧ utf8.first b0 = 0x34) ∨
  (0xF1 ≤ b0 < 0xF4 ∧ utf8.first b0 = 0x04) ∨
  (b0 = 0xF4 ∧ utf8.first b0 = 0x44).
Proof.
  intros Hb. unfold utf8.first, utf8.as_, utf8.xx. zcmp; lia.
Qed.

(** The three composite runes of the decoder, in arithmetic. *)
Ltac bits_to_arith :=
  unfold utf8.mask2, utf8.mask3, utf8.mask4, utf8.maskx;
  change 7 with (Z.ones 3); change 15 with (Z.ones 4);
  change 31 with (Z.ones 5); change 63 with (Z.ones 6);
  rewrite !Z.land_ones, !Z.shiftl_mul_pow2 by lia;
  change (2 ^ 3) with 8; change (2 ^ 4) with 16; change (2 ^ 5) with 32;
  change (2 ^ 6) with 64.

Lemma rune2_arith s0 s1 :
  Z.lor (Z.shiftl (Z.land s0 utf8.mask2) 6) (Z.land s1 utf8.maskx) =
  (s0 mod 32) * 64 + s1 mod 64.
Proof.
  bits_to_arith.
  assert (0 ≤ s1 mod 64 < 64) by (apply Z.mod_pos_bound; lia).
  change 64 with (2 ^ 6) at 1. rewrite lor_add; lia.
Qed.

Lemma rune3_arith s0 s1 s2 :
  Z.lor (Z.lor (Z.shiftl (Z.land s0 utf8.mask3) 12) (Z.shiftl (Z.land s1 utf8.maskx) 6))
        (Z.land s2 utf8.maskx) =
  (s0 mod 16) * 4096 + (s1 mod 64) * 64 + s2 mod 64.
Proof.
  bits_to_arith.
  assert (0 ≤ s1 mod 64 < 64) by (apply Z.mod_pos_bound; lia).
  assert (0 ≤ s2 mod 64 < 64) by (apply Z.mod_pos_bound; lia).
  rewrite (lor_add _ _ 12) by lia.
  replace (s0 mod 16 * 2 ^ 12 + s1 mod 64 * 64)
    with ((s0 mod 16 * 64 + s1 mod 64) * 2 ^ 6) by lia.
  rewrite lor_add by lia. lia.
Qed.

Lemma rune4_arith s0 s1 s2 s3 :
  Z.lor (Z.lor (Z.lor (Z.shiftl (Z.land s0 utf8.mask4) 18)
                      (Z.shiftl (Z.land s1 utf8.maskx) 12))
               (Z.shiftl (Z.land s2 utf8.maskx) 6))
        (Z.land s3 utf8.maskx) =
  (s0 mod 8) * 262144 + (s1 mod 64) * 4096 + (s2 mod 64) * 64 + s3 mod 64.
Proof.
  bits_to_arith.
  assert (0 ≤ s1 mod 64 < 64) by (apply Z.mod_pos_bound; lia).
  assert (0 ≤ s2 mod 64 < 64) by (apply Z.mod_pos_bound; lia).
  assert (0 ≤ s3 mod 64 < 64) by (apply Z.mod_pos_bound; lia).
  rewrite (lor_add _ _ 18) by lia.
  replace (s0 mod 8 * 2 ^ 18 + s1 mod 64 * 2 ^ 12)
    with ((s0 mod 8 * 64 + s1 mod 64) * 2 ^ 12) by lia.
  rewrite (lor_add _ _ 12) by lia.
  replace ((s0 mod 8 * 64 + s1 mod 64) * 2 ^ 12 + s2 mod 64 * 64)
    with (((s0 mod 8 * 64 + s1 mod 64) * 64 + s2 mod 64) * 2 ^ 6) by lia.
  rewrite lor_add by lia. lia.
Qed.

Ltac zcmp_known :=
  repeat match goal with
  | |- context [?a <? ?b] =>
    first [rewrite (proj2 (Z.ltb_lt a b)) by lia | rewrite (proj2 (Z.ltb_ge a b)) by lia]
  | |- context [?a <=? ?b] =>
    first [rewrite (proj2 (Z.leb_le a b)) by lia | rewrite (proj2 (Z.leb_gt a b)) by lia]
  | |- context [?a =? ?b] =>
    first [rewrite (proj2 (Z.eqb_eq a b)) by lia | rewrite (proj2 (Z.eqb_neq a b)) by lia]
  end.

Lemma DecodeRuneInString_arith s : utf8.DecodeRuneInString s = decode_arith s.
Proof.
  destruct s as [|c0 s]; [done|].
  pose proof (byteZ_range c0) as H0.
  destruct s as [|c1 [|c2 [|c3 s]]];
    unfold utf8.DecodeRuneInString, decode_arith;
    rewrite ?rune2_arith, ?rune3_arith, ?rune4_arith;
    cbn [length]; unfold utf8.as_, utf8.locb, utf8.hicb.
  all: destruct (first_cases (byteZ c0) H0) as
    [[? ->]|[[? ->]|[[? ->]|[[? ->]|[[? ->]|[[? ->]|[[? ->]|[[? ->]|[? ->]]]]]]]]].
  all: repeat match goal with
       | |- context [Z.land ?a 7] =>
         let v := eval vm_compute in (Z.land a 7) in change (Z.land a 7) with v
       | |- context [utf8.acceptRanges ?a] =>
         let v := eval vm_compute in (utf8.acceptRanges a) in
         change (utf8.acceptRanges a) with v
       | |- context [Z.testbit ?a 0] =>
         let v := eval vm_compute in (Z.testbit a 0) in change (Z.testbit a 0) with v
       end; cbn [fst snd].
  all: try match goal with H : _ ∨ _ |- _ => destruct H end.
  all: zcmp_known; cbn [orb]; try reflexivity.
  all: repeat (destruct (_ || _); try reflexivity).
Qed.

Lemma decode_ascii c s :
  byteZ c < 0x80 → utf8.DecodeRuneInString (c :: s) = (byteZ c, 1%nat).
Proof.
  intros Hc. rewrite DecodeRuneInString_arith. unfold decode_arith.
  by rewrite (proj2 (Z.ltb_lt _ _)) by lia.
Qed.

Lemma RuneError_valid : utf8.ValidRune utf8.RuneError = true.
Proof. reflexivity. Qed.

Lemma decode_nonascii c s r w :
  0x80 ≤ byteZ c →
  utf8.DecodeRuneInString (c :: s) = (r, w) →
  0x80 ≤ r ∧ utf8.ValidRune r = true ∧ (1 ≤ w ≤ length (c :: s))%nat ∧
  Forall high (take w (c :: s)).
Proof.
  intros Hc. rewrite DecodeRuneInString_arith. unfold decode_arith.
  pose proof (byteZ_range c) as H0.
  rewrite (proj2 (Z.ltb_ge _ _)) by lia.
  assert (∀ n, (1 ≤ n)%nat → 
    0x80 ≤ utf8.RuneError ∧ utf8.ValidRune utf8.RuneError = true ∧
    (1 ≤ 1 ≤ n)%nat ∧ Forall high (take 1 (c :: s))) as Herr.
  { intros n Hn. split; [done|]. split; [done|]. split; [lia|].
    simpl. rewrite take_0. by constructor. }
  destruct (_ || _) eqn:E0; [intros [= <- <-]; apply Herr; simpl; lia|].
  apply orb_false_elim in E0 as [E0a E0b].
  apply Z.ltb_ge in E0a. apply Z.ltb_ge in E0b.
  destruct s as [|c1 s]; [intros [= <- <-]; apply Herr; simpl; lia|].
  pose proof (byteZ_range c1) as H1.
  cbv zeta.
  destruct (_ || _) eqn:E1; [intros [= <- <-]; apply Herr; simpl; lia|].
  apply orb_false_elim in E1 as [E1a E1b].
  assert (0x80 ≤ byteZ c1 ≤ 0xBF ∧
          (byteZ c = 0xE0 → 0xA0 ≤ byteZ c1) ∧ (byteZ c = 0xF0 → 0x90 ≤ byteZ c1) ∧
          (byteZ c = 0xED → byteZ c1 ≤ 0x9F) ∧ (byteZ c = 0xF4 → byteZ c1 ≤ 0x8F))
    as (Hc1 & HE0 & HF0 & HED & HF4).
  { revert E1a E1b.
    destruct (Z.eqb_spec (byteZ c) 224), (Z.eqb_spec (byteZ c) 240),
      (Z.eqb_spec (byteZ c) 237), (Z.eqb_spec (byteZ c) 244);
      try lia; rewrite !Z.ltb_ge; lia. }
  clear E1a E1b.
  assert (byteZ c1 mod 64 = byteZ c1 - 128) as Hm1 by (Z.to_euclidean_division_equations; lia).
  destruct (Z.ltb_spec (byteZ c) 224) as [Hlt2|Hge2].
  { intros [= <- <-]. split; [Z.to_euclidean_division_equations; lia|]. split.
    - unfold utf8.ValidRune, utf8.surrogateMin, utf8.surrogateMax, utf8.MaxRune. Z.to_euclidean_division_equations; lia.
    - split; [simpl; lia|]. repeat constructor; unfold high; lia. }
  destruct s as [|c2 s]; [intros [= <- <-]; apply Herr; simpl; lia|].
  pose proof (byteZ_range c2) as Hr2.
  destruct (_ || _) eqn:E2; [intros [= <- <-]; apply Herr; simpl; lia|].
  apply orb_false_elim in E2 as [E2a E2b].
  apply Z.ltb_ge in E2a. apply Z.ltb_ge in E2b.
  assert (byteZ c2 mod 64 = byteZ c2 - 128) as Hm2 by (Z.to_euclidean_division_equations; lia).
  destruct (Z.ltb_spec (byteZ c) 240) as [Hlt3|Hge3].
  { intros [= <- <-]. split; [Z.to_euclidean_division_equations; lia|]. split.
    - unfold utf8.ValidRune, utf8.surrogateMin, utf8.surrogateMax, utf8.MaxRune. Z.to_euclidean_division_equations; lia.
    - split; [simpl; lia|]. repeat constructor; unfold high; lia. }
  destruct s as [|c3 s]; [intros [= <- <-]; apply Herr; simpl; lia|].
  pose proof (byteZ_range c3) as Hr3.
  destruct (_ || _) eqn:E3; [intros [= <- <-]; apply Herr; simpl; lia|].
  apply orb_false_elim in E3 as [E3a E3b].
  apply Z.ltb_ge in E3a. apply Z.ltb_ge in E3b.
  assert (byteZ c3 mod 64 = byteZ c3 - 128) as Hm3 by (Z.to_euclidean_division_equations; lia).
  intros [= <- <-]. split; [Z.to_euclidean_division_equations; lia|]. split.
  - unfold utf8.ValidRune, utf8.surrogateMin, utf8.surrogateMax, utf8.MaxRune. Z.to_euclidean_division_equations; lia.
  - split; [simpl; lia|]. repeat constructor; unfold high; lia.
Qed.

Lemma byteZ_byte_of z : 0 ≤ z < 256 → byteZ (utf8.byte_of z) = z.
Proof.
  intros Hz. unfold byteZ, utf8.byte_of.
  change 255 with (Z.ones 8). rewrite Z.land_ones by lia.
  rewrite Z.mod_small by (change (2 ^ 8) with 256; lia).
  rewrite N_ascii_embedding; lia.
Qed.

Ltac zdm := Z.to_euclidean_division_equations; lia.

Lemma encodeValid_arith u :
  0 ≤ u ≤ utf8.MaxRune →
  utf8.encodeValid u =
  if u <=? 0x7F then [utf8.byte_of u]
  else if u <=? 0x7FF then [utf8.byte_of (192 + u / 64); utf8.byte_of (128 + u mod 64)]
  else if u <=? 0xFFFF then
    [utf8.byte_of (224 + u / 4096); utf8.byte_of (128 + (u / 64) mod 64);
     utf8.byte_of (128 + u mod 64)]
  else
    [utf8.byte_of (240 + u / 262144); utf8.byte_of (128 + (u / 4096) mod 64);
     utf8.byte_of (128 + (u / 64) mod 64); utf8.byte_of (128 + u mod 64)].
Proof.
  unfold utf8.MaxRune. intros Hu. unfold utf8.encodeValid, utf8.maskx.
  change 63 with (Z.ones 6). rewrite !Z.land_ones, !Z.shiftr_div_pow2 by lia.
  change (2 ^ 6) with 64. change (2 ^ 12) with 4096. change (2 ^ 18) with 262144.
  assert (∀ x, Z.lor 128 (x mod 64) = 128 + x mod 64) as Hcont.
  { intros x. change 128 with (2 * 2 ^ 6). apply lor_add; [lia|].
    change (2 ^ 6) with 64. zdm. }
  rewrite !Hcont.
  destruct (Z.leb_spec u 127); [done|].
  destruct (Z.leb_spec u 2047).
  { change 192 with (3 * 2 ^ 6). rewrite lor_add; [done|lia|]. change (2 ^ 6) with 64. zdm. }
  destruct (Z.leb_spec u 65535).
  { change 224 with (14 * 2 ^ 4). rewrite lor_add; [done|lia|]. change (2 ^ 4) with 16. zdm. }
  change 240 with (30 * 2 ^ 3). rewrite lor_add; [done|lia|]. change (2 ^ 3) with 8. zdm.
Qed.

Ltac zcmp_dm :=
  repeat match goal with
  | |- context [?a <? ?b] =>
    first [rewrite (proj2 (Z.ltb_lt a b)) by zdm | rewrite (proj2 (Z.ltb_ge a b)) by zdm]
  | |- context [?a =? ?b] =>
    first [rewrite (proj2 (Z.eqb_eq a b)) by zdm | rewrite (proj2 (Z.eqb_neq a b)) by zdm]
  end.

Ltac eqb_split :=
  repeat match goal with
  | |- context [if ?a =? ?b then _ else _] => destruct (Z.eqb_spec a b)
  end.

Lemma decode_encodeValid u rest :
  utf8.ValidRune u = true →
  utf8.DecodeRuneInString (utf8.encodeValid u ++ rest) = (u, length (utf8.encodeValid u)).
Proof.
  unfold utf8.ValidRune, utf8.surrogateMin, utf8.surrogateMax. intros Hu.
  assert (0 ≤ u ≤ utf8.MaxRune ∧ ¬ (0xD800 ≤ u ≤ 0xDFFF)) as [Hr Hs].
  { unfold utf8.MaxRune in *. lia. }
  rewrite encodeValid_arith by done. unfold utf8.MaxRune in *. clear Hu.
  rewrite DecodeRuneInString_arith.
  replace (u / 4096) with (u / 64 / 64) by (rewrite Z.div_div; [done|lia..]).
  replace (u / 262144) with (u / 64 / 64 / 64) by (rewrite !Z.div_div; [done|lia..]).
  destruct (Z.leb_spec u 127).
  { simpl. rewrite byteZ_byte_of by lia. by rewrite (proj2 (Z.ltb_lt _ _)) by lia. }
  destruct (Z.leb_spec u 2047).
  { cbn [app decode_arith length]. rewrite !byteZ_byte_of by zdm.
    cbv zeta. eqb_split. all: zcmp_dm; cbn [orb]; f_equal; zdm. }
  destruct (Z.leb_spec u 65535).
  { cbn [app decode_arith length]. rewrite !byteZ_byte_of by zdm.
    cbv zeta. eqb_split. all: zcmp_dm; cbn [orb]; f_equal; zdm. }
  cbn [app decode_arith length]. rewrite !byteZ_byte_of by zdm.
  cbv zeta. eqb_split. all: zcmp_dm; cbn [orb]; f_equal; zdm.
Qed.

Lemma byte_of_byteZ c : utf8.byte_of (byteZ c) = c.
Proof.
  unfold utf8.byte_of. pose proof (byteZ_range c).
  change 255 with (Z.ones 8). rewrite Z.land_ones by lia.
  rewrite Z.mod_small by (change (2 ^ 8) with 256; lia).
  unfold byteZ. rewrite N2Z.id. apply ascii_N_embedding.
Qed.

Lemma byteZ_inj c1 c2 : byteZ c1 = byteZ c2 → c1 = c2.
Proof. intros H. by rewrite <- (byte_of_byteZ c1), H, byte_of_byteZ. Qed.

(** ** The renderer *)

Section Render.

Variable To_UpperCase : Z → Z.
Variable replacements : gmap bytes bytes.
Variable messages : gmap bytes Message.

Lemma format_loop_app ops1 ops2 b0 :
  format_loop To_UpperCase (ops1 ++ ops2) replacements messages b0 =
  format_loop To_UpperCase ops2 replacements messages
    (format_loop To_UpperCase ops1 replacements messages b0).
Proof.
  revert b0. induction ops1 as [|o ops1 IH]; intros b0; simpl; [done|].
  destruct o as [v|key ts|]; [apply IH| |apply IH].
  destruct (replacements !! key); apply IH.
Qed.

Lemma plural_write_app ops1 ops2 count b0 :
  plural_write (ops1 ++ ops2) count b0 = plural_write ops2 count (plural_write ops1 count b0).
Proof.
  revert b0. induction ops1 as [|o ops1 IH]; intros b0; simpl; [done|].
  destruct o; apply IH.
Qed.

End Render.

Lemma matching_ops_first_match cases count :
  matching_ops cases count [] =
  match first_match cases count with Some c => Ops_of c | None => [] end.
Proof.
  induction cases as [|c cases IH]; simpl; [done|]. by destruct (Match c count).
Qed.

(** What the selection loop of the renderer computes: the body of the
    first matching case when that body is not empty, and the [other] body
    when no case matches or when the first matching case has an empty
    body. *)
Lemma plural_ops_spec cases other count :
  plural_ops cases other count =
  match first_match cases count with
  | Some c => if (length (Ops_of c) =? 0)%nat then other else Ops_of c
  | None => other
  end.
Proof.
  unfold plural_ops. rewrite matching_ops_first_match.
  by destruct (first_match cases count).
Qed.

(** C1 (the code departs from the claim).  The template
    [:n|plural(=0 {} other {many})] parses; its only case matches the count
    0 and has an empty body, and still the renderer writes the [other]
    body. *)
Theorem plural_empty_case_renders_other (isTerminal : bool) (To_UpperCase : Z → Z) :
  ∃ c other,
    Parse isTerminal $":n|plural(=0 {} other {many})" =
      Done {| Ops := [ReplacementOp $"n" [PluralTransformer [c] other]] |} ∧
    first_match [c] 0 = Some c ∧
    Ops_of c = [] ∧
    format To_UpperCase
      {| Ops := [ReplacementOp $"n" [PluralTransformer [c] other]] |}
      {[ $"n" := $"0" ]} ∅ = $"many".
Proof.
  eexists _, _. split; [by destruct isTerminal; vm_compute|].
  split; [done|]. split; [done|]. by vm_compute.
Qed.

(** C6.  A replacement whose key is absent from the map is rendered as
    [:] followed by the key, whatever its transformers are, and the
    operations before and after it are rendered as they are without it;
    rendering ["Hi :name"] with the empty map gives ["Hi :name"]. *)
Theorem missing_key_renders_placeholder (isTerminal : bool) (To_UpperCase : Z → Z)
    (messages : gmap bytes Message) :
  (∀ (replacements : gmap bytes bytes) before key transformers after,
     replacements !! key = None →
     format To_UpperCase {| Ops := before ++ ReplacementOp key transformers :: after |}
       replacements messages =
     format_loop To_UpperCase after replacements messages
       (format To_UpperCase {| Ops := before |} replacements messages ++ $":" ++ key)) ∧
  (∃ m, Parse isTerminal $"Hi :name" = Done m ∧
        format To_UpperCase m ∅ messages = $"Hi :name").
Proof.
  split.
  - intros replacements before key transformers after Hkey.
    unfold format; simpl. rewrite format_loop_app. simpl. by rewrite Hkey.
  - eexists. split; [by destruct isTerminal; vm_compute|]. done.
Qed.

Lemma missing_key_renders_placeholder_witness :
  format (λ r, r)
    {| Ops := [LiteralOp $"a"; ReplacementOp $"k" [CapitalizeTransformer]; LiteralOp $"z"] |}
    {[ $"other" := $"v" ]} ∅ = $"a:kz".
Proof.
  etrans.
  - exact (proj1 (missing_key_renders_placeholder false (λ r, r) ∅)
      {[ $"other" := $"v" ]} [LiteralOp $"a"] $"k" [CapitalizeTransformer] [LiteralOp $"z"]
      eq_refl).
  - reflexivity.
Defined.

(** C7.  A value that [strconv.Atoi] rejects counts as 0: the plural
    transformer selects the operations for the count 0 and writes "0" for
    every count marker; the render of a message with such a replacement
    is the string built from that text. *)
Theorem plural_non_integer_counts_zero (To_UpperCase : Z → Z)
    (messages : gmap bytes Message) cases other value :
  (strconv.Atoi value).2 ≠ None →
  transform To_UpperCase messages value (PluralTransformer cases other) =
    plural_write (plural_ops cases other 0) 0 [] ∧
  ∀ (replacements : gmap bytes bytes) before key after,
    replacements !! key = Some value →
    format To_UpperCase
      {| Ops := before ++ ReplacementOp key [PluralTransformer cases other] :: after |}
      replacements messages =
    format_loop To_UpperCase after replacements messages
      (format To_UpperCase {| Ops := before |} replacements messages ++
       plural_write (plural_ops cases other 0) 0 []).
Proof.
  intros Herr.
  assert (transform To_UpperCase messages value (PluralTransformer cases other) =
          plural_write (plural_ops cases other 0) 0 []) as Ht.
  { simpl. unfold plural, plural_count.
    destruct (strconv.Atoi value) as [count [e|]]; [done|]. by destruct Herr. }
  split; [done|].
  intros replacements before key after Hkey.
  unfold format; simpl. rewrite format_loop_app. simpl. rewrite Hkey. simpl.
  by rewrite <- Ht.
Qed.

Lemma plural_non_integer_counts_zero_witness :
  transform latin1_To_UpperCase ∅ $"x9"
    (PluralTransformer [Build_PluralCase OpPluralCaseTypeExact 0 0 [LiteralOp $"none"]]
       [PluralCountOp; LiteralOp $" items"]) = $"none".
Proof.
  etrans.
  - refine (proj1 (plural_non_integer_counts_zero latin1_To_UpperCase ∅ _ _ $"x9" _)).
    vm_compute. discriminate.
  - reflexivity.
Defined.

(** ** The capitalize transformer *)

Section Capitalize.

Variable To_UpperCase : Z → Z.

(** What is assumed of the table of the standard library: the upper
    case of a scalar value is a scalar value, and is its own upper
    case. *)
Hypothesis To_UpperCase_valid :
  ∀ r, unicode.MaxASCII < r → utf8.ValidRune r = true →
       utf8.ValidRune (To_UpperCase r) = true.
Hypothesis To_UpperCase_upper :
  ∀ r, unicode.MaxASCII < r → utf8.ValidRune r = true →
       unicode.ToUpper To_UpperCase (To_UpperCase r) = To_UpperCase r.

Lemma ToUpper_valid r :
  utf8.ValidRune r = true → utf8.ValidRune (unicode.ToUpper To_UpperCase r) = true.
Proof.
  intros Hr. unfold unicode.ToUpper.
  destruct (Z.leb_spec r unicode.MaxASCII); [|by apply To_UpperCase_valid].
  destruct (_ && _) eqn:E; [|done].
  revert Hr E. unfold utf8.ValidRune, utf8.surrogateMin, utf8.surrogateMax, utf8.MaxRune.
  change (rune "a") with 97. change (rune "z") with 122. change (rune "A") with 65. lia.
Qed.

Lemma ToUpper_idempotent r :
  utf8.ValidRune r = true →
  unicode.ToUpper To_UpperCase (unicode.ToUpper To_UpperCase r) =
  unicode.ToUpper To_UpperCase r.
Proof.
  intros Hr. unfold unicode.ToUpper at 2 3.
  destruct (Z.leb_spec r unicode.MaxASCII) as [Hle|Hgt]; [|by apply To_UpperCase_upper].
  unfold unicode.ToUpper, unicode.MaxASCII in *.
  change (rune "a") with 97. change (rune "z") with 122. change (rune "A") with 65.
  destruct (Z.leb_spec 97 r), (Z.leb_spec r 122); cbn [andb];
    rewrite ?(proj2 (Z.leb_le _ 127)) by lia;
    try (rewrite (proj2 (Z.leb_gt 97 _)) by lia; done);
    try (rewrite (proj2 (Z.leb_gt _ 122)) by lia; by rewrite andb_false_r).
Qed.

Lemma DecodeRuneInString_valid s :
  utf8.ValidRune (utf8.DecodeRuneInString s).1 = true.
Proof.
  destruct s as [|c s]; [done|].
  pose proof (byteZ_range c).
  destruct (Z.lt_ge_cases (byteZ c) 0x80).
  - rewrite decode_ascii by done. simpl.
    unfold utf8.ValidRune, utf8.surrogateMin, utf8.surrogateMax, utf8.MaxRune. lia.
  - destruct (utf8.DecodeRuneInString (c :: s)) as [r w] eqn:E.
    by apply decode_nonascii in E as (_ & ? & _).
Qed.

Lemma capitalize_fixed (u : Z) (rest : bytes) :
  utf8.ValidRune u = true →
  unicode.ToUpper To_UpperCase u = u →
  capitalize To_UpperCase (utf8.encodeValid u ++ rest) = utf8.encodeValid u ++ rest.
Proof.
  intros Hu Hup. unfold capitalize.
  rewrite decode_encodeValid by done. rewrite Hup.
  unfold utf8.string_of_rune. rewrite Hu. by rewrite drop_app_length.
Qed.

Lemma capitalize_idempotent value :
  capitalize To_UpperCase (capitalize To_UpperCase value) = capitalize To_UpperCase value.
Proof.
  unfold capitalize at 2 3.
  pose proof (DecodeRuneInString_valid value) as Hr.
  destruct (utf8.DecodeRuneInString value) as [r size]. simpl in Hr.
  unfold utf8.string_of_rune. rewrite ToUpper_valid by done.
  apply capitalize_fixed; [by apply ToUpper_valid|by apply ToUpper_idempotent].
Qed.

(** C8.  Applying the capitalize transformer twice gives what applying
    it once gives, for every value, provided the upper-case table of the
    standard library maps scalar values to scalar values that are their
    own upper case. *)
Theorem Capitalize_twice (messages : gmap bytes Message) (value : bytes) :
  fold_left (transform To_UpperCase messages)
    [CapitalizeTransformer; CapitalizeTransformer] value =
  fold_left (transform To_UpperCase messages) [CapitalizeTransformer] value.
Proof. simpl. apply capitalize_idempotent. Qed.

(** C10.  The capitalize transformer turns the empty value into the three
    bytes of U+FFFD, provided the table has no upper case for U+FFFD. *)
Theorem Capitalize_empty :
  To_UpperCase utf8.RuneError = utf8.RuneError →
  capitalize To_UpperCase [] = ["239"; "191"; "189"]%char ∧
  utf8.DecodeRuneInString [] = (utf8.RuneError, 0%nat) ∧
  utf8.DecodeRuneInString ["239"; "191"; "189"]%char = (utf8.RuneError, 3%nat).
Proof.
  intros Herr. unfold capitalize. simpl.
  unfold unicode.ToUpper. simpl. by rewrite Herr.
Qed.

End Capitalize.

Lemma latin1_To_UpperCase_valid r :
  unicode.MaxASCII < r → utf8.ValidRune r = true →
  utf8.ValidRune (latin1_To_UpperCase r) = true.
Proof.
  unfold latin1_To_UpperCase, unicode.MaxASCII. intros H1 H2.
  destruct (Z.leb_spec 224 r), (Z.leb_spec r 254), (Z.eqb_spec r 247),
    (Z.eqb_spec r 255), (Z.eqb_spec r 181); cbn [andb negb]; try done.
  all: revert H2; unfold utf8.ValidRune, utf8.surrogateMin, utf8.surrogateMax, utf8.MaxRune; lia.
Qed.

Lemma latin1_To_UpperCase_upper r :
  unicode.MaxASCII < r → utf8.ValidRune r = true →
  unicode.ToUpper latin1_To_UpperCase (latin1_To_UpperCase r) = latin1_To_UpperCase r.
Proof.
  unfold unicode.ToUpper, latin1_To_UpperCase, unicode.MaxASCII.
  intros H1 _.
  destruct (Z.leb_spec 224 r), (Z.leb_spec r 254), (Z.eqb_spec r 247),
    (Z.eqb_spec r 255), (Z.eqb_spec r 181); cbn [andb negb]; try lia.
  all: zcmp_known; cbn [andb negb]; try reflexivity.
Qed.

Lemma Capitalize_twice_witness :
  fold_left (transform latin1_To_UpperCase ∅)
    [CapitalizeTransformer; CapitalizeTransformer] ["195"; "169"; "t"; "195"; "169"]%char =
  ["195"; "137"; "t"; "195"; "169"]%char.
Proof.
  etrans.
  - exact (Capitalize_twice latin1_To_UpperCase latin1_To_UpperCase_valid
             latin1_To_UpperCase_upper ∅ ["195"; "169"; "t"; "195"; "169"]%char).
  - reflexivity.
Defined.

Lemma Capitalize_empty_witness :
  capitalize latin1_To_UpperCase [] = ["239"; "191"; "189"]%char.
Proof. exact (proj1 (Capitalize_empty latin1_To_UpperCase eq_refl)). Defined.

(** ** The primitives of the lexer *)

Arguments ContainsRune : simpl never.
Arguments peek_rune : simpl never.
Arguments utf8.DecodeRuneInString : simpl never.
Arguments next : simpl never.
Arguments backup : simpl never.
Arguments peek : simpl never.
Arguments collect : simpl never.
Arguments error : simpl never.

Lemma view_input_length l pend rest toks :
  view l pend rest toks → (length (input l) = pos l + length rest)%nat.
Proof. intros (pre & Hi & Hs & Hp & Ht). rewrite Hi, Hp, !length_app. lia. Qed.

Lemma view_drop_pos l pend rest toks :
  view l pend rest toks → drop (pos l) (input l) = rest.
Proof.
  intros (pre & Hi & Hs & Hp & Ht). rewrite Hi, Hp, app_assoc.
  rewrite drop_app_length'; [done|]. by rewrite length_app.
Qed.

Lemma view_data l pend rest toks :
  view l pend rest toks → slice (input l) (start l) (pos l) = pend.
Proof.
  intros (pre & Hi & Hs & Hp & Ht). unfold slice. rewrite Hi, Hs, Hp.
  rewrite drop_app_length. replace (length pre + length pend - length pre)%nat
    with (length pend) by lia.
  by rewrite take_app_length.
Qed.

Lemma view_tokens l pend rest toks : view l pend rest toks → tokens l = toks.
Proof. by intros (pre & Hi & Hs & Hp & Ht). Qed.

Lemma view_start_pos l pend rest toks :
  view l pend rest toks → (start l =? pos l)%nat = bool_decide (pend = []).
Proof.
  intros (pre & Hi & Hs & Hp & Ht). rewrite Hs, Hp.
  case_bool_decide as Hp'.
  - subst pend. simpl. rewrite Nat.add_0_r. apply Nat.eqb_refl.
  - apply Nat.eqb_neq. destruct pend; [done|simpl; lia].
Qed.

Lemma next_eof l pend toks :
  view l pend [] toks →
  (next l).1 = eof ∧ view (next l).2 pend [] toks ∧ width (next l).2 = 0%nat.
Proof.
  intros Hv. pose proof (view_input_length _ _ _ _ Hv) as Hlen. simpl in Hlen.
  unfold next. rewrite (proj2 (Nat.leb_le _ _)) by lia. simpl.
  split; [done|]. split; [|done].
  destruct Hv as (pre & ? & ? & ? & ?). by exists pre.
Qed.

Lemma next_cons l pend c rest toks :
  view l pend (c :: rest) toks →
  let '(r, k) := utf8.DecodeRuneInString (c :: rest) in
  (next l).1 = r ∧
  view (next l).2 (pend ++ take k (c :: rest)) (drop k (c :: rest)) toks ∧
  width (next l).2 = k ∧ (1 ≤ k ≤ length (c :: rest))%nat.
Proof.
  intros Hv. pose proof (view_input_length _ _ _ _ Hv) as Hlen. simpl in Hlen.
  pose proof (view_drop_pos _ _ _ _ Hv) as Hdrop.
  unfold next. rewrite (proj2 (Nat.leb_gt _ _)) by lia. rewrite Hdrop.
  destruct (utf8.DecodeRuneInString (c :: rest)) as [r k] eqn:E. simpl.
  assert (1 ≤ k ≤ length (c :: rest))%nat as Hk.
  { pose proof (byteZ_range c). destruct (Z.lt_ge_cases (byteZ c) 0x80).
    - rewrite decode_ascii in E by done. injection E as <- <-. simpl. lia.
    - apply decode_nonascii in E as (_ & _ & ? & _); [lia|done]. }
  split; [done|]. split; [|done].
  destruct Hv as (pre & Hi & Hs & Hp & Ht). exists pre. simpl.
  split; [|split; [done|split; [|done]]].
  - by rewrite <- (assoc_L (++) pend), take_drop.
  - rewrite Hp, length_app, length_take. lia.
Qed.

Lemma next_ascii l pend c rest toks :
  view l pend (c :: rest) toks → byteZ c < 0x80 →
  (next l).1 = byteZ c ∧ view (next l).2 (pend ++ [c]) rest toks ∧
  width (next l).2 = 1%nat.
Proof.
  intros Hv Hc. pose proof (next_cons _ _ _ _ _ Hv) as H.
  rewrite decode_ascii in H by done. by destruct H as (? & ? & ? & _).
Qed.

(** A rune that is not ASCII spans bytes that are not ASCII. *)
Lemma next_high l pend c rest toks :
  view l pend (c :: rest) toks → 0x80 ≤ byteZ c →
  ∃ k, 0x80 ≤ (next l).1 ∧ (1 ≤ k ≤ length (c :: rest))%nat ∧
       Forall high (take k (c :: rest)) ∧
       view (next l).2 (pend ++ take k (c :: rest)) (drop k (c :: rest)) toks ∧
       width (next l).2 = k.
Proof.
  intros Hv Hc. pose proof (next_cons _ _ _ _ _ Hv) as H.
  destruct (utf8.DecodeRuneInString (c :: rest)) as [r k] eqn:E.
  destruct H as (H1 & H2 & H3 & H4). exists k.
  apply decode_nonascii in E as (? & _ & ? & ?); [|done].
  rewrite H1. done.
Qed.

Lemma backup_view l pend x rest toks :
  view l (pend ++ x) rest toks → width l = length x →
  view (backup l) pend (x ++ rest) toks.
Proof.
  intros (pre & Hi & Hs & Hp & Ht) Hw. exists pre. unfold backup. simpl.
  split; [by rewrite Hi, <- (assoc_L (++) pend)|]. split; [done|]. split; [|done].
  rewrite Hp, Hw, length_app. lia.
Qed.

Lemma peek_view l pend rest toks :
  view l pend rest toks →
  (peek l).1 = peek_rune rest ∧ view (peek l).2 pend rest toks.
Proof.
  intros Hv. unfold peek. destruct rest as [|c rest].
  - destruct (next_eof _ _ _ Hv) as (H1 & H2 & H3).
    destruct (next l) as [r l']. simpl in *. split; [done|].
    rewrite <- (app_nil_r pend) in H2. apply backup_view in H2; [|done].
    by rewrite app_nil_r in H2.
  - pose proof (next_cons _ _ _ _ _ Hv) as H. unfold peek_rune.
    destruct (utf8.DecodeRuneInString (c :: rest)) as [r k].
    destruct H as (H1 & H2 & H3 & H4).
    destruct (next l) as [r' l']. simpl in *. split; [done|].
    apply backup_view in H2.
    + by rewrite take_drop in H2.
    + rewrite H3, length_take. simpl. lia.
Qed.

Lemma peek_rune_nil : peek_rune [] = eof.
Proof. done. Qed.

Lemma peek_rune_ascii c rest : byteZ c < 0x80 → peek_rune (c :: rest) = byteZ c.
Proof. intros Hc. unfold peek_rune. by rewrite decode_ascii. Qed.

Lemma peek_rune_high c rest : 0x80 ≤ byteZ c → 0x80 ≤ peek_rune (c :: rest).
Proof.
  intros Hc. unfold peek_rune.
  destruct (utf8.DecodeRuneInString (c :: rest)) as [r k] eqn:E.
  by apply decode_nonascii in E as (? & _).
Qed.

(** Comparing the next rune with an ASCII character looks at one byte. *)
Lemma peek_rune_eqb rest z :
  0 ≤ z < 0x80 → (peek_rune rest =? z) = head_is z rest.
Proof.
  intros Hz. destruct rest as [|c rest]; cbn [head_is].
  - rewrite peek_rune_nil. apply Z.eqb_neq. unfold eof. lia.
  - pose proof (byteZ_range c). destruct (Z.lt_ge_cases (byteZ c) 0x80).
    + by rewrite peek_rune_ascii.
    + pose proof (peek_rune_high c rest). 
      rewrite (proj2 (Z.eqb_neq _ _)), (proj2 (Z.eqb_neq (byteZ c) _)); [done|lia..].
Qed.

Lemma peek_rune_eof rest : (peek_rune rest =? eof) = bool_decide (rest = []).
Proof.
  destruct rest as [|c rest]; [done|]. rewrite bool_decide_false by done.
  apply Z.eqb_neq. unfold eof. pose proof (byteZ_range c).
  destruct (Z.lt_ge_cases (byteZ c) 0x80).
  - rewrite peek_rune_ascii; lia.
  - pose proof (peek_rune_high c rest). lia.
Qed.

Lemma ContainsRune_high valid r : 0x80 ≤ r → ContainsRune valid r = false.
Proof.
  intros Hr. unfold ContainsRune, utf8.RuneSelf.
  by rewrite (proj2 (Z.ltb_ge _ _)), andb_false_r by lia.
Qed.

Lemma ContainsRune_eof valid : ContainsRune valid eof = false.
Proof. done. Qed.

Lemma ContainsRune_peek valid rest : ContainsRune valid (peek_rune rest) = accepts valid rest.
Proof.
  destruct rest as [|c rest]; [done|]. cbn [accepts].
  pose proof (byteZ_range c). destruct (Z.lt_ge_cases (byteZ c) 0x80).
  - by rewrite peek_rune_ascii.
  - rewrite !ContainsRune_high; [done|lia|by apply peek_rune_high].
Qed.

Lemma accepts_cons_ascii valid c rest :
  accepts valid (c :: rest) = true → byteZ c < 0x80.
Proof.
  simpl. unfold ContainsRune, utf8.RuneSelf. intros H.
  destruct (_ && _) eqn:E; [|done]. lia.
Qed.

Lemma next_rune l pend rest toks :
  view l pend rest toks → (next l).1 = peek_rune rest.
Proof.
  intros Hv. destruct rest as [|c rest].
  - by destruct (next_eof _ _ _ Hv) as (? & _).
  - pose proof (next_cons _ _ _ _ _ Hv) as H. unfold peek_rune.
    destruct (utf8.DecodeRuneInString (c :: rest)). by destruct H as (? & _).
Qed.

Lemma accept_view valid l pend rest toks :
  view l pend rest toks →
  (accept valid l).1 = accepts valid rest ∧
  if accepts valid rest then
    ∃ c rest', rest = c :: rest' ∧ view (accept valid l).2 (pend ++ [c]) rest' toks ∧
               width (accept valid l).2 = 1%nat
  else view (accept valid l).2 pend rest toks.
Proof.
  intros Hv. unfold accept.
  pose proof (next_rune _ _ _ _ Hv) as Hr.
  pose proof (peek_view _ _ _ _ Hv) as [_ Hp]. unfold peek in Hp.
  destruct (accepts valid rest) eqn:E.
  - destruct rest as [|c rest]; [done|].
    pose proof (accepts_cons_ascii _ _ _ E) as Hc.
    destruct (next_ascii _ _ _ _ _ Hv Hc) as (H1 & H2 & H3).
    clear Hr. destruct (next l) as [r l']. simpl in *. subst r.
    rewrite E. simpl. split; [done|]. by exists c, rest.
  - destruct (next l) as [r l']. simpl in *. subst r.
    rewrite ContainsRune_peek, E. done.
Qed.

Lemma span_len_le valid rest : (span_len valid rest ≤ length rest)%nat.
Proof.
  induction rest as [|c rest IH]; simpl; [lia|].
  destruct (ContainsRune valid (byteZ c)); simpl; lia.
Qed.

Lemma acceptRun_loop_view valid toks n l pend rest :
  view l pend rest toks → (length rest < n)%nat →
  ∃ l' j, acceptRun_loop n valid l = Some l' ∧
          view l' ((pend ++ take (span_len valid rest) rest) ++
                   take j (drop (span_len valid rest) rest))
                  (drop j (drop (span_len valid rest) rest)) toks ∧
          width l' = j ∧ (j ≤ length (drop (span_len valid rest) rest))%nat.
Proof.
  revert l pend rest. induction n as [|n IH]; intros l pend rest Hv Hn; [lia|].
  simpl. pose proof (next_rune _ _ _ _ Hv) as Hr.
  destruct rest as [|c rest].
  - destruct (next_eof _ _ _ Hv) as (H1 & H2 & H3).
    destruct (next l) as [r l']. simpl in *. subst r.
    exists l', 0%nat. simpl. rewrite !app_nil_r. done.
  - destruct (accepts valid (c :: rest)) eqn:E.
    + pose proof (accepts_cons_ascii _ _ _ E) as Hc.
      destruct (next_ascii _ _ _ _ _ Hv Hc) as (H1 & H2 & H3). clear Hr.
      destruct (next l) as [r l']. simpl in *. subst r.
      rewrite E. simpl in Hn.
      destruct (IH l' (pend ++ [c]) rest H2 ltac:(lia)) as (l'' & j & Hl & Hv' & Hw).
      exists l'', j. split; [done|]. by rewrite <- (assoc_L (++) pend) in Hv'.
    + pose proof (next_cons _ _ _ _ _ Hv) as H.
      destruct (utf8.DecodeRuneInString (c :: rest)) as [r k].
      destruct H as (H1 & H2 & H3 & H4).
      destruct (next l) as [r' l']. simpl in *. subst r'.
      rewrite ContainsRune_peek. simpl. rewrite E.
      exists l', k. rewrite take_0, app_nil_r. simpl in *.
      split; [done|]. split; [done|]. split; [done|]. lia.
Qed.

Lemma acceptRun_view valid l pend rest toks :
  view l pend rest toks →
  ∃ l', acceptRun valid l = Some l' ∧
        view l' (pend ++ take (span_len valid rest) rest)
                (drop (span_len valid rest) rest) toks.
Proof.
  intros Hv. unfold acceptRun, rest_fuel.
  pose proof (view_input_length _ _ _ _ Hv) as Hlen.
  destruct (acceptRun_loop_view valid toks (S (length (input l) - pos l)) l pend rest Hv)
    as (l' & j & Hl & Hv' & Hw & Hj); [lia|].
  rewrite Hl. simpl. exists (backup l'). split; [done|].
  apply backup_view in Hv'; [|by rewrite length_take; lia].
  by rewrite take_drop in Hv'.
Qed.

Lemma collect_view t l pend rest toks :
  view l pend rest toks → view (collect t l) [] rest (toks ++ emit t pend).
Proof.
  intros Hv. unfold collect, emit.
  rewrite (view_start_pos _ _ _ _ Hv), (view_data _ _ _ _ Hv), (view_tokens _ _ _ _ Hv).
  case_bool_decide as Hp.
  - subst pend. by rewrite app_nil_r.
  - destruct Hv as (pre & Hi & Hs & Hp' & Ht). exists (pre ++ pend). simpl.
    rewrite <- (assoc_L (++) pre), length_app, Nat.add_0_r. done.
Qed.

Lemma ignore_view l pend rest toks :
  view l pend rest toks → view (ignore l) [] rest toks.
Proof.
  intros (pre & Hi & Hs & Hp' & Ht). exists (pre ++ pend). unfold ignore. simpl.
  rewrite <- (assoc_L (++) pre), length_app, Nat.add_0_r. done.
Qed.

Lemma error_view isTerminal msg l pend rest toks :
  view l pend rest toks →
  ∃ text, view (error isTerminal msg l) [] rest
            (toks ++ [{| TokenType := errTok; Data := text |}]).
Proof.
  intros (pre & Hi & Hs & Hp' & Ht). eexists. exists (pre ++ pend). unfold error. simpl.
  rewrite <- (assoc_L (++) pre), length_app, Nat.add_0_r, Ht. done.
Qed.

(** ** The state functions of the lexer *)

Arguments ContainsRune : simpl never.
Arguments peek_rune : simpl never.
Arguments utf8.DecodeRuneInString : simpl never.
Arguments next : simpl never.
Arguments backup : simpl never.
Arguments peek : simpl never.
Arguments collect : simpl never.
Arguments error : simpl never.
Arguments accept : simpl never.
Arguments acceptRun : simpl never.
Arguments ignore : simpl never.

(** Reading the result of a primitive off the view of the lexer. *)
Ltac do_peek Hv :=
  let Hr := fresh "Hr" in
  let Hv' := fresh "Hv" in
  let r := fresh "r" in
  let l := fresh "l" in
  destruct (peek_view _ _ _ _ Hv) as [Hr Hv'];
  destruct (peek _) as [r l]; cbn [fst snd] in Hr, Hv'; subst r; clear Hv;
  rename Hv' into Hv.

Ltac rune_consts :=
  change (rune ":") with 58 in *; change (rune "\") with 92 in *;
  change (rune "|") with 124 in *; change (rune "(") with 40 in *;
  change (rune ")") with 41 in *; change (rune "=") with 61 in *;
  change (rune "-") with 45 in *; change (rune "{") with 123 in *;
  change (rune "}") with 125 in *; change (rune "#") with 35 in *.

Ltac do_next_ascii Hv :=
  let Hv' := fresh "Hv" in
  let Hw := fresh "Hw" in
  let Hc := fresh "Hc" in
  let r := fresh "r" in
  let l := fresh "l" in
  match type of Hv with
  | view _ _ (?c :: _) _ =>
    assert (byteZ c < 0x80) as Hc by (first [done | rune_consts; lia])
  end;
  destruct (next_ascii _ _ _ _ _ Hv Hc) as (_ & Hv' & Hw); clear Hc;
  match type of Hv with
  | view ?l0 _ _ _ => destruct (next l0) as [r l]
  end;
  cbn [fst snd] in Hv', Hw |- *; clear Hv; rename Hv' into Hv.

Ltac do_accept Hv :=
  let Ha := fresh "Ha" in
  let Hv' := fresh "Hv" in
  let ok := fresh "ok" in
  let l := fresh "l" in
  match type of Hv with
  | view ?l0 _ _ _ =>
    match goal with
    | |- context [accept ?valid l0] =>
      destruct (accept_view valid l0 _ _ _ Hv) as [Ha Hv'];
      destruct (accept valid l0) as [ok l]; cbn [fst snd] in Ha, Hv'; subst ok; clear Hv;
      rename Hv' into Hv
    end
  end.

Ltac do_acceptRun Hv :=
  let Hl := fresh "Hl" in
  let Hv' := fresh "Hv" in
  let l := fresh "l" in
  match type of Hv with
  | view ?l0 _ _ _ =>
    match goal with
    | |- context [acceptRun ?valid l0] =>
      destruct (acceptRun_view valid l0 _ _ _ Hv) as (l & Hl & Hv');
      rewrite Hl; cbn [mbind option_bind]; clear Hv Hl;
      rename Hv' into Hv
    end
  end.

Lemma byteZ_eq c z : (byteZ c =? z) = true → 0 ≤ z < 256 → c = utf8.byte_of z.
Proof.
  intros H%Z.eqb_eq Hz. apply byteZ_inj. by rewrite byteZ_byte_of.
Qed.

Lemma byteZ_eqb_char c (d : ascii) : (byteZ c =? byteZ d) = bool_decide (c = d).
Proof.
  case_bool_decide as H; [subst; apply Z.eqb_refl|].
  apply Z.eqb_neq. by intros ?%byteZ_inj.
Qed.

Lemma byteZ_eqb_eq c (d : ascii) : (byteZ c =? rune d) = true → c = d.
Proof. unfold rune. rewrite byteZ_eqb_char. apply bool_decide_eq_true. Qed.

Lemma span_len_accepts valid rest :
  accepts valid rest = true → (1 ≤ span_len valid rest)%nat.
Proof. destruct rest as [|c rest]; [done|]. simpl. intros ->. lia. Qed.

Lemma span_len_Forall valid rest :
  Forall (λ c, ContainsRune valid (byteZ c) = true) (take (span_len valid rest) rest).
Proof.
  induction rest as [|c rest IH]; [constructor|]. cbn [span_len].
  destruct (ContainsRune valid (byteZ c)) eqn:E; [|constructor].
  cbn [take]. by constructor.
Qed.

Lemma emit_nonempty t d : d ≠ [] → emit t d = [tok t d].
Proof. intros Hd. unfold emit. by rewrite bool_decide_false. Qed.

Lemma take_span_nonempty valid rest :
  accepts valid rest = true → take (span_len valid rest) rest ≠ [].
Proof.
  intros Ha. pose proof (span_len_accepts _ _ Ha).
  destruct rest as [|c rest]; [done|]. destruct (span_len _ _); [lia|done].
Qed.

Lemma high_not_ascii c z : high c → z < 0x80 → (byteZ c =? z) = false.
Proof. unfold high. intros. apply Z.eqb_neq. lia. Qed.

Lemma scan_lit_high x rest :
  Forall high x → scan_lit (x ++ rest) = (length x + scan_lit rest)%nat.
Proof.
  induction 1 as [|c x Hc Hx IH]; [done|].
  cbn [app scan_lit length]. rune_consts.
  rewrite !(high_not_ascii c) by (done || lia). by rewrite IH.
Qed.

Lemma scan_lit_le rest : (scan_lit rest ≤ length rest)%nat.
Proof.
  remember (length rest) as n eqn:Hn. revert rest Hn.
  induction n as [n IH] using lt_wf_ind. intros rest ->.
  destruct rest as [|c rest]; [done|]. cbn [scan_lit length].
  destruct (_ =? _); [lia|].
  destruct (_ =? _).
  - destruct rest as [|c' rest]; [simpl; lia|].
    destruct (_ =? _); cbn [length].
    + pose proof (IH (length rest) ltac:(simpl; lia) rest eq_refl). lia.
    + pose proof (IH (length (c' :: rest)) ltac:(simpl; lia) _ eq_refl). simpl in *. lia.
  - pose proof (IH (length rest) ltac:(simpl; lia) rest eq_refl). lia.
Qed.

Lemma lit_post_shift res toks pend x rest :
  scan_lit (x ++ rest) = (length x + scan_lit rest)%nat →
  lit_post res toks (pend ++ x) rest → lit_post res toks pend (x ++ rest).
Proof.
  intros Hk (l' & Hres & Hv). exists l'.
  rewrite Hk, drop_app_add, take_app_add. by rewrite (assoc_L (++) pend).
Qed.

Section LexerSteps.

Variable isTerminal : bool.

Lemma lexLiteral_loop_view toks n l pend rest :
  view l pend rest toks → (length rest < n)%nat →
  lit_post (lexLiteral_loop n l) toks pend rest.
Proof.
  revert l pend rest. induction n as [|n IH]; intros l pend rest Hv Hn; [lia|].
  cbn [lexLiteral_loop].
  do_peek Hv. rewrite peek_rune_eof.
  destruct rest as [|c rest].
  { rewrite bool_decide_true by done. eexists. split; [done|].
    cbn [scan_lit take drop]. rewrite app_nil_r. by apply collect_view. }
  rewrite bool_decide_false by done.
  do_peek Hv. rewrite peek_rune_eqb by (rune_consts; lia). cbn [head_is].
  destruct (byteZ c =? rune ":") eqn:E1.
  { eexists. cbn [scan_lit]. rewrite E1. split; [done|]. cbn [take drop].
    rewrite app_nil_r. by apply collect_view. }
  do_peek Hv. rewrite peek_rune_eqb by (rune_consts; lia). cbn [head_is].
  cbn [length] in Hn.
  destruct (byteZ c =? rune "\") eqn:E2.
  - assert (byteZ c < 128) as Hc by (rune_consts; lia).
    destruct (next_ascii _ _ _ _ _ Hv Hc) as (_ & Hv1 & _).
    destruct (next l2) as [r l3]. cbn [snd] in Hv1. clear Hv.
    do_peek Hv1. rewrite peek_rune_eqb by (rune_consts; lia).
    destruct rest as [|c' rest]; cbn [head_is].
    + apply (lit_post_shift _ _ _ [c] []); [cbn [app scan_lit]; by rewrite E1, E2|].
      apply IH; [done|simpl; lia].
    + destruct (byteZ c' =? rune ":") eqn:E3.
      * assert (byteZ c' < 128) as Hc' by (rune_consts; lia).
        destruct (next_ascii _ _ _ _ _ Hv1 Hc') as (_ & Hv2 & _).
        destruct (next l) as [r' lx]. cbn [snd] in *.
        apply (lit_post_shift _ _ _ [c; c'] rest);
          [cbn [app scan_lit length]; by rewrite E1, E2, E3|].
        rewrite <- (assoc_L (++) pend) in Hv2.
        apply IH; [done|simpl in *; lia].
      * apply (lit_post_shift _ _ _ [c] (c' :: rest));
          [cbn [app scan_lit length]; by rewrite E1, E2, E3|].
        apply IH; [done|simpl in *; lia].
  - pose proof (byteZ_range c). destruct (Z.lt_ge_cases (byteZ c) 0x80) as [Hc|Hc].
    + destruct (next_ascii _ _ _ _ _ Hv Hc) as (_ & Hv1 & _).
      destruct (next l2) as [r l3]. cbn [snd] in Hv1.
      apply (lit_post_shift _ _ _ [c] rest); [cbn [app scan_lit length]; by rewrite E1, E2|].
      apply IH; [done|lia].
    + destruct (next_high _ _ _ _ _ Hv Hc) as (k & _ & Hk & Hhigh & Hv1 & _).
      destruct (next l2) as [r l3]. cbn [snd] in Hv1.
      rewrite <- (take_drop k (c :: rest)).
      apply lit_post_shift; [by apply scan_lit_high|].
      apply IH; [done|]. rewrite length_drop. simpl in *. lia.
Qed.

Lemma lexLiteral_view l pend rest toks :
  view l pend rest toks →
  step_post (lexLiteral l) toks (step_lexLiteral pend rest).
Proof.
  intros Hv. unfold step_lexLiteral, lexLiteral, rest_fuel.
  pose proof (view_input_length _ _ _ _ Hv).
  apply lexLiteral_loop_view; [done|lia].
Qed.

Lemma lexerPlaceholder_view l pend rest toks :
  view l pend rest toks → head_is (rune ":") rest = true →
  step_post (lexerPlaceholder l) toks (step_lexerPlaceholder pend (tail rest)).
Proof.
  intros Hv Hc. destruct rest as [|c rest]; [done|]. cbn [head_is tail] in *.
  apply byteZ_eq in Hc as ->; [|done].
  unfold lexerPlaceholder, step_lexerPlaceholder.
  do_next_ascii Hv.
  do_accept Hv.
  destruct (accepts lowercase rest) eqn:Ha; cbn [negb].
  - destruct Hv as (c1 & rest1 & -> & Hv & Hw1).
    apply backup_view in Hv; [|done]. apply ignore_view in Hv.
    do_acceptRun Hv. apply (collect_view replacement) in Hv.
    rewrite emit_nonempty in Hv by (by apply take_span_nonempty).
    do_peek Hv. rewrite peek_rune_eqb by done.
    destruct (head_is _ _); eexists; (split; [done|]); done.
  - eexists. split; [done|]. by rewrite app_nil_r.
Qed.

Lemma next_any_view l pend rest toks :
  view l pend rest toks → ∃ pend' rest', view (next l).2 pend' rest' toks.
Proof.
  intros Hv. destruct rest as [|c rest].
  - destruct (next_eof _ _ _ Hv) as (_ & ? & _). eauto.
  - pose proof (next_cons _ _ _ _ _ Hv) as H.
    destruct (utf8.DecodeRuneInString (c :: rest)). destruct H as (_ & ? & _). eauto.
Qed.

Lemma error_step msg l pend rest toks toks0 :
  view l pend rest toks →
  step_post (Some (None, error isTerminal msg l)) toks0 StepErr.
Proof.
  intros Hv. destruct (error_view isTerminal msg _ _ _ _ Hv) as (text & Hv').
  exists (error isTerminal msg l), toks, text. split; [done|].
  by apply view_tokens in Hv'.
Qed.

Lemma span_len_cons valid c rest :
  accepts valid (c :: rest) = true →
  span_len valid (c :: rest) = S (span_len valid rest).
Proof. simpl. by intros ->. Qed.

Lemma lexerTransformer_view l pend rest toks :
  view l pend rest toks →
  step_post (lexerTransformer isTerminal l) toks (step_lexerTransformer pend rest).
Proof.
  intros Hv. unfold lexerTransformer, step_lexerTransformer.
  do_peek Hv. rewrite peek_rune_eqb by done.
  destruct rest as [|c rest]; cbn [head_is negb].
  { eexists. split; [done|]. by rewrite app_nil_r. }
  destruct (byteZ c =? rune "|") eqn:E; cbn [negb];
    [|eexists; split; [done|]; by rewrite app_nil_r].
  do_next_ascii Hv. apply ignore_view in Hv.
  do_accept Hv.
  destruct (accepts lowercase rest) eqn:Ha; cbn [negb].
  2:{ destruct (next_any_view _ _ _ _ Hv) as (pend' & rest' & Hv').
      destruct (next l2) as [r' l3]. by eapply error_step. }
  destruct Hv as (c1 & rest1 & -> & Hv & Hw1).
  rewrite (span_len_cons _ _ _ Ha). cbn [take drop].
  do_acceptRun Hv. cbn [app] in Hv.
  unfold data. rewrite (view_data _ _ _ _ Hv).
  set (name := c1 :: take (span_len lowercase rest1) rest1) in *.
  set (rest2 := drop (span_len lowercase rest1) rest1) in *.
  destruct (bool_decide (name = $"plural")).
  - do_peek Hv. rewrite peek_rune_eqb by done.
    destruct rest2 as [|c2 rest3]; cbn [head_is negb]; [by eapply error_step|].
    destruct (byteZ c2 =? rune "(") eqn:E2; cbn [negb]; [|by eapply error_step].
    apply (collect_view transformer) in Hv. rewrite emit_nonempty in Hv by (cbn [app]; done).
    do_next_ascii Hv. by eexists.
  - destruct (_ || _); [|by eapply error_step].
    apply (collect_view transformer) in Hv. rewrite emit_nonempty in Hv by (cbn [app]; done).
    by eexists.
Qed.

Lemma span_len_stop valid rest :
  accepts valid (drop (span_len valid rest) rest) = false.
Proof.
  induction rest as [|c rest IH]; [done|]. cbn [span_len].
  destruct (ContainsRune valid (byteZ c)) eqn:E; [done|]. cbn [drop accepts]. done.
Qed.

Lemma step_lexerPluralArgs_spaces rest :
  step_lexerPluralArgs rest = step_lexerPluralArgs (drop (span_len spaces rest) rest).
Proof.
  induction rest as [|c rest IH]; [done|]. cbn [span_len].
  destruct (ContainsRune spaces (byteZ c)) eqn:E; [|done].
  cbn [drop step_lexerPluralArgs]. by rewrite E.
Qed.

Lemma HasPrefix_high c rest : high c → HasPrefix (c :: rest) $"other" = false.
Proof.
  intros Hc. cbn [HasPrefix list_ascii_of_string].
  replace (Ascii.eqb c "o") with false; [done|].
  symmetry. apply Ascii.eqb_neq. intros ->. revert Hc. unfold high.
  change (byteZ "o") with 111. lia.
Qed.

Lemma step_lexerPluralArgs_high x rest :
  Forall high x → step_lexerPluralArgs (x ++ rest) = step_lexerPluralArgs rest.
Proof.
  induction 1 as [|c x Hc Hx IH]; [done|].
  cbn [app step_lexerPluralArgs]. rune_consts.
  rewrite ContainsRune_high by done.
  rewrite !(high_not_ascii c) by (done || lia).
  by rewrite HasPrefix_high.
Qed.

Lemma HasPrefix_app s p : HasPrefix s p = true → s = p ++ drop (length p) s.
Proof.
  revert s. induction p as [|c p IH]; intros s; [done|].
  destruct s as [|c' s]; [done|]. cbn [HasPrefix].
  intros [Hc Hp]%andb_true_iff. apply Ascii.eqb_eq in Hc as ->.
  cbn [app length drop]. f_equal. by apply IH.
Qed.

Lemma lexerPluralArgs_loop_view toks n l pend rest :
  view l pend rest toks → (length rest < n)%nat →
  step_post (lexerPluralArgs_loop isTerminal n l) toks (step_lexerPluralArgs rest).
Proof.
  revert l pend rest. induction n as [|n IH]; intros l pend rest Hv Hn; [lia|].
  cbn [lexerPluralArgs_loop].
  do_acceptRun Hv. apply ignore_view in Hv.
  rewrite step_lexerPluralArgs_spaces.
  pose proof (span_len_stop spaces rest) as Hstop.
  assert (length (drop (span_len spaces rest) rest) < S n)%nat as Hn'
    by (rewrite length_drop; lia).
  clear Hn. revert Hv Hstop Hn'. generalize (drop (span_len spaces rest) rest).
  clear rest pend. intros rest Hv Hstop Hn.
  do_peek Hv. rewrite peek_rune_eqb by done.
  destruct rest as [|c rest]; cbn [head_is].
  { do_peek Hv. rewrite peek_rune_eqb by done. cbn [head_is].
    rewrite (view_drop_pos _ _ _ _ Hv). cbn [HasPrefix list_ascii_of_string].
    pose proof (next_rune _ _ _ _ Hv) as Hr.
    destruct (next_eof _ _ _ Hv) as (_ & Hv' & _).
    destruct (next l2) as [r l3]. cbn [fst snd] in *. subst r.
    rewrite peek_rune_eof, bool_decide_true by done. by eapply error_step. }
  cbn [accepts] in Hstop. cbn [step_lexerPluralArgs]. rewrite Hstop.
  destruct (byteZ c =? rune ")") eqn:E1.
  { do_next_ascii Hv. apply ignore_view in Hv. exists (ignore l2).
    split; [done|]. by rewrite app_nil_r. }
  do_peek Hv. rewrite peek_rune_eqb by done. cbn [head_is].
  destruct (byteZ c =? rune "=") eqn:E2.
  { eexists. split; [done|]. by rewrite app_nil_r. }
  rewrite (view_drop_pos _ _ _ _ Hv).
  destruct (HasPrefix (c :: rest) $"other") eqn:E3.
  { apply HasPrefix_app in E3. cbn [length list_ascii_of_string] in E3.
    rewrite E3 in Hv. cbn [app] in Hv.
    unfold Nat.iter. cbn [nat_rect].
    do_next_ascii Hv. do_next_ascii Hv. do_next_ascii Hv. do_next_ascii Hv.
    do_next_ascii Hv. cbn [snd].
    apply (collect_view pluralOther) in Hv. rewrite emit_nonempty in Hv by (cbn [app]; done).
    eexists. split; [done|]. done. }
  pose proof (next_rune _ _ _ _ Hv) as Hr.
  pose proof (byteZ_range c). destruct (Z.lt_ge_cases (byteZ c) 0x80) as [Hc|Hc].
  - destruct (next_ascii _ _ _ _ _ Hv Hc) as (_ & Hv' & _).
    destruct (next l2) as [r l3]. cbn [fst snd] in *. subst r.
    rewrite peek_rune_eof, bool_decide_false by done.
    eapply IH; [done|]. simpl in *. lia.
  - destruct (next_high _ _ _ _ _ Hv Hc) as (k & _ & Hk & Hhigh & Hv' & _).
    destruct (next l2) as [r l3]. cbn [fst snd] in *. subst r.
    rewrite peek_rune_eof, bool_decide_false by done.
    assert (step_lexerPluralArgs rest = step_lexerPluralArgs (drop k (c :: rest))) as ->.
    { destruct k as [|k]; [lia|]. cbn [drop].
      rewrite <- (take_drop k rest) at 1. apply step_lexerPluralArgs_high.
      cbn [take] in Hhigh. by inversion Hhigh. }
    eapply IH; [done|]. rewrite length_drop. simpl in *. lia.
Qed.

Lemma lexerPluralArgs_view l pend rest toks :
  view l pend rest toks →
  step_post (lexerPluralArgs isTerminal l) toks (step_lexerPluralArgs rest).
Proof.
  intros Hv. unfold lexerPluralArgs, rest_fuel.
  pose proof (view_input_length _ _ _ _ Hv).
  eapply lexerPluralArgs_loop_view; [done|lia].
Qed.

Lemma lexerPluralNumericArg_view l pend rest toks :
  view l pend rest toks → head_is (rune "=") rest = true →
  step_post (lexerPluralNumericArg isTerminal l) toks
    (step_lexerPluralNumericArg (tail rest)).
Proof.
  intros Hv Hc. destruct rest as [|c rest]; [done|]. cbn [head_is tail] in *.
  unfold lexerPluralNumericArg, step_lexerPluralNumericArg.
  do_next_ascii Hv. apply ignore_view in Hv.
  do_accept Hv.
  destruct (accepts digits rest) eqn:Ha; cbn [negb]; [|by eapply error_step].
  destruct Hv as (c1 & rest1 & -> & Hv & Hw1).
  rewrite (span_len_cons _ _ _ Ha). cbn [take drop].
  do_acceptRun Hv. cbn [app] in Hv.
  apply (collect_view pluralNumeric) in Hv. rewrite emit_nonempty in Hv by (cbn [app]; done).
  do_peek Hv. rewrite peek_rune_eqb by done.
  destruct (drop (span_len digits rest1) rest1) as [|c2 rest2]; cbn [head_is].
  { by eexists. }
  destruct (byteZ c2 =? rune "-") eqn:E; [|by eexists].
  do_next_ascii Hv.
  apply (collect_view pluralRange) in Hv. rewrite emit_nonempty in Hv by (cbn [app]; done).
  do_accept Hv.
  destruct (accepts digits rest2) eqn:Ha2; cbn [negb]; [|by eapply error_step].
  destruct Hv as (c3 & rest3 & -> & Hv & Hw3).
  rewrite (span_len_cons _ _ _ Ha2). cbn [take drop].
  do_acceptRun Hv. cbn [app] in Hv.
  apply (collect_view pluralNumeric) in Hv. rewrite emit_nonempty in Hv by (cbn [app]; done).
  eexists. split; [done|]. by rewrite <- !(assoc_L (++) toks) in Hv.
Qed.

Lemma step_post_prepend res toks new sr :
  step_post res (toks ++ new) sr → step_post res toks (prepend new sr).
Proof.
  destruct sr as [|new' st' pend' rest']; [done|]. simpl.
  intros (l' & ? & Hv). exists l'. by rewrite (assoc_L (++) toks).
Qed.

Lemma step_body_high pend x rest :
  Forall high x → step_body pend (x ++ rest) = step_body (pend ++ x) rest.
Proof.
  intros Hx. revert pend. induction Hx as [|c x Hc Hx IH]; intros pend.
  { by rewrite app_nil_r. }
  cbn [app step_body]. rune_consts.
  rewrite !(high_not_ascii c) by (done || lia).
  by rewrite IH, <- (assoc_L (++) pend).
Qed.

Lemma lexerPluralTranslation_loop_view n l pend rest toks :
  view l pend rest toks → (length rest < n)%nat →
  step_post (lexerPluralTranslation_loop isTerminal n l) toks (step_body pend rest).
Proof.
  revert l pend rest toks. induction n as [|n IH]; intros l pend rest toks Hv Hn; [lia|].
  cbn [lexerPluralTranslation_loop].
  do_peek Hv. rewrite peek_rune_eqb by done.
  destruct rest as [|c rest]; cbn [head_is step_body].
  { pose proof (next_rune _ _ _ _ Hv) as Hr.
    destruct (next_eof _ _ _ Hv) as (_ & Hv' & _).
    destruct (next l0) as [r l1]. cbn [fst snd] in *. subst r.
    rewrite peek_rune_eof, bool_decide_true by done. by eapply error_step. }
  destruct (byteZ c =? rune "}") eqn:E1.
  { apply (collect_view literal) in Hv. do_next_ascii Hv.
    apply (collect_view pluralTranslationEnd) in Hv.
    rewrite (emit_nonempty pluralTranslationEnd) in Hv by (cbn [app]; done).
    eexists. split; [done|]. by rewrite <- (assoc_L (++) toks) in Hv. }
  pose proof (byteZ_range c). destruct (Z.lt_ge_cases (byteZ c) 0x80) as [Hc|Hc].
  - destruct (next_ascii _ _ _ _ _ Hv Hc) as (Hr' & Hv' & Hw).
    destruct (next l0) as [r l1]. cbn [fst snd] in *. subst r.
    replace (byteZ c =? eof) with false by (symmetry; apply Z.eqb_neq; unfold eof; lia).
    destruct (byteZ c =? rune "#") eqn:E2.
    + apply backup_view in Hv'; [|done]. cbn [app] in Hv'.
      apply (collect_view literal) in Hv'. do_next_ascii Hv'.
      apply (collect_view pluralCount) in Hv'.
      rewrite (emit_nonempty pluralCount) in Hv' by (cbn [app]; done).
      apply step_post_prepend. rewrite (assoc_L (++) toks).
      eapply IH; [done|]. simpl in *. lia.
    + eapply IH; [done|]. simpl in *. lia.
  - destruct (next_high _ _ _ _ _ Hv Hc) as (k & Hr' & Hk & Hhigh & Hv' & _).
    destruct (next l0) as [r l1]. cbn [fst snd] in *.
    replace (r =? eof) with false by (symmetry; apply Z.eqb_neq; unfold eof; lia).
    replace (r =? rune "#") with false by (symmetry; apply Z.eqb_neq; rune_consts; lia).
    rewrite (high_not_ascii c (rune "#")) by (done || (rune_consts; lia)).
    replace (step_body (pend ++ [c]) rest)
      with (step_body (pend ++ take k (c :: rest)) (drop k (c :: rest))).
    + eapply IH; [done|]. rewrite length_drop. simpl in *. lia.
    + rewrite <- step_body_high by done. rewrite take_drop.
      cbn [step_body]. rune_consts. by rewrite !(high_not_ascii c) by (done || lia).
Qed.

Lemma lexerPluralTranslation_view l pend rest toks :
  view l pend rest toks →
  step_post (lexerPluralTranslation isTerminal l) toks (step_lexerPluralTranslation rest).
Proof.
  intros Hv. unfold lexerPluralTranslation, step_lexerPluralTranslation.
  do_acceptRun Hv. apply ignore_view in Hv.
  do_peek Hv. rewrite peek_rune_eqb by done.
  destruct (drop (span_len spaces rest) rest) as [|c rest1]; cbn [head_is negb].
  { by eapply error_step. }
  destruct (byteZ c =? rune "{") eqn:E; cbn [negb]; [|by eapply error_step].
  do_next_ascii Hv.
  apply (collect_view pluralTranslationStart) in Hv. rewrite emit_nonempty in Hv by (cbn [app]; done).
  apply step_post_prepend.
  pose proof (view_input_length _ _ _ _ Hv).
  eapply lexerPluralTranslation_loop_view; [done|]. unfold rest_fuel. lia.
Qed.

Lemma call_view st l pend rest toks :
  view l pend rest toks → config_ok st rest →
  step_post (call isTerminal st l) toks (step st pend rest).
Proof.
  intros Hv Hok. destruct st; cbn [call step config_ok] in *.
  - by apply lexLiteral_view.
  - by apply lexerPlaceholder_view.
  - by apply lexerTransformer_view.
  - by eapply lexerPluralArgs_view.
  - by eapply lexerPluralNumericArg_view.
  - by eapply lexerPluralTranslation_view.
Qed.

End LexerSteps.

(** ** The run of the lexer *)

Lemma scan_lit_stop rest :
  match drop (scan_lit rest) rest with
  | [] => True
  | c :: _ => byteZ c = rune ":"
  end.
Proof.
  remember (length rest) as n eqn:Hn. revert rest Hn.
  induction n as [n IH] using lt_wf_ind. intros rest ->.
  destruct rest as [|c rest]; [done|]. cbn [scan_lit].
  destruct (byteZ c =? rune ":") eqn:E1; [by apply Z.eqb_eq in E1|].
  destruct (byteZ c =? rune "\") eqn:E2.
  - destruct rest as [|c' rest]; [done|].
    destruct (byteZ c' =? rune ":") eqn:E3; cbn [drop].
    + apply (IH (length rest)); [simpl; lia|done].
    + apply (IH (length (c' :: rest))); [simpl; lia|done].
  - cbn [drop]. apply (IH (length rest)); [simpl; lia|done].
Qed.

Lemma emit_not_err t pend : t ≠ errTok → Forall not_err (emit t pend).
Proof.
  intros Ht. unfold emit. case_bool_decide; [constructor|]. by repeat constructor.
Qed.

Lemma step_lexLiteral_ok pend rest :
  step_ok state_lexLiteral rest (step_lexLiteral pend rest).
Proof.
  unfold step_lexLiteral, step_ok. split; [by apply emit_not_err|].
  pose proof (scan_lit_stop rest) as Hstop.
  pose proof (length_drop rest (scan_lit rest)) as Hlen.
  destruct (drop (scan_lit rest) rest) as [|c rest'] eqn:E.
  - split; [simpl; lia|done].
  - split; [|by apply Z.eqb_eq]. simpl in *. lia.
Qed.

Lemma step_lexerPlaceholder_ok pend c rest :
  step_ok state_lexerPlaceholder (c :: rest) (step_lexerPlaceholder pend rest).
Proof.
  unfold step_lexerPlaceholder, step_ok.
  destruct (accepts lowercase rest) eqn:Ha.
  - split; [by repeat constructor|].
    pose proof (span_len_accepts _ _ Ha). pose proof (span_len_le lowercase rest).
    split; [|by destruct (head_is _ _)].
    destruct (head_is _ _); cbn [measure rank length]; rewrite length_drop; lia.
  - split; [constructor|]. split; [|done]. cbn [measure rank length]. lia.
Qed.

Lemma step_lexerTransformer_ok pend rest :
  step_ok state_lexerTransformer rest (step_lexerTransformer pend rest).
Proof.
  unfold step_lexerTransformer, step_ok.
  destruct rest as [|c rest]; [split; [constructor|]; split; [simpl; lia|done]|].
  destruct (byteZ c =? rune "|"); [|split; [constructor|]; split; [simpl; lia|done]].
  destruct (accepts lowercase rest) eqn:Ha; [|done].
  pose proof (span_len_accepts _ _ Ha). pose proof (span_len_le lowercase rest).
  pose proof (length_drop rest (span_len lowercase rest)) as Hlen.
  destruct (bool_decide _).
  - destruct (drop _ rest) as [|c2 rest3]; [done|].
    destruct (byteZ c2 =? rune "("); [|done].
    split; [by repeat constructor|]. split; [|done]. simpl in *. lia.
  - destruct (_ || _); [|done].
    split; [by repeat constructor|]. split; [|done]. simpl in *. lia.
Qed.

Lemma step_lexerPluralArgs_ok rest :
  step_ok state_lexerPluralArgs rest (step_lexerPluralArgs rest).
Proof.
  assert (∀ rest0, (length rest ≤ length rest0)%nat →
            step_ok state_lexerPluralArgs rest0 (step_lexerPluralArgs rest)) as H;
    [|by apply H].
  induction rest as [|c rest IH]; intros rest0 Hlen; [done|].
  cbn [step_lexerPluralArgs]. cbn [length] in Hlen.
  destruct (ContainsRune spaces (byteZ c)); [apply IH; lia|].
  destruct (byteZ c =? rune ")").
  { split; [constructor|]. split; [|done]. simpl. lia. }
  destruct (byteZ c =? rune "=") eqn:E.
  { split; [constructor|]. split; [|done]. simpl. lia. }
  destruct (HasPrefix _ _); [|apply IH; lia].
  split; [by repeat constructor|]. split; [|done].
  cbn [measure rank]. rewrite length_drop. simpl. lia.
Qed.

Lemma step_lexerPluralNumericArg_ok c rest :
  step_ok state_lexerPluralNumericArg (c :: rest) (step_lexerPluralNumericArg rest).
Proof.
  unfold step_lexerPluralNumericArg, step_ok.
  destruct (accepts digits rest) eqn:Ha; [|done].
  pose proof (span_len_accepts _ _ Ha). pose proof (span_len_le digits rest).
  pose proof (length_drop rest (span_len digits rest)) as Hlen.
  destruct (drop _ rest) as [|c1 rest2].
  { split; [by repeat constructor|]. split; [|done]. simpl in *. lia. }
  destruct (byteZ c1 =? rune "-").
  - destruct (accepts digits rest2) eqn:Ha2; [|done].
    split; [by repeat constructor|]. split; [|done].
    cbn [measure rank length] in *. rewrite length_drop. lia.
  - split; [by repeat constructor|]. split; [|done]. simpl in *. lia.
Qed.

Lemma step_ok_prepend st rest new sr rest0 :
  Forall not_err new → (length rest ≤ length rest0)%nat →
  step_ok st rest sr → step_ok st rest0 (prepend new sr).
Proof.
  intros Hnew Hlen. destruct sr as [|new' st' pend' rest']; [done|].
  intros (H1 & H2 & H3). split; [by apply Forall_app|]. split; [|done].
  destruct st'; simpl in *; lia.
Qed.

Lemma step_body_ok pend rest rest0 :
  (length rest < length rest0)%nat →
  step_ok state_lexerPluralTranslation rest0 (step_body pend rest).
Proof.
  revert pend. induction rest as [|c rest IH]; intros pend Hlen; [done|].
  cbn [step_body]. cbn [length] in Hlen.
  destruct (byteZ c =? rune "}").
  { split; [apply Forall_app; split; [by apply emit_not_err|by repeat constructor]|].
    split; [|done]. simpl. lia. }
  destruct (byteZ c =? rune "#"); [|apply IH; lia].
  eapply (step_ok_prepend _ rest0); [|lia|apply IH; lia].
  apply Forall_app; split; [by apply emit_not_err|by repeat constructor].
Qed.

Lemma step_lexerPluralTranslation_ok rest :
  step_ok state_lexerPluralTranslation rest (step_lexerPluralTranslation rest).
Proof.
  unfold step_lexerPluralTranslation.
  pose proof (length_drop rest (span_len spaces rest)) as Hlen.
  destruct (drop _ rest) as [|c rest1]; [done|].
  destruct (byteZ c =? rune "{"); [|done].
  eapply (step_ok_prepend _ rest); [by repeat constructor|lia|].
  apply step_body_ok. simpl in *. lia.
Qed.

Lemma step_is_ok st pend rest :
  config_ok st rest → step_ok st rest (step st pend rest).
Proof.
  intros Hok. destruct st; cbn [step].
  - apply step_lexLiteral_ok.
  - destruct rest as [|c rest]; [done|]. apply step_lexerPlaceholder_ok.
  - apply step_lexerTransformer_ok.
  - apply step_lexerPluralArgs_ok.
  - destruct rest as [|c rest]; [done|]. apply step_lexerPluralNumericArg_ok.
  - apply step_lexerPluralTranslation_ok.
Qed.

(** The lexer terminates: the fuel of the measure is enough. *)
Lemma lex_from_total n st pend rest :
  match st with Some st => config_ok st rest | None => True end →
  (measure st rest ≤ n)%nat → lex_from n st pend rest ≠ None.
Proof.
  revert st pend rest. induction n as [|n IH]; intros st pend rest Hok Hn.
  { destruct st; [simpl in Hn; lia|done]. }
  destruct st as [st|]; [|done]. cbn [lex_from].
  pose proof (step_is_ok st pend rest Hok) as Hstep.
  destruct (step st pend rest) as [|new st' pend' rest']; [done|].
  destruct Hstep as (_ & Hm & Hok').
  specialize (IH st' pend' rest' Hok' ltac:(lia)).
  destruct (lex_from n st' pend' rest') as [[T|]|]; done.
Qed.

Lemma lex_from_not_err n st pend rest T :
  match st with Some st => config_ok st rest | None => True end →
  lex_from n st pend rest = Some (Some T) → Forall not_err T.
Proof.
  revert st pend rest T. induction n as [|n IH]; intros st pend rest T Hok.
  { destruct st; [done|]. intros [= <-]. constructor. }
  destruct st as [st|]; [|intros [= <-]; constructor]. cbn [lex_from].
  pose proof (step_is_ok st pend rest Hok) as Hstep.
  destruct (step st pend rest) as [|new st' pend' rest']; [done|].
  destruct Hstep as (Hnew & _ & Hok').
  specialize (IH st' pend' rest').
  destruct (lex_from n st' pend' rest') as [[T'|]|]; [|done..].
  intros [= <-]. apply Forall_app. split; [done|]. by eapply IH.
Qed.

(** More fuel does not change the result. *)
Lemma lex_from_mono n m st pend rest r :
  lex_from n st pend rest = Some r → (n ≤ m)%nat → lex_from m st pend rest = Some r.
Proof.
  revert m st pend rest r. induction n as [|n IH]; intros m st pend rest r.
  { destruct st; [done|]. intros [= <-] _. by destruct m. }
  destruct st as [st|]; [|intros [= <-] _; by destruct m].
  intros H Hm. destruct m as [|m]; [lia|]. cbn [lex_from] in *.
  destruct (step st pend rest) as [|new st' pend' rest']; [done|].
  destruct (lex_from n st' pend' rest') as [r'|] eqn:E; [|done].
  rewrite (IH m _ _ _ _ E) by lia. done.
Qed.

Section LexerRun.

Variable isTerminal : bool.

Lemma run_None n l : run isTerminal n None l = Some l.
Proof. by destruct n. Qed.

(** The lexer computes [lex_from]. *)
Lemma run_lex_from n st l pend rest toks :
  view l pend rest toks →
  match st with Some st => config_ok st rest | None => True end →
  match lex_from n st pend rest with
  | None => run isTerminal n st l = None
  | Some None =>
    ∃ l' toks' text, run isTerminal n st l = Some l' ∧
                     tokens l' = toks' ++ [tok errTok text]
  | Some (Some T) => ∃ l', run isTerminal n st l = Some l' ∧ tokens l' = toks ++ T
  end.
Proof.
  revert st l pend rest toks. induction n as [|n IH]; intros st l pend rest toks Hv Hok.
  { destruct st; simpl; [done|]. exists l. rewrite app_nil_r.
    split; [done|]. exact (view_tokens _ _ _ _ Hv). }
  destruct st as [st|]; cbn [lex_from run].
  2:{ exists l. rewrite app_nil_r. split; [done|]. exact (view_tokens _ _ _ _ Hv). }
  pose proof (call_view isTerminal st l pend rest toks Hv Hok) as Hcall.
  pose proof (step_is_ok st pend rest Hok) as Hstep.
  destruct (step st pend rest) as [|new st' pend' rest'].
  - destruct Hcall as (l' & toks' & text & -> & Ht). rewrite run_None.
    by exists l', toks', text.
  - destruct Hcall as (l' & -> & Hv'). destruct Hstep as (_ & _ & Hok').
    specialize (IH st' l' pend' rest' _ Hv' Hok').
    destruct (lex_from n st' pend' rest') as [[T|]|]; [|done..].
    destruct IH as (l'' & ? & ?). exists l''. by rewrite (assoc_L (++) toks).
Qed.

Lemma last_not_err T : Forall not_err T →
  match last T with
  | Some t => bool_decide (TokenType t = errTok) = false
  | None => True
  end.
Proof.
  intros HT. destruct (last T) as [t|] eqn:E; [|done].
  apply bool_decide_false. apply last_Some in E as (T' & ->).
  apply Forall_app in HT as [_ Ht]. by inversion Ht.
Qed.

Lemma lex_from_run_fuel input :
  lex_from (run_fuel input) (Some state_lexLiteral) [] input = Some (lex input).
Proof.
  unfold lex.
  pose proof (lex_from_total (run_fuel input) (Some state_lexLiteral) [] input I) as H.
  destruct (lex_from _ _ _ _); [done|]. exfalso. apply H; [|done].
  unfold run_fuel. simpl. lia.
Qed.

Lemma runLexer_lex input :
  match lex input with
  | Some T => runLexer isTerminal input = Some (LexOk T)
  | None => ∃ msg, runLexer isTerminal input = Some (LexErr msg)
  end.
Proof.
  unfold runLexer.
  set (l := {| input := input; start := 0; pos := 0; width := 0; tokens := [] |}).
  assert (view l [] input []) as Hv by (by exists []).
  pose proof (run_lex_from (run_fuel input) (Some state_lexLiteral) l [] input [] Hv I) as H.
  pose proof (lex_from_not_err (run_fuel input) (Some state_lexLiteral) [] input) as Hne.
  rewrite lex_from_run_fuel in H, Hne.
  destruct (lex input) as [T|].
  - destruct H as (l' & -> & Ht). cbn [mbind option_bind]. simpl in Ht. rewrite Ht.
    pose proof (last_not_err T (Hne T I eq_refl)) as Hl.
    destruct (last T); [by rewrite Hl|done].
  - destruct H as (l' & toks' & text & -> & Ht). cbn [mbind option_bind]. rewrite Ht.
    rewrite last_snoc. rewrite bool_decide_true by done. by eexists.
Qed.

End LexerRun.

(** ** The iterator and the parser *)

Lemma iview_new toks : iview (newIterator toks) toks.
Proof. by exists []. Qed.

Lemma iview_HasNext it todo :
  iview it todo → HasNext it = match todo with [] => false | _ => true end.
Proof.
  intros (seen & Hi & Hx). unfold HasNext. rewrite Hi, Hx, length_app.
  destruct todo; simpl.
  - apply Z.ltb_ge. lia.
  - apply Z.ltb_lt. lia.
Qed.

Lemma iview_fuel it todo : iview it todo → tokens_fuel it = S (length todo).
Proof.
  intros (seen & Hi & Hx). unfold tokens_fuel. rewrite Hi, Hx, length_app. f_equal. lia.
Qed.

Lemma iview_Peek it todo : iview it todo → Peek it = head todo.
Proof.
  intros (seen & Hi & Hx). unfold Peek, item_at. rewrite Hi, Hx, length_app.
  destruct todo as [|t todo]; simpl.
  - rewrite (proj2 (Z.leb_le _ _)) by lia. by rewrite orb_true_r.
  - rewrite (proj2 (Z.ltb_ge _ _)), (proj2 (Z.leb_gt _ _)) by lia. simpl.
    replace (Z.to_nat (Z.of_nat (length seen) - 1 + 1)) with (length seen) by lia.
    by rewrite list_lookup_middle.
Qed.

Lemma iview_Next_nil it : iview it [] → Next it = (None, it).
Proof.
  intros (seen & Hi & Hx). unfold Next. rewrite Hi, Hx, length_app. simpl.
  by rewrite (proj2 (Z.leb_le _ _)) by lia.
Qed.

Lemma iview_Next_cons it t todo :
  iview it (t :: todo) → ∃ it', Next it = (Some t, it') ∧ iview it' todo.
Proof.
  intros (seen & Hi & Hx). unfold Next, item_at. rewrite Hi, Hx, length_app. simpl.
  rewrite (proj2 (Z.leb_gt _ _)) by lia.
  replace (Z.to_nat (Z.of_nat (length seen) - 1 + 1)) with (length seen) by lia.
  rewrite list_lookup_middle by done.
  eexists. split; [done|]. exists (seen ++ [t]). simpl.
  rewrite <- (assoc_L (++) seen), length_app. simpl. split; [done|]. lia.
Qed.

Ltac do_Next Hi :=
  let it := fresh "it" in
  let Hn := fresh "Hn" in
  let Hi' := fresh "Hi" in
  destruct (iview_Next_cons _ _ _ Hi) as (it & Hn & Hi'); rewrite Hn; clear Hn Hi;
  rename Hi' into Hi.

Lemma parsePluralCase_args_view n pcase it todo :
  iview it todo → (length todo < n)%nat →
  parse_post (parsePluralCase_args n pcase it) (p_args pcase todo).
Proof.
  revert pcase it todo. induction n as [|n IH]; intros pcase it todo Hi Hn; [lia|].
  cbn [parsePluralCase_args]. rewrite (iview_HasNext _ _ Hi), (iview_Peek _ _ Hi).
  destruct todo as [|token todo]; cbn [negb head p_args]; [by exists it|].
  destruct (bool_decide (TokenType token = pluralTranslationStart)); [by exists it|].
  unfold arg_token, set_A, set_B, set_Type.
  destruct (TokenType token); cbn [negb].
  all: try done.
  - destruct (negb _); destruct (strconv.Atoi _) as [v [e|]]; try done.
    all: do_Next Hi; apply IH; [done|simpl in *; lia].
  - do_Next Hi; apply IH; [done|simpl in *; lia].
  - do_Next Hi; apply IH; [done|simpl in *; lia].
Qed.

Lemma parsePluralCase_body_view n pcase it todo :
  iview it todo → (length todo < n)%nat →
  match p_body pcase todo with
  | Done (v, todo') => ∃ it', parsePluralCase_body n pcase it = Done (v, it') ∧ iview it' todo'
  | Fail e => parsePluralCase_body n pcase it = Fail e
  | OutOfFuel => parsePluralCase_body n pcase it = OutOfFuel
  end.
Proof.
  revert pcase it todo. induction n as [|n IH]; intros pcase it todo Hi Hn; [lia|].
  cbn [parsePluralCase_body]. rewrite (iview_HasNext _ _ Hi).
  destruct todo as [|token todo]; cbn [negb p_body]; [by exists it|].
  do_Next Hi.
  destruct (bool_decide (TokenType token = pluralTranslationEnd)); [by exists it0|].
  apply IH; [done|simpl in *; lia].
Qed.

Lemma parsePluralCase_view it todo :
  iview it todo → parse_post (parsePluralCase it) (p_case todo).
Proof.
  intros Hi. unfold parsePluralCase, p_case. rewrite (iview_Peek _ _ Hi).
  destruct todo as [|peek todo]; cbn [head]; [by exists it|].
  destruct (_ && _); [by exists it|].
  pose proof (parsePluralCase_args_view (tokens_fuel it)
    (Build_PluralCase OpPluralCaseTypeExact 0 0 []) it (peek :: todo) Hi) as Ha.
  rewrite (iview_fuel _ _ Hi) in Ha. specialize (Ha ltac:(lia)).
  rewrite (iview_fuel _ _ Hi).
  destruct (p_args _ _) as [[[pcase|] todo1]|e|]; cbn [parse_post] in Ha.
  - destruct Ha as (it1 & -> & Hi1).
    destruct todo1 as [|token todo2].
    { rewrite (iview_Next_nil _ Hi1). by exists it1. }
    do_Next Hi1.
    destruct (negb _); [done|].
    pose proof (parsePluralCase_body_view (tokens_fuel it0) pcase it0 todo2 Hi1) as Hb.
    rewrite (iview_fuel _ _ Hi1) in Hb. specialize (Hb ltac:(lia)).
    rewrite (iview_fuel _ _ Hi1).
    destruct (p_body pcase todo2) as [[pcase' todo3]|e|].
    + destruct Hb as (it2 & -> & Hi2). by exists it2.
    + by rewrite Hb.
    + by rewrite Hb.
  - destruct Ha as (it1 & -> & Hi1). by exists it1.
  - by rewrite Ha.
  - by rewrite Ha.
Qed.

Lemma parseTransformers_cases_view n cases other it todo :
  iview it todo →
  parse_post (parseTransformers_cases n cases other it) (p_cases n cases other todo).
Proof.
  revert cases other it todo. induction n as [|n IH]; intros cases other it todo Hi; [done|].
  cbn [parseTransformers_cases p_cases]. rewrite (iview_HasNext _ _ Hi).
  destruct todo as [|t todo]; cbn [negb]; [by exists it|].
  pose proof (parsePluralCase_view it (t :: todo) Hi) as Hc.
  destruct (p_case (t :: todo)) as [[[pcase|] todo1]|e|]; cbn [parse_post] in Hc.
  - destruct Hc as (it1 & -> & Hi1). destruct (bool_decide _); by apply IH.
  - destruct Hc as (it1 & -> & Hi1). by exists it1.
  - by rewrite Hc.
  - by rewrite Hc.
Qed.

Lemma parseTransformers_loop_view n transformers it todo :
  iview it todo →
  parse_post (parseTransformers_loop n transformers it) (p_transformers n transformers todo).
Proof.
  revert transformers it todo.
  induction n as [|n IH]; intros transformers it todo Hi; [done|].
  cbn [parseTransformers_loop p_transformers].
  rewrite (iview_HasNext _ _ Hi), (iview_Peek _ _ Hi).
  destruct todo as [|token todo]; cbn [negb head]; [by exists it|].
  destruct (negb _); [by exists it|].
  do_Next Hi.
  destruct (bool_decide (Data token = $"capitalize")); [by apply IH|].
  destruct (bool_decide (Data token = $"replace")); [by apply IH|].
  destruct (bool_decide (Data token = $"plural")); [|by apply IH].
  pose proof (parseTransformers_cases_view (tokens_fuel it0) [] [] it0 todo Hi) as Hc.
  rewrite (iview_fuel _ _ Hi) in Hc. rewrite (iview_fuel _ _ Hi).
  destruct (p_cases _ _ _ _) as [[[cases other] todo1]|e|]; cbn [parse_post] in Hc.
  - destruct Hc as (it1 & -> & Hi1). destruct (_ =? _)%nat; [done|]. by apply IH.
  - by rewrite Hc.
  - by rewrite Hc.
Qed.

Lemma Parse_loop_view n ops it todo :
  iview it todo →
  Parse_loop n {| Ops := ops |} it =
  match p_parse n ops todo with
  | Done ops' => Done {| Ops := ops' |}
  | Fail e => Fail e
  | OutOfFuel => OutOfFuel
  end.
Proof.
  revert ops it todo. induction n as [|n IH]; intros ops it todo Hi; [done|].
  cbn [Parse_loop p_parse]. rewrite (iview_HasNext _ _ Hi).
  destruct todo as [|token todo]; cbn [negb]; [done|].
  do_Next Hi.
  destruct (TokenType token); cbn [Ops]; try by apply IH.
  unfold parseTransformers.
  pose proof (parseTransformers_loop_view (tokens_fuel it0) [] it0 todo Hi) as Ht.
  rewrite (iview_fuel _ _ Hi) in Ht. rewrite (iview_fuel _ _ Hi).
  destruct (p_transformers _ _ _) as [[ts todo1]|e|]; cbn [parse_post] in Ht.
  - destruct Ht as (it1 & -> & Hi1). by apply IH.
  - by rewrite Ht.
  - by rewrite Ht.
Qed.

Section ParseSpec.

Variable isTerminal : bool.

(** [Parse] lexes with [lex] and parses with [parse_tokens]. *)
Lemma Parse_spec input :
  match lex input with
  | Some toks =>
    Parse isTerminal input =
    match parse_tokens toks with
    | Done ops => Done {| Ops := ops |}
    | Fail e => Fail e
    | OutOfFuel => OutOfFuel
    end
  | None => ∃ msg, Parse isTerminal input = Fail (ErrLexer msg)
  end.
Proof.
  unfold Parse. pose proof (runLexer_lex isTerminal input) as H.
  destruct (lex input) as [toks|].
  - rewrite H. rewrite (iview_fuel _ _ (iview_new toks)).
    apply Parse_loop_view, iview_new.
  - destruct H as (msg & ->). by exists msg.
Qed.

End ParseSpec.

(** ** The parser terminates *)

Lemma p_args_length pcase todo r todo' :
  p_args pcase todo = Done (r, todo') → (length todo' ≤ length todo)%nat.
Proof.
  revert pcase. induction todo as [|token todo IH]; intros pcase; cbn [p_args].
  { by intros [= _ <-]. }
  destruct (bool_decide _); [by intros [= _ <-]|].
  destruct (arg_token pcase token) as [e|pcase']; [done|].
  intros H%IH. simpl. lia.
Qed.

Lemma p_args_not_out pcase todo : p_args pcase todo ≠ OutOfFuel.
Proof.
  revert pcase. induction todo as [|token todo IH]; intros pcase; cbn [p_args]; [done|].
  destruct (bool_decide _); [done|].
  destruct (arg_token pcase token) as [e|pcase']; [done|]. apply IH.
Qed.

Lemma p_body_length pcase todo r todo' :
  p_body pcase todo = Done (r, todo') → (length todo' ≤ length todo)%nat.
Proof.
  revert pcase. induction todo as [|token todo IH]; intros pcase; cbn [p_body].
  { by intros [= _ <-]. }
  destruct (bool_decide _); [intros [= _ <-]; simpl; lia|].
  intros H%IH. simpl. lia.
Qed.

Lemma p_body_not_out pcase todo : p_body pcase todo ≠ OutOfFuel.
Proof.
  revert pcase. induction todo as [|token todo IH]; intros pcase; cbn [p_body]; [done|].
  destruct (bool_decide _); [done|]. apply IH.
Qed.

Lemma p_case_length todo r todo' :
  p_case todo = Done (r, todo') →
  (length todo' ≤ length todo)%nat ∧ (is_Some r → (length todo' < length todo)%nat).
Proof.
  unfold p_case. destruct todo as [|peek todo].
  { intros [= <- <-]. split; [done|]. by intros []. }
  destruct (_ && _). { intros [= <- <-]. split; [done|]. by intros []. }
  destruct (p_args _ _) as [[[pcase|] todo1]|e|] eqn:Ea; [| |done..].
  - apply p_args_length in Ea.
    destruct todo1 as [|token todo2].
    { intros [= <- <-]. split; [simpl; lia|]. by intros []. }
    destruct (negb _); [done|].
    destruct (p_body pcase todo2) as [[pcase' todo3]|e|] eqn:Eb; [|done..].
    apply p_body_length in Eb. intros [= <- <-]. simpl in *. split; [lia|]. intros _. lia.
  - apply p_args_length in Ea. intros [= <- <-]. split; [done|]. by intros [].
Qed.

Lemma p_case_not_out todo : p_case todo ≠ OutOfFuel.
Proof.
  unfold p_case. destruct todo as [|peek todo]; [done|].
  destruct (_ && _); [done|].
  pose proof (p_args_not_out (Build_PluralCase OpPluralCaseTypeExact 0 0 []) (peek :: todo)).
  destruct (p_args _ _) as [[[pcase|] todo1]|e|]; [| |done..]; [|done].
  destruct todo1 as [|token todo2]; [done|].
  destruct (negb _); [done|].
  pose proof (p_body_not_out pcase todo2).
  by destruct (p_body pcase todo2) as [[pcase' todo3]|e|].
Qed.

Lemma p_cases_total n cases other todo :
  (length todo < n)%nat →
  match p_cases n cases other todo with
  | Done (_, _, todo') => (length todo' ≤ length todo)%nat
  | Fail _ => True
  | OutOfFuel => False
  end.
Proof.
  revert cases other todo. induction n as [|n IH]; intros cases other todo Hn; [lia|].
  cbn [p_cases]. destruct todo as [|t todo]; [done|].
  pose proof (p_case_length (t :: todo)) as Hlen.
  pose proof (p_case_not_out (t :: todo)) as Hout.
  destruct (p_case (t :: todo)) as [[[pcase|] todo1]|e|]; [| |done..].
  - destruct (Hlen _ _ eq_refl) as [_ Hlt]. specialize (Hlt ltac:(done)).
    destruct (bool_decide _).
    + specialize (IH cases (Ops_of pcase) todo1 ltac:(simpl in *; lia)).
      destruct (p_cases n cases (Ops_of pcase) todo1) as [[[? ?] ?]|?|]; [lia|done..].
    + specialize (IH (cases ++ [pcase]) other todo1 ltac:(simpl in *; lia)).
      destruct (p_cases n _ other todo1) as [[[? ?] ?]|?|]; [lia|done..].
  - by destruct (Hlen _ _ eq_refl) as [? _].
Qed.

Lemma p_transformers_total n transformers todo :
  (length todo < n)%nat →
  match p_transformers n transformers todo with
  | Done (_, todo') => (length todo' ≤ length todo)%nat
  | Fail _ => True
  | OutOfFuel => False
  end.
Proof.
  revert transformers todo. induction n as [|n IH]; intros transformers todo Hn; [lia|].
  cbn [p_transformers]. destruct todo as [|token todo]; [done|].
  destruct (negb _); [done|]. cbn [length] in Hn.
  assert (∀ ts, match p_transformers n ts todo with
                | Done (_, todo') => (length todo' ≤ length (token :: todo))%nat
                | Fail _ => True
                | OutOfFuel => False
                end) as Hrec.
  { intros ts. specialize (IH ts todo ltac:(lia)).
    destruct (p_transformers n ts todo) as [[? ?]|?|]; [simpl; lia|done..]. }
  destruct (bool_decide _); [apply Hrec|].
  destruct (bool_decide _); [apply Hrec|].
  destruct (bool_decide _); [|apply Hrec].
  pose proof (p_cases_total (S (length todo)) [] [] todo ltac:(lia)) as Hc.
  destruct (p_cases _ _ _ _) as [[[cases other] todo1]|e|]; [|done..].
  destruct (_ =? _)%nat; [done|].
  specialize (IH (transformers ++ [PluralTransformer cases other]) todo1 ltac:(lia)).
  destruct (p_transformers n _ todo1) as [[? ?]|?|]; [simpl; lia|done..].
Qed.

Lemma p_parse_total n ops todo :
  (length todo < n)%nat → p_parse n ops todo ≠ OutOfFuel.
Proof.
  revert ops todo. induction n as [|n IH]; intros ops todo Hn; [lia|].
  cbn [p_parse]. destruct todo as [|token todo]; [done|]. cbn [length] in Hn.
  destruct (TokenType token); try (apply IH; lia).
  pose proof (p_transformers_total (S (length todo)) [] todo ltac:(lia)) as Ht.
  destruct (p_transformers _ _ _) as [[ts todo1]|e|]; [|done..].
  apply IH. lia.
Qed.

(** [Parse] returns: it never runs out of fuel. *)
Lemma Parse_total isTerminal input : Parse isTerminal input ≠ OutOfFuel.
Proof.
  pose proof (Parse_spec isTerminal input) as H.
  destruct (lex input) as [toks|].
  - rewrite H. pose proof (p_parse_total (S (length toks)) [] toks ltac:(lia)) as Hp.
    unfold parse_tokens. by destruct (p_parse _ _ _).
  - by destruct H as (msg & ->).
Qed.

(** A message that [Parse] returns is made of the tokens of [lex]. *)
Lemma Parse_Done isTerminal input m :
  Parse isTerminal input = Done m →
  ∃ toks, lex input = Some toks ∧ parse_tokens toks = Done (Ops m).
Proof.
  intros Hp. pose proof (Parse_spec isTerminal input) as H.
  destruct (lex input) as [toks|].
  - exists toks. split; [done|]. rewrite Hp in H.
    destruct (parse_tokens toks); [|done..]. by injection H as ->.
  - destruct H as (msg & H). by rewrite Hp in H.
Qed.

Lemma Parse_of_tokens isTerminal input toks ops :
  lex input = Some toks → parse_tokens toks = Done ops →
  Parse isTerminal input = Done {| Ops := ops |}.
Proof.
  intros Hl Hp. pose proof (Parse_spec isTerminal input) as H.
  by rewrite Hl, Hp in H.
Qed.

(** * Where the lexer looks for a placeholder *)

Import parser lingua.

(** ** The state functions leave the input as it is *)

Lemma next_input l : input (next l).2 = input l.
Proof.
  unfold next. destruct (_ <=? _)%nat; [done|]. by destruct (utf8.DecodeRuneInString _).
Qed.

Lemma backup_input l : input (backup l) = input l.
Proof. done. Qed.

Lemma peek_input l : input (peek l).2 = input l.
Proof.
  unfold peek. pose proof (next_input l) as H. by destruct (next l).
Qed.

Lemma ignore_input l : input (ignore l) = input l.
Proof. done. Qed.

Lemma collect_input t l : input (collect t l) = input l.
Proof. unfold collect. by destruct (_ =? _)%nat. Qed.

Lemma error_input isTerminal msg l : input (error isTerminal msg l) = input l.
Proof. done. Qed.

Lemma accept_input valid l : input (accept valid l).2 = input l.
Proof.
  unfold accept. pose proof (next_input l) as H. destruct (next l) as [r l1].
  by destruct (ContainsRune valid r).
Qed.

Lemma acceptRun_loop_input n valid l l' :
  acceptRun_loop n valid l = Some l' → input l' = input l.
Proof.
  revert l. induction n as [|n IH]; intros l; [done|]. cbn [acceptRun_loop].
  pose proof (next_input l) as H. destruct (next l) as [r l1]. cbn [snd] in H.
  destruct (ContainsRune valid r).
  - intros H'%IH. congruence.
  - intros [= <-]. done.
Qed.

Lemma acceptRun_input valid l l' : acceptRun valid l = Some l' → input l' = input l.
Proof.
  unfold acceptRun. destruct (acceptRun_loop _ valid l) as [l1|] eqn:E; [|done].
  apply acceptRun_loop_input in E. intros [= <-]. done.
Qed.

Lemma iter_next_input n l : input (Nat.iter n (λ l, (next l).2) l) = input l.
Proof.
  induction n as [|n IH]; [done|]. cbn [Nat.iter nat_rect].
  by rewrite next_input.
Qed.

(** Name the lexers that the primitives return, with their inputs. *)
Ltac inputs :=
  repeat match goal with
  | |- context [peek ?l] =>
    let H := fresh "Hi" in
    pose proof (peek_input l) as H; destruct (peek l) as [? ?]; cbn [fst snd] in *
  | |- context [accept ?v ?l] =>
    let H := fresh "Hi" in
    pose proof (accept_input v l) as H; destruct (accept v l) as [? ?]; cbn [fst snd] in *
  | |- context [acceptRun ?v ?l] =>
    let E := fresh "Hi" in
    destruct (acceptRun v l) as [?|] eqn:E; cbn [mbind option_bind];
    [apply acceptRun_input in E|]
  | |- context [next ?l] =>
    let H := fresh "Hi" in
    pose proof (next_input l) as H; destruct (next l) as [? ?]; cbn [fst snd] in *
  | |- context [if ?b then _ else _] => destruct b; cbn [negb]
  end.

Ltac norm_inputs :=
  repeat match goal with
  | H : context [input (collect _ _)] |- _ => rewrite collect_input in H
  | H : context [input (error _ _ _)] |- _ => rewrite error_input in H
  | H : context [input (ignore _)] |- _ => rewrite ignore_input in H
  | H : context [input (backup _)] |- _ => rewrite backup_input in H
  | |- context [input (collect _ _)] => rewrite collect_input
  | |- context [input (error _ _ _)] => rewrite error_input
  | |- context [input (ignore _)] => rewrite ignore_input
  | |- context [input (backup _)] => rewrite backup_input
  | |- context [input (Nat.iter _ _ _)] => rewrite iter_next_input
  | |- context [input (next _).2] => rewrite next_input
  end.

Ltac same_input :=
  try done;
  try (intros [= <- <-]);
  norm_inputs;
  congruence.

Section Inputs.

Variable isTerminal : bool.

Lemma lexLiteral_loop_input n l st' l' :
  lexLiteral_loop n l = Some (st', l') → input l' = input l.
Proof.
  revert l. induction n as [|n IH]; intros l; [done|]. cbn [lexLiteral_loop].
  inputs; try same_input.
  all: intros H%IH; congruence.
Qed.

Lemma lexerPlaceholder_input l st' l' :
  lexerPlaceholder l = Some (st', l') → input l' = input l.
Proof. unfold lexerPlaceholder. inputs; same_input. Qed.

Lemma lexerTransformer_input l st' l' :
  lexerTransformer isTerminal l = Some (st', l') → input l' = input l.
Proof. unfold lexerTransformer. inputs; same_input. Qed.

Lemma lexerPluralArgs_loop_input n l st' l' :
  lexerPluralArgs_loop isTerminal n l = Some (st', l') → input l' = input l.
Proof.
  revert l. induction n as [|n IH]; intros l; [done|]. cbn [lexerPluralArgs_loop].
  inputs; try same_input.
  all: intros H%IH; norm_inputs; congruence.
Qed.

Lemma lexerPluralNumericArg_input l st' l' :
  lexerPluralNumericArg isTerminal l = Some (st', l') → input l' = input l.
Proof. unfold lexerPluralNumericArg. inputs; same_input. Qed.

Lemma lexerPluralTranslation_loop_input n l st' l' :
  lexerPluralTranslation_loop isTerminal n l = Some (st', l') → input l' = input l.
Proof.
  revert l. induction n as [|n IH]; intros l; [done|]. cbn [lexerPluralTranslation_loop].
  inputs; try same_input.
  all: intros H%IH; norm_inputs; congruence.
Qed.

Lemma lexerPluralTranslation_input l st' l' :
  lexerPluralTranslation isTerminal l = Some (st', l') → input l' = input l.
Proof.
  unfold lexerPluralTranslation. inputs; try same_input.
  intros H%lexerPluralTranslation_loop_input. norm_inputs. congruence.
Qed.

Lemma call_input st l st' l' :
  call isTerminal st l = Some (st', l') → input l' = input l.
Proof.
  destruct st; cbn [call].
  - apply lexLiteral_loop_input.
  - apply lexerPlaceholder_input.
  - apply lexerTransformer_input.
  - apply lexerPluralArgs_loop_input.
  - apply lexerPluralNumericArg_input.
  - apply lexerPluralTranslation_input.
Qed.

End Inputs.

(** ** What a state function reads *)

Lemma unescaped_nil : unescaped [].
Proof. done. Qed.

Lemma unescaped_app text read :
  read ≠ [] → unescaped read → unescaped (text ++ read).
Proof.
  intros Hne Hr. unfold unescaped in *. rewrite last_app.
  destruct (last read) eqn:E; [done|]. by apply last_None in E.
Qed.

Lemma unescaped_snoc text c : c ≠ "\"%char → unescaped (text ++ [c]).
Proof. intros Hc. unfold unescaped. rewrite last_snoc. by intros [= ->]. Qed.

Lemma unescaped_cons c text : text ≠ [] → unescaped text → unescaped (c :: text).
Proof. intros Hne Ht. by apply (unescaped_app [c]). Qed.

Lemma unescaped_Forall valid text :
  ContainsRune valid (rune "\") = false →
  Forall (λ c, ContainsRune valid (byteZ c) = true) text → unescaped text.
Proof.
  intros Hv Ht Hl. apply last_Some_elem_of in Hl.
  rewrite Forall_forall in Ht. specialize (Ht _ Hl). unfold rune in Hv. congruence.
Qed.

Lemma scan_lit_pos c rest : byteZ c ≠ rune ":" → (1 ≤ scan_lit (c :: rest))%nat.
Proof.
  intros Hc. cbn [scan_lit]. destruct (byteZ c =? rune ":") eqn:E; [by apply Z.eqb_eq in E|].
  destruct (byteZ c =? rune "\"); [|lia]. destruct rest as [|c' rest]; [lia|].
  destruct (byteZ c' =? rune ":"); lia.
Qed.

Lemma scan_lit_colon a rest : (byteZ a =? rune ":") = true → scan_lit (a :: rest) = 0%nat.
Proof. intros E. cbn [scan_lit]. by rewrite E. Qed.

Lemma scan_lit_escaped_colon a a' rest :
  (byteZ a =? rune ":") = false → (byteZ a =? rune "\") = true →
  (byteZ a' =? rune ":") = true →
  scan_lit (a :: a' :: rest) = S (S (scan_lit rest)).
Proof. intros E1 E2 E3. cbn [scan_lit]. by rewrite E1, E2, E3. Qed.

Lemma scan_lit_backslash a a' rest :
  (byteZ a =? rune ":") = false → (byteZ a =? rune "\") = true →
  (byteZ a' =? rune ":") = false →
  scan_lit (a :: a' :: rest) = S (scan_lit (a' :: rest)).
Proof. intros E1 E2 E3. cbn [scan_lit]. by rewrite E1, E2, E3. Qed.

Lemma scan_lit_backslash_end a :
  (byteZ a =? rune ":") = false → (byteZ a =? rune "\") = true → scan_lit [a] = 1%nat.
Proof. intros E1 E2. cbn [scan_lit]. by rewrite E1, E2. Qed.

Lemma scan_lit_other a rest :
  (byteZ a =? rune ":") = false → (byteZ a =? rune "\") = false →
  scan_lit (a :: rest) = S (scan_lit rest).
Proof. intros E1 E2. cbn [scan_lit]. by rewrite E1, E2. Qed.

(** The text that [lexLiteral] reads before an unescaped colon does not
    end in a backslash. *)
Lemma scan_lit_unescaped rest :
  drop (scan_lit rest) rest ≠ [] → unescaped (take (scan_lit rest) rest).
Proof.
  remember (length rest) as n eqn:Hn. revert rest Hn.
  induction n as [n IH] using lt_wf_ind. intros rest -> Hd.
  destruct rest as [|a rest]; [done|].
  destruct (byteZ a =? rune ":") eqn:E1.
  { by rewrite (scan_lit_colon _ _ E1). }
  destruct (byteZ a =? rune "\") eqn:E2.
  - destruct rest as [|a' rest].
    { by rewrite (scan_lit_backslash_end _ E1 E2) in Hd. }
    destruct (byteZ a' =? rune ":") eqn:E3.
    + rewrite (scan_lit_escaped_colon _ _ _ E1 E2 E3) in *. cbn [take drop] in *.
      specialize (IH (length rest) ltac:(simpl; lia) rest eq_refl Hd).
      destruct (take (scan_lit rest) rest) as [|x text] eqn:Et.
      * apply (unescaped_snoc [a]). apply byteZ_eqb_eq in E3 as ->. done.
      * apply unescaped_cons; [done|]. by apply unescaped_cons.
    + rewrite (scan_lit_backslash _ _ _ E1 E2 E3) in *. cbn [take drop] in Hd |- *.
      specialize (IH (length (a' :: rest)) ltac:(simpl; lia) (a' :: rest) eq_refl Hd).
      assert (byteZ a' ≠ rune ":") as Ha' by (by apply Z.eqb_neq).
      pose proof (scan_lit_pos a' rest Ha') as Hp.
      destruct (scan_lit (a' :: rest)) as [|k] eqn:Ek; [lia|].
      cbn [take] in *. by apply unescaped_cons.
  - rewrite (scan_lit_other _ _ E1 E2) in *. cbn [take drop] in *.
    specialize (IH (length rest) ltac:(simpl; lia) rest eq_refl Hd).
    destruct (take (scan_lit rest) rest) as [|x text] eqn:Et.
    + apply (unescaped_snoc []). intros ->. by rewrite Z.eqb_refl in E2.
    + by apply unescaped_cons.
Qed.

Lemma step_body_reads pend rest new st' pend' rest' :
  step_body pend rest = StepTo new st' pend' rest' →
  st' = Some state_lexerPluralArgs ∧ ∃ read, rest = read ++ rest'.
Proof.
  revert pend new st' pend'.
  induction rest as [|c rest IH]; intros pend new st' pend'; [done|].
  cbn [step_body]. destruct (byteZ c =? rune "}").
  { intros [= _ <- _ <-]. split; [done|]. by exists [c]. }
  destruct (byteZ c =? rune "#").
  - destruct (step_body [] rest) as [|new1 st1 pend1 rest1] eqn:E; [done|].
    intros [= _ <- _ <-]. destruct (IH _ _ _ _ E) as (-> & read & ->).
    split; [done|]. by exists (c :: read).
  - intros (-> & read & ->)%IH. split; [done|]. by exists (c :: read).
Qed.

Lemma step_lexerPluralArgs_reads rest new st' pend' rest' :
  step_lexerPluralArgs rest = StepTo new (Some st') pend' rest' →
  ∃ read, rest = read ++ rest' ∧
          (guarded st' = true → read ≠ [] ∧ unescaped read).
Proof.
  induction rest as [|c rest IH]; [done|]. cbn [step_lexerPluralArgs].
  assert (∀ read, rest = read ++ rest' ∧
            (guarded st' = true → read ≠ [] ∧ unescaped read) →
          ∃ read, c :: rest = read ++ rest' ∧
            (guarded st' = true → read ≠ [] ∧ unescaped read)) as Hcons.
  { intros read [-> Hr]. exists (c :: read). split; [done|]. intros Hst.
    destruct (Hr Hst) as [Hne Hu]. split; [done|]. by apply unescaped_cons. }
  destruct (ContainsRune spaces (byteZ c)).
  { intros (read & H)%IH. by eapply Hcons. }
  destruct (byteZ c =? rune ")") eqn:E1.
  { intros [= _ <- _ <-]. exists [c]. split; [done|]. intros _. split; [done|].
    apply byteZ_eqb_eq in E1 as ->. by apply (unescaped_snoc []). }
  destruct (byteZ c =? rune "=").
  { intros [= _ <- _ <-]. exists []. split; [done|]. done. }
  destruct (HasPrefix (c :: rest) $"other") eqn:Ep.
  { intros [= _ <- _ <-]. exists (take 5 (c :: rest)).
    split; [exact (eq_sym (take_drop 5 (c :: rest)))|]. done. }
  intros (read & H)%IH. by eapply Hcons.
Qed.

Lemma lowercase_no_backslash : ContainsRune lowercase (rune "\") = false.
Proof. reflexivity. Qed.

(** A step reads a prefix of what is left; where it enters a guarded
    state it has read nothing and left a guarded state, or what it has
    read does not end in a backslash. *)
Lemma step_reads st pend rest new st' pend' rest' :
  config_ok st rest →
  step st pend rest = StepTo new (Some st') pend' rest' →
  ∃ read, rest = read ++ rest' ∧
          (guarded st' = true →
           (read = [] ∧ guarded st = true) ∨ (read ≠ [] ∧ unescaped read)).
Proof.
  intros Hok. destruct st; cbn [step config_ok] in *.
  - unfold step_lexLiteral. intros [= _ Hst _ <-].
    exists (take (scan_lit rest) rest). split; [by rewrite take_drop|]. intros _.
    destruct (take (scan_lit rest) rest) as [|x text] eqn:Et; [by left|]. right.
    split; [done|]. rewrite <- Et. apply scan_lit_unescaped.
    by destruct (drop (scan_lit rest) rest).
  - destruct rest as [|c rest]; [done|]. cbn [head_is tail] in *.
    apply byteZ_eqb_eq in Hok as ->. unfold step_lexerPlaceholder.
    destruct (accepts lowercase rest) eqn:Ha.
    + intros [= _ _ _ <-]. exists (":"%char :: take (span_len lowercase rest) rest).
      split; [by rewrite <- app_comm_cons, take_drop|]. intros _. right. split; [done|].
      apply unescaped_cons; [by apply take_span_nonempty|].
      eapply unescaped_Forall; [apply lowercase_no_backslash|apply span_len_Forall].
    + intros [= _ _ _ <-]. exists [":"%char]. split; [done|]. intros _. right.
      split; [done|]. by apply (unescaped_snoc []).
  - unfold step_lexerTransformer. destruct rest as [|c rest1].
    { intros [= _ <- _ <-]. exists []. split; [done|]. by left. }
    destruct (byteZ c =? rune "|").
    2:{ intros [= _ <- _ <-]. exists []. split; [done|]. by left. }
    destruct (accepts lowercase rest1) eqn:Ha; [|done].
    case_bool_decide.
    { destruct (drop (span_len lowercase rest1) rest1) as [|c2 rest3] eqn:Ed; [done|].
      destruct (byteZ c2 =? rune "("); [|done]. intros [= _ <- _ <-].
      exists (c :: take (span_len lowercase rest1) rest1 ++ [c2]).
      split; [|done]. rewrite <- (take_drop (span_len lowercase rest1) rest1) at 1.
      rewrite Ed. cbn [app]. by rewrite <- app_assoc. }
    destruct (_ || _); [|done]. intros [= _ <- _ <-].
    exists (c :: take (span_len lowercase rest1) rest1).
    split; [by rewrite <- app_comm_cons, take_drop|]. intros _. right. split; [done|].
    apply unescaped_cons; [by apply take_span_nonempty|].
    eapply unescaped_Forall; [apply lowercase_no_backslash|apply span_len_Forall].
  - intros (read & Hr & Hu)%step_lexerPluralArgs_reads. exists read. split; [done|].
    intros Hg. right. by apply Hu.
  - destruct rest as [|c rest]; [done|]. cbn [tail]. unfold step_lexerPluralNumericArg.
    destruct (accepts digits rest); [|done].
    destruct (drop (span_len digits rest) rest) as [|c1 rest2] eqn:Ed.
    { intros [= _ <- _ <-]. exists (c :: take (span_len digits rest) rest).
      split; [|done]. rewrite <- (take_drop (span_len digits rest) rest) at 1.
      by rewrite Ed. }
    destruct (byteZ c1 =? rune "-").
    + destruct (accepts digits rest2); [|done]. intros [= _ <- _ <-].
      exists (c :: take (span_len digits rest) rest ++ c1 ::
              take (span_len digits rest2) rest2).
      split; [|done]. rewrite <- (take_drop (span_len digits rest) rest) at 1.
      rewrite Ed. rewrite <- (take_drop (span_len digits rest2) rest2) at 1.
      cbn [app]. by rewrite <- app_assoc.
    + intros [= _ <- _ <-]. exists (c :: take (span_len digits rest) rest).
      split; [|done]. rewrite <- (take_drop (span_len digits rest) rest) at 1.
      by rewrite Ed.
  - unfold step_lexerPluralTranslation.
    destruct (drop (span_len spaces rest) rest) as [|c rest1] eqn:Ed; [done|].
    destruct (byteZ c =? rune "{"); [|done].
    destruct (step_body [] rest1) as [|new1 st1 pend1 rest2] eqn:Eb; [done|].
    intros [= _ Hst _ <-]. destruct (step_body_reads _ _ _ _ _ _ Eb) as (Hst' & read & ->).
    rewrite Hst' in Hst. injection Hst as <-.
    exists (take (span_len spaces rest) rest ++ c :: read).
    split; [|done].
    rewrite <- (take_drop (span_len spaces rest) rest) at 1. rewrite Ed.
    by rewrite <- app_assoc.
Qed.

(** ** Where the state functions are called *)

Section Enters.

Variable isTerminal : bool.

(** Every call of a state function finds the lexer in a view of the
    input, and a guarded state is entered only where the text read so far
    does not end in a backslash. *)
Lemma enters_view s st l :
  enters isTerminal s st l →
  input l = s ∧
  ∃ pend rest toks,
    view l pend rest toks ∧ config_ok st rest ∧
    (guarded st = true → unescaped (take (pos l) s)).
Proof.
  induction 1 as [|st l st' l' He IH Hcall].
  - split; [done|]. exists [], s, []. split; [by exists []|]. done.
  - destruct IH as (Hin & pend & rest & toks & Hv & Hok & Hg).
    pose proof (call_view isTerminal st l pend rest toks Hv Hok) as Hp.
    pose proof (step_is_ok st pend rest Hok) as Hs.
    destruct (step st pend rest) as [|new st'' pend' rest'] eqn:Es.
    { destruct Hp as (l1 & toks1 & text & Hc & _). by rewrite Hcall in Hc. }
    destruct Hp as (l1 & Hc & Hv'). rewrite Hcall in Hc. injection Hc as <- <-.
    destruct Hs as (_ & _ & Hok').
    pose proof (call_input isTerminal _ _ _ _ Hcall) as Hin'.
    split; [congruence|]. exists pend', rest', (toks ++ new).
    split; [done|]. split; [done|]. intros Hg'.
    destruct (step_reads _ _ _ _ _ _ _ Hok Es) as (read & Hr & Hu).
    pose proof (view_drop_pos _ _ _ _ Hv) as Hd.
    pose proof (view_drop_pos _ _ _ _ Hv') as Hd'.
    rewrite Hin', Hin in Hd'. rewrite Hin in Hd.
    assert (take (pos l') s = take (pos l) s ++ read) as ->.
    { apply (app_inv_tail rest'). rewrite <- app_assoc, <- Hr.
      rewrite <- Hd' at 1. rewrite <- Hd. by rewrite !take_drop. }
    destruct (Hu Hg') as [[-> Hgst]|[Hne Hun]].
    + rewrite app_nil_r. by apply Hg.
    + by apply unescaped_app.
Qed.

(** [lexerPlaceholder] is called at a colon only, and never at one that
    stands right after a backslash. *)
Lemma enters_lexerPlaceholder s l :
  enters isTerminal s state_lexerPlaceholder l →
  s !! pos l = Some ":"%char ∧
  ∀ i, s !! i = Some "\"%char → pos l ≠ S i.
Proof.
  intros (Hin & pend & rest & toks & Hv & Hok & Hg)%enters_view. split.
  - pose proof (view_drop_pos _ _ _ _ Hv) as Hd. rewrite Hin in Hd.
    cbn [config_ok] in Hok. destruct rest as [|c rest]; [done|].
    cbn [head_is] in Hok. apply byteZ_eqb_eq in Hok as ->.
    rewrite <- (take_drop (pos l) s) at 1. rewrite Hd.
    assert (pos l ≤ length s)%nat as Hle.
    { pose proof (view_input_length _ _ _ _ Hv). rewrite Hin in *. lia. }
    rewrite lookup_app_r by (rewrite length_take; lia).
    rewrite length_take. by replace (pos l - pos l `min` length s)%nat with 0%nat by lia.
  - intros i Hi Hp. specialize (Hg eq_refl). rewrite Hp in Hg.
    rewrite (take_S_r _ _ _ Hi) in Hg. by apply Hg, last_snoc.
Qed.

End Enters.

(** ** Literal text and the escaped colon *)

Lemma escaped_tail c s :
  escaped (c :: s) → c ≠ "\"%char → escaped s.
Proof.
  intros He Hc i Hi. destruct (He (S i) Hi) as (j & [= <-] & Hj).
  destruct i as [|i]; [by injection Hj as ->|]. by exists i.
Qed.

Lemma escaped_head c s : escaped (c :: s) → c ≠ ":"%char.
Proof. intros He ->. by destruct (He 0%nat eq_refl) as (j & ? & _). Qed.

Lemma escaped_tail2 s : escaped ("\"%char :: ":"%char :: s) → escaped s.
Proof.
  intros He i Hi. destruct (He (S (S i)) Hi) as (j & [= <-] & Hj).
  destruct i as [|i]; [done|by exists i].
Qed.

Lemma escaped_tail_nocolon c c' s :
  escaped (c :: c' :: s) → c' ≠ ":"%char → escaped (c' :: s).
Proof.
  intros He Hc i Hi. destruct (He (S i) Hi) as (j & [= <-] & Hj).
  destruct i as [|i]; [by injection Hi as ->|]. by exists i.
Qed.

(** A text whose colons are all escaped is read by [lexLiteral] to its
    end, and further if what follows does not begin with the colon of a
    trailing backslash. *)
Lemma scan_lit_escaped a rest :
  escaped a →
  (last a = Some "\"%char → head rest ≠ Some ":"%char) →
  scan_lit (a ++ rest) = (length a + scan_lit rest)%nat.
Proof.
  remember (length a) as n eqn:Hn. revert a Hn.
  induction n as [n IH] using lt_wf_ind. intros a -> He Hlast.
  destruct a as [|c a]; [done|].
  pose proof (escaped_head _ _ He) as Hc.
  cbn [app scan_lit length]. change (rune ":") with (byteZ ":"). change (rune "\") with (byteZ "\").
  rewrite !byteZ_eqb_char. rewrite (bool_decide_false (c = ":"%char)) by done.
  case_bool_decide as Hb.
  - subst c. destruct a as [|c' a].
    + cbn [app]. destruct rest as [|c' rest]; [done|].
      rewrite byteZ_eqb_char, bool_decide_false; [done|].
      intros ->. by apply Hlast.
    + cbn [app]. rewrite byteZ_eqb_char. case_bool_decide as Hc'.
      * subst c'. rewrite (IH (length a)); [done|simpl; lia|done|by eapply escaped_tail2|].
        intros Hl. apply Hlast. by destruct a.
      * change (c' :: a ++ rest) with ((c' :: a) ++ rest).
        rewrite (IH (length (c' :: a)) ltac:(simpl; lia) (c' :: a));
          [done|done|by eapply escaped_tail_nocolon|done].
  - rewrite (IH (length a)); [done|simpl; lia|done|by eapply escaped_tail|].
    intros Hl. apply Hlast. by destruct a.
Qed.

Lemma scan_lit_escaped_all s : escaped s → scan_lit s = length s.
Proof.
  intros He. rewrite <- (app_nil_r s) at 1.
  rewrite scan_lit_escaped; [simpl; lia|done|done].
Qed.

Lemma nocolon_escaped s : ":"%char ∉ s → escaped s.
Proof. intros Hs i Hi. destruct Hs. by eapply list_elem_of_lookup_2. Qed.

Lemma lex_first_literal input toks :
  lex input = Some toks →
  toks = emit literal (take (scan_lit input) input) ++
         match lex_from (3 * length input + 1) 
                 (match drop (scan_lit input) input with
                  | [] => None
                  | _ => Some state_lexerPlaceholder
                  end) [] (drop (scan_lit input) input) with
         | Some (Some T) => T
         | _ => []
         end.
Proof.
  unfold lex, run_fuel. replace (3 * length input + 2)%nat with (S (3 * length input + 1)) by lia.
  cbn [lex_from step]. unfold step_lexLiteral. cbn [app].
  destruct (lex_from _ _ _ _) as [[T|]|]; [|done..]. by intros [= <-].
Qed.

Lemma lex_escaped s : escaped s → lex s = Some (emit literal s).
Proof.
  intros He. unfold lex, run_fuel.
  replace (3 * length s + 2)%nat with (S (3 * length s + 1)) by lia.
  cbn [lex_from step]. unfold step_lexLiteral.
  rewrite scan_lit_escaped_all by done. rewrite drop_all, take_ge by done. cbn [app].
  replace (3 * length s + 1)%nat with (S (3 * length s)) by lia. cbn [lex_from].
  by rewrite app_nil_r.
Qed.

Lemma parse_tokens_emit_literal s :
  parse_tokens (emit literal s) = Done (if bool_decide (s = []) then [] else [LiteralOp s]).
Proof. unfold emit. by case_bool_decide. Qed.

Lemma Parse_escaped isTerminal s :
  escaped s →
  Parse isTerminal s = Done {| Ops := if bool_decide (s = []) then [] else [LiteralOp s] |}.
Proof.
  intros He. eapply Parse_of_tokens; [by apply lex_escaped|apply parse_tokens_emit_literal].
Qed.

(** C5 (as amended).  A template that is not empty and has no colon is
    parsed to the one literal operation that holds it; the empty template
    is parsed to the message without operations. *)
Theorem Parse_without_colon (isTerminal : bool) (s : bytes) :
  ":"%char ∉ s →
  (s ≠ [] → Parse isTerminal s = Done {| Ops := [LiteralOp s] |}) ∧
  (s = [] → Parse isTerminal s = Done {| Ops := [] |}).
Proof.
  intros Hs. pose proof (Parse_escaped isTerminal s (nocolon_escaped s Hs)) as H.
  split; intros Hs'.
  - by rewrite bool_decide_false in H.
  - by rewrite bool_decide_true in H.
Qed.

Lemma Parse_without_colon_witness :
  Parse false $"Hello, world" = Done {| Ops := [LiteralOp $"Hello, world"] |}.
Proof.
  refine (proj1 (Parse_without_colon false $"Hello, world" _) _).
  - apply (bool_decide_unpack _). by vm_compute.
  - discriminate.
Defined.

(** C5 fails as it is stated: the empty template has no colon and is
    not parsed to one literal operation. *)
Lemma Parse_empty_counterexample :
  ¬ (∀ s : bytes, ":"%char ∉ s → Parse false s = Done {| Ops := [LiteralOp s] |}).
Proof.
  intros H. specialize (H [] ltac:(apply not_elem_of_nil)). vm_compute in H. discriminate.
Qed.

Lemma lex_full s : scan_lit s = length s → lex s = Some (emit literal s).
Proof.
  intros He. unfold lex, run_fuel.
  replace (3 * length s + 2)%nat with (S (3 * length s + 1)) by lia.
  cbn [lex_from step]. unfold step_lexLiteral.
  rewrite He. rewrite drop_all, take_ge by done. cbn [app].
  replace (3 * length s + 1)%nat with (S (3 * length s)) by lia. cbn [lex_from].
  by rewrite app_nil_r.
Qed.

Lemma runLexer_LexOk isTerminal input toks :
  runLexer isTerminal input = Some (LexOk toks) ↔ lex input = Some toks.
Proof.
  pose proof (runLexer_lex isTerminal input) as H.
  destruct (lex input) as [T|].
  - rewrite H. split; by intros [= ->].
  - destruct H as (msg & ->). split; by intros [=].
Qed.

Lemma scan_lit_escape a rest :
  escaped a → scan_lit (a ++ $"\:" ++ rest) = (length a + 2 + scan_lit rest)%nat.
Proof.
  intros He. rewrite scan_lit_escaped; [|done|done].
  cbn [list_ascii_of_string app scan_lit]. 
  change (byteZ "\" =? rune ":") with false. change (byteZ "\" =? rune "\") with true.
  change (byteZ ":" =? rune ":") with true. cbn match. lia.
Qed.

(** C2.  The colon of an escaped colon starts no placeholder, in any
    input: [lexerPlaceholder] is never called at a colon that stands
    right after a backslash.  The backslash, which the comments of
    [lexLiteral] call an escape character, is not dropped.  In a
    template that begins with a text whose colons are all escaped,
    followed by a backslash and a colon, the first token is a literal
    token whose text begins with that text, the backslash and the colon.
    A template whose colons are all escaped is the text of its only
    token, is parsed to one literal operation that holds it whole, and
    is rendered as it is written, backslashes included: the template
    [a\:b] renders as [a\:b], and not as [a:b]. *)
Theorem escape_backslash_is_rendered (isTerminal : bool) (To_UpperCase : Z → Z)
    (replacements : gmap bytes bytes) (messages : gmap bytes Message) :
  (∀ s l i, enters isTerminal s state_lexerPlaceholder l →
            s !! i = Some "\"%char → pos l ≠ S i) ∧
  (∀ a rest toks, escaped a →
     runLexer isTerminal (a ++ $"\:" ++ rest) = Some (LexOk toks) →
     ∃ t toks', toks = t :: toks' ∧ TokenType t = literal ∧
                (a ++ $"\:") `prefix_of` Data t) ∧
  (∀ s, escaped s → s ≠ [] →
     runLexer isTerminal s = Some (LexOk [tok literal s]) ∧
     Parse isTerminal s = Done {| Ops := [LiteralOp s] |} ∧
     format To_UpperCase {| Ops := [LiteralOp s] |} replacements messages = s) ∧
  runLexer isTerminal $"a\:b" = Some (LexOk [tok literal $"a\:b"]) ∧
  Parse isTerminal $"a\:b" = Done {| Ops := [LiteralOp $"a\:b"] |} ∧
  format To_UpperCase {| Ops := [LiteralOp $"a\:b"] |} replacements messages = $"a\:b".
Proof.
  assert (∀ s, escaped s → s ≠ [] →
            runLexer isTerminal s = Some (LexOk [tok literal s]) ∧
            Parse isTerminal s = Done {| Ops := [LiteralOp s] |} ∧
            format To_UpperCase {| Ops := [LiteralOp s] |} replacements messages = s)
    as Hwhole.
  { intros s He Hne. split; [|split].
    - apply runLexer_LexOk. rewrite (lex_escaped s He). by rewrite emit_nonempty.
    - rewrite (Parse_escaped isTerminal s He). by rewrite bool_decide_false.
    - done. }
  split; [|split; [|split; [exact Hwhole|]]].
  - intros s l i He. by apply (enters_lexerPlaceholder isTerminal s l He).
  - intros a rest toks He Hl%runLexer_LexOk.
    pose proof (scan_lit_escape a rest He) as Hk. apply lex_first_literal in Hl.
    rewrite Hk in Hl. rewrite <- Nat.add_assoc in Hl.
    rewrite take_app_add in Hl. change 2%nat with (length $"\:") in Hl.
    rewrite take_app_add in Hl. rewrite emit_nonempty in Hl by (by destruct a).
    eexists _, _. split; [exact Hl|]. split; [done|].
    exists (take (scan_lit rest) rest). by rewrite <- (assoc_L (++) a).
  - apply (Hwhole $"a\:b"); [|done].
    intros i Hi. do 4 (destruct i as [|i]; [by (discriminate || eexists)|]). done.
Qed.

(** ** What the parser builds *)

Lemma p_args_suffix pcase todo r todo' :
  p_args pcase todo = Done (r, todo') → todo' `suffix_of` todo.
Proof.
  revert pcase. induction todo as [|token todo IH]; intros pcase; cbn [p_args].
  { by intros [= _ <-]. }
  destruct (bool_decide _); [by intros [= _ <-]|].
  destruct (arg_token pcase token) as [e|pcase']; [done|].
  intros H%IH. by apply suffix_cons_r.
Qed.

Lemma p_body_suffix pcase todo r todo' :
  p_body pcase todo = Done (r, todo') → todo' `suffix_of` todo.
Proof.
  revert pcase. induction todo as [|token todo IH]; intros pcase; cbn [p_body].
  { by intros [= _ <-]. }
  destruct (bool_decide _); [intros [= _ <-]; by apply suffix_cons_r|].
  intros H%IH. by apply suffix_cons_r.
Qed.

Lemma p_case_suffix todo r todo' :
  p_case todo = Done (r, todo') → todo' `suffix_of` todo.
Proof.
  unfold p_case. destruct todo as [|peek todo]; [by intros [= <- <-]|].
  destruct (_ && _); [by intros [= <- <-]|].
  destruct (p_args _ _) as [[[pcase|] todo1]|e|] eqn:Ea; [| |done..].
  - apply p_args_suffix in Ea.
    destruct todo1 as [|token todo2]; [intros [= <- <-]; apply suffix_nil|].
    destruct (negb _); [done|].
    destruct (p_body pcase todo2) as [[pcase' todo3]|e|] eqn:Eb; [|done..].
    apply p_body_suffix in Eb. intros [= <- <-].
    etrans; [|exact Ea]. by apply suffix_cons_r.
  - apply p_args_suffix in Ea. by intros [= <- <-].
Qed.

Lemma p_cases_suffix n cases other todo cases' other' todo' :
  p_cases n cases other todo = Done (cases', other', todo') → todo' `suffix_of` todo.
Proof.
  revert cases other todo. induction n as [|n IH]; intros cases other todo; [done|].
  cbn [p_cases]. destruct todo as [|t todo]; [by intros [= _ _ <-]|].
  destruct (p_case (t :: todo)) as [[[pcase|] todo1]|e|] eqn:Ec; [| |done..].
  - apply p_case_suffix in Ec.
    destruct (bool_decide _); intros H%IH; by etrans.
  - apply p_case_suffix in Ec. by intros [= _ _ <-].
Qed.

Lemma p_transformers_suffix n transformers todo transformers' todo' :
  p_transformers n transformers todo = Done (transformers', todo') →
  todo' `suffix_of` todo.
Proof.
  revert transformers todo. induction n as [|n IH]; intros transformers todo; [done|].
  cbn [p_transformers]. destruct todo as [|token todo]; [by intros [= _ <-]|].
  destruct (negb _); [by intros [= _ <-]|].
  destruct (bool_decide _); [intros H%IH; by apply suffix_cons_r|].
  destruct (bool_decide _); [intros H%IH; by apply suffix_cons_r|].
  destruct (bool_decide _); [|intros H%IH; by apply suffix_cons_r].
  destruct (p_cases _ _ _ _) as [[[cases other] todo1]|e|] eqn:Ec; [|done..].
  apply p_cases_suffix in Ec.
  destruct (_ =? _)%nat; [done|]. intros H%IH.
  apply suffix_cons_r. by etrans.
Qed.

Lemma p_transformers_has_other n transformers todo transformers' todo' :
  p_transformers n transformers todo = Done (transformers', todo') →
  Forall has_other transformers → Forall has_other transformers'.
Proof.
  revert transformers todo. induction n as [|n IH]; intros transformers todo; [done|].
  cbn [p_transformers]. destruct todo as [|token todo]; [by intros [= <- _]|].
  destruct (negb _); [by intros [= <- _]|].
  destruct (bool_decide _).
  { intros H Ht. eapply IH; [done|]. apply Forall_app. by repeat constructor. }
  destruct (bool_decide _).
  { intros H Ht. eapply IH; [done|]. apply Forall_app. by repeat constructor. }
  destruct (bool_decide _); [|apply IH].
  destruct (p_cases _ _ _ _) as [[[cases other] todo1]|e|]; [|done..].
  destruct other as [|o other]; [done|]. cbn [length Nat.eqb].
  intros H Ht. eapply IH; [done|]. apply Forall_app. by repeat constructor.
Qed.

Lemma Forall_suffix_of {T : Type} (P : T → Prop) (l1 l2 : list T) :
  l1 `suffix_of` l2 → Forall P l2 → Forall P l1.
Proof. intros [k ->] H. by apply Forall_app in H as [_ ?]. Qed.

Lemma p_parse_ok n ops todo ops' :
  p_parse n ops todo = Done ops' →
  Forall token_ok todo → Forall op_ok ops → Forall op_ok ops'.
Proof.
  revert ops todo. induction n as [|n IH]; intros ops todo; [done|].
  cbn [p_parse]. destruct todo as [|token todo]; [by intros [= <-]|].
  intros H Htoks Hops. apply Forall_cons in Htoks as [Htok Htoks].
  destruct (TokenType token) eqn:Et;
    try (by eapply IH; [done|done|done]).
  - eapply IH; [done|done|]. apply Forall_app. by repeat constructor.
  - destruct (p_transformers _ _ _) as [[ts todo1]|e|] eqn:Ep; [|done..].
    eapply IH; [done| |].
    + eapply Forall_suffix_of; [|done]. by eapply p_transformers_suffix.
    + apply Forall_app. split; [done|]. constructor; [|done].
      destruct (Htok Et) as [? ?]. split; [done|]. split; [done|].
      eapply p_transformers_has_other; [done|constructor].
Qed.

Lemma ContainsRune_lowercase r : ContainsRune lowercase r = true → rune "a" ≤ r ≤ rune "z".
Proof.
  unfold ContainsRune. destruct (_ && _); [|done].
  unfold lowercase. cbn [list_ascii_of_string existsb].
  rewrite !orb_true_iff, !Z.eqb_eq. rune_consts.
  change (rune "a") with 97. change (rune "z") with 122.
  repeat match goal with |- context [byteZ ?c] =>
    let v := eval vm_compute in (byteZ c) in change (byteZ c) with v end.
  lia.
Qed.

Lemma take_span_lower rest : Forall is_lower (take (span_len lowercase rest) rest).
Proof.
  eapply Forall_impl; [apply span_len_Forall|].
  intros c Hc. by apply ContainsRune_lowercase.
Qed.

Lemma emit_token_ok t pend : t ≠ replacement → Forall token_ok (emit t pend).
Proof.
  intros Ht. unfold emit. case_bool_decide; [constructor|].
  constructor; [|constructor]. by intros ?.
Qed.

Lemma tok_token_ok t d : t ≠ replacement → token_ok (tok t d).
Proof. by intros Ht ?. Qed.

Ltac tokens_ok :=
  repeat first [apply Forall_nil_2 | apply Forall_cons_2 | by apply tok_token_ok].

Lemma step_tokens_ok_prepend new sr :
  Forall token_ok new → step_tokens_ok sr → step_tokens_ok (prepend new sr).
Proof. destruct sr; [done|]. intros. by apply Forall_app. Qed.

Lemma step_body_tokens_ok pend rest : step_tokens_ok (step_body pend rest).
Proof.
  revert pend. induction rest as [|c rest IH]; intros pend; [done|]. cbn [step_body].
  destruct (_ =? _).
  { apply Forall_app. split; [by apply emit_token_ok|]. tokens_ok. }
  destruct (_ =? _); [|apply IH].
  apply step_tokens_ok_prepend; [|apply IH].
  apply Forall_app. split; [by apply emit_token_ok|]. tokens_ok.
Qed.

Lemma step_lexerPluralArgs_tokens_ok rest : step_tokens_ok (step_lexerPluralArgs rest).
Proof.
  induction rest as [|c rest IH]; [done|]. cbn [step_lexerPluralArgs].
  destruct (ContainsRune _ _); [done|].
  destruct (_ =? _); [tokens_ok|].
  destruct (_ =? _); [tokens_ok|].
  destruct (HasPrefix _ _); [|done]. tokens_ok.
Qed.

Lemma step_tokens_are_ok st pend rest : step_tokens_ok (step st pend rest).
Proof.
  destruct st; cbn [step].
  - by apply emit_token_ok.
  - unfold step_lexerPlaceholder. destruct (accepts lowercase (tail rest)) eqn:Ha.
    + apply Forall_cons_2; [|apply Forall_nil_2]. intros _. split.
      * by apply take_span_nonempty.
      * apply take_span_lower.
    + apply Forall_nil_2.
  - unfold step_lexerTransformer. destruct rest as [|c rest]; [tokens_ok|].
    destruct (_ =? _); [|tokens_ok].
    destruct (accepts _ _); [|done].
    destruct (bool_decide _).
    + destruct (drop _ _) as [|c2 rest3]; [done|].
      destruct (_ =? _); [|done]. tokens_ok.
    + destruct (_ || _); [|done]. tokens_ok.
  - apply step_lexerPluralArgs_tokens_ok.
  - unfold step_lexerPluralNumericArg. destruct (accepts _ _); [|done].
    destruct (drop _ _) as [|c rest2]; [tokens_ok|].
    destruct (_ =? _); [|tokens_ok].
    destruct (accepts _ _); [|done]. tokens_ok.
  - unfold step_lexerPluralTranslation. destruct (drop _ _) as [|c rest1]; [done|].
    destruct (_ =? _); [|done].
    apply step_tokens_ok_prepend; [tokens_ok|apply step_body_tokens_ok].
Qed.

Lemma lex_from_tokens_ok n st pend rest toks :
  lex_from n st pend rest = Some (Some toks) → Forall token_ok toks.
Proof.
  revert st pend rest toks. induction n as [|n IH]; intros st pend rest toks.
  { destruct st; [done|]. intros [= <-]. constructor. }
  destruct st as [st|]; [|intros [= <-]; constructor]. cbn [lex_from].
  pose proof (step_tokens_are_ok st pend rest) as Hstep.
  destruct (step st pend rest) as [|new st' pend' rest']; [done|].
  specialize (IH st' pend' rest').
  destruct (lex_from n st' pend' rest') as [[T'|]|]; [|done..].
  intros [= <-]. apply Forall_app. split; [done|]. by apply IH.
Qed.

Lemma lex_tokens_ok input toks : lex input = Some toks → Forall token_ok toks.
Proof.
  unfold lex. destruct (lex_from _ _ _ _) as [r|] eqn:E; [|done].
  intros ->. by eapply lex_from_tokens_ok.
Qed.

Lemma Parse_ops_ok isTerminal input m :
  Parse isTerminal input = Done m → Forall op_ok (Ops m).
Proof.
  intros (toks & Hl & Hp)%Parse_Done.
  eapply p_parse_ok; [exact Hp| |constructor]. by eapply lex_tokens_ok.
Qed.

(** C9.  In a message that [Parse] returns, the key of every replacement
    is not empty and is made of lowercase ASCII letters only. *)
Theorem replacement_key_lowercase (isTerminal : bool) (input : bytes) (m : Message)
    (key : bytes) (transformers : list transformer_) :
  Parse isTerminal input = Done m →
  ReplacementOp key transformers ∈ Ops m →
  key ≠ [] ∧ Forall is_lower key.
Proof.
  intros Hp Hop. apply Parse_ops_ok in Hp. rewrite Forall_forall in Hp.
  by destruct (Hp _ Hop) as (? & ? & _).
Qed.

Lemma replacement_key_lowercase_witness :
  $"name" ≠ [] ∧ Forall is_lower $"name".
Proof.
  refine (replacement_key_lowercase false $"Hi :name|capitalize!" _ $"name"
    [CapitalizeTransformer] _ _).
  - vm_compute. reflexivity.
  - cbn [Ops]. apply list_elem_of_further, list_elem_of_here.
Defined.

(** * Decimal numbers: [strconv.Itoa] and [strconv.Atoi] *)

Import parser lingua.

Lemma dec_app s1 s2 n : dec (s1 ++ s2) n = dec s2 (dec s1 n).
Proof. revert n. induction s1 as [|c s1 IH]; intros n; [done|]. apply IH. Qed.

Lemma dec_bounds s n :
  Forall is_digit s → 0 ≤ n →
  n * 10 ^ Z.of_nat (length s) ≤ dec s n < (n + 1) * 10 ^ Z.of_nat (length s).
Proof.
  intros Hs. revert n. induction Hs as [|c s Hc Hs IH]; intros n Hn.
  { simpl. lia. }
  cbn [dec length]. rewrite Nat2Z.inj_succ, Z.pow_succ_r by lia.
  unfold is_digit in Hc. specialize (IH (n * 10 + (byteZ c - 48)) ltac:(lia)).
  assert (0 < 10 ^ Z.of_nat (length s)) by (apply Z.pow_pos_nonneg; lia).
  nia.
Qed.

Lemma Atoi_fast_loop_dec s n :
  Forall is_digit s → strconv.Atoi_fast_loop s n = (dec s n, None).
Proof.
  intros Hs. revert n. induction Hs as [|c s Hc Hs IH]; intros n; [done|].
  cbn [strconv.Atoi_fast_loop dec]. unfold is_digit in Hc.
  rewrite Z.mod_small by lia.
  destruct (9 <? byteZ c - 48) eqn:E; [lia|]. apply IH.
Qed.

Lemma ParseUint_loop_dec s n :
  Forall is_digit s → 0 ≤ n → dec s n < 2 ^ 63 →
  strconv.ParseUint_loop s n = (dec s n, None).
Proof.
  intros Hs. revert n. induction Hs as [|c s Hc Hs IH]; intros n Hn Hd; [done|].
  cbn [strconv.ParseUint_loop dec] in *. unfold is_digit in Hc.
  pose proof (dec_bounds s (n * 10 + (byteZ c - 48)) Hs ltac:(lia)) as Hb.
  assert (0 < 10 ^ Z.of_nat (length s)) by (apply Z.pow_pos_nonneg; lia).
  assert (n * 10 + (byteZ c - 48) < 2 ^ 63) by nia.
  change (2 ^ 63) with 9223372036854775808 in *.
  change (strconv.maxUint64 / 10 + 1) with 1844674407370955162.
  change strconv.maxUint64 with 18446744073709551615.
  destruct ((48 <=? byteZ c) && (byteZ c <=? 57)) eqn:E1; [|lia].
  destruct (1844674407370955162 <=? n) eqn:E2; [lia|].
  destruct (18446744073709551615 <? n * 10 + (byteZ c - 48)) eqn:E3; [lia|].
  apply IH; lia.
Qed.

Lemma ParseUint_loop_digits s n :
  Forall is_digit s → 0 ≤ n →
  strconv.ParseUint_loop s n = (dec s n, None) ∨
  strconv.ParseUint_loop s n = (strconv.maxUint64, Some strconv.ErrRange).
Proof.
  intros Hs. revert n. induction Hs as [|c s Hc Hs IH]; intros n Hn; [by left|].
  cbn [strconv.ParseUint_loop dec]. unfold is_digit in Hc.
  destruct ((48 <=? byteZ c) && (byteZ c <=? 57)) eqn:E1; [|lia].
  destruct (_ <=? n); [by right|].
  destruct (_ <? _); [by right|]. apply IH. lia.
Qed.

Lemma digit_not_sign c d : is_digit c → ¬ is_digit d → Ascii.eqb c d = false.
Proof. intros Hc Hd. apply Ascii.eqb_neq. by intros ->. Qed.

Lemma minus_not_digit : ¬ is_digit "-".
Proof. unfold is_digit. change (byteZ "-") with 45. lia. Qed.

Lemma plus_not_digit : ¬ is_digit "+".
Proof. unfold is_digit. change (byteZ "+") with 43. lia. Qed.

Lemma digits_not_signed c d :
  Forall is_digit (c :: d) → Ascii.eqb c "-" = false ∧ Ascii.eqb c "+" = false.
Proof.
  intros Hd. inversion Hd as [|? ? Hc _]; subst.
  split; apply digit_not_sign; auto using minus_not_digit, plus_not_digit.
Qed.

(** The number that [Atoi] reads from a run of digits fits in 63 bits. *)
Lemma Atoi_digits d a :
  Forall is_digit d → strconv.Atoi d = (a, None) → 0 ≤ a < 2 ^ 63.
Proof.
  intros Hd. unfold strconv.Atoi.
  destruct ((0 <? length d)%nat && (length d <? 19)%nat) eqn:El.
  - destruct d as [|c d]; [done|].
    destruct (digits_not_signed c d Hd) as [Hm Hp]. rewrite Hm, Hp.
    cbn [orb andb]. rewrite Atoi_fast_loop_dec by done.
    intros [= <-].
    pose proof (dec_bounds (c :: d) 0 Hd ltac:(lia)) as Hb.
    assert (10 ^ Z.of_nat (length (c :: d)) ≤ 10 ^ 18) as Hpw.
    { apply Z.pow_le_mono_r; [lia|].
      apply andb_true_iff in El as [_ El]. apply Nat.ltb_lt in El. lia. }
    change (10 ^ 18) with 1000000000000000000 in Hpw.
    change (2 ^ 63) with 9223372036854775808. change (dec d (0 * 10 + (byteZ c - 48))) with (dec (c :: d) 0). lia.
  - unfold strconv.ParseInt. destruct d as [|c d]; [done|].
    destruct (digits_not_signed c d Hd) as [-> ->].
    unfold strconv.ParseUint.
    pose proof (dec_bounds (c :: d) 0 Hd ltac:(lia)) as Hb.
    destruct (ParseUint_loop_digits (c :: d) 0 Hd ltac:(lia)) as [-> | ->].
    + cbn [negb andb]. destruct (2 ^ 63 <=? dec (c :: d) 0) eqn:E; [done|].
      intros [= <-]. apply Z.leb_gt in E. change (dec d (0 * 10 + (byteZ c - 48))) with (dec (c :: d) 0). lia.
    + cbn [negb andb]. by change (2 ^ 63 <=? strconv.maxUint64) with true.
Qed.

Lemma digit_byte_digit d : 0 ≤ d ≤ 9 → byteZ (strconv.digit_byte d) = 48 + d.
Proof.
  intros Hd. unfold strconv.digit_byte, byteZ.
  rewrite N_ascii_embedding; lia.
Qed.

Lemma formatBits_spec fuel u acc :
  0 ≤ u < 2 ^ (Z.of_nat fuel + 1) →
  ∃ ds, strconv.formatBits fuel u acc = ds ++ acc ∧ Forall is_digit ds ∧ ds ≠ [] ∧
        (∀ n, dec ds n = n * 10 ^ Z.of_nat (length ds) + u) ∧
        (length ds = 1%nat ∨ 10 ^ (Z.of_nat (length ds) - 1) ≤ u).
Proof.
  revert u acc. induction fuel as [|fuel IH]; intros u acc Hu.
  - change (2 ^ (Z.of_nat 0 + 1)) with 2 in Hu. cbn [strconv.formatBits].
    exists [strconv.digit_byte (u mod 10)].
    rewrite Z.mod_small by lia.
    split; [done|]. split.
    { constructor; [|done]. unfold is_digit. rewrite digit_byte_digit; lia. }
    split; [done|]. split; [|by left].
    intros n. cbn [dec length]. rewrite digit_byte_digit by lia.
    change (10 ^ Z.of_nat 1) with 10. lia.
  - cbn [strconv.formatBits].
    assert (0 ≤ u mod 10 ≤ 9) as Hm by (pose proof (Z.mod_pos_bound u 10); lia).
    destruct (u <? 10) eqn:E.
    + exists [strconv.digit_byte (u mod 10)].
      rewrite Z.mod_small by lia.
      split; [done|]. split.
      { constructor; [|done]. unfold is_digit. rewrite digit_byte_digit; lia. }
      split; [done|]. split; [|by left].
      intros n. cbn [dec length]. rewrite digit_byte_digit by lia.
      change (10 ^ Z.of_nat 1) with 10. lia.
    + assert (0 ≤ u / 10 < 2 ^ (Z.of_nat fuel + 1)) as Hq.
      { replace (Z.of_nat (S fuel) + 1) with (Z.succ (Z.of_nat fuel + 1)) in Hu by lia.
        rewrite Z.pow_succ_r in Hu by lia.
        split; [apply Z.div_pos; lia|].
        apply Z.div_lt_upper_bound; lia. }
      destruct (IH (u / 10) (strconv.digit_byte (u mod 10) :: acc) Hq)
        as (ds & -> & Hds & Hne & Hdec & Hlen).
      exists (ds ++ [strconv.digit_byte (u mod 10)]).
      split; [by rewrite <- app_assoc|]. split.
      { apply Forall_app. split; [done|]. constructor; [|done].
        unfold is_digit. rewrite digit_byte_digit; lia. }
      split; [by destruct ds|]. split.
      * intros n. rewrite dec_app, Hdec. cbn [dec]. rewrite digit_byte_digit by lia.
        rewrite length_app. cbn [length]. rewrite Nat2Z.inj_add.
        change (Z.of_nat 1) with 1. rewrite Z.pow_add_r by lia.
        change (10 ^ 1) with 10.
        pose proof (Z.div_mod u 10 ltac:(lia)). lia.
      * right. rewrite length_app. cbn [length]. rewrite Nat2Z.inj_add.
        change (Z.of_nat 1) with 1.
        replace (Z.of_nat (length ds) + 1 - 1) with (Z.of_nat (length ds)) by lia.
        pose proof (Z.div_mod u 10 ltac:(lia)).
        destruct Hlen as [-> | Hlen]; [change (10 ^ Z.of_nat 1) with 10; lia|].
        replace (Z.of_nat (length ds)) with (Z.succ (Z.of_nat (length ds) - 1)) by lia.
        rewrite Z.pow_succ_r; [lia|]. destruct ds; [done|]. simpl. lia.
Qed.

(** [Itoa] writes a number of 63 bits as a run of digits that [Atoi]
    reads back. *)
Lemma Itoa_spec a :
  0 ≤ a < 2 ^ 63 →
  Forall is_digit (strconv.Itoa a) ∧ strconv.Itoa a ≠ [] ∧
  strconv.Atoi (strconv.Itoa a) = (a, None).
Proof.
  intros Ha. unfold strconv.Itoa. destruct (a <? 0) eqn:E; [lia|].
  assert (0 ≤ a < 2 ^ (Z.of_nat (Z.to_nat (Z.log2 a)) + 1)) as Hf.
  { pose proof (Z.log2_nonneg a). rewrite Z2Nat.id by done.
    destruct (decide (a = 0)) as [->|]; [done|].
    pose proof (Z.log2_spec a ltac:(lia)).
    replace (Z.log2 a + 1) with (Z.succ (Z.log2 a)) by lia. lia. }
  destruct (formatBits_spec _ a [] Hf) as (ds & -> & Hds & Hne & Hdec & Hlen).
  rewrite app_nil_r. split; [done|]. split; [done|].
  assert (length ds ≤ 19)%nat as Hl.
  { destruct Hlen as [-> | Hlen]; [lia|].
    destruct (decide (length ds ≤ 19)%nat); [done|].
    assert (10 ^ 19 ≤ 10 ^ (Z.of_nat (length ds) - 1)) by (apply Z.pow_le_mono_r; lia).
    change (10 ^ 19) with 10000000000000000000 in *.
    change (2 ^ 63) with 9223372036854775808 in *. lia. }
  specialize (Hdec 0). rewrite Z.mul_0_l, Z.add_0_l in Hdec.
  destruct ds as [|c ds]; [done|].
  destruct (digits_not_signed c ds Hds) as [Hm Hp].
  unfold strconv.Atoi.
  destruct ((0 <? length (c :: ds))%nat && (length (c :: ds) <? 19)%nat) eqn:El.
  - rewrite Hm, Hp. cbn [orb andb]. rewrite Atoi_fast_loop_dec by done.
    by rewrite Hdec.
  - unfold strconv.ParseInt, strconv.ParseUint. rewrite Hm, Hp.
    rewrite ParseUint_loop_dec by (done || lia). rewrite Hdec. cbn [negb andb].
    destruct (2 ^ 63 <=? a) eqn:E2; [lia|]. done.
Qed.

Lemma ContainsRune_digits c : ContainsRune digits (byteZ c) = true ↔ is_digit c.
Proof.
  unfold is_digit, ContainsRune. pose proof (byteZ_range c).
  change utf8.RuneSelf with 128.
  destruct ((0 <=? byteZ c) && (byteZ c <? 128)) eqn:E.
  - unfold digits. cbn [list_ascii_of_string existsb].
    rewrite !orb_true_iff, !Z.eqb_eq.
    repeat match goal with |- context [byteZ ?d] =>
      is_ground d; let v := eval vm_compute in (byteZ d) in change (byteZ d) with v end.
    lia.
  - split; [done|]. lia.
Qed.

(** * The parser on the groups of tokens *)

Import parser lingua.

Ltac bd :=
  repeat match goal with
  | |- context [bool_decide (?x = ?y)] =>
    first [rewrite (bool_decide_true (x = y)) by done
          |rewrite (bool_decide_false (x = y)) by done]
  end;
  cbn [negb andb orb].

Ltac pstep :=
  cbn [tok TokenType Data]; bd;
  match goal with
  | |- context [p_args ?pc (?t :: ?l)] =>
    change (p_args pc (t :: l)) with
      (if bool_decide (TokenType t = pluralTranslationStart) then Done (Some pc, t :: l)
       else match arg_token pc t with
            | inl e => Fail e
            | inr pcase => p_args pcase l
            end);
    unfold arg_token; cbn [tok TokenType Data Type_ set_A set_B set_Type]; bd
  end.

Lemma p_body_toks body pcase e T :
  p_body pcase (map bitem_tok body ++ tok pluralTranslationEnd e :: T) =
  Done (Build_PluralCase (Type_ pcase) (A pcase) (B pcase) (Ops_of pcase ++ map bop body), T).
Proof.
  revert pcase. induction body as [|b body IH]; intros pcase.
  - cbn [map app p_body tok TokenType]. bd. destruct pcase. cbn. by rewrite app_nil_r.
  - cbn [map app p_body]. destruct b; cbn [bitem_tok tok TokenType]; bd;
      rewrite IH; unfold body_token; cbn; by rewrite <- app_assoc.
Qed.

Lemma p_case_toks c T :
  agrees (p_case (case_toks c ++ T))
    (match case_of c with Some pc => Some (Some pc, T) | None => None end).
Proof.
  destruct c as [h body]. unfold case_toks, case_of, atoi. cbn [c_head c_body].
  destruct h as [d|d1 d2|]; cbn [head_toks app]; rewrite <- ?app_assoc; cbn [app].
  - unfold p_case. pstep.
    destruct (strconv.Atoi d) as [a [e|]]; cbn [agrees]; [by eexists|].
    pstep. rewrite p_body_toks. done.
  - unfold p_case. pstep.
    destruct (strconv.Atoi d1) as [a [e|]]; cbn [agrees]; [by eexists|].
    pstep. pstep. destruct (strconv.Atoi d2) as [b0 [e|]]; cbn [agrees]; [by eexists|].
    pstep. rewrite p_body_toks. done.
  - unfold p_case. pstep. pstep. rewrite p_body_toks. done.
Qed.

Lemma case_toks_cons c : ∃ t l, case_toks c = t :: l.
Proof. destruct c as [[| |] body]; by eexists _, _. Qed.

Lemma length_concat_case_toks cs : (length cs ≤ length (concat (map case_toks cs)))%nat.
Proof.
  induction cs as [|c cs IH]; [done|]. cbn [map concat length].
  destruct (case_toks_cons c) as (t & l & ->). rewrite length_app. simpl. lia.
Qed.

Lemma p_cases_toks cs cases other T fuel :
  after_cases T → (length cs < fuel)%nat →
  agrees (p_cases fuel cases other (concat (map case_toks cs) ++ T))
    (match cases_of cs cases other with
     | Some (cases', other') => Some (cases', other', T)
     | None => None
     end).
Proof.
  revert cases other fuel. induction cs as [|c cs IH]; intros cases other fuel HT Hf.
  - destruct fuel as [|fuel]; [simpl in Hf; lia|]. cbn [map concat app cases_of agrees p_cases].
    destruct T as [|t T]; [done|]. unfold p_case.
    destruct HT as [HT|[HT|HT]]; rewrite HT; done.
  - destruct fuel as [|fuel]; [simpl in Hf; lia|]. cbn [map concat cases_of p_cases].
    rewrite <- app_assoc. pose proof (p_case_toks c (concat (map case_toks cs) ++ T)) as Hc.
    destruct (case_toks_cons c) as (t & l & Ht). rewrite Ht in *. cbn [app] in *.
    destruct (case_of c) as [pcase|].
    + cbn [agrees] in Hc. rewrite Hc. simpl in Hf.
      destruct (bool_decide _); apply IH; (done || lia).
    + destruct Hc as (e & ->). by eexists.
Qed.

Lemma after_cases_chain trs T : top_start T → after_cases (concat (map trans_toks trs) ++ T).
Proof.
  intros HT. destruct trs as [|[| |cs] trs]; cbn; auto.
  destruct T as [|t T]; [done|]. cbn. destruct HT; auto.
Qed.

Lemma p_transformers_toks trs acc T fuel :
  top_start T → (length trs < fuel)%nat →
  agrees (p_transformers fuel acc (concat (map trans_toks trs) ++ T))
    (match mapM transformer_of trs with
     | Some ts => Some (acc ++ ts, T)
     | None => None
     end).
Proof.
  revert acc fuel. induction trs as [|t trs IH]; intros acc fuel HT Hf.
  - destruct fuel as [|fuel]; [simpl in Hf; lia|].
    cbn [map concat app mapM agrees p_transformers mret option_ret]. rewrite app_nil_r.
    destruct T as [|t T]; [done|]. destruct HT as [HT|HT]; rewrite HT; done.
  - destruct fuel as [|fuel]; [simpl in Hf; lia|]. simpl in Hf.
    specialize (IH (acc ++ [match transformer_of t with Some t' => t' | None => CapitalizeTransformer end])
                  fuel HT ltac:(lia)).
    cbn [map concat mapM mbind option_bind]. rewrite <- app_assoc.
    destruct t as [| |cs]; cbn [trans_toks app p_transformers transformer_of] in *.
    + cbn. cbn in IH. destruct (mapM transformer_of trs); cbn in *; [|done].
      by rewrite <- app_assoc in IH.
    + cbn. cbn in IH. destruct (mapM transformer_of trs); cbn in *; [|done].
      by rewrite <- app_assoc in IH.
    + cbn [TokenType Data tok].
      change (negb (bool_decide (transformer = transformer))) with false. cbn match.
      rewrite (bool_decide_false ($"plural" = $"capitalize")) by done.
      rewrite (bool_decide_false ($"plural" = $"replace")) by done.
      rewrite (bool_decide_true ($"plural" = $"plural")) by done.
      pose proof (p_cases_toks cs [] [] (concat (map trans_toks trs) ++ T)
                    (S (length (concat (map case_toks cs) ++ concat (map trans_toks trs) ++ T)))
                    (after_cases_chain trs T HT)) as Hc.
      pose proof (length_concat_case_toks cs) as Hl.
      rewrite length_app in Hc. specialize (Hc ltac:(lia)). rewrite <- length_app in Hc.
      destruct (cases_of cs [] []) as [[cases other]|].
      * cbn [agrees] in Hc. rewrite Hc.
        destruct (length other =? 0)%nat; [by eexists|].
        cbn [mbind option_bind]. destruct (mapM transformer_of trs); cbn in *; [|done].
        by rewrite <- app_assoc in IH.
      * destruct Hc as (e & ->). by eexists.
Qed.

Lemma trans_toks_cons t : ∃ t' l, trans_toks t = t' :: l.
Proof. destruct t; by eexists _, _. Qed.

Lemma length_concat_trans_toks trs : (length trs ≤ length (concat (map trans_toks trs)))%nat.
Proof.
  induction trs as [|t trs IH]; [done|]. cbn [map concat length].
  destruct (trans_toks_cons t) as (t' & l & ->). rewrite length_app. simpl. lia.
Qed.

Lemma top_start_items items : top_start (concat (map item_toks items)).
Proof. destruct items as [|[text|key trs] items]; cbn; auto. Qed.

Lemma p_parse_toks items acc fuel :
  (length items < fuel)%nat →
  agrees (p_parse fuel acc (concat (map item_toks items)))
    (match mapM op_of items with
     | Some ops => Some (acc ++ ops)
     | None => None
     end).
Proof.
  revert acc fuel. induction items as [|i items IH]; intros acc fuel Hf.
  - destruct fuel as [|fuel]; [simpl in Hf; lia|]. cbn. by rewrite app_nil_r.
  - destruct fuel as [|fuel]; [simpl in Hf; lia|]. simpl in Hf.
    cbn [map concat mapM mbind option_bind].
    destruct i as [text|key trs]; cbn [item_toks app p_parse op_of TokenType Data tok].
    + specialize (IH (acc ++ [LiteralOp text]) fuel ltac:(lia)).
      destruct (mapM op_of items); cbn in *; [|done]. by rewrite <- app_assoc in IH.
    + pose proof (p_transformers_toks trs [] (concat (map item_toks items))
                    (S (length (concat (map trans_toks trs) ++ concat (map item_toks items))))
                    (top_start_items items)) as Ht.
      pose proof (length_concat_trans_toks trs) as Hl.
      rewrite length_app in Ht. specialize (Ht ltac:(lia)). rewrite <- length_app in Ht.
      destruct (mapM transformer_of trs) as [ts|].
      * cbn [agrees app] in Ht. rewrite Ht.
        specialize (IH (acc ++ [ReplacementOp key ts]) fuel ltac:(lia)).
        cbn [mbind option_bind].
        destruct (mapM op_of items); cbn in *; [|done]. by rewrite <- app_assoc in IH.
      * destruct Ht as (e & ->). by eexists.
Qed.

Lemma length_concat_item_toks items : (length items ≤ length (concat (map item_toks items)))%nat.
Proof.
  induction items as [|i items IH]; [done|]. cbn [map concat length].
  rewrite length_app. destruct i; simpl; lia.
Qed.

(** The operations that [Parse] builds from the tokens of the groups
    [items] are the operations of the groups. *)
Lemma parse_tokens_items items :
  agrees (parse_tokens (concat (map item_toks items))) (mapM op_of items).
Proof.
  pose proof (p_parse_toks items [] (S (length (concat (map item_toks items))))) as H.
  pose proof (length_concat_item_toks items).
  specialize (H ltac:(lia)). unfold parse_tokens.
  by destruct (mapM op_of items).
Qed.

(** * The lexer, group by group *)

Import parser lingua.

Ltac norm_app := repeat (progress (rewrite <- ?app_assoc; cbn [app])).

Lemma emit_lit_bitems pend : emit literal pend = map bitem_tok (lit_bitems pend).
Proof. unfold emit, lit_bitems. by case_bool_decide. Qed.

Lemma emit_lit_items text : emit literal text = concat (map item_toks (lit_items text)).
Proof. unfold emit, lit_items. by case_bool_decide. Qed.

Lemma step_body_lex pend rest :
  step_body pend rest =
  match lex_body pend rest with
  | Some (body, rest') =>
    StepTo (map bitem_tok body ++ [tok pluralTranslationEnd $"}"])
      (Some state_lexerPluralArgs) [] rest'
  | None => StepErr
  end.
Proof.
  revert pend. induction rest as [|c rest IH]; intros pend; [done|].
  cbn [step_body lex_body].
  destruct (byteZ c =? rune "}") eqn:E1.
  { apply byteZ_eqb_eq in E1 as ->. by rewrite emit_lit_bitems. }
  destruct (byteZ c =? rune "#") eqn:E2; [|apply IH].
  apply byteZ_eqb_eq in E2 as ->. rewrite IH.
  destruct (lex_body [] rest) as [[body rest']|]; [|done].
  cbn [prepend]. rewrite emit_lit_bitems, map_app. cbn [map bitem_tok].
  by rewrite <- !app_assoc.
Qed.

Lemma step_lexerPluralTranslation_lex rest :
  step_lexerPluralTranslation rest =
  match lex_translation rest with
  | Some (body, rest') =>
    StepTo (tok pluralTranslationStart $"{" :: map bitem_tok body ++
            [tok pluralTranslationEnd $"}"])
      (Some state_lexerPluralArgs) [] rest'
  | None => StepErr
  end.
Proof.
  unfold step_lexerPluralTranslation, lex_translation.
  destruct (drop _ rest) as [|c rest']; [done|].
  destruct (byteZ c =? rune "{") eqn:E; [|done].
  apply byteZ_eqb_eq in E as ->. rewrite step_body_lex.
  by destruct (lex_body [] rest') as [[body rest'']|].
Qed.

Lemma step_lexerPluralNumericArg_lex rest :
  step_lexerPluralNumericArg rest =
  match lex_head rest with
  | Some (h, rest') => StepTo (head_toks h) (Some state_lexerPluralTranslation) [] rest'
  | None => StepErr
  end.
Proof.
  unfold step_lexerPluralNumericArg, lex_head.
  destruct (accepts digits rest); [|done].
  destruct (drop _ rest) as [|c rest2]; [done|].
  destruct (byteZ c =? rune "-") eqn:E; [|done].
  apply byteZ_eqb_eq in E as ->.
  by destruct (accepts digits rest2).
Qed.

(** What [lexerPluralArgs] and [lexerTransformer] can return. *)
Lemma step_lexerPluralArgs_cases rest :
  step_lexerPluralArgs rest = StepErr ∨
  (∃ rest', step_lexerPluralArgs rest = StepTo [] (Some state_lexerTransformer) [] rest') ∨
  (∃ rest1, step_lexerPluralArgs rest = StepTo [] (Some state_lexerPluralNumericArg) [] rest1) ∨
  (∃ rest2, step_lexerPluralArgs rest =
            StepTo [tok pluralOther $"other"] (Some state_lexerPluralTranslation) [] rest2).
Proof.
  induction rest as [|c rest IH]; [by left|]. cbn [step_lexerPluralArgs].
  destruct (ContainsRune spaces (byteZ c)); [done|].
  destruct (byteZ c =? rune ")"); [right; left; by eexists|].
  destruct (byteZ c =? rune "="); [right; right; left; by eexists|].
  destruct (HasPrefix (c :: rest) $"other"); [right; right; right; by eexists|].
  done.
Qed.

Lemma step_lexerTransformer_cases rest :
  step_lexerTransformer [] rest = StepErr ∨
  (head_is (rune "|") rest = false ∧
   step_lexerTransformer [] rest = StepTo [] (Some state_lexLiteral) [] rest) ∨
  (∃ rest1, step_lexerTransformer [] rest =
            StepTo [tok transformer $"capitalize"] (Some state_lexerTransformer) [] rest1) ∨
  (∃ rest1, step_lexerTransformer [] rest =
            StepTo [tok transformer $"replace"] (Some state_lexerTransformer) [] rest1) ∨
  (∃ pend rest1, step_lexerTransformer [] rest =
                 StepTo [tok transformer $"plural"] (Some state_lexerPluralArgs) pend rest1).
Proof.
  unfold step_lexerTransformer. destruct rest as [|c rest1]; [right; left; done|].
  cbn [head_is]. destruct (byteZ c =? rune "|"); [|right; left; done].
  destruct (accepts lowercase rest1); [|by left].
  case_bool_decide as E1.
  { rewrite E1. destruct (drop _ rest1) as [|c2 rest3]; [by left|].
    destruct (byteZ c2 =? rune "("); [|by left]. right; right; right; right. by eexists _, _. }
  case_bool_decide as E2.
  { rewrite E2. right; right; left. by eexists. }
  case_bool_decide as E3; [|by left].
  rewrite E3. right; right; right; left. by eexists.
Qed.

Lemma step_lexerTransformer_end rest :
  head_is (rune "|") rest = false →
  step_lexerTransformer [] rest = StepTo [] (Some state_lexLiteral) [] rest.
Proof.
  intros H. unfold step_lexerTransformer. destruct rest as [|c rest1]; [done|].
  cbn [head_is] in H. by rewrite H.
Qed.

(** ** Runs of the lexer without their fuel *)

Lemma run_to_step st pend rest new st' pend' rest' T :
  step st pend rest = StepTo new st' pend' rest' →
  run_to st' pend' rest' T → run_to (Some st) pend rest (new ++ T).
Proof.
  intros Hs (n & Hn). exists (S n). cbn [lex_from]. by rewrite Hs, Hn.
Qed.

Lemma run_to_step_nil st pend rest st' pend' rest' T :
  step st pend rest = StepTo [] st' pend' rest' →
  run_to st' pend' rest' T → run_to (Some st) pend rest T.
Proof. intros Hs HT. by apply (run_to_step _ _ _ [] _ _ _ _ Hs). Qed.

Lemma lex_from_inv n st pend rest T :
  lex_from n (Some st) pend rest = Some (Some T) →
  ∃ n1 new st' pend' rest' T',
    n = S n1 ∧ step st pend rest = StepTo new st' pend' rest' ∧
    lex_from n1 st' pend' rest' = Some (Some T') ∧ T = new ++ T'.
Proof.
  destruct n as [|n1]; [done|]. cbn [lex_from].
  destruct (step st pend rest) as [|new st' pend' rest']; [done|].
  destruct (lex_from n1 st' pend' rest') as [[T'|]|] eqn:E; [|done..].
  intros [= <-]. by eexists _, _, _, _, _, _.
Qed.

Lemma run_to_lex input T : run_to (Some state_lexLiteral) [] input T → lex input = Some T.
Proof.
  intros (n & Hn). pose proof (lex_from_run_fuel input) as Hf.
  apply (lex_from_mono _ (n `max` run_fuel input)) in Hn; [|lia].
  apply (lex_from_mono _ (n `max` run_fuel input)) in Hf; [|lia].
  rewrite Hn in Hf. by injection Hf.
Qed.

(** ** From the groups to the run *)

Lemma case_toks_app h body R :
  case_toks {| c_head := h; c_body := body |} ++ R =
  head_toks h ++
  (tok pluralTranslationStart $"{" :: map bitem_tok body ++
   [tok pluralTranslationEnd $"}"]) ++ R.
Proof. unfold case_toks. cbn [c_head c_body]. by rewrite <- app_assoc. Qed.

Lemma lexes_args_run rest cs rest' :
  lexes_args rest cs rest' →
  ∀ pend T, run_to (Some state_lexerTransformer) [] rest' T →
  run_to (Some state_lexerPluralArgs) pend rest (concat (map case_toks cs) ++ T).
Proof.
  induction 1 as [rest rest' Hs|rest rest1 h rest2 body rest3 cs rest' Hs Hh Hb _ IH
                 |rest rest2 body rest3 cs rest' Hs Hb _ IH]; intros pend T HT.
  - by apply (run_to_step_nil state_lexerPluralArgs pend rest _ _ _ _ Hs).
  - apply (run_to_step_nil state_lexerPluralArgs pend rest _ _ _ _ Hs).
    cbn [map concat app]. rewrite <- app_assoc, case_toks_app.
    apply (run_to_step state_lexerPluralNumericArg [] rest1 (head_toks h)
             (Some state_lexerPluralTranslation) [] rest2).
    { cbn [step]. by rewrite step_lexerPluralNumericArg_lex, Hh. }
    apply (run_to_step state_lexerPluralTranslation [] rest2
             (tok pluralTranslationStart $"{" :: map bitem_tok body ++
              [tok pluralTranslationEnd $"}"]) (Some state_lexerPluralArgs) [] rest3).
    { cbn [step]. by rewrite step_lexerPluralTranslation_lex, Hb. }
    by apply IH.
  - cbn [map concat]. rewrite <- app_assoc, case_toks_app.
    apply (run_to_step state_lexerPluralArgs pend rest [tok pluralOther $"other"] _ _ _ _ Hs).
    apply (run_to_step state_lexerPluralTranslation [] rest2
             (tok pluralTranslationStart $"{" :: map bitem_tok body ++
              [tok pluralTranslationEnd $"}"]) (Some state_lexerPluralArgs) [] rest3).
    { cbn [step]. by rewrite step_lexerPluralTranslation_lex, Hb. }
    by apply IH.
Qed.

Lemma lexes_chain_run rest trs rest' :
  lexes_chain rest trs rest' →
  ∀ T, run_to (Some state_lexLiteral) [] rest' T →
  run_to (Some state_lexerTransformer) [] rest (concat (map trans_toks trs) ++ T).
Proof.
  induction 1 as [rest Hh|rest rest1 trs rest' Hs _ IH|rest rest1 trs rest' Hs _ IH
                 |rest pend rest1 cs rest2 trs rest' Hs Ha _ IH]; intros T HT.
  - apply (run_to_step_nil state_lexerTransformer [] rest (Some state_lexLiteral) [] rest);
      [by apply step_lexerTransformer_end|done].
  - apply (run_to_step state_lexerTransformer [] rest [tok transformer $"capitalize"]
             _ _ _ _ Hs). by apply IH.
  - apply (run_to_step state_lexerTransformer [] rest [tok transformer $"replace"]
             _ _ _ _ Hs). by apply IH.
  - cbn [map concat trans_toks]. rewrite <- app_assoc.
    apply (run_to_step state_lexerTransformer [] rest [tok transformer $"plural"]
             _ _ _ _ Hs).
    apply (lexes_args_run _ _ _ Ha). by apply IH.
Qed.

Lemma run_to_transformer_literal rest T :
  head_is (rune "|") rest = false →
  run_to (Some state_lexerTransformer) [] rest T → run_to (Some state_lexLiteral) [] rest T.
Proof.
  intros Hh (n & Hn).
  apply lex_from_inv in Hn as (n1 & new & st' & pend' & rest' & T' & -> & Hs & Hn & ->).
  cbn [step] in Hs. rewrite step_lexerTransformer_end in Hs by done.
  injection Hs as <- <- <- <-. by exists n1.
Qed.

Lemma drop_nil_take {T : Type} (k : nat) (l : list T) : drop k l = [] → take k l = l.
Proof.
  intros H. rewrite <- (take_drop k l) at 2. by rewrite H, app_nil_r.
Qed.

Lemma lexes_run pend rest items :
  lexes pend rest items →
  run_to (Some state_lexLiteral) pend rest (concat (map item_toks items)).
Proof.
  induction 1 as [pend rest Hd|pend rest c rest1 items Hd Ha _ IH
                 |pend rest c rest1 trs rest2 items Hd Ha Hc _ IH].
  - rewrite <- emit_lit_items, <- (app_nil_r (emit _ _)).
    apply (run_to_step state_lexLiteral pend rest _ None [] []); [|by exists 0%nat].
    cbn [step]. unfold step_lexLiteral. by rewrite Hd, (drop_nil_take _ _ Hd).
  - rewrite map_app, concat_app, <- emit_lit_items.
    apply (run_to_step state_lexLiteral pend rest _ (Some state_lexerPlaceholder) []
             (c :: rest1)).
    { cbn [step]. unfold step_lexLiteral. by rewrite Hd. }
    apply (run_to_step_nil state_lexerPlaceholder [] (c :: rest1) (Some state_lexLiteral)
             $":" rest1); [|done].
    cbn [step tail]. unfold step_lexerPlaceholder. by rewrite Ha.
  - rewrite map_app, concat_app, <- emit_lit_items. cbn [map concat item_toks].
    apply (run_to_step state_lexLiteral pend rest _ (Some state_lexerPlaceholder) []
             (c :: rest1)).
    { cbn [step]. unfold step_lexLiteral. by rewrite Hd. }
    apply (run_to_step state_lexerPlaceholder [] (c :: rest1)
             [tok replacement (take (span_len lowercase rest1) rest1)]
             (Some (if head_is (rune "|") (drop (span_len lowercase rest1) rest1)
                    then state_lexerTransformer else state_lexLiteral))
             [] (drop (span_len lowercase rest1) rest1)
             (concat (map trans_toks trs) ++ concat (map item_toks items))).
    { cbn [step tail]. unfold step_lexerPlaceholder. by rewrite Ha. }
    pose proof (lexes_chain_run _ _ _ Hc _ IH) as Hr.
    destruct (head_is (rune "|") _) eqn:Eh; [done|].
    by apply run_to_transformer_literal.
Qed.

(** The tokens of a template that is made of the groups [items]. *)
Lemma lexes_lex input items :
  lexes [] input items → lex input = Some (concat (map item_toks items)).
Proof. intros H. by apply run_to_lex, lexes_run. Qed.

(** ** From the run to the groups *)

Lemma run_lexes_args n :
  ∀ pend rest T,
  lex_from n (Some state_lexerPluralArgs) pend rest = Some (Some T) →
  ∃ cs rest' T' n',
    (n' < n)%nat ∧ lexes_args rest cs rest' ∧ T = concat (map case_toks cs) ++ T' ∧
    lex_from n' (Some state_lexerTransformer) [] rest' = Some (Some T').
Proof.
  induction n as [n IH] using lt_wf_ind. intros pend rest T Hn.
  apply lex_from_inv in Hn as (n1 & new & st' & pend' & rest1 & T1 & -> & Hs & Hn & ->).
  cbn [step] in Hs.
  destruct (step_lexerPluralArgs_cases rest) as [E|[(r & E)|[(r & E)|(r & E)]]];
    rewrite E in Hs; [done|injection Hs as <- <- <- <-..].
  - exists [], r, T1, n1. split; [lia|]. split; [by constructor|]. done.
  - apply lex_from_inv in Hn as (n2 & new & st' & pend' & rest2 & T2 & -> & Hs & Hn & ->).
    cbn [step] in Hs. rewrite step_lexerPluralNumericArg_lex in Hs.
    destruct (lex_head (tail r)) as [[h r2]|] eqn:Eh; [|done].
    injection Hs as <- <- <- <-.
    apply lex_from_inv in Hn as (n3 & new & st' & pend' & rest3 & T3 & -> & Hs & Hn & ->).
    cbn [step] in Hs. rewrite step_lexerPluralTranslation_lex in Hs.
    destruct (lex_translation r2) as [[body r3]|] eqn:Eb; [|done].
    injection Hs as <- <- <- <-.
    destruct (IH n3 ltac:(lia) _ _ _ Hn) as (cs & rest' & T' & n' & Hlt & Hcs & -> & Hn').
    exists ({| c_head := h; c_body := body |} :: cs), rest', T', n'.
    split; [lia|]. split; [by econstructor|]. split; [|done].
    cbn [map concat]. rewrite case_toks_app. by norm_app.
  - apply lex_from_inv in Hn as (n3 & new & st' & pend' & rest3 & T3 & -> & Hs & Hn & ->).
    cbn [step] in Hs. rewrite step_lexerPluralTranslation_lex in Hs.
    destruct (lex_translation r) as [[body r3]|] eqn:Eb; [|done].
    injection Hs as <- <- <- <-.
    destruct (IH n3 ltac:(lia) _ _ _ Hn) as (cs & rest' & T' & n' & Hlt & Hcs & -> & Hn').
    exists ({| c_head := HOther; c_body := body |} :: cs), rest', T', n'.
    split; [lia|]. split; [by eapply lexes_args_other|]. split; [|done].
    cbn [map concat]. rewrite case_toks_app. cbn [head_toks]. by norm_app.
Qed.

Lemma run_lexes_chain n :
  ∀ rest T,
  lex_from n (Some state_lexerTransformer) [] rest = Some (Some T) →
  ∃ trs rest' T' n',
    (n' < n)%nat ∧ lexes_chain rest trs rest' ∧ T = concat (map trans_toks trs) ++ T' ∧
    lex_from n' (Some state_lexLiteral) [] rest' = Some (Some T').
Proof.
  induction n as [n IH] using lt_wf_ind. intros rest T Hn.
  apply lex_from_inv in Hn as (n1 & new & st' & pend' & rest1 & T1 & -> & Hs & Hn & ->).
  cbn [step] in Hs.
  destruct (step_lexerTransformer_cases rest)
    as [E|[[Hh E]|[(r & E)|[(r & E)|(p & r & E)]]]]; rewrite E in Hs;
    [done|injection Hs as <- <- <- <-..].
  - exists [], rest, T1, n1. split; [lia|]. split; [by constructor|]. done.
  - destruct (IH n1 ltac:(lia) _ _ Hn) as (trs & rest' & T' & n' & Hlt & Hc & -> & Hn').
    exists (CCapitalize :: trs), rest', T', n'.
    split; [lia|]. split; [by econstructor|]. done.
  - destruct (IH n1 ltac:(lia) _ _ Hn) as (trs & rest' & T' & n' & Hlt & Hc & -> & Hn').
    exists (CReplace :: trs), rest', T', n'.
    split; [lia|]. split; [by eapply lexes_chain_replace|]. done.
  - apply run_lexes_args in Hn as (cs & rest2 & T2 & n2 & Hlt2 & Ha & -> & Hn).
    destruct (IH n2 ltac:(lia) _ _ Hn) as (trs & rest' & T' & n' & Hlt & Hc & -> & Hn').
    exists (CPlural cs :: trs), rest', T', n'.
    split; [lia|]. split; [by econstructor|]. split; [|done].
    cbn [map concat trans_toks]. by norm_app.
Qed.

Lemma run_lexes n :
  ∀ pend rest T,
  lex_from n (Some state_lexLiteral) pend rest = Some (Some T) →
  ∃ items, lexes pend rest items ∧ T = concat (map item_toks items).
Proof.
  induction n as [n IH] using lt_wf_ind. intros pend rest T Hn.
  apply lex_from_inv in Hn as (n1 & new & st' & pend' & rest1 & T1 & -> & Hs & Hn & ->).
  cbn [step] in Hs. unfold step_lexLiteral in Hs. injection Hs as <- <- <- <-.
  destruct (drop (scan_lit rest) rest) as [|c r1] eqn:Hd.
  { destruct n1; injection Hn as <-.
    all: exists (lit_items (pend ++ rest)); split; [by constructor|];
      by rewrite app_nil_r, <- emit_lit_items, (drop_nil_take _ _ Hd). }
  apply lex_from_inv in Hn as (n2 & new & st' & pend' & rest2 & T2 & -> & Hs & Hn & ->).
  cbn [step tail] in Hs. unfold step_lexerPlaceholder in Hs.
  destruct (accepts lowercase r1) eqn:Ha; injection Hs as <- <- <- <-.
  - destruct (head_is (rune "|") (drop (span_len lowercase r1) r1)) eqn:Eh.
    + apply run_lexes_chain in Hn as (trs & rest' & T' & n' & Hlt & Hc & -> & Hn).
      destruct (IH n' ltac:(lia) _ _ _ Hn) as (items & Hi & ->).
      eexists. split; [by eapply lexes_placeholder|].
      rewrite map_app, concat_app, <- emit_lit_items. cbn [map concat item_toks].
      by norm_app.
    + destruct (IH n2 ltac:(lia) _ _ _ Hn) as (items & Hi & ->).
      eexists. split.
      { eapply lexes_placeholder; [done..| |done]. by constructor. }
      rewrite map_app, concat_app, <- emit_lit_items. cbn [map concat item_toks].
      by norm_app.
  - destruct (IH n2 ltac:(lia) _ _ _ Hn) as (items & Hi & ->).
    eexists. split; [by eapply lexes_colon|].
    by rewrite map_app, concat_app, <- emit_lit_items.
Qed.

(** The tokens of a template are those of the groups that it is made
    of. *)
Lemma lex_lexes input T :
  lex input = Some T → ∃ items, lexes [] input items ∧ T = concat (map item_toks items).
Proof.
  intros H. pose proof (lex_from_run_fuel input) as Hf. rewrite H in Hf.
  by apply run_lexes in Hf.
Qed.

(** * The text that [Raw] writes is read back *)

Import parser lingua.

Lemma head_accepts valid (r r' : bytes) : head r = head r' → accepts valid r = accepts valid r'.
Proof. destruct r, r'; try done. by intros [= ->]. Qed.

Lemma head_head_is z (r r' : bytes) : head r = head r' → head_is z r = head_is z r'.
Proof. destruct r, r'; try done. by intros [= ->]. Qed.

Lemma head_app_cons (x : bytes) c r r' : head (x ++ c :: r) = head (x ++ c :: r').
Proof. by destruct x. Qed.

Lemma span_len_app valid s r :
  Forall (λ c, ContainsRune valid (byteZ c) = true) s → accepts valid r = false →
  span_len valid (s ++ r) = length s.
Proof.
  intros Hs Hr. induction Hs as [|c s Hc Hs IH]; cbn [app span_len length].
  - destruct r as [|c r]; [done|]. cbn [accepts] in Hr. cbn [span_len]. by rewrite Hr.
  - by rewrite Hc, IH.
Qed.

Lemma mapM_cons_inv {T U : Type} (f : T → option U) x l ys :
  mapM f (x :: l) = Some ys →
  ∃ y ys', f x = Some y ∧ mapM f l = Some ys' ∧ ys = y :: ys'.
Proof.
  intros H. apply mapM_Some in H. inversion H; subst.
  eexists _, _. split; [done|]. split; [by apply mapM_Some|done].
Qed.

Lemma mapM_cons_intro {T U : Type} (f : T → option U) x l y ys :
  f x = Some y → mapM f l = Some ys → mapM f (x :: l) = Some (y :: ys).
Proof. intros Hx Hl. apply mapM_Some. constructor; [done|by apply mapM_Some]. Qed.

(** ** The body of a plural case *)

Lemma unbop_bop body : map unbop (map bop body) = body.
Proof. induction body as [|[v|] body IH]; cbn; by rewrite ?IH. Qed.

Lemma Raw_body_app a b : Raw_body (a ++ b) = Raw_body a ++ Raw_body b.
Proof. unfold Raw_body. by rewrite map_app, concat_app. Qed.

Lemma Raw_body_lit pend : Raw_body (map bop (lit_bitems pend)) = pend.
Proof. unfold lit_bitems. case_bool_decide; [done|]. cbn. by rewrite app_nil_r. Qed.

Lemma lex_body_relex rest pend body rest3 :
  lex_body pend rest = Some (body, rest3) →
  ∃ text, Raw_body (map bop body) = pend ++ text ∧
          ∀ rest', lex_body pend (text ++ "}"%char :: rest') = Some (body, rest').
Proof.
  revert pend body rest3. induction rest as [|c rest IH]; intros pend body rest3; [done|].
  cbn [lex_body]. destruct (byteZ c =? rune "}") eqn:E1.
  { intros [= <- <-]. exists []. split; [by rewrite Raw_body_lit, app_nil_r|]. done. }
  destruct (byteZ c =? rune "#") eqn:E2.
  { destruct (lex_body [] rest) as [[body' r]|] eqn:Eb; [|done]. intros [= <- <-].
    destruct (IH _ _ _ Eb) as (text & Ht & Hre). apply byteZ_eqb_eq in E2 as ->.
    exists ("#"%char :: text). split.
    - rewrite map_app, Raw_body_app, Raw_body_lit. cbn [map bop].
      change (Raw_body (PluralCountOp :: map bop body'))
        with ("#"%char :: Raw_body (map bop body')).
      by rewrite Ht.
    - intros rest'. cbn [app lex_body].
      change (byteZ "#" =? rune "}") with false. change (byteZ "#" =? rune "#") with true.
      cbn match. by rewrite Hre. }
  intros Hb. destruct (IH _ _ _ Hb) as (text & Ht & Hre). exists (c :: text). split.
  - rewrite Ht. by rewrite <- app_assoc.
  - intros rest'. cbn [app lex_body]. rewrite E1, E2. apply Hre.
Qed.

Lemma lex_translation_body_ok rest body rest3 :
  lex_translation rest = Some (body, rest3) → body_ok (map bop body).
Proof.
  unfold lex_translation. destruct (drop _ rest) as [|c rest']; [done|].
  destruct (byteZ c =? rune "{"); [|done]. intros Hb.
  destruct (lex_body_relex _ _ _ _ Hb) as (text & Ht & Hre). cbn [app] in Ht.
  split; [by rewrite unbop_bop|]. intros rest0. rewrite unbop_bop, Ht. apply Hre.
Qed.

Lemma body_ok_nil : body_ok [].
Proof. split; [done|]. intros rest. done. Qed.

Lemma lex_translation_canon ops more :
  body_ok ops →
  lex_translation (" "%char :: "{"%char :: Raw_body ops ++ "}"%char :: more) =
  Some (map unbop ops, more).
Proof.
  intros [_ Hb]. unfold lex_translation.
  change (span_len spaces (" "%char :: "{"%char :: Raw_body ops ++ "}"%char :: more))
    with 1%nat.
  cbn [drop]. change (byteZ "{" =? rune "{") with true. cbn match. apply Hb.
Qed.

(** ** The head of a plural case *)

Lemma span_digits rest : Forall is_digit (take (span_len digits rest) rest).
Proof.
  eapply Forall_impl; [apply span_len_Forall|]. intros c Hc. by apply ContainsRune_digits.
Qed.

Lemma lex_head_digits rest h rest2 :
  lex_head rest = Some (h, rest2) →
  match h with
  | HExact d => Forall is_digit d
  | HRange d1 d2 => Forall is_digit d1 ∧ Forall is_digit d2
  | HOther => False
  end.
Proof.
  unfold lex_head. destruct (accepts digits rest); [|done].
  destruct (drop _ rest) as [|c rest1]; [intros [= <- <-]; apply span_digits|].
  destruct (byteZ c =? rune "-"); [|intros [= <- <-]; apply span_digits].
  destruct (accepts digits rest1); [|done].
  intros [= <- <-]. split; apply span_digits.
Qed.

Lemma digits_span d c more :
  Forall is_digit d → ¬ is_digit c →
  span_len digits (d ++ c :: more) = length d.
Proof.
  intros Hd Hc. apply span_len_app.
  - eapply Forall_impl; [done|]. intros x Hx. by apply ContainsRune_digits.
  - cbn [accepts]. destruct (ContainsRune digits (byteZ c)) eqn:E; [|done].
    by apply ContainsRune_digits in E.
Qed.

Lemma digits_accepts d more :
  Forall is_digit d → d ≠ [] → accepts digits (d ++ more) = true.
Proof.
  intros Hd Hne. destruct d as [|c d]; [done|]. cbn [app accepts].
  apply ContainsRune_digits. by inversion Hd.
Qed.

Lemma space_not_digit : ¬ is_digit " ".
Proof. unfold is_digit. change (byteZ " ") with 32. lia. Qed.

Lemma lex_head_exact d more :
  Forall is_digit d → d ≠ [] →
  lex_head (d ++ " "%char :: more) = Some (HExact d, " "%char :: more).
Proof.
  intros Hd Hne. unfold lex_head. rewrite digits_accepts by done.
  rewrite digits_span by (done || apply space_not_digit).
  rewrite drop_app_length, take_app_length. done.
Qed.

Lemma lex_head_range d1 d2 more :
  Forall is_digit d1 → d1 ≠ [] → Forall is_digit d2 → d2 ≠ [] →
  lex_head (d1 ++ "-"%char :: d2 ++ " "%char :: more) =
  Some (HRange d1 d2, " "%char :: more).
Proof.
  intros Hd1 Hne1 Hd2 Hne2. unfold lex_head. rewrite digits_accepts by done.
  rewrite digits_span by (done || apply minus_not_digit).
  rewrite drop_app_length, take_app_length.
  change (byteZ "-" =? rune "-") with true. cbn match.
  rewrite digits_accepts by done.
  rewrite digits_span by (done || apply space_not_digit).
  rewrite drop_app_length, take_app_length. done.
Qed.

(** ** The cases of a plural transformer *)

Lemma atoi_Some d a : atoi d = Some a → strconv.Atoi d = (a, None).
Proof. unfold atoi. destruct (strconv.Atoi d) as [a' [e|]]; [done|]. by intros [= ->]. Qed.

Lemma case_of_numeric_ok rest h rest2 body rest3 pcase :
  lex_head rest = Some (h, rest2) →
  lex_translation rest2 = Some (body, rest3) →
  case_of {| c_head := h; c_body := body |} = Some pcase →
  case_ok pcase.
Proof.
  intros Hh Hb Hc. apply lex_head_digits in Hh. apply lex_translation_body_ok in Hb.
  unfold case_of in Hc. cbn [c_head c_body] in Hc. destruct h as [d|d1 d2|]; [| |done].
  - destruct (atoi d) as [a|] eqn:Ea; [|done]. injection Hc as <-.
    apply atoi_Some, Atoi_digits in Ea; [|done]. by split.
  - destruct Hh as [Hd1 Hd2].
    destruct (atoi d1) as [a|] eqn:Ea; [|done].
    destruct (atoi d2) as [b0|] eqn:Eb; [|done]. injection Hc as <-.
    apply atoi_Some, Atoi_digits in Ea; [|done].
    apply atoi_Some, Atoi_digits in Eb; [|done]. by split.
Qed.

Lemma case_ok_not_other pcase :
  case_ok pcase → bool_decide (Type_ pcase = OpPluralCaseOther) = false.
Proof.
  intros (_ & Ht & _). apply bool_decide_eq_false. intros E. by rewrite E in Ht.
Qed.

Lemma lexes_args_ok rest cs rest' :
  lexes_args rest cs rest' →
  ∀ cases other cases' other',
    cases_of cs cases other = Some (cases', other') →
    Forall case_ok cases → body_ok other →
    Forall case_ok cases' ∧ body_ok other'.
Proof.
  induction 1 as [rest rest' Hs|rest rest1 h rest2 body rest3 cs rest' Hs Hh Hb _ IH
                 |rest rest2 body rest3 cs rest' Hs Hb _ IH];
    intros cases other cases' other' Hc Hcases Hother.
  - by injection Hc as <- <-.
  - cbn [cases_of] in Hc.
    destruct (case_of _) as [pcase|] eqn:Ec; [|done].
    pose proof (case_of_numeric_ok _ _ _ _ _ _ Hh Hb Ec) as Hok.
    rewrite (case_ok_not_other _ Hok) in Hc.
    apply (IH _ _ _ _ Hc); [|done]. apply Forall_app. split; [done|]. by constructor.
  - cbn [cases_of case_of c_head c_body Type_ Ops_of] in Hc.
    rewrite bool_decide_true in Hc by done.
    apply (IH _ _ _ _ Hc); [done|]. by apply lex_translation_body_ok in Hb.
Qed.

Lemma case_of_canon c : case_ok c → case_of (canon_case c) = Some c.
Proof.
  destruct c as [t a b0 ops]. unfold case_ok, case_of, canon_case.
  cbn [Type_ A B Ops_of c_head c_body].
  intros (Ha & Hb & Hops & _). rewrite Hops.
  destruct t; [| |done].
  - unfold atoi. rewrite (proj2 (proj2 (Itoa_spec a Ha))).
    cbn [mbind option_bind]. by rewrite (proj2 (proj2 (Itoa_spec b0 Hb))).
  - unfold atoi. rewrite (proj2 (proj2 (Itoa_spec a Ha))). cbn [mbind option_bind].
    by rewrite Hb.
Qed.

Lemma cases_of_canon cases acc o other :
  Forall case_ok cases → body_ok other →
  cases_of (map canon_case cases ++ [canon_case (Build_PluralCase OpPluralCaseOther 0 0 other)])
    acc o = Some (acc ++ cases, other).
Proof.
  intros Hcases [Hother _]. revert acc o.
  induction Hcases as [|c cases Hc _ IH]; intros acc o.
  - cbn [map app cases_of]. unfold case_of, canon_case.
    cbn [Type_ A B Ops_of c_head c_body]. rewrite Hother.
    rewrite bool_decide_true by done. cbn [cases_of Ops_of]. by rewrite app_nil_r.
  - cbn [map app cases_of]. rewrite (case_of_canon _ Hc), (case_ok_not_other _ Hc).
    rewrite IH. by rewrite <- app_assoc.
Qed.

Lemma Raw_case_numeric c more :
  case_ok c →
  lex_head (tail (Raw_case c ++ more)) =
  Some (c_head (canon_case c),
        " "%char :: "{"%char :: Raw_body (Ops_of c) ++ "}"%char :: more).
Proof.
  destruct c as [t a b0 ops]. unfold case_ok, Raw_case, canon_case.
  cbn [Type_ A B Ops_of c_head c_body]. intros (Ha & Hb & _).
  destruct t; [| |done].
  - rewrite bool_decide_true by done.
    destruct (Itoa_spec a Ha) as (Hd1 & Hn1 & _).
    destruct (Itoa_spec b0 Hb) as (Hd2 & Hn2 & _).
    cbn [list_ascii_of_string app tail]. rewrite <- !app_assoc. cbn [app].
    rewrite <- !app_assoc. cbn [app].
    by apply lex_head_range.
  - rewrite bool_decide_false by done.
    destruct (Itoa_spec a Ha) as (Hd1 & Hn1 & _).
    cbn [list_ascii_of_string app tail]. rewrite <- !app_assoc. cbn [app].
    rewrite <- !app_assoc. cbn [app].
    by apply lex_head_exact.
Qed.

Lemma Raw_case_head c more : ∃ text, Raw_case c ++ more = "="%char :: text.
Proof. by eexists. Qed.

Lemma lexes_args_canon cases other more :
  Forall case_ok cases → body_ok other →
  lexes_args
    (concat (map Raw_case cases) ++
     " "%char :: $"other" ++ " "%char :: "{"%char :: Raw_body other ++ "}"%char :: ")"%char :: more)
    (map canon_case cases ++ [canon_case (Build_PluralCase OpPluralCaseOther 0 0 other)])
    more.
Proof.
  intros Hcases Hother. induction Hcases as [|c cases Hc _ IH].
  - cbn [map concat app]. unfold canon_case. cbn [Type_ Ops_of].
    eapply lexes_args_other.
    + reflexivity.
    + by apply lex_translation_canon.
    + apply lexes_args_end. reflexivity.
  - cbn [map concat app]. rewrite <- app_assoc.
    set (rest := concat (map Raw_case cases) ++ _) in *.
    destruct (Raw_case_head c rest) as (text & Ht).
    assert (canon_case c = {| c_head := c_head (canon_case c); c_body := map unbop (Ops_of c) |})
      as -> by done.
    apply (lexes_args_numeric _ (Raw_case c ++ rest) _
             (" "%char :: "{"%char :: Raw_body (Ops_of c) ++ "}"%char :: rest) _ rest).
    + rewrite Ht. reflexivity.
    + by apply Raw_case_numeric.
    + apply lex_translation_canon. by destruct Hc as (_ & _ & Hb).
    + exact IH.
Qed.

(** ** The transformers of a placeholder *)

Lemma step_lexerTransformer_head rest t new st pend rest1 :
  step_lexerTransformer [] rest = StepTo (t :: new) st pend rest1 →
  head rest = Some "|"%char.
Proof.
  unfold step_lexerTransformer. destruct rest as [|c rest0]; [done|].
  destruct (byteZ c =? rune "|") eqn:E; [|done]. by apply byteZ_eqb_eq in E as ->.
Qed.

Lemma step_lexerTransformer_next rest new pend rest1 :
  step_lexerTransformer [] rest = StepTo new (Some state_lexerTransformer) pend rest1 →
  accepts lowercase rest1 = false.
Proof.
  unfold step_lexerTransformer. destruct rest as [|c rest0]; [done|].
  destruct (byteZ c =? rune "|"); [|done].
  destruct (accepts lowercase rest0); [|done].
  case_bool_decide.
  { destruct (drop _ rest0) as [|c2 rest3]; [done|]. by destruct (byteZ c2 =? rune "("). }
  destruct (_ || _); [|done]. intros [= _ _ <-]. apply span_len_stop.
Qed.

Lemma lowercase_capitalize :
  Forall (λ c, ContainsRune lowercase (byteZ c) = true) $"capitalize".
Proof. repeat constructor. Qed.

Lemma lowercase_replace :
  Forall (λ c, ContainsRune lowercase (byteZ c) = true) $"replace".
Proof. repeat constructor. Qed.

Lemma lowercase_plural :
  Forall (λ c, ContainsRune lowercase (byteZ c) = true) $"plural".
Proof. repeat constructor. Qed.

Lemma step_lexerTransformer_capitalize more :
  accepts lowercase more = false →
  step_lexerTransformer [] ("|"%char :: $"capitalize" ++ more) =
  StepTo [tok transformer $"capitalize"] (Some state_lexerTransformer) [] more.
Proof.
  intros Hm. unfold step_lexerTransformer.
  change (byteZ "|" =? rune "|") with true. cbn match.
  change (accepts lowercase ($"capitalize" ++ more)) with true. cbn match.
  rewrite (span_len_app _ _ _ lowercase_capitalize Hm).
  rewrite take_app_length, drop_app_length.
  rewrite (bool_decide_false ($"capitalize" = $"plural")) by done.
  by rewrite (bool_decide_true ($"capitalize" = $"capitalize")) by done.
Qed.

Lemma step_lexerTransformer_replace more :
  accepts lowercase more = false →
  step_lexerTransformer [] ("|"%char :: $"replace" ++ more) =
  StepTo [tok transformer $"replace"] (Some state_lexerTransformer) [] more.
Proof.
  intros Hm. unfold step_lexerTransformer.
  change (byteZ "|" =? rune "|") with true. cbn match.
  change (accepts lowercase ($"replace" ++ more)) with true. cbn match.
  rewrite (span_len_app _ _ _ lowercase_replace Hm).
  rewrite take_app_length, drop_app_length.
  rewrite (bool_decide_false ($"replace" = $"plural")) by done.
  rewrite (bool_decide_false ($"replace" = $"capitalize")) by done.
  by rewrite (bool_decide_true ($"replace" = $"replace")) by done.
Qed.

Lemma step_lexerTransformer_plural more :
  step_lexerTransformer [] ("|"%char :: $"plural" ++ "("%char :: more) =
  StepTo [tok transformer $"plural"] (Some state_lexerPluralArgs) ["("%char] more.
Proof.
  unfold step_lexerTransformer.
  change (byteZ "|" =? rune "|") with true. cbn match.
  change (accepts lowercase ($"plural" ++ "("%char :: more)) with true. cbn match.
  rewrite (span_len_app lowercase $"plural" ("("%char :: more) lowercase_plural) by done.
  rewrite take_app_length, drop_app_length.
  rewrite (bool_decide_true ($"plural" = $"plural")) by done.
  by change (byteZ "(" =? rune "(") with true.
Qed.

Lemma Raw_transformer_plural cases other more :
  other ≠ [] →
  Raw_transformer (PluralTransformer cases other) ++ more =
  "|"%char :: $"plural" ++ "("%char ::
    (concat (map Raw_case cases) ++
     " "%char :: $"other" ++ " "%char :: "{"%char :: Raw_body other ++ "}"%char :: ")"%char :: more).
Proof.
  intros Ho. unfold Raw_transformer. destruct other as [|o other]; [done|].
  change (0 <? length (o :: other))%nat with true. cbn match.
  cbn [list_ascii_of_string app]. repeat (rewrite <- !app_assoc; cbn [app]). done.
Qed.

Lemma lexes_chain_canon rest trs rest2 :
  lexes_chain rest trs rest2 →
  ∀ ts more, mapM transformer_of trs = Some ts → head more = head rest2 →
  ∃ trs', lexes_chain (concat (map Raw_transformer ts) ++ more) trs' more ∧
          mapM transformer_of trs' = Some ts ∧
          head (concat (map Raw_transformer ts) ++ more) = head rest.
Proof.
  induction 1 as [rest Hh|rest rest1 trs rest' Hs _ IH|rest rest1 trs rest' Hs _ IH
                 |rest pend rest1 cs rest2 trs rest' Hs Ha _ IH]; intros ts more Hts Hm.
  - injection Hts as <-. exists []. cbn [map concat app]. split; [|done].
    constructor. by rewrite (head_head_is _ _ _ Hm).
  - apply mapM_cons_inv in Hts as (t & ts' & Ht & Hts & ->). injection Ht as <-.
    destruct (IH _ _ Hts Hm) as (trs' & Hc & Hts' & Hhd).
    exists (CCapitalize :: trs'). split; [|split].
    + change (concat (map Raw_transformer (CapitalizeTransformer :: ts')) ++ more)
        with ("|"%char :: $"capitalize" ++ (concat (map Raw_transformer ts') ++ more)).
      eapply lexes_chain_capitalize; [|exact Hc].
      apply step_lexerTransformer_capitalize.
      rewrite (head_accepts _ _ _ Hhd). by eapply step_lexerTransformer_next.
    + by apply mapM_cons_intro.
    + by rewrite (step_lexerTransformer_head _ _ _ _ _ _ Hs).
  - apply mapM_cons_inv in Hts as (t & ts' & Ht & Hts & ->). injection Ht as <-.
    destruct (IH _ _ Hts Hm) as (trs' & Hc & Hts' & Hhd).
    exists (CReplace :: trs'). split; [|split].
    + change (concat (map Raw_transformer (ReplaceTransformer :: ts')) ++ more)
        with ("|"%char :: $"replace" ++ (concat (map Raw_transformer ts') ++ more)).
      eapply lexes_chain_replace; [|exact Hc].
      apply step_lexerTransformer_replace.
      rewrite (head_accepts _ _ _ Hhd). by eapply step_lexerTransformer_next.
    + by apply mapM_cons_intro.
    + by rewrite (step_lexerTransformer_head _ _ _ _ _ _ Hs).
  - apply mapM_cons_inv in Hts as (t & ts' & Ht & Hts & ->).
    cbn [transformer_of] in Ht.
    destruct (cases_of cs [] []) as [[cases other]|] eqn:Ec; [|done].
    destruct (length other =? 0)%nat eqn:El; [done|]. injection Ht as <-.
    assert (other ≠ []) as Hne by (by intros ->).
    destruct (lexes_args_ok _ _ _ Ha _ _ _ _ Ec ltac:(constructor) body_ok_nil)
      as [Hcases Hother].
    destruct (IH _ _ Hts Hm) as (trs' & Hc & Hts' & Hhd).
    exists (CPlural (map canon_case cases ++
                     [canon_case (Build_PluralCase OpPluralCaseOther 0 0 other)]) :: trs').
    cbn [map concat]. rewrite <- app_assoc, (Raw_transformer_plural _ _ _ Hne).
    split; [|split].
    + eapply lexes_chain_plural; [apply step_lexerTransformer_plural| |exact Hc].
      by apply lexes_args_canon.
    + apply mapM_cons_intro; [|done]. cbn [transformer_of].
      rewrite (cases_of_canon cases [] [] other Hcases Hother). cbn [app]. by rewrite El.
    + by rewrite (step_lexerTransformer_head _ _ _ _ _ _ Hs).
Qed.

(** ** Literals and placeholders *)

(** The literal that [lexLiteral] reads before a colon does not depend
    on what follows the colon. *)
Lemma scan_lit_prefix rest c rest1 rest1' :
  drop (scan_lit rest) rest = c :: rest1 →
  scan_lit (take (scan_lit rest) rest ++ c :: rest1') = scan_lit rest.
Proof.
  remember (length rest) as n eqn:Hn. revert rest Hn.
  induction n as [n IH] using lt_wf_ind. intros rest -> Hd.
  destruct rest as [|a rest]; [done|].
  destruct (byteZ a =? rune ":") eqn:E1.
  { rewrite (scan_lit_colon _ _ E1) in *. cbn [take app drop] in *.
    injection Hd as -> ->. by apply scan_lit_colon. }
  destruct (byteZ a =? rune "\") eqn:E2.
  - destruct rest as [|a' rest]; [by rewrite (scan_lit_backslash_end _ E1 E2) in Hd|].
    destruct (byteZ a' =? rune ":") eqn:E3.
    + rewrite (scan_lit_escaped_colon _ _ _ E1 E2 E3) in *. cbn [take app drop] in *.
      rewrite (scan_lit_escaped_colon _ _ _ E1 E2 E3). do 2 f_equal.
      apply (IH (length rest)); [simpl; lia|done|done].
    + rewrite (scan_lit_backslash _ _ _ E1 E2 E3) in *. cbn [take drop] in Hd |- *.
      assert (byteZ a' ≠ rune ":") as Ha' by (by apply Z.eqb_neq).
      pose proof (scan_lit_pos a' rest Ha') as Hp.
      specialize (IH (length (a' :: rest)) ltac:(simpl; lia) (a' :: rest) eq_refl Hd).
      destruct (scan_lit (a' :: rest)) as [|k] eqn:Ek; [lia|].
      cbn [take app] in IH |- *.
      rewrite (scan_lit_backslash _ _ _ E1 E2 E3). by f_equal.
  - rewrite (scan_lit_other _ _ E1 E2) in *. cbn [take app drop] in *.
    rewrite (scan_lit_other _ _ E1 E2). f_equal.
    apply (IH (length rest)); [simpl; lia|done|done].
Qed.

Lemma scan_lit_resume rest c rest1 rest1' :
  drop (scan_lit rest) rest = c :: rest1 →
  let text := take (scan_lit rest) rest ++ c :: rest1' in
  take (scan_lit text) text = take (scan_lit rest) rest ∧
  drop (scan_lit text) text = c :: rest1'.
Proof.
  intros Hd text. unfold text. rewrite (scan_lit_prefix _ _ _ _ Hd).
  pose proof (scan_lit_le rest) as Hle.
  assert (length (take (scan_lit rest) rest) = scan_lit rest) as Hl
    by (rewrite length_take; lia).
  set (x := take (scan_lit rest) rest) in *. rewrite <- Hl.
  by rewrite take_app_length, drop_app_length.
Qed.

Lemma mapM_lit_items text items ops :
  mapM op_of (lit_items text ++ items) = Some ops →
  ∃ ops1, mapM op_of items = Some ops1 ∧
          concat (map Raw_op ops) = text ++ concat (map Raw_op ops1) ∧
          ∀ items', mapM op_of items' = Some ops1 →
                    mapM op_of (lit_items text ++ items') = Some ops.
Proof.
  unfold lit_items. case_bool_decide as Ht.
  - subst text. cbn [app]. intros H. by exists ops.
  - cbn [app]. intros H. apply mapM_cons_inv in H as (o & ops1 & Ho & H1 & ->).
    injection Ho as <-. exists ops1. split; [done|]. split; [done|].
    intros items' H'. by apply mapM_cons_intro.
Qed.

Lemma lexes_canon pend rest items :
  lexes pend rest items →
  ∀ ops, mapM op_of items = Some ops →
  ∃ rest' items',
    concat (map Raw_op ops) = pend ++ rest' ∧ lexes pend rest' items' ∧
    mapM op_of items' = Some ops ∧ head rest' = head rest.
Proof.
  induction 1 as [pend rest Hd|pend rest c rest1 items Hd Ha _ IH
                 |pend rest c rest1 trs rest2 items Hd Ha Hc _ IH]; intros ops Hops.
  - exists rest, (lit_items (pend ++ rest)). split; [|split; [by constructor|done]].
    rewrite <- (app_nil_r (lit_items _)) in Hops.
    apply mapM_lit_items in Hops as (ops1 & [= <-] & -> & _). cbn. by rewrite app_nil_r.
  - apply mapM_lit_items in Hops as (ops1 & Hops1 & Hraw & Hback).
    destruct (IH _ Hops1) as (rest1' & items' & Hraw1 & Hl & Hops' & Hhd).
    pose proof (scan_lit_stop rest) as Hcolon. rewrite Hd in Hcolon.
    apply byteZ_inj in Hcolon. subst c.
    destruct (scan_lit_resume rest _ rest1 rest1' Hd) as [Htake Hdrop].
    exists (take (scan_lit rest) rest ++ ":"%char :: rest1'),
      (lit_items (pend ++ take (scan_lit rest) rest) ++ items').
    split; [|split; [|split]].
    + rewrite Hraw, Hraw1. by rewrite <- !app_assoc.
    + rewrite <- Htake at 2. eapply lexes_colon; [exact Hdrop| |exact Hl].
      by rewrite (head_accepts _ _ _ Hhd).
    + by apply Hback.
    + rewrite <- (take_drop (scan_lit rest) rest) at 3. rewrite Hd. apply head_app_cons.
  - apply mapM_lit_items in Hops as (ops1 & Hops1 & Hraw & Hback).
    apply mapM_cons_inv in Hops1 as (o & ops2 & Ho & Hops2 & ->).
    cbn [op_of] in Ho. destruct (mapM transformer_of trs) as [ts|] eqn:Ets; [|done].
    injection Ho as <-.
    destruct (IH _ Hops2) as (rest2' & items' & Hraw2 & Hl & Hops' & Hhd).
    cbn [app] in Hraw2.
    destruct (lexes_chain_canon _ _ _ Hc ts rest2' Ets Hhd) as (trs' & Hc' & Hts' & Hhd').
    pose proof (scan_lit_stop rest) as Hcolon. rewrite Hd in Hcolon.
    apply byteZ_inj in Hcolon. subst c.
    set (key := take (span_len lowercase rest1) rest1) in *.
    set (more := concat (map Raw_transformer ts) ++ rest2') in *.
    destruct (scan_lit_resume rest _ rest1 (key ++ more) Hd) as [Htake Hdrop].
    assert (accepts lowercase more = false) as Hmore.
    { rewrite (head_accepts _ _ _ Hhd'). apply span_len_stop. }
    assert (span_len lowercase (key ++ more) = length key) as Hspan.
    { apply span_len_app; [apply span_len_Forall|done]. }
    assert (accepts lowercase (key ++ more) = true) as Hacc.
    { pose proof (span_len_accepts _ _ Ha) as Hk. unfold key.
      destruct rest1 as [|a rest1]; [done|].
      destruct (span_len lowercase (a :: rest1)); [lia|]. done. }
    exists (take (scan_lit rest) rest ++ ":"%char :: key ++ more),
      (lit_items (pend ++ take (scan_lit rest) rest) ++ IRepl key trs' :: items').
    split; [|split; [|split]].
    + rewrite Hraw. cbn [map concat Raw_op]. rewrite Hraw2. unfold more.
      cbn [list_ascii_of_string app]. by repeat (rewrite <- !app_assoc; cbn [app]).
    + rewrite <- Htake at 2.
      replace (IRepl key trs') with
        (IRepl (take (span_len lowercase (key ++ more)) (key ++ more)) trs')
        by (by rewrite Hspan, take_app_length).
      eapply lexes_placeholder; [exact Hdrop|exact Hacc| |exact Hl].
      by rewrite Hspan, drop_app_length.
    + apply Hback. apply mapM_cons_intro; [|done]. cbn [op_of]. by rewrite Hts'.
    + rewrite <- (take_drop (scan_lit rest) rest) at 3. rewrite Hd. apply head_app_cons.
Qed.

(** [Parse] returns the message back from what [Raw] writes for it. *)
Lemma Parse_Raw isTerminal s m :
  Parse isTerminal s = Done m → Parse isTerminal (Raw m) = Done m.
Proof.
  intros Hp. apply Parse_Done in Hp as (toks & Hlex & Hparse).
  apply lex_lexes in Hlex as (items & Hl & ->).
  pose proof (parse_tokens_items items) as Hag.
  destruct (mapM op_of items) as [ops|] eqn:Hops;
    [|destruct Hag as (e & He); by rewrite He in Hparse].
  cbn [agrees] in Hag. rewrite Hag in Hparse. injection Hparse as ->.
  destruct (lexes_canon _ _ _ Hl _ Hops) as (rest' & items' & Hraw & Hl' & Hops' & _).
  cbn [app] in Hraw. fold (Raw m) in Hraw. rewrite <- Hraw in Hl'.
  pose proof (parse_tokens_items items') as Hag'. rewrite Hops' in Hag'. cbn [agrees] in Hag'.
  rewrite (Parse_of_tokens isTerminal _ _ _ (lexes_lex _ _ Hl') Hag'). by destruct m.
Qed.

(** * The round trip through [Raw] *)

Import parser lingua.

(** C4.  For every template [s] that [Parse] accepts, [Parse] accepts
    the text that [Raw] writes for the parsed message, and the message
    parsed from that text renders, with every replacement map and every
    set of messages of the container, the same string as the message
    parsed from [s]. *)
Theorem Raw_round_trip (isTerminal : bool) (To_UpperCase : Z → Z) (s : bytes) (m : Message) :
  Parse isTerminal s = Done m →
  ∃ m', Parse isTerminal (Raw m) = Done m' ∧
        ∀ (replacements : gmap bytes bytes) (messages : gmap bytes Message),
          format To_UpperCase m' replacements messages =
          format To_UpperCase m replacements messages.
Proof.
  intros Hp. exists m. split; [by apply (Parse_Raw isTerminal s)|done].
Qed.

Lemma Raw_round_trip_witness :
  let s := $"Cart: :n|plural(other {# items}=01 {one \: item} junk =2-009{a few})|capitalize!" in
  let m := {| Ops := [LiteralOp $"Cart"; LiteralOp $": ";
                      ReplacementOp $"n"
                        [PluralTransformer
                           [Build_PluralCase OpPluralCaseTypeExact 1 0 [LiteralOp $"one \: item"];
                            Build_PluralCase OpPluralCaseTypeRange 2 9 [LiteralOp $"a few"]]
                           [PluralCountOp; LiteralOp $" items"];
                         CapitalizeTransformer];
                      LiteralOp $"!"] |} in
  Parse false s = Done m ∧
  Raw m = $"Cart: :n|plural(=1 {one \: item}=2-9 {a few} other {# items})|capitalize!" ∧
  ∃ m', Parse false (Raw m) = Done m' ∧
        ∀ (replacements : gmap bytes bytes) (messages : gmap bytes Message),
          format latin1_To_UpperCase m' replacements messages =
          format latin1_To_UpperCase m replacements messages.
Proof.
  intros s m. split; [by vm_compute|]. split; [by vm_compute|].
  apply (Raw_round_trip false latin1_To_UpperCase s m). by vm_compute.
Defined.

(** * More of the parser and of the renderer *)

Import parser lingua.

(** ** The groups that the lexer emits *)

Lemma lit_bitems_ok pend : Forall bitem_ok (lit_bitems pend).
Proof. unfold lit_bitems. case_bool_decide; by repeat constructor. Qed.

Lemma lex_body_items rest pend body rest' :
  lex_body pend rest = Some (body, rest') → Forall bitem_ok body.
Proof.
  revert pend body rest'. induction rest as [|c rest IH]; intros pend body rest'; [done|].
  cbn [lex_body]. destruct (byteZ c =? rune "}").
  { intros [= <- _]. apply lit_bitems_ok. }
  destruct (byteZ c =? rune "#"); [|apply IH].
  destruct (lex_body [] rest) as [[body1 rest1]|] eqn:E; [|done]. intros [= <- _].
  apply Forall_app. split; [apply lit_bitems_ok|]. constructor; [done|]. by eapply IH.
Qed.

Lemma lex_translation_items rest body rest' :
  lex_translation rest = Some (body, rest') → Forall bitem_ok body.
Proof.
  unfold lex_translation. destruct (drop _ rest) as [|c rest1]; [done|].
  destruct (byteZ c =? rune "{"); [|done]. apply lex_body_items.
Qed.

Lemma lex_head_ok rest h rest' : lex_head rest = Some (h, rest') → chead_ok h.
Proof.
  unfold lex_head. destruct (accepts digits rest) eqn:Ha; [|done].
  pose proof (take_span_nonempty _ _ Ha) as Hne. pose proof (span_digits rest) as Hd.
  destruct (drop _ rest) as [|c rest1]; [by intros [= <- _]|].
  destruct (byteZ c =? rune "-"); [|by intros [= <- _]].
  destruct (accepts digits rest1) eqn:Ha1; [|done]. intros [= <- _].
  split; [done|]. split; [apply span_digits|by apply take_span_nonempty].
Qed.

Lemma lexes_args_items rest cs rest' : lexes_args rest cs rest' → Forall ccase_ok cs.
Proof.
  induction 1 as [|rest rest1 h rest2 body rest3 cs rest' Hs Hh Hb _ IH
                 |rest rest2 body rest3 cs rest' Hs Hb _ IH]; [done|..].
  - constructor; [|done]. split; [by eapply lex_head_ok|by eapply lex_translation_items].
  - constructor; [|done]. split; [done|by eapply lex_translation_items].
Qed.

Lemma lexes_chain_items rest trs rest' : lexes_chain rest trs rest' → Forall ctrans_ok trs.
Proof.
  induction 1; [done|by constructor..|].
  constructor; [|done]. by eapply lexes_args_items.
Qed.

Lemma lit_items_ok text : Forall item_ok (lit_items text).
Proof. unfold lit_items. case_bool_decide; by repeat constructor. Qed.

Lemma lexes_items pend rest items : lexes pend rest items → Forall item_ok items.
Proof.
  induction 1 as [pend rest Hd|pend rest c rest1 items Hd Ha _ IH
                 |pend rest c rest1 trs rest2 items Hd Ha Hc _ IH].
  - apply lit_items_ok.
  - apply Forall_app. split; [apply lit_items_ok|done].
  - apply Forall_app. split; [apply lit_items_ok|]. constructor; [|done].
    by eapply lexes_chain_items.
Qed.

(** ** The operations that the parser builds from them *)

Lemma bop_ok body : Forall bitem_ok body → Forall body_op_ok (map bop body).
Proof. induction 1 as [|[v|] body Hb _ IH]; by constructor. Qed.

Lemma case_of_ok c pcase :
  ccase_ok c → case_of c = Some pcase →
  Forall body_op_ok (Ops_of pcase) ∧
  (Type_ pcase = OpPluralCaseOther ∨ plural_case_ok pcase).
Proof.
  destruct c as [h body]. intros [Hh Hb%bop_ok]. unfold case_of. cbn [c_head c_body] in *.
  destruct h as [d|d1 d2|].
  - destruct Hh as [Hd _]. destruct (atoi d) as [a|] eqn:Ea; [|done]. intros [= <-].
    apply atoi_Some, Atoi_digits in Ea; [|done]. split; [done|]. right. by split.
  - destruct Hh as [[Hd1 _] [Hd2 _]].
    destruct (atoi d1) as [a|] eqn:Ea; [|done].
    destruct (atoi d2) as [b0|] eqn:Eb; [|done]. intros [= <-].
    apply atoi_Some, Atoi_digits in Ea; [|done].
    apply atoi_Some, Atoi_digits in Eb; [|done]. split; [done|]. right. by split.
  - intros [= <-]. split; [done|]. by left.
Qed.

Lemma cases_of_ok cs cases other cases' other' :
  Forall ccase_ok cs → cases_of cs cases other = Some (cases', other') →
  Forall plural_case_ok cases → Forall body_op_ok other →
  Forall plural_case_ok cases' ∧ Forall body_op_ok other'.
Proof.
  intros Hcs. revert cases other.
  induction Hcs as [|c cs Hc _ IH]; intros cases other; cbn [cases_of].
  { by intros [= <- <-]. }
  destruct (case_of c) as [pcase|] eqn:Ec; [|done].
  destruct (case_of_ok _ _ Hc Ec) as [Hops Ht]. case_bool_decide as Eo.
  - intros H Hcases _. by apply (IH _ _ H).
  - destruct Ht as [Ht|Ht]; [done|]. intros H Hcases Hother.
    apply (IH _ _ H); [|done]. apply Forall_app. split; [done|]. by constructor.
Qed.

Lemma transformer_of_ok t t' : ctrans_ok t → transformer_of t = Some t' → transformer_ok t'.
Proof.
  destruct t as [| |cs]; cbn [transformer_of ctrans_ok]; [by intros _ [= <-]..|].
  intros Hcs. destruct (cases_of cs [] []) as [[cases other]|] eqn:Ec; [|done].
  destruct (length other =? 0)%nat; [done|]. intros [= <-].
  by apply (cases_of_ok _ _ _ _ _ Hcs Ec).
Qed.

Lemma transformers_of_ok trs ts :
  Forall ctrans_ok trs → mapM transformer_of trs = Some ts → Forall transformer_ok ts.
Proof.
  intros Htrs. revert ts. induction Htrs as [|t trs Ht _ IH]; intros ts.
  { by intros [= <-]. }
  intros (t' & ts' & Ht' & Hts' & ->)%mapM_cons_inv.
  constructor; [by eapply transformer_of_ok|by apply IH].
Qed.

Lemma ops_of_ok items ops :
  Forall item_ok items → mapM op_of items = Some ops → Forall top_op_ok ops.
Proof.
  intros Hitems. revert ops. induction Hitems as [|i items Hi _ IH]; intros ops.
  { by intros [= <-]. }
  intros (o & ops' & Ho & Hops' & ->)%mapM_cons_inv. constructor; [|by apply IH].
  destruct i as [text|key trs]; cbn [op_of item_ok] in *.
  - by injection Ho as <-.
  - destruct (mapM transformer_of trs) as [ts|] eqn:Ets; [|done]. injection Ho as <-.
    by eapply transformers_of_ok.
Qed.

(** A message that [Parse] returns is made of groups that the lexer
    emits. *)
Lemma Parse_groups isTerminal s m :
  Parse isTerminal s = Done m →
  ∃ items, lexes [] s items ∧ mapM op_of items = Some (Ops m).
Proof.
  intros (toks & Hlex & Hparse)%Parse_Done.
  apply lex_lexes in Hlex as (items & Hl & ->). exists items. split; [done|].
  pose proof (parse_tokens_items items) as Hag.
  destruct (mapM op_of items) as [ops|]; [|destruct Hag as (e & He); by rewrite He in Hparse].
  cbn [agrees] in Hag. rewrite Hag in Hparse. by injection Hparse as ->.
Qed.

(** ** The text of a template without plural transformer *)

Lemma step_lexerTransformer_text rest name rest1 :
  step_lexerTransformer [] rest =
    StepTo [tok transformer name] (Some state_lexerTransformer) [] rest1 →
  rest = "|"%char :: name ++ rest1.
Proof.
  unfold step_lexerTransformer. destruct rest as [|c rest0]; [done|].
  destruct (byteZ c =? rune "|") eqn:E; [|done]. apply byteZ_eqb_eq in E as ->.
  destruct (accepts lowercase rest0); [|done].
  case_bool_decide.
  { destruct (drop _ rest0) as [|c2 rest3]; [done|]. by destruct (byteZ c2 =? rune "("). }
  destruct (_ || _); [|done]. intros [= <- <-]. by rewrite take_drop.
Qed.

Lemma lexes_chain_text rest trs rest' ts :
  lexes_chain rest trs rest' → mapM transformer_of trs = Some ts →
  Forall (λ t, match t with PluralTransformer _ _ => False | _ => True end) ts →
  rest = concat (map Raw_transformer ts) ++ rest'.
Proof.
  intros Hc. revert ts.
  induction Hc as [rest Hh|rest rest1 trs rest' Hs _ IH|rest rest1 trs rest' Hs _ IH
                  |rest pend rest1 cs rest2 trs rest' Hs Ha _ IH]; intros ts Hts Hfree.
  - by injection Hts as <-.
  - apply mapM_cons_inv in Hts as (t & ts' & [= <-] & Hts & ->).
    apply Forall_cons in Hfree as [_ Hfree].
    rewrite (step_lexerTransformer_text _ _ _ Hs), (IH _ Hts Hfree).
    cbn [map concat Raw_transformer]. by rewrite <- !app_assoc.
  - apply mapM_cons_inv in Hts as (t & ts' & [= <-] & Hts & ->).
    apply Forall_cons in Hfree as [_ Hfree].
    rewrite (step_lexerTransformer_text _ _ _ Hs), (IH _ Hts Hfree).
    cbn [map concat Raw_transformer]. by rewrite <- !app_assoc.
  - apply mapM_cons_inv in Hts as (t & ts' & Ht & Hts & ->).
    apply Forall_cons in Hfree as [Hfree _]. cbn [transformer_of] in Ht.
    destruct (cases_of cs [] []) as [[cases other]|]; [|done].
    destruct (length other =? 0)%nat; [done|]. by injection Ht as <-.
Qed.

Lemma lexes_text pend rest items ops :
  lexes pend rest items → mapM op_of items = Some ops → Forall plural_free ops →
  concat (map Raw_op ops) = pend ++ rest.
Proof.
  intros Hl. revert ops.
  induction Hl as [pend rest Hd|pend rest c rest1 items Hd Ha _ IH
                  |pend rest c rest1 trs rest2 items Hd Ha Hc _ IH]; intros ops Hops Hfree.
  - rewrite <- (app_nil_r (lit_items _)) in Hops.
    apply mapM_lit_items in Hops as (ops1 & [= <-] & -> & _). cbn. by rewrite app_nil_r.
  - apply mapM_lit_items in Hops as (ops1 & Hops1 & Hraw & Hback).
    assert (Forall plural_free ops1) as Hfree1.
    { specialize (Hback _ Hops1). unfold lit_items in Hback.
      case_bool_decide; cbn [app] in Hback.
      - rewrite Hops1 in Hback. by injection Hback as <-.
      - apply mapM_cons_inv in Hback as (o & ops2 & _ & Hops2 & ->).
        rewrite Hops1 in Hops2. injection Hops2 as <-. by apply Forall_cons in Hfree as [_ ?]. }
    rewrite Hraw, (IH _ Hops1 Hfree1).
    pose proof (scan_lit_stop rest) as Hcolon. rewrite Hd in Hcolon.
    apply byteZ_inj in Hcolon. subst c.
    transitivity (pend ++ take (scan_lit rest) rest ++ ":"%char :: rest1);
      [by rewrite <- !app_assoc|by rewrite <- Hd, take_drop].
  - apply mapM_lit_items in Hops as (ops1 & Hops1 & Hraw & Hback).
    assert (Forall plural_free ops1) as Hfree1.
    { specialize (Hback _ Hops1). unfold lit_items in Hback.
      case_bool_decide; cbn [app] in Hback.
      - rewrite Hops1 in Hback. by injection Hback as <-.
      - apply mapM_cons_inv in Hback as (o & ops2 & _ & Hops2 & ->).
        rewrite Hops1 in Hops2. injection Hops2 as <-. by apply Forall_cons in Hfree as [_ ?]. }
    apply mapM_cons_inv in Hops1 as (o & ops2 & Ho & Hops2 & ->).
    apply Forall_cons in Hfree1 as [Hfo Hfree2].
    cbn [op_of] in Ho. destruct (mapM transformer_of trs) as [ts|] eqn:Ets; [|done].
    injection Ho as <-. cbn [plural_free] in Hfo.
    rewrite Hraw. cbn [map concat Raw_op]. rewrite (IH _ Hops2 Hfree2). cbn [app].
    pose proof (scan_lit_stop rest) as Hcolon. rewrite Hd in Hcolon.
    apply byteZ_inj in Hcolon. subst c.
    transitivity (pend ++ take (scan_lit rest) rest ++ ":"%char ::
                  take (span_len lowercase rest1) rest1 ++
                  drop (span_len lowercase rest1) rest1);
      [|by rewrite take_drop, <- Hd, take_drop].
    rewrite (lexes_chain_text _ _ _ _ Hc Ets Hfo) at 1.
    cbn [list_ascii_of_string app]. by rewrite <- !app_assoc.
Qed.

Lemma Parse_text isTerminal s m :
  Parse isTerminal s = Done m → Forall plural_free (Ops m) → Raw m = s.
Proof.
  intros (items & Hl & Hops)%Parse_groups Hfree.
  exact (lexes_text _ _ _ _ Hl Hops Hfree).
Qed.

(** ** Rendering *)

Section RenderMore.

Variable To_UpperCase : Z → Z.
Variable replacements : gmap bytes bytes.
Variable messages : gmap bytes Message.

Lemma format_loop_builder ops b0 :
  format_loop To_UpperCase ops replacements messages b0 =
  b0 ++ format_loop To_UpperCase ops replacements messages [].
Proof.
  revert b0. induction ops as [|o ops IH]; intros b0; cbn [format_loop].
  { by rewrite app_nil_r. }
  destruct o as [v|key ts|]; [| |apply IH].
  - rewrite (IH (b0 ++ v)), (IH ([] ++ v)). by rewrite <- app_assoc.
  - destruct (replacements !! key) as [value|].
    + rewrite (IH (b0 ++ _)), (IH ([] ++ _)). by rewrite <- app_assoc.
    + rewrite (IH (b0 ++ _)), (IH ([] ++ _)). by rewrite <- app_assoc.
Qed.

Lemma format_loop_unreplaced ops b0 :
  Forall (unreplaced replacements) ops →
  format_loop To_UpperCase ops replacements messages b0 = b0 ++ concat (map Raw_op ops).
Proof.
  intros Hops. revert b0. induction Hops as [|o ops Ho _ IH]; intros b0.
  { by rewrite app_nil_r. }
  cbn [format_loop map concat]. destruct o as [v|key ts|]; cbn [Raw_op unreplaced] in *.
  - rewrite IH. by rewrite <- app_assoc.
  - destruct Ho as [-> ->]. rewrite IH. cbn [map concat]. rewrite app_nil_r.
    by rewrite <- !app_assoc.
  - apply IH.
Qed.

End RenderMore.

(** ** The errors of the parser *)

Lemma Atoi_digits_error d v e :
  Forall is_digit d → d ≠ [] → strconv.Atoi d = (v, Some e) →
  e = strconv.ErrRange ∧ (19 ≤ length d)%nat.
Proof.
  intros Hd Hne. unfold strconv.Atoi.
  destruct ((0 <? length d)%nat && (length d <? 19)%nat) eqn:El.
  - destruct d as [|c d]; [done|].
    destruct (digits_not_signed c d Hd) as [Hm Hp]. rewrite Hm, Hp.
    cbn [orb andb]. by rewrite Atoi_fast_loop_dec by done.
  - assert (19 ≤ length d)%nat as Hl.
    { destruct d as [|c d]; [done|]. apply andb_false_iff in El as [El|El].
      - apply Nat.ltb_ge in El. simpl in El. lia.
      - by apply Nat.ltb_ge in El. }
    unfold strconv.ParseInt. destruct d as [|c d]; [done|].
    destruct (digits_not_signed c d Hd) as [-> ->]. unfold strconv.ParseUint.
    destruct (ParseUint_loop_digits (c :: d) 0 Hd ltac:(lia)) as [-> | ->]; cbn [negb andb].
    + destruct (2 ^ 63 <=? dec (c :: d) 0); [|done]. by intros [= _ <-].
    + change (2 ^ 63 <=? strconv.maxUint64) with true. by intros [= _ <-].
Qed.

Lemma p_case_fails c T :
  chead_ok (c_head c) →
  fails_with conversion_error (p_case (case_toks c ++ T))
    (match case_of c with Some pc => Some (Some pc, T) | None => None end).
Proof.
  destruct c as [h body]. unfold case_toks, case_of, atoi. cbn [c_head c_body].
  intros Hh.
  destruct h as [d|d1 d2|]; cbn [head_toks app chead_ok] in *; rewrite <- ?app_assoc;
    cbn [app].
  - destruct Hh as [Hd Hne]. unfold p_case. pstep.
    destruct (strconv.Atoi d) as [a [e|]] eqn:Ea; cbn [fails_with].
    { destruct (Atoi_digits_error _ _ _ Hd Hne Ea) as [-> Hl].
      eexists. split; [done|]. exists d. auto. }
    pstep. rewrite p_body_toks. done.
  - destruct Hh as [[Hd1 Hne1] [Hd2 Hne2]]. unfold p_case. pstep.
    destruct (strconv.Atoi d1) as [a [e|]] eqn:Ea; cbn [fails_with].
    { destruct (Atoi_digits_error _ _ _ Hd1 Hne1 Ea) as [-> Hl].
      eexists. split; [done|]. exists d1. auto. }
    pstep. pstep. destruct (strconv.Atoi d2) as [b0 [e|]] eqn:Eb; cbn [fails_with].
    { destruct (Atoi_digits_error _ _ _ Hd2 Hne2 Eb) as [-> Hl].
      eexists. split; [done|]. exists d2. auto. }
    pstep. rewrite p_body_toks. done.
  - unfold p_case. pstep. pstep. rewrite p_body_toks. done.
Qed.

Lemma p_cases_fails cs cases other T fuel :
  Forall ccase_ok cs → after_cases T → (length cs < fuel)%nat →
  fails_with (λ e, ∃ e', e = ErrParsePluralCase e' ∧ conversion_error e')
    (p_cases fuel cases other (concat (map case_toks cs) ++ T))
    (match cases_of cs cases other with
     | Some (cases', other') => Some (cases', other', T)
     | None => None
     end).
Proof.
  intros Hcs. revert cases other fuel.
  induction Hcs as [|c cs Hc _ IH]; intros cases other fuel HT Hf.
  - destruct fuel as [|fuel]; [simpl in Hf; lia|].
    cbn [map concat app cases_of fails_with p_cases].
    destruct T as [|t T]; [done|]. unfold p_case.
    destruct HT as [HT|[HT|HT]]; rewrite HT; done.
  - destruct fuel as [|fuel]; [simpl in Hf; lia|]. cbn [map concat cases_of p_cases].
    rewrite <- app_assoc.
    pose proof (p_case_fails c (concat (map case_toks cs) ++ T) (proj1 Hc)) as Hp.
    destruct (case_toks_cons c) as (t & l & Ht). rewrite Ht in *. cbn [app] in *.
    destruct (case_of c) as [pcase|].
    + cbn [fails_with] in Hp. rewrite Hp. simpl in Hf.
      destruct (bool_decide _); apply IH; (done || lia).
    + destruct Hp as (e & -> & He). eexists. split; [done|]. by exists e.
Qed.

Lemma p_transformers_fails trs acc T fuel :
  Forall ctrans_ok trs → top_start T → (length trs < fuel)%nat →
  fails_with transformers_error
    (p_transformers fuel acc (concat (map trans_toks trs) ++ T))
    (match mapM transformer_of trs with
     | Some ts => Some (acc ++ ts, T)
     | None => None
     end).
Proof.
  intros Htrs. revert acc fuel.
  induction Htrs as [|t trs Ht _ IH]; intros acc fuel HT Hf.
  - destruct fuel as [|fuel]; [simpl in Hf; lia|].
    cbn [map concat app mapM fails_with p_transformers mret option_ret]. rewrite app_nil_r.
    destruct T as [|t T]; [done|]. destruct HT as [HT|HT]; rewrite HT; done.
  - destruct fuel as [|fuel]; [simpl in Hf; lia|]. simpl in Hf.
    specialize (IH (acc ++ [match transformer_of t with Some t' => t' | None => CapitalizeTransformer end])
                  fuel HT ltac:(lia)).
    cbn [map concat mapM mbind option_bind]. rewrite <- app_assoc.
    destruct t as [| |cs]; cbn [trans_toks app p_transformers transformer_of] in *.
    + cbn. cbn in IH. destruct (mapM transformer_of trs); cbn in *; [|done].
      by rewrite <- app_assoc in IH.
    + cbn. cbn in IH. destruct (mapM transformer_of trs); cbn in *; [|done].
      by rewrite <- app_assoc in IH.
    + cbn [TokenType Data tok].
      change (negb (bool_decide (transformer = transformer))) with false. cbn match.
      rewrite (bool_decide_false ($"plural" = $"capitalize")) by done.
      rewrite (bool_decide_false ($"plural" = $"replace")) by done.
      rewrite (bool_decide_true ($"plural" = $"plural")) by done.
      pose proof (p_cases_fails cs [] [] (concat (map trans_toks trs) ++ T)
                    (S (length (concat (map case_toks cs) ++ concat (map trans_toks trs) ++ T)))
                    Ht (after_cases_chain trs T HT)) as Hc.
      pose proof (length_concat_case_toks cs) as Hl.
      rewrite length_app in Hc. specialize (Hc ltac:(lia)). rewrite <- length_app in Hc.
      destruct (cases_of cs [] []) as [[cases other]|].
      * cbn [fails_with] in Hc. rewrite Hc.
        destruct (length other =? 0)%nat; [eexists; split; [done|by left]|].
        cbn [mbind option_bind]. destruct (mapM transformer_of trs); cbn in *; [|done].
        by rewrite <- app_assoc in IH.
      * destruct Hc as (e & -> & He). eexists. split; [done|by right].
Qed.

Lemma p_parse_fails items acc fuel :
  Forall item_ok items → (length items < fuel)%nat →
  fails_with (λ e, ∃ e', e = ErrParseTransformers e' ∧ transformers_error e')
    (p_parse fuel acc (concat (map item_toks items)))
    (match mapM op_of items with
     | Some ops => Some (acc ++ ops)
     | None => None
     end).
Proof.
  intros Hitems. revert acc fuel.
  induction Hitems as [|i items Hi _ IH]; intros acc fuel Hf.
  - destruct fuel as [|fuel]; [simpl in Hf; lia|]. cbn. by rewrite app_nil_r.
  - destruct fuel as [|fuel]; [simpl in Hf; lia|]. simpl in Hf.
    cbn [map concat mapM mbind option_bind].
    destruct i as [text|key trs]; cbn [item_toks app p_parse op_of TokenType Data tok].
    + specialize (IH (acc ++ [LiteralOp text]) fuel ltac:(lia)).
      destruct (mapM op_of items); cbn in *; [|done]. by rewrite <- app_assoc in IH.
    + pose proof (p_transformers_fails trs [] (concat (map item_toks items))
                    (S (length (concat (map trans_toks trs) ++ concat (map item_toks items))))
                    Hi (top_start_items items)) as Ht.
      pose proof (length_concat_trans_toks trs) as Hl.
      rewrite length_app in Ht. specialize (Ht ltac:(lia)). rewrite <- length_app in Ht.
      destruct (mapM transformer_of trs) as [ts|].
      * cbn [fails_with app] in Ht. rewrite Ht.
        specialize (IH (acc ++ [ReplacementOp key ts]) fuel ltac:(lia)).
        cbn [mbind option_bind].
        destruct (mapM op_of items); cbn in *; [|done]. by rewrite <- app_assoc in IH.
      * destruct Ht as (e & -> & He). eexists. split; [done|by exists e].
Qed.

Lemma Parse_fails isTerminal s e :
  Parse isTerminal s = Fail e →
  (∃ msg, e = ErrLexer msg) ∨ ∃ e', e = ErrParseTransformers e' ∧ transformers_error e'.
Proof.
  intros Hp. pose proof (Parse_spec isTerminal s) as H.
  destruct (lex s) as [toks|] eqn:Hlex.
  2:{ destruct H as (msg & H). rewrite Hp in H. injection H as ->. left. by exists msg. }
  right. apply lex_lexes in Hlex as (items & Hl & ->).
  pose proof (p_parse_fails items [] (S (length (concat (map item_toks items))))
                (lexes_items _ _ _ Hl)) as Hf.
  pose proof (length_concat_item_toks items).
  specialize (Hf ltac:(lia)). fold (parse_tokens (concat (map item_toks items))) in Hf.
  rewrite Hp in H. destruct (mapM op_of items) as [ops|]; cbn [fails_with] in Hf.
  - by rewrite Hf in H.
  - destruct Hf as (e0 & He0 & He). rewrite He0 in H. by injection H as ->.
Qed.

(** * The plural transformer without an [other] case *)

Import parser lingua.

Lemma case_of_other c pcase :
  case_of c = Some pcase → Type_ pcase = OpPluralCaseOther →
  c_head c = HOther ∧ Ops_of pcase = map bop (c_body c).
Proof.
  unfold case_of. destruct (c_head c) as [d|d1 d2|].
  - destruct (atoi d); [|done]. by intros [= <-].
  - destruct (atoi d1); [|done]. destruct (atoi d2); [|done]. by intros [= <-].
  - by intros [= <-].
Qed.

Lemma cases_of_without_other cs cases other cases' other' :
  Forall (λ c, c_head c = HOther → c_body c = []) cs →
  cases_of cs cases other = Some (cases', other') →
  other' = other ∨ other' = [].
Proof.
  intros Hcs. revert cases other.
  induction Hcs as [|c cs Hc _ IH]; intros cases other; cbn [cases_of].
  { intros [= _ <-]. by left. }
  destruct (case_of c) as [pcase|] eqn:Hcase; [|done].
  case_bool_decide as Ht.
  - destruct (case_of_other c pcase Hcase Ht) as [Hh ->]. rewrite (Hc Hh). cbn [map].
    intros [->| ->]%IH; by right.
  - apply IH.
Qed.

Lemma transformer_of_without_other cs :
  Forall (λ c, c_head c = HOther → c_body c = []) cs →
  transformer_of (CPlural cs) = None.
Proof.
  intros Hcs. cbn [transformer_of].
  destruct (cases_of cs [] []) as [[cases other]|] eqn:Hc; [|done].
  by destruct (cases_of_without_other cs [] [] cases other Hcs Hc) as [->| ->].
Qed.

Lemma mapM_None_elem_of {A B : Type} (f : A → option B) (l : list A) (x : A) :
  x ∈ l → f x = None → mapM f l = None.
Proof.
  intros Hin Hx. destruct (mapM f l) as [k|] eqn:Hm; [|done].
  assert (is_Some (mapM f l)) as Hs by eauto.
  apply mapM_is_Some in Hs. rewrite Forall_forall in Hs.
  destruct (Hs x Hin) as [y Hy]. cbn in Hy. congruence.
Qed.

(** The errors of the parser on the tokens of the lexer. *)
Lemma Parse_fails_lexed isTerminal s toks e :
  runLexer isTerminal s = Some (LexOk toks) →
  Parse isTerminal s = Fail e →
  ∃ e', e = ErrParseTransformers e' ∧ transformers_error e'.
Proof.
  intros Hl Hp. destruct (Parse_fails isTerminal s e Hp) as [[msg ->]|H]; [|done].
  exfalso. apply runLexer_LexOk in Hl.
  pose proof (Parse_spec isTerminal s) as H. rewrite Hl, Hp in H.
  destruct (lex_lexes s toks Hl) as (items & Hitems & ->).
  pose proof (p_parse_fails items [] (S (length (concat (map item_toks items))))
                (lexes_items _ _ _ Hitems)) as Hf.
  pose proof (length_concat_item_toks items).
  specialize (Hf ltac:(lia)). fold (parse_tokens (concat (map item_toks items))) in Hf.
  destruct (mapM op_of items) as [ops|]; cbn [fails_with] in Hf.
  - by rewrite Hf in H.
  - destruct Hf as (e0 & He0 & e' & -> & _). rewrite He0 in H. discriminate.
Qed.

Lemma Parse_without_other isTerminal s items key trs cs :
  runLexer isTerminal s = Some (LexOk (concat (map item_toks items))) →
  IRepl key trs ∈ items → CPlural cs ∈ trs →
  Forall (λ c, c_head c = HOther → c_body c = []) cs →
  ∃ e, Parse isTerminal s = Fail (ErrParseTransformers e) ∧ transformers_error e.
Proof.
  intros Hl Hi Ht Hcs.
  assert (mapM op_of items = None) as Hnone.
  { apply (mapM_None_elem_of _ _ (IRepl key trs) Hi). cbn [op_of].
    by rewrite (mapM_None_elem_of _ _ (CPlural cs) Ht (transformer_of_without_other cs Hcs)). }
  pose proof (parse_tokens_items items) as Hp. rewrite Hnone in Hp.
  destruct Hp as (e & Hp).
  pose proof (Parse_spec isTerminal s) as H.
  rewrite (proj1 (runLexer_LexOk isTerminal s _) Hl), Hp in H.
  destruct (Parse_fails_lexed isTerminal s _ e Hl H) as (e' & -> & He').
  by exists e'.
Qed.

(** C3 (as amended).  In a message that [Parse] returns, every plural
    transformer has an [other] body that is not empty.  A template that
    the lexer accepts and that holds a plural transformer without an
    [other] case with a body that is not empty always fails to parse:
    with the missing-other error, or with the error of a case number of
    19 digits or more that is out of range and is met first.  The
    template holds the plural transformer with the cases [cs] when the
    tokens of the lexer are the tokens of groups [items], among them a
    placeholder with the transformer [CPlural cs]. *)
Theorem plural_has_other (isTerminal : bool) (s : bytes) :
  (∀ m key transformers cases other,
     Parse isTerminal s = Done m →
     ReplacementOp key transformers ∈ Ops m →
     PluralTransformer cases other ∈ transformers →
     other ≠ []) ∧
  (∀ items key trs cs,
     runLexer isTerminal s = Some (LexOk (concat (map item_toks items))) →
     IRepl key trs ∈ items → CPlural cs ∈ trs →
     Forall (λ c, c_head c = HOther → c_body c = []) cs →
     Parse isTerminal s = Fail (ErrParseTransformers ErrMissingOther) ∨
     ∃ d, Forall is_digit d ∧ (19 ≤ length d)%nat ∧
          (Parse isTerminal s =
             Fail (ErrParseTransformers
                     (ErrParsePluralCase (ErrConvertA d strconv.ErrRange))) ∨
           Parse isTerminal s =
             Fail (ErrParseTransformers
                     (ErrParsePluralCase (ErrConvertB d strconv.ErrRange))))).
Proof.
  split.
  - intros m key transformers cases other Hp Hop Ht.
    apply Parse_ops_ok in Hp. rewrite Forall_forall in Hp.
    destruct (Hp _ Hop) as (_ & _ & Hts). rewrite Forall_forall in Hts.
    exact (Hts _ Ht).
  - intros items key trs cs Hl Hi Ht Hcs.
    destruct (Parse_without_other isTerminal s items key trs cs Hl Hi Ht Hcs)
      as (e & Hp & [->|(e' & -> & d & Hd & Hlen & He')]).
    + by left.
    + right. exists d. split; [done|]. split; [done|]. destruct He' as [->| ->]; auto.
Qed.

Lemma plural_has_other_witness :
  [PluralCountOp; LiteralOp $" items"] ≠ [] ∧
  (Parse false $":n|plural(=1 {a} other {})" = Fail (ErrParseTransformers ErrMissingOther) ∨
   ∃ d, Forall is_digit d ∧ (19 ≤ length d)%nat ∧
        (Parse false $":n|plural(=1 {a} other {})" =
           Fail (ErrParseTransformers
                   (ErrParsePluralCase (ErrConvertA d strconv.ErrRange))) ∨
         Parse false $":n|plural(=1 {a} other {})" =
           Fail (ErrParseTransformers
                   (ErrParsePluralCase (ErrConvertB d strconv.ErrRange))))).
Proof.
  split.
  - refine (proj1 (plural_has_other false $"You have :n|plural(=0 {none} other {# items})")
      _ $"n" _ [Build_PluralCase OpPluralCaseTypeExact 0 0 [LiteralOp $"none"]]
      [PluralCountOp; LiteralOp $" items"] _ _ _).
    + vm_compute. reflexivity.
    + cbn [Ops]. apply list_elem_of_further, list_elem_of_here.
    + apply list_elem_of_here.
  - refine (proj2 (plural_has_other false $":n|plural(=1 {a} other {})")
      [IRepl $"n" [CPlural [{| c_head := HExact $"1"; c_body := [BLit $"a"] |};
                            {| c_head := HOther; c_body := [] |}]]]
      $"n" _ _ _ _ _ _).
    + vm_compute. reflexivity.
    + apply list_elem_of_here.
    + apply list_elem_of_here.
    + repeat constructor; by cbn.
Defined.

(** C3 fails as it is stated: a plural transformer without an [other]
    case can make [Parse] fail with another error than the missing-other
    error, here the range error of its case number. *)
Lemma plural_missing_other_counterexample :
  ¬ (∀ (s : bytes) items key trs cs,
       runLexer false s = Some (LexOk (concat (map item_toks items))) →
       IRepl key trs ∈ items → CPlural cs ∈ trs →
       Forall (λ c, c_head c = HOther → c_body c = []) cs →
       Parse false s = Fail (ErrParseTransformers ErrMissingOther)).
Proof.
  intros H.
  specialize (H $":n|plural(=99999999999999999999 {a})"
                [IRepl $"n" [CPlural [{| c_head := HExact $"99999999999999999999";
                                         c_body := [BLit $"a"] |}]]]
                $"n" _ _ ltac:(vm_compute; reflexivity)
                ltac:(apply list_elem_of_here) ltac:(apply list_elem_of_here)
                ltac:(repeat constructor; by cbn)).
  vm_compute in H. discriminate.
Qed.

(** * Properties of the lexer, the parser and the renderer *)

Import parser lingua.

(** X1. The lexer and the parser terminate on every template: three
    calls of a state function for each byte and two more are enough for
    [runLexer] to return, and [Parse] returns a message or an error. *)
Theorem Parse_terminates (isTerminal : bool) (input : bytes) :
  (∃ r, runLexer isTerminal input = Some r) ∧
  ((∃ m, Parse isTerminal input = Done m) ∨ ∃ e, Parse isTerminal input = Fail e).
Proof.
  split.
  - pose proof (runLexer_lex isTerminal input) as H.
    destruct (lex input) as [T|]; [by exists (LexOk T)|].
    destruct H as (msg & H). by exists (LexErr msg).
  - pose proof (Parse_total isTerminal input) as H.
    destruct (Parse isTerminal input) as [m|e|]; [left|right|done]; by eexists.
Qed.

(** X2. The tokens that [runLexer] returns hold no error token: an
    error token is only ever the last one, where [runLexer] looks for
    it. *)
Theorem runLexer_tokens_not_err (isTerminal : bool) (input : bytes) (toks : list Token) :
  runLexer isTerminal input = Some (LexOk toks) →
  Forall (λ t, TokenType t ≠ errTok) toks.
Proof.
  intros H. apply runLexer_LexOk in H. unfold lex in H.
  destruct (lex_from _ _ _ _) as [r|] eqn:E; [|done]. subst r.
  refine (lex_from_not_err _ _ _ _ _ _ E). exact I.
Qed.

Lemma runLexer_tokens_not_err_witness :
  Forall (λ t, TokenType t ≠ errTok)
    [tok literal $"a "; tok replacement $"b"; tok transformer $"capitalize"].
Proof.
  apply (runLexer_tokens_not_err false $"a :b|capitalize"). vm_compute. reflexivity.
Defined.

(** X3. The text that [Message.Raw] writes for a parsed message parses
    to that very message again: the operations, the cases and their
    numbers are all the same. *)
Theorem Raw_reparses (isTerminal : bool) (s : bytes) (m : Message) :
  Parse isTerminal s = Done m → Parse isTerminal (Raw m) = Done m.
Proof. apply Parse_Raw. Qed.

Lemma Raw_reparses_witness :
  ∃ m, Parse false $":n|plural(=007 {a}x=2-5{# b} other {c})|capitalize!" = Done m ∧
       Raw m = $":n|plural(=7 {a}=2-5 {# b} other {c})|capitalize!" ∧
       Parse false (Raw m) = Done m.
Proof.
  eexists. split; [vm_compute; reflexivity|]. split; [vm_compute; reflexivity|].
  apply (Raw_reparses false $":n|plural(=007 {a}x=2-5{# b} other {c})|capitalize!").
  vm_compute. reflexivity.
Defined.

(** X4. [Message.Raw] gives back the template itself, byte for byte,
    when the parsed message has no plural transformer: literals with
    their escapes, placeholders and the capitalize and replace
    transformers are written as they were read. *)
Theorem Raw_restores_template (isTerminal : bool) (s : bytes) (m : Message) :
  Parse isTerminal s = Done m → Forall plural_free (Ops m) → Raw m = s.
Proof. apply Parse_text. Qed.

Lemma Raw_restores_template_witness :
  ∃ m, Parse false $"10\:30 :: hi :name|capitalize|replace, :x." = Done m ∧
       Raw m = $"10\:30 :: hi :name|capitalize|replace, :x.".
Proof.
  eexists. split; [vm_compute; reflexivity|].
  apply (Raw_restores_template false); [vm_compute; reflexivity|].
  repeat constructor.
Defined.

(** X5. The errors of [Parse]: the error of the lexer, a plural
    transformer without an [other] case, or a case number of 19 digits
    or more that [strconv.Atoi] finds out of range.  The other errors
    of [parsePluralCase] are never returned for the tokens of the
    lexer. *)
Theorem Parse_errors (isTerminal : bool) (s : bytes) (e : error_) :
  Parse isTerminal s = Fail e →
  (∃ msg, e = ErrLexer msg) ∨
  e = ErrParseTransformers ErrMissingOther ∨
  ∃ d, Forall is_digit d ∧ (19 ≤ length d)%nat ∧
       (e = ErrParseTransformers (ErrParsePluralCase (ErrConvertA d strconv.ErrRange)) ∨
        e = ErrParseTransformers (ErrParsePluralCase (ErrConvertB d strconv.ErrRange))).
Proof.
  intros H. apply Parse_fails in H as [H|(e' & -> & [->|(e2 & -> & d & Hd & Hl & He)])].
  - by left.
  - right. by left.
  - right. right. exists d. repeat split; [done..|]. destruct He as [->| ->]; auto.
Qed.

Lemma Parse_errors_witness :
  (∃ msg, ErrParseTransformers ErrMissingOther = ErrLexer msg) ∨
  ErrParseTransformers ErrMissingOther = ErrParseTransformers ErrMissingOther ∨
  ∃ d, Forall is_digit d ∧ (19 ≤ length d)%nat ∧
       (ErrParseTransformers ErrMissingOther =
          ErrParseTransformers (ErrParsePluralCase (ErrConvertA d strconv.ErrRange)) ∨
        ErrParseTransformers ErrMissingOther =
          ErrParseTransformers (ErrParsePluralCase (ErrConvertB d strconv.ErrRange))).
Proof.
  apply (Parse_errors false $":n|plural(=1 {one})"). vm_compute. reflexivity.
Defined.

(** X6. The shape of a parsed message.  At its top there are literals,
    none of them empty, and replacements, and no count marker.  The
    numbers of a plural case are at least 0 and below 2^63, an exact
    case has [B = 0], no case has the type of the [other] case, and the
    body of a case and of the [other] case holds only count markers and
    literals that are not empty. *)
Theorem Parse_well_formed (isTerminal : bool) (s : bytes) (m : Message) :
  Parse isTerminal s = Done m → Forall top_op_ok (Ops m).
Proof.
  intros H. apply Parse_groups in H as (items & Hl & Hm).
  apply (ops_of_ok items); [|done]. by eapply lexes_items.
Qed.

Lemma Parse_well_formed_witness :
  Forall top_op_ok
    [LiteralOp $"You have "; ReplacementOp $"n"
       [PluralTransformer
          [Build_PluralCase OpPluralCaseTypeExact 1 0 [LiteralOp $"one item"];
           Build_PluralCase OpPluralCaseTypeRange 2 5 [PluralCountOp; LiteralOp $" items"]]
          [LiteralOp $"many"]]].
Proof.
  apply (Parse_well_formed false
           $"You have :n|plural(=1 {one item} =2-5 {# items} other {many})" (Build_Message _)).
  vm_compute. reflexivity.
Defined.

(** X7. Rendering goes operation by operation: the text of a message is
    the text of its first operations followed by the text of the rest,
    for the same replacements and messages. *)
Theorem format_concat (To_UpperCase : Z → Z) (ops1 ops2 : list op)
    (replacements : gmap bytes bytes) (messages : gmap bytes Message) :
  format To_UpperCase {| Ops := ops1 ++ ops2 |} replacements messages =
  format To_UpperCase {| Ops := ops1 |} replacements messages ++
  format To_UpperCase {| Ops := ops2 |} replacements messages.
Proof.
  unfold format. cbn [Ops]. rewrite format_loop_app. apply format_loop_builder.
Qed.

(** X8. A template renders as itself when none of its placeholders has
    a transformer and the replacements hold none of their keys: each
    placeholder is written back as the colon and its key, and the
    literals, escapes included, as they are. *)
Theorem format_without_replacements (isTerminal : bool) (To_UpperCase : Z → Z) (s : bytes)
    (m : Message) (replacements : gmap bytes bytes) (messages : gmap bytes Message) :
  Parse isTerminal s = Done m →
  Forall (unreplaced replacements) (Ops m) →
  format To_UpperCase m replacements messages = s.
Proof.
  intros Hp Hu. unfold format. rewrite format_loop_unreplaced by done. cbn [app].
  apply (Parse_text isTerminal _ _ Hp).
  eapply Forall_impl; [exact Hu|]. intros [v|key ts|]; cbn; [done| |done].
  intros [-> _]. constructor.
Qed.

Lemma format_without_replacements_witness :
  format (λ r, r)
    {| Ops := [LiteralOp $"Dear "; ReplacementOp $"name" []; LiteralOp $", it is 10\:30"] |}
    {[ $"title" := $"Dr" ]} ∅ = $"Dear :name, it is 10\:30".
Proof.
  apply (format_without_replacements false (λ r, r) $"Dear :name, it is 10\:30");
    [vm_compute; reflexivity|].
  repeat constructor.
Defined.

(** ** The transformers *)

(** X9. The capitalize transformer on a value that starts with an
    ASCII byte: a letter from [a] to [z] is replaced by the letter 32
    below it, any other ASCII byte is kept, and the rest of the value
    is not touched. *)
Theorem capitalize_ascii (To_UpperCase : Z → Z) (c : ascii) (rest : bytes) :
  byteZ c < 0x80 →
  capitalize To_UpperCase (c :: rest) =
  (if (rune "a" <=? byteZ c) && (byteZ c <=? rune "z")
   then utf8.byte_of (byteZ c - 32) else c) :: rest.
Proof.
  intros Hc. pose proof (byteZ_range c) as Hr. unfold capitalize.
  rewrite decode_ascii by done. cbn [drop]. unfold unicode.ToUpper, unicode.MaxASCII.
  rewrite (proj2 (Z.leb_le (byteZ c) 127)) by lia.
  change (rune "a" - rune "A") with 32. change (rune "a") with 97. change (rune "z") with 122.
  destruct (Z.leb_spec 97 (byteZ c)), (Z.leb_spec (byteZ c) 122); cbn [andb];
    unfold utf8.string_of_rune, utf8.ValidRune, utf8.surrogateMin, utf8.encodeValid.
  all: repeat match goal with
       | |- context [?a <=? ?b] =>
         first [rewrite (proj2 (Z.leb_le a b)) by lia | rewrite (proj2 (Z.leb_gt a b)) by lia]
       | |- context [?a <? ?b] =>
         first [rewrite (proj2 (Z.ltb_lt a b)) by lia | rewrite (proj2 (Z.ltb_ge a b)) by lia]
       end; cbn [andb orb app]; by rewrite ?byte_of_byteZ.
Qed.

Lemma capitalize_ascii_witness :
  capitalize (λ r, r) $"john" = $"John" ∧ capitalize (λ r, r) $"42 items" = $"42 items".
Proof.
  split.
  - apply (capitalize_ascii (λ r, r) "j" $"ohn"). vm_compute. reflexivity.
  - apply (capitalize_ascii (λ r, r) "4" $"2 items"). vm_compute. reflexivity.
Defined.

(** X10. The capitalize transformer on a value that starts with a byte
    that begins no UTF-8 sequence, a continuation byte or one of
    [0xC0], [0xC1] and [0xF5] to [0xFF]: the byte is replaced by the
    three bytes of U+FFFD, when the upper case of U+FFFD is U+FFFD, and
    the rest of the value is kept. *)
Theorem capitalize_invalid_byte (To_UpperCase : Z → Z) (c : ascii) (rest : bytes) :
  To_UpperCase utf8.RuneError = utf8.RuneError →
  0x80 ≤ byteZ c < 0xC2 ∨ 0xF5 ≤ byteZ c →
  capitalize To_UpperCase (c :: rest) = ["239"; "191"; "189"]%char ++ rest.
Proof.
  intros Hup Hc. pose proof (byteZ_range c) as Hr. unfold capitalize.
  rewrite DecodeRuneInString_arith. unfold decode_arith.
  rewrite (proj2 (Z.ltb_ge (byteZ c) 128)) by lia.
  assert ((byteZ c <? 194) || (244 <? byteZ c) = true) as ->.
  { apply orb_true_iff. destruct Hc; [left; apply Z.ltb_lt|right; apply Z.ltb_lt]; lia. }
  cbn [drop]. unfold unicode.ToUpper. change (utf8.RuneError <=? unicode.MaxASCII) with false.
  cbn match. rewrite Hup. done.
Qed.

Lemma capitalize_invalid_byte_witness :
  capitalize latin1_To_UpperCase ["128"; "a"; "b"]%char = ["239"; "191"; "189"; "a"; "b"]%char.
Proof.
  apply (capitalize_invalid_byte latin1_To_UpperCase "128" $"ab"); [reflexivity|].
  left. split; vm_compute; [discriminate|reflexivity].
Defined.

(** X11. Which body the plural transformer renders.  The cases are
    tried in their order and the first one that matches the count is
    taken, whatever follows it; its body is rendered unless it is
    empty, and the [other] body is rendered for an empty body and when
    no case matches. *)
Theorem plural_selects_first_match (cases other_cases : list PluralCase) (c : PluralCase)
    (other : list op) (value : bytes) :
  Forall (λ c', Match c' (plural_count value) = false) cases →
  plural cases other value = plural_write other (plural_count value) [] ∧
  (Match c (plural_count value) = true →
   plural (cases ++ c :: other_cases) other value =
   plural_write (if bool_decide (Ops_of c = []) then other else Ops_of c)
     (plural_count value) []).
Proof.
  intros Hno. unfold plural. rewrite !plural_ops_spec.
  assert (∀ rest, first_match (cases ++ rest) (plural_count value) =
                  first_match rest (plural_count value)) as Hfirst.
  { intros rest. induction Hno as [|c' cases Hc' _ IH]; [done|].
    cbn [app first_match]. by rewrite Hc'. }
  split.
  - specialize (Hfirst []). rewrite app_nil_r in Hfirst. by rewrite Hfirst.
  - intros Hc. rewrite Hfirst. cbn [first_match]. rewrite Hc.
    destruct (Ops_of c); by cbn.
Qed.

Lemma plural_selects_first_match_witness :
  plural [Build_PluralCase OpPluralCaseTypeExact 1 0 [LiteralOp $"one"]]
    [PluralCountOp; LiteralOp $" many"] $"7" = $"7 many" ∧
  plural [Build_PluralCase OpPluralCaseTypeExact 1 0 [LiteralOp $"one"];
          Build_PluralCase OpPluralCaseTypeRange 5 9 [LiteralOp $"some"];
          Build_PluralCase OpPluralCaseTypeExact 7 0 [LiteralOp $"seven"]]
    [PluralCountOp; LiteralOp $" many"] $"7" = $"some".
Proof.
  pose proof (plural_selects_first_match
                [Build_PluralCase OpPluralCaseTypeExact 1 0 [LiteralOp $"one"]]
                [Build_PluralCase OpPluralCaseTypeExact 7 0 [LiteralOp $"seven"]]
                (Build_PluralCase OpPluralCaseTypeRange 5 9 [LiteralOp $"some"])
                [PluralCountOp; LiteralOp $" many"] $"7") as H.
  destruct H as [H1 H2]; [by repeat constructor|].
  split; [exact H1|]. apply H2. reflexivity.
Defined.

(** X12. The replace transformer inserts the template of the message
    whose key is the value, as it was written and not rendered, when
    that message was parsed from a template without plural
    transformer; a value that is no key is kept. *)
Theorem replace_inserts_template (isTerminal : bool) (messages : gmap bytes Message)
    (value s : bytes) (m : Message) :
  Parse isTerminal s = Done m → Forall plural_free (Ops m) →
  (messages !! value = Some m → replace messages value = s) ∧
  (messages !! value = None → replace messages value = value).
Proof.
  intros Hp Hf. unfold replace. split; intros ->; [|done].
  by apply (Parse_text isTerminal).
Qed.

Lemma replace_inserts_template_witness :
  replace {[ $"greeting" := {| Ops := [LiteralOp $"hello "; ReplacementOp $"name" []] |} ]}
    $"greeting" = $"hello :name".
Proof.
  refine (proj1 (replace_inserts_template false _ $"greeting" $"hello :name" _ _ _) _).
  - vm_compute. reflexivity.
  - repeat constructor.
  - reflexivity.
Defined.

(** ** The iterator *)

Lemma advance_index (toks : list Token) (n k : nat) :
  (k ≤ length toks)%nat →
  advance n {| items := toks; index := Z.of_nat k - 1 |} =
  {| items := toks; index := Z.of_nat (min (k + n) (length toks)) - 1 |}.
Proof.
  revert k. induction n as [|n IH]; intros k Hk.
  { cbn [advance]. do 2 f_equal. lia. }
  cbn [advance]. unfold Next. cbn [items index].
  destruct (Z.leb_spec (Z.of_nat (length toks)) (Z.of_nat k - 1 + 1)); cbn [snd].
  - assert (k = length toks) as -> by lia. rewrite IH by lia. do 2 f_equal. lia.
  - replace (Z.of_nat k - 1 + 1) with (Z.of_nat (S k) - 1) by lia.
    rewrite IH by lia. do 2 f_equal. lia.
Qed.

(** X13. The iterator returns the items in their order and stops at
    the end.  After [n] calls of [Next] on a new iterator, [Peek] and
    [Next] give the item of index [n], [HasNext] tells whether there is
    one, and [Current] gives the item returned last.  At the end [Next]
    does not move the iterator, and [Reset] gives the new iterator
    again. *)
Theorem iterator_in_order (toks : list Token) (n : nat) :
  Peek (advance n (newIterator toks)) = toks !! n ∧
  (Next (advance n (newIterator toks))).1 = toks !! n ∧
  HasNext (advance n (newIterator toks)) = bool_decide (n < length toks)%nat ∧
  Current (advance n (newIterator toks)) =
    match n with O => None | S k => toks !! min k (length toks - 1) end ∧
  ((length toks ≤ n)%nat →
   (Next (advance n (newIterator toks))).2 = advance n (newIterator toks)) ∧
  Reset (advance n (newIterator toks)) = newIterator toks.
Proof.
  unfold newIterator. change (-1) with (Z.of_nat 0 - 1).
  rewrite advance_index by lia. cbn [Nat.add].
  unfold Peek, Next, HasNext, Current, Reset, item_at. cbn [items index].
  destruct (Nat.min_spec n (length toks)) as [[Hlt ->]|[Hge ->]].
  - rewrite (bool_decide_true (n < length toks)%nat) by lia.
    rewrite (proj2 (Z.ltb_ge _ 0)) by lia. rewrite (proj2 (Z.leb_gt _ _)) by lia.
    rewrite (proj2 (Z.ltb_lt _ _)) by lia. cbn [orb fst snd items index].
    replace (Z.to_nat (Z.of_nat n - 1 + 1)) with n by lia.
    split; [done|]. split; [done|]. split; [done|]. split; [|split; [lia|done]].
    destruct n as [|k].
    + by rewrite (proj2 (Z.ltb_lt _ 0)) by lia.
    + rewrite (proj2 (Z.ltb_ge _ 0)) by lia. rewrite (proj2 (Z.leb_gt _ _)) by lia.
      cbn [orb]. f_equal. lia.
  - rewrite (bool_decide_false (n < length toks)%nat) by lia.
    rewrite (proj2 (Z.leb_le _ (Z.of_nat (length toks) - 1 + 1))) by lia.
    rewrite (proj2 (Z.ltb_ge _ (Z.of_nat (length toks)))) by lia.
    rewrite orb_true_r. cbn [fst snd].
    rewrite (lookup_ge_None_2 toks n) by lia.
    split; [done|]. split; [done|]. split; [done|]. split; [|done].
    destruct n as [|k].
    + assert (length toks = 0)%nat as -> by lia. by rewrite (proj2 (Z.ltb_lt _ 0)) by lia.
    + destruct toks as [|t toks].
      * done.
      * remember (t :: toks) as l eqn:El. assert (0 < length l)%nat by (subst l; simpl; lia).
        rewrite (proj2 (Z.ltb_ge _ 0)) by lia. rewrite (proj2 (Z.leb_gt _ _)) by lia.
        cbn [orb]. f_equal. lia.
Qed.

(** ** Templates without transformers *)

Lemma not_elem_of_drop (c : ascii) (k : nat) (s : bytes) : c ∉ s → c ∉ drop k s.
Proof.
  intros Hc Hin. apply Hc. rewrite <- (take_drop k s). apply elem_of_app. by right.
Qed.

Lemma head_is_not_elem_of (c : ascii) (s : bytes) : c ∉ s → head_is (rune c) s = false.
Proof.
  destruct s as [|c' s]; [done|]. intros Hc. cbn [head_is]. apply Z.eqb_neq.
  intros Heq. apply Hc. apply byteZ_inj in Heq. subst c'. by left.
Qed.

Lemma lexes_without_bar (n : nat) (pend rest : bytes) :
  (length rest ≤ n)%nat → "|"%char ∉ rest →
  ∃ items, lexes pend rest items ∧
           Forall (λ i, match i with ILit _ => True | IRepl _ trs => trs = [] end) items.
Proof.
  revert pend rest. induction n as [|n IH]; intros pend rest Hn Hbar.
  { destruct rest; [|simpl in Hn; lia]. exists (lit_items (pend ++ [])). split.
    - by apply lexes_end.
    - unfold lit_items. case_bool_decide; by repeat constructor. }
  destruct (drop (scan_lit rest) rest) as [|c rest1] eqn:Hd.
  { exists (lit_items (pend ++ rest)). split.
    - by apply lexes_end.
    - unfold lit_items. case_bool_decide; by repeat constructor. }
  assert (length rest1 < length rest)%nat as Hlen.
  { pose proof (f_equal length Hd) as Hl. rewrite length_drop in Hl. simpl in Hl. lia. }
  assert ("|"%char ∉ rest1) as Hbar1.
  { pose proof (not_elem_of_drop _ (scan_lit rest) _ Hbar) as Hb. rewrite Hd in Hb.
    intros Hin. apply Hb. by right. }
  assert (Forall (λ i, match i with ILit _ => True | IRepl _ trs => trs = [] end)
            (lit_items (pend ++ take (scan_lit rest) rest))) as Hlit.
  { unfold lit_items. case_bool_decide; by repeat constructor. }
  destruct (accepts lowercase rest1) eqn:Hacc.
  - destruct (IH [] (drop (span_len lowercase rest1) rest1)) as (items & Hitems & Hall).
    { rewrite length_drop. lia. }
    { by apply not_elem_of_drop. }
    eexists. split.
    + eapply lexes_placeholder; [exact Hd|exact Hacc| |exact Hitems].
      apply lexes_chain_end. apply head_is_not_elem_of. by apply not_elem_of_drop.
    + apply Forall_app. split; [done|]. by constructor.
  - destruct (IH $":" rest1) as (items & Hitems & Hall); [lia|done|].
    eexists. split.
    + eapply lexes_colon; [exact Hd|exact Hacc|exact Hitems].
    + apply Forall_app. by split.
Qed.

(** X24. A template without the character [|] always parses.  Its
    message holds literals and replacements without transformers, and
    [Message.Raw] gives the template back. *)
Theorem Parse_without_transformers (isTerminal : bool) (s : bytes) :
  "|"%char ∉ s →
  ∃ m, Parse isTerminal s = Done m ∧ Forall plain_op (Ops m) ∧ Raw m = s.
Proof.
  intros Hbar. destruct (lexes_without_bar (length s) [] s) as (items & Hl & Hall); [done..|].
  assert (∃ ops, mapM op_of items = Some ops ∧ Forall plain_op ops) as (ops & Hops & Hplain).
  { clear Hl. induction Hall as [|i items Hi _ (ops & Hops & Hplain)].
    { exists []. by split. }
    destruct i as [text|key trs].
    - exists (LiteralOp text :: ops). split; [|by constructor].
      cbn [mapM op_of]. by rewrite Hops.
    - subst trs. exists (ReplacementOp key [] :: ops). split; [|by constructor].
      cbn [mapM op_of]. by rewrite Hops. }
  pose proof (parse_tokens_items items) as Hp. rewrite Hops in Hp. cbn [agrees] in Hp.
  pose proof (Parse_of_tokens isTerminal s _ ops (lexes_lex _ _ Hl) Hp) as HP.
  exists {| Ops := ops |}. split; [done|]. split; [done|].
  apply (Parse_text isTerminal _ _ HP). cbn [Ops].
  eapply Forall_impl; [exact Hplain|]. intros [v|key ts|]; cbn; [done| |done].
  intros ->. constructor.
Qed.

Lemma Parse_without_transformers_witness :
  ∃ m, Parse false $"At 10\:30 :name meets :: nobody." = Done m ∧
       Forall plain_op (Ops m) ∧ Raw m = $"At 10\:30 :name meets :: nobody.".
Proof.
  apply (Parse_without_transformers false $"At 10\:30 :name meets :: nobody.").
  intros Hin. repeat (apply elem_of_cons in Hin as [Hin|Hin]; [discriminate|]).
  by apply elem_of_nil in Hin.
Defined.

(** * Properties of the languages and of the container *)

Import parser lingua container.

(** The entries of a given map of one or two keys, in one order or the
    other. *)
Ltac enumerate :=
  unfold ranges, ranges_languages;
  first [exact (Permutation_refl _) | exact (perm_swap _ _ _)].

(** ** Loops over the entries of a map *)

Lemma ranges_NoDup {K V : Type} `{Countable K} (m : gmap K V) order :
  ranges m order → NoDup order.*1.
Proof. intros Hr. unfold ranges in Hr. rewrite Hr. apply NoDup_fst_map_to_list. Qed.

Lemma ranges_list_to_map {K V : Type} `{Countable K} (m : gmap K V) order :
  ranges m order → list_to_map order = m.
Proof.
  intros Hr. rewrite <- (list_to_map_to_list m).
  apply list_to_map_proper; [by eapply ranges_NoDup|done].
Qed.

Lemma ranges_elem_of {K V : Type} `{Countable K} (m : gmap K V) order k v :
  ranges m order → (k, v) ∈ order ↔ m !! k = Some v.
Proof. intros Hr. unfold ranges in Hr. rewrite Hr. apply elem_of_map_to_list. Qed.

(** A loop that writes [f v] at each key [k] of the map builds the map
    [f <$> m], in whatever order it goes. *)
Lemma fold_insert_ranges {K V W : Type} `{Countable K} (f : V → W) (m : gmap K V) order :
  ranges m order →
  fold_left (λ (acc : gmap K W) '(k, v), <[k := f v]> acc) order ∅ = f <$> m.
Proof.
  intros Hr. rewrite <- (ranges_list_to_map m order Hr).
  apply ranges_NoDup in Hr.
  assert (∀ acc : gmap K W,
            fold_left (λ (acc : gmap K W) '(k, v), <[k := f v]> acc) order acc =
            (f <$> list_to_map order) ∪ acc) as Hfold.
  { induction order as [|[k v] order IH]; intros acc; cbn [fold_left list_to_map foldr].
    { by rewrite fmap_empty, (left_id_L ∅ (∪)). }
    apply NoDup_cons in Hr as [Hk Hr]. rewrite IH by done. cbn [curry fst snd].
    rewrite fmap_insert, <- insert_union_l. apply symmetry, insert_union_r.
    rewrite lookup_fmap. by rewrite (not_elem_of_list_to_map_1 _ _ Hk). }
  by rewrite Hfold, (right_id_L ∅ (∪)).
Qed.

(** ** LanguageID *)

Lemma LanguageID_Empty_true l : LanguageID_Empty l = true ↔ l = no_language.
Proof.
  unfold LanguageID_Empty, no_language. destruct l as [lang region]. cbn.
  rewrite andb_true_iff, !bool_decide_eq_true. split; [by intros [-> ->]|by intros [= -> ->]].
Qed.

Lemma LanguageID_Match_exact scoped lang :
  (LanguageID_Match scoped lang).1 && (LanguageID_Match scoped lang).2 = true ↔ scoped = lang.
Proof.
  unfold LanguageID_Match. destruct scoped as [l1 r1], lang as [l2 r2]. cbn.
  repeat case_bool_decide; cbn; split; (done || congruence).
Qed.

Lemma LanguageID_Match_language scoped lang :
  (LanguageID_Match scoped lang).1 = bool_decide (Language scoped = Language lang).
Proof. unfold LanguageID_Match. by repeat case_bool_decide. Qed.

(** ** ScopedLanguage *)

(** The language that [ScopedLanguage] looks for: the language of the
    context, or the default language where the context has none. *)
Lemma ScopedLanguage_loop_exact lang order firstMatch :
  lang ∈ order → ScopedLanguage_loop lang order firstMatch = inl lang.
Proof.
  revert firstMatch. induction order as [|scoped order IH]; intros firstMatch Hin.
  { by apply elem_of_nil in Hin. }
  cbn [ScopedLanguage_loop].
  pose proof (LanguageID_Match_exact scoped lang) as Hex.
  destruct (LanguageID_Match scoped lang) as [isMatch isExactMatch]. cbn [fst snd] in Hex.
  destruct (isMatch && isExactMatch).
  { f_equal. by apply Hex. }
  apply elem_of_cons in Hin as [->|Hin]; [by pose proof (proj2 Hex eq_refl)|].
  destruct isMatch; by apply IH.
Qed.

Lemma ScopedLanguage_loop_inr lang order firstMatch r :
  ScopedLanguage_loop lang order firstMatch = inr r →
  if bool_decide (Exists (λ scoped, Language scoped = Language lang) order)
  then r ∈ order ∧ Language r = Language lang
  else r = firstMatch.
Proof.
  revert firstMatch. induction order as [|scoped order IH]; intros firstMatch.
  { cbn [ScopedLanguage_loop]. intros [= <-]. rewrite bool_decide_false; [done|].
    by intros ?%Exists_nil. }
  cbn [ScopedLanguage_loop].
  pose proof (LanguageID_Match_language scoped lang) as Hl.
  destruct (LanguageID_Match scoped lang) as [isMatch isExactMatch]. cbn [fst] in Hl.
  destruct (isMatch && isExactMatch); [done|]. subst isMatch.
  destruct (decide (Language scoped = Language lang)) as [Hs|Hs].
  - rewrite (bool_decide_true _ Hs). intros Hr. apply IH in Hr.
    rewrite (bool_decide_true (Exists _ (scoped :: order))) by (by left).
    destruct (bool_decide (Exists _ order)).
    + destruct Hr as [Hr ?]. split; [by right|done].
    + subst r. split; [by left|done].
  - rewrite (bool_decide_false _ Hs). intros Hr. apply IH in Hr.
    destruct (decide (Exists (λ scoped, Language scoped = Language lang) order)) as [He|He].
    + rewrite (bool_decide_true _ He) in Hr.
      rewrite (bool_decide_true (Exists _ (scoped :: order))) by (by right).
      destruct Hr as [Hr ?]. split; [by right|done].
    + rewrite (bool_decide_false _ He) in Hr.
      rewrite bool_decide_false; [done|]. by intros [?|?]%Exists_cons.
Qed.

Lemma ScopedLanguage_loop_inl lang order firstMatch r :
  ScopedLanguage_loop lang order firstMatch = inl r → r = lang ∧ lang ∈ order.
Proof.
  revert firstMatch. induction order as [|scoped order IH]; intros firstMatch; [done|].
  cbn [ScopedLanguage_loop].
  pose proof (LanguageID_Match_exact scoped lang) as Hex.
  destruct (LanguageID_Match scoped lang) as [isMatch isExactMatch]. cbn [fst snd] in Hex.
  destruct (isMatch && isExactMatch).
  { intros [= <-]. rewrite (proj1 Hex eq_refl). split; [done|by left]. }
  destruct isMatch; intros [-> ?]%IH; (split; [done|by right]).
Qed.

Lemma ranges_languages_elem_of c order lang :
  ranges_languages c order → lang ∈ order ↔ is_Some (messages c !! lang).
Proof.
  intros Hr. unfold ranges_languages in Hr. rewrite Hr, list_elem_of_fmap. split.
  - intros ([l msgs] & -> & Hin). apply elem_of_map_to_list in Hin. by exists msgs.
  - intros [msgs Hm]. exists (lang, msgs). split; [done|]. by apply elem_of_map_to_list.
Qed.

Lemma ScopedLanguage_held (c : Container) (ctx : LanguageID) (order : list LanguageID) :
  ranges_languages c order →
  is_Some (messages c !! (if LanguageID_Empty ctx then defaultLanguage c else ctx)) →
  LanguageID_Empty (if LanguageID_Empty ctx then defaultLanguage c else ctx) = false →
  ScopedLanguage c ctx order = if LanguageID_Empty ctx then defaultLanguage c else ctx.
Proof.
  intros Hr Hs He. apply (ranges_languages_elem_of _ _ _ Hr) in Hs.
  unfold ScopedLanguage. destruct (LanguageID_Empty ctx).
  - rewrite He. by rewrite (ScopedLanguage_loop_exact _ _ _ Hs).
  - by rewrite (ScopedLanguage_loop_exact _ _ _ Hs).
Qed.

(** X14. A language that the container holds is chosen for itself,
    whatever the other languages are and in whatever order the loop
    meets them: [ScopedLanguage] returns the language of the context,
    or the default language where the context has none, when the
    container has messages for it. *)
Theorem ScopedLanguage_exact (c : Container) (ctx : LanguageID) (order : list LanguageID) :
  ranges_languages c order →
  is_Some (messages c !! (if LanguageID_Empty ctx then defaultLanguage c else ctx)) →
  LanguageID_Empty (if LanguageID_Empty ctx then defaultLanguage c else ctx) = false →
  ScopedLanguage c ctx order = if LanguageID_Empty ctx then defaultLanguage c else ctx.
Proof. apply ScopedLanguage_held. Qed.

Lemma ranges_languages_shop : ranges_languages shop [nl; en_GB].
Proof. enumerate. Qed.

Lemma ScopedLanguage_exact_witness :
  ScopedLanguage shop en_GB [nl; en_GB] = en_GB ∧ ScopedLanguage shop no_language [nl; en_GB] = nl.
Proof.
  split.
  - apply (ScopedLanguage_exact shop en_GB [nl; en_GB] ranges_languages_shop);
      [eexists; reflexivity|reflexivity].
  - apply (ScopedLanguage_exact shop no_language [nl; en_GB] ranges_languages_shop);
      [eexists; reflexivity|reflexivity].
Defined.

Lemma ScopedLanguage_unmatched (c : Container) (ctx : LanguageID) (order : list LanguageID) :
  ranges_languages c order →
  (∀ scoped, is_Some (messages c !! scoped) →
     Language scoped ≠ Language (if LanguageID_Empty ctx then defaultLanguage c else ctx)) →
  ScopedLanguage c ctx order = defaultLanguage c.
Proof.
  intros Hr Hno. unfold ScopedLanguage.
  assert (∀ lang, (∀ scoped, is_Some (messages c !! scoped) → Language scoped ≠ Language lang) →
            match ScopedLanguage_loop lang order no_language with
            | inl scoped => scoped
            | inr firstMatch =>
              if negb (LanguageID_Empty firstMatch) then firstMatch
              else if negb (LanguageID_Empty (defaultLanguage c)) then defaultLanguage c
              else no_language
            end = defaultLanguage c) as Hafter.
  { intros lang Hlang.
    destruct (ScopedLanguage_loop lang order no_language) as [r|r] eqn:El.
    - apply ScopedLanguage_loop_inl in El as [-> Hin].
      apply (ranges_languages_elem_of _ _ _ Hr) in Hin. by destruct (Hlang lang Hin).
    - apply ScopedLanguage_loop_inr in El. rewrite bool_decide_false in El.
      + subst r. change (LanguageID_Empty no_language) with true. cbn [negb].
        destruct (LanguageID_Empty (defaultLanguage c)) eqn:Ed; [|done].
        by apply LanguageID_Empty_true in Ed.
      + intros (scoped & Hin & Hs)%Exists_exists.
        apply (ranges_languages_elem_of _ _ _ Hr) in Hin. by destruct (Hlang scoped Hin). }
  destruct (LanguageID_Empty ctx).
  - destruct (LanguageID_Empty (defaultLanguage c)) eqn:Ed; [|by apply Hafter].
    by apply LanguageID_Empty_true in Ed.
  - by apply Hafter.
Qed.

(** X15. Where no language of the container has the language of the
    one that is looked for, whatever its region, [ScopedLanguage]
    returns the default language of the container, which is the empty
    language when none was set. *)
Theorem ScopedLanguage_default (c : Container) (ctx : LanguageID) (order : list LanguageID) :
  ranges_languages c order →
  (∀ scoped, is_Some (messages c !! scoped) →
     Language scoped ≠ Language (if LanguageID_Empty ctx then defaultLanguage c else ctx)) →
  ScopedLanguage c ctx order = defaultLanguage c.
Proof. apply ScopedLanguage_unmatched. Qed.

Lemma ScopedLanguage_default_witness : ScopedLanguage shop fr [nl; en_GB] = nl.
Proof.
  apply (ScopedLanguage_default shop fr [nl; en_GB] ranges_languages_shop).
  intros scoped Hs%(ranges_languages_elem_of _ _ _ ranges_languages_shop).
  apply elem_of_cons in Hs as [->|Hs]; [done|].
  apply elem_of_cons in Hs as [->|Hs]; [done|]. by apply elem_of_nil in Hs.
Defined.



(** ** Container.Message *)

(** X17. For a context whose language the container holds,
    [Container.Message] renders the message of the key in that
    language with the formatted replacements, its own language being
    the scope of the replace transformer, and returns the key where
    the language has no such message; the orders of the loops over the
    languages and over the replacements do not matter. *)
Theorem Container_Message_exact (any : Type) (formatReplacement : any → bytes)
    (To_UpperCase : Z → Z) (c : Container) (ctx : LanguageID) (languages : list LanguageID)
    (key : Key) (values : gmap bytes any) (replacements : list (bytes * any))
    (scope : gmap Key Message) :
  ranges_languages c languages →
  ranges values replacements →
  LanguageID_Empty ctx = false →
  messages c !! ctx = Some scope →
  Container_Message any formatReplacement To_UpperCase c ctx languages key replacements =
  match scope !! key with
  | Some msg => format To_UpperCase msg (formatReplacement <$> values) scope
  | None => key
  end.
Proof.
  intros Hl Hv He Hs. unfold Container_Message.
  pose proof (ScopedLanguage_held c ctx languages Hl) as Hx. rewrite He in Hx.
  rewrite Hx by (by rewrite ?Hs). rewrite He. unfold inner. rewrite Hs.
  destruct (scope !! key) as [msg|]; [|done].
  by rewrite (fold_insert_ranges formatReplacement values replacements Hv).
Qed.

Lemma Container_Message_exact_witness :
  Container_Message bytes (λ v, v) (λ r, r) shop en_GB [nl; en_GB] $"hello"
    [($"name", $"ann"); ($"age", $"7")] = $"Hello Ann" ∧
  Container_Message bytes (λ v, v) (λ r, r) shop en_GB [nl; en_GB] $"bye" [] = $"bye".
Proof.
  split.
  - etransitivity.
    + apply (Container_Message_exact bytes (λ v, v) (λ r, r) shop en_GB [nl; en_GB] $"hello"
               {[ $"name" := $"ann"; $"age" := $"7" ]} [($"name", $"ann"); ($"age", $"7")]
               {[ $"hello" := hello_en ]} ranges_languages_shop);
        [enumerate|reflexivity|reflexivity].
    + reflexivity.
  - etransitivity.
    + apply (Container_Message_exact bytes (λ v, v) (λ r, r) shop en_GB [nl; en_GB] $"bye"
               ∅ [] {[ $"hello" := hello_en ]} ranges_languages_shop);
        [enumerate|reflexivity|reflexivity].
    + reflexivity.
Defined.

(** X18. [Container.Message] returns the key itself when no language
    of the container has the language that is looked for and the
    container holds no messages for its default language, which is so
    when no default language was set. *)
Theorem Container_Message_key (any : Type) (formatReplacement : any → bytes)
    (To_UpperCase : Z → Z) (c : Container) (ctx : LanguageID) (languages : list LanguageID)
    (key : Key) (replacements : list (bytes * any)) :
  ranges_languages c languages →
  (∀ scoped, is_Some (messages c !! scoped) →
     Language scoped ≠ Language (if LanguageID_Empty ctx then defaultLanguage c else ctx)) →
  messages c !! defaultLanguage c = None →
  Container_Message any formatReplacement To_UpperCase c ctx languages key replacements = key.
Proof.
  intros Hl Hno Hd. unfold Container_Message.
  rewrite (ScopedLanguage_unmatched c ctx languages Hl Hno).
  destruct (LanguageID_Empty (defaultLanguage c)); [done|].
  unfold inner. by rewrite Hd.
Qed.

Lemma Container_Message_key_witness :
  Container_Message bytes (λ v, v) (λ r, r)
    {| messages := {[ nl := {[ $"bye" := bye_nl ]} ]}; defaultLanguage := no_language |}
    fr [nl] $"bye" [($"name", $"ann")] = $"bye".
Proof.
  apply (Container_Message_key bytes (λ v, v) (λ r, r)
           {| messages := {[ nl := {[ $"bye" := bye_nl ]} ]}; defaultLanguage := no_language |}
           fr [nl] $"bye" [($"name", $"ann")]).
  - enumerate.
  - intros scoped [msgs Hs]. cbn [messages] in Hs.
    apply lookup_singleton_Some in Hs as [<- _]. done.
  - reflexivity.
Defined.

(** ** Container.Raw *)

Lemma inner_insert {V : Type} (m : gmap LanguageID (gmap Key V)) language msgs :
  inner (<[language := msgs]> m) language = msgs.
Proof. unfold inner. by rewrite lookup_insert_eq. Qed.

Lemma inner_insert_ne {V : Type} (m : gmap LanguageID (gmap Key V)) language language' msgs :
  language ≠ language' → inner (<[language := msgs]> m) language' = inner m language'.
Proof. intros Hne. unfold inner. by rewrite lookup_insert_ne. Qed.

Lemma Raw_messages_fold lang entries raw acc :
  fold_left (Raw_messages lang) entries (<[lang := acc]> raw) =
  <[lang := fold_left (λ (acc : gmap bytes bytes) '(key, message), <[key := Raw message]> acc)
              entries acc]> raw.
Proof.
  revert acc. induction entries as [|[key message] entries IH]; intros acc; [done|].
  cbn [fold_left Raw_messages]. rewrite inner_insert, insert_insert_eq. apply IH.
Qed.

Lemma Container_Raw_fold (order : list (LanguageID * list (Key * Message)))
    (order' : list (LanguageID * gmap Key Message)) (raw : gmap LanguageID (gmap bytes bytes)) :
  Forall2 (λ x y, x.1 = y.1 ∧ ranges y.2 x.2) order order' →
  fold_left (λ raw '(lang, messages),
               fold_left (Raw_messages lang) messages (<[lang := ∅]> raw)) order raw =
  fold_left (λ (raw : gmap LanguageID (gmap bytes bytes)) '(lang, messages),
               <[lang := Raw <$> messages]> raw) order' raw.
Proof.
  intros HF. revert raw. induction HF as [|[lang entries] [lang' msgs] order order' [Hl Hr] _ IH];
    intros raw; [done|].
  cbn [fst snd] in Hl, Hr. subst lang'. cbn [fold_left].
  rewrite Raw_messages_fold. set (x := fold_left _ entries ∅).
  assert (x = Raw <$> msgs) as -> by apply (fold_insert_ranges Raw msgs entries Hr).
  apply IH.
Qed.

Lemma Container_Raw_fmap (c : Container)
    (order : list (LanguageID * list (Key * Message))) :
  ranges2 (messages c) order →
  Container_Raw order = (λ msgs : gmap Key Message, Raw <$> msgs) <$> messages c.
Proof.
  intros (order' & Hr & HF). unfold Container_Raw.
  rewrite (Container_Raw_fold order order' ∅ HF).
  apply (fold_insert_ranges (λ msgs : gmap Key Message, Raw <$> msgs) (messages c) order' Hr).
Qed.

(** X19. [Container.Raw] gives, for each language of the container and
    each key of that language, the text that [Message.Raw] writes for
    the message, and nothing else, in whatever order the two loops go
    over the container. *)
Theorem Container_Raw_messages (c : Container)
    (order : list (LanguageID * list (Key * Message))) :
  ranges2 (messages c) order →
  Container_Raw order = (λ msgs : gmap Key Message, Raw <$> msgs) <$> messages c.
Proof. apply Container_Raw_fmap. Qed.

Lemma ranges2_shop :
  ranges2 (messages shop)
    [(en_GB, [($"hello", hello_en)]); (nl, [($"bye", bye_nl); ($"hello", hello_nl)])].
Proof.
  exists [(en_GB, {[ $"hello" := hello_en ]});
          (nl, {[ $"hello" := hello_nl; $"bye" := bye_nl ]})].
  split.
  - enumerate.
  - constructor; [split; [done|]|constructor; [split; [done|]|constructor]];
      enumerate.
Qed.

Lemma Container_Raw_messages_witness :
  Container_Raw
    [(en_GB, [($"hello", hello_en)]); (nl, [($"bye", bye_nl); ($"hello", hello_nl)])] =
  {[ en_GB := {[ $"hello" := $"Hello :name|capitalize" ]};
     nl := {[ $"hello" := $"Hallo :name|capitalize"; $"bye" := $"Dag" ]} ]}.
Proof.
  etransitivity; [apply (Container_Raw_messages shop _ ranges2_shop)|].
  reflexivity.
Defined.

(** ** Merge *)

Lemma message_of_insert {V : Type} (m : gmap LanguageID (gmap Key V)) language msgs l k :
  message_of (<[language := msgs]> m) l k =
  if bool_decide (l = language) then msgs !! k else message_of m l k.
Proof.
  unfold message_of. case_bool_decide as Hl.
  - subst l. by rewrite inner_insert.
  - by rewrite inner_insert_ne.
Qed.

(** *** The loops on a map that was made *)

Lemma message_of_add_made strategy language to key msg l k :
  message_of (add_made strategy language to (key, msg)) l k =
  if bool_decide (l = language) && bool_decide (k = key)
  then added strategy (Some msg) (message_of to l k)
  else message_of to l k.
Proof.
  unfold add_made. cbn [fst snd]. unfold added.
  destruct (skips strategy); cbn [andb].
  - case_bool_decide as Hs.
    + destruct (bool_decide (l = language)) eqn:Hl; [|done].
      destruct (bool_decide (k = key)) eqn:Hk; [|done]. cbn [andb].
      apply bool_decide_eq_true in Hl, Hk. subst l k.
      unfold message_of. by destruct Hs as [m ->].
    + rewrite message_of_insert. case_bool_decide as Hl; [|done]. subst l. cbn [andb].
      case_bool_decide as Hk.
      * subst k. rewrite lookup_insert_eq. unfold message_of.
        destruct (inner to language !! key) eqn:E; [|done]. destruct Hs. eauto.
      * by rewrite lookup_insert_ne.
  - rewrite message_of_insert. case_bool_decide as Hl; [|done]. subst l. cbn [andb].
    case_bool_decide as Hk.
    + subst k. by rewrite lookup_insert_eq.
    + by rewrite lookup_insert_ne.
Qed.

Lemma message_of_add_made_fold strategy language entries to l k :
  NoDup entries.*1 →
  message_of (fold_left (add_made strategy language) entries to) l k =
  added strategy
    (if bool_decide (l = language) then (list_to_map entries : gmap Key Message) !! k
     else None)
    (message_of to l k).
Proof.
  revert to. induction entries as [|[key msg] entries IH]; intros to Hnd.
  { cbn. by destruct (bool_decide _). }
  apply NoDup_cons in Hnd as [Hkey Hnd]. cbn [fold_left]. rewrite IH by done.
  rewrite message_of_add_made. cbn [list_to_map foldr curry fst snd].
  case_bool_decide as Hl; [|done]. cbn [andb]. case_bool_decide as Hk.
  - subst k. rewrite lookup_insert_eq.
    by rewrite (not_elem_of_list_to_map_1 _ _ Hkey).
  - by rewrite lookup_insert_ne.
Qed.

Lemma message_of_added_made (strategy : MergeStrategy)
    (order : list (LanguageID * list (Key * Message)))
    (order' : list (LanguageID * gmap Key Message)) (to : gmap LanguageID (gmap Key Message))
    (l : LanguageID) (k : Key) :
  Forall2 (λ x y, x.1 = y.1 ∧ ranges y.2 x.2) order order' →
  NoDup order'.*1 →
  message_of (added_made strategy order to) l k =
  added strategy (message_of (list_to_map order') l k) (message_of to l k).
Proof.
  intros HF. revert to.
  induction HF as [|[language entries] [language' msgs] order order' [Hl Hr] _ IH];
    intros to Hnd.
  { done. }
  cbn [fst snd] in Hl, Hr. subst language'.
  apply NoDup_cons in Hnd as [Hlang Hnd]. unfold added_made in *. cbn [fold_left].
  rewrite IH by done. rewrite message_of_add_made_fold by (by eapply ranges_NoDup).
  rewrite (ranges_list_to_map msgs entries Hr). cbn [list_to_map foldr curry fst snd].
  rewrite message_of_insert. case_bool_decide as Hll; [|done]. subst l.
  unfold message_of at 1. unfold inner.
  by rewrite (not_elem_of_list_to_map_1 _ _ Hlang).
Qed.

Lemma message_of_alter_delete (to : gmap LanguageID (gmap Key Message)) language key l k :
  message_of (alter (delete key) language to) l k =
  if bool_decide (l = language) && bool_decide (k = key) then None else message_of to l k.
Proof.
  unfold message_of, inner. case_bool_decide as Hl; cbn [andb].
  - subst l. rewrite lookup_alter_eq. destruct (to !! language) as [msgs|]; cbn.
    + case_bool_decide as Hk.
      * subst k. by rewrite lookup_delete_eq.
      * by rewrite lookup_delete_ne.
    + rewrite lookup_empty. by destruct (bool_decide _).
  - by rewrite lookup_alter_ne.
Qed.

Lemma message_of_clean_made from language to key (msg : Message) l k :
  message_of (clean_made from language to (key, msg)) l k =
  if bool_decide (l = language) && bool_decide (k = key)
  then kept (message_of from l k) (message_of to l k)
  else message_of to l k.
Proof.
  unfold clean_made. cbn [fst].
  destruct (bool_decide (l = language) && bool_decide (k = key)) eqn:Hlk.
  - apply andb_true_iff in Hlk as [Hl%bool_decide_eq_true Hk%bool_decide_eq_true]. subst l k.
    unfold message_of at 2.
    destruct (inner from language !! key); [done|].
    by rewrite message_of_alter_delete, !bool_decide_true.
  - destruct (inner from language !! key); [done|].
    by rewrite message_of_alter_delete, Hlk.
Qed.

Lemma kept_kept from to : kept from (kept from to) = kept from to.
Proof. by destruct from. Qed.

Lemma message_of_clean_made_fold from language (entries : list (Key * Message)) to l k :
  message_of (fold_left (clean_made from language) entries to) l k =
  if bool_decide (l = language) && bool_decide (k ∈ entries.*1)
  then kept (message_of from l k) (message_of to l k)
  else message_of to l k.
Proof.
  revert to. induction entries as [|[key msg] entries IH]; intros to.
  { cbn [fold_left fmap list_fmap]. rewrite (bool_decide_false (k ∈ [])).
    - by rewrite andb_false_r.
    - apply not_elem_of_nil. }
  cbn [fold_left]. rewrite IH, message_of_clean_made.
  destruct (bool_decide (l = language)); cbn [andb]; [|done].
  cbn [fmap list_fmap fst].
  destruct (decide (k = key)) as [->|Hk].
  - rewrite (bool_decide_true (key = key)) by done.
    rewrite (bool_decide_true (key ∈ key :: _)) by (by left).
    destruct (bool_decide _); by rewrite ?kept_kept.
  - rewrite (bool_decide_false (k = key)) by done.
    destruct (decide (k ∈ entries.*1)) as [Hin|Hin].
    + rewrite (bool_decide_true _ Hin). by rewrite bool_decide_true by (by right).
    + rewrite (bool_decide_false _ Hin). rewrite bool_decide_false; [done|].
      by intros [?|?]%elem_of_cons.
Qed.

Lemma message_of_cleaned_made (from : gmap LanguageID (gmap Key Message))
    (order : list (LanguageID * list (Key * Message)))
    (to : gmap LanguageID (gmap Key Message)) (l : LanguageID) (k : Key) :
  message_of (cleaned_made from order to) l k =
  if covers order l k then kept (message_of from l k) (message_of to l k)
  else message_of to l k.
Proof.
  unfold cleaned_made.
  revert to. induction order as [|[language entries] order IH]; intros to; [done|].
  cbn [fold_left covers existsb fst snd]. fold (covers order l k).
  rewrite IH, message_of_clean_made_fold.
  rewrite (bool_decide_ext (language = l) (l = language)) by done.
  destruct (bool_decide (l = language) && bool_decide (k ∈ entries.*1)); cbn [orb].
  - destruct (covers order l k); by rewrite ?kept_kept.
  - done.
Qed.

Lemma ranges2_covers (m : gmap LanguageID (gmap Key Message))
    (order : list (LanguageID * list (Key * Message))) (l : LanguageID) (k : Key) :
  ranges2 m order → is_Some (message_of m l k) → covers order l k = true.
Proof.
  intros (order' & Hr & HF) [v Hv]. unfold message_of, inner in Hv.
  destruct (m !! l) as [msgs|] eqn:Hl; [|by rewrite lookup_empty in Hv].
  apply (ranges_elem_of _ _ _ _ Hr) in Hl.
  unfold covers. apply existsb_exists. clear Hr.
  induction HF as [|[language entries] [language' msgs'] order order' [Hx Hy] _ IH].
  { by apply elem_of_nil in Hl. }
  cbn [fst snd] in Hx, Hy. subst language'.
  apply elem_of_cons in Hl as [[= <- <-]|Hl].
  - exists (l, entries). split; [by left|]. cbn [fst snd].
    rewrite bool_decide_true by done. cbn [andb]. apply bool_decide_eq_true.
    apply list_elem_of_fmap. exists (k, v). split; [done|].
    by apply (ranges_elem_of _ _ _ _ Hy).
  - destruct (IH Hl) as (x & Hin & Hx). exists x. split; [by right|done].
Qed.

Lemma ranges2_list_to_map (m : gmap LanguageID (gmap Key Message))
    (order' : list (LanguageID * gmap Key Message)) :
  ranges m order' → NoDup order'.*1 ∧ list_to_map order' = m.
Proof. intros Hr. split; [by eapply ranges_NoDup|by apply ranges_list_to_map]. Qed.

Lemma merged_added_kept strategy from to :
  merged strategy from to =
  if cleans strategy then kept from (added strategy from to) else added strategy from to.
Proof. by destruct strategy, from, to. Qed.

Lemma add_made_is_Some strategy language to entry l :
  is_Some (to !! l) → is_Some (add_made strategy language to entry !! l).
Proof.
  unfold add_made. intros Hl. destruct (_ && _); [done|].
  destruct (decide (l = language)) as [->|Hne].
  - rewrite lookup_insert_eq. eauto.
  - by rewrite lookup_insert_ne.
Qed.

Lemma clean_made_is_Some from language to (entry : Key * Message) l :
  is_Some (to !! l) → is_Some (clean_made from language to entry !! l).
Proof.
  unfold clean_made. intros Hl. destruct (inner from language !! entry.1); [done|].
  destruct (decide (l = language)) as [->|Hne].
  - rewrite lookup_alter_eq. by apply fmap_is_Some.
  - by rewrite lookup_alter_ne.
Qed.

Lemma fold_is_Some {E : Type} (f : gmap LanguageID (gmap Key Message) → E →
                                   gmap LanguageID (gmap Key Message))
    (entries : list E) (to : gmap LanguageID (gmap Key Message)) (l : LanguageID) :
  (∀ to entry, is_Some (to !! l) → is_Some (f to entry !! l)) →
  is_Some (to !! l) → is_Some (fold_left f entries to !! l).
Proof.
  intros Hf. revert to. induction entries as [|entry entries IH]; intros to Hl; [done|].
  cbn [fold_left]. by apply IH, Hf.
Qed.

Lemma added_made_is_Some strategy order to l :
  is_Some (to !! l) → is_Some (added_made strategy order to !! l).
Proof.
  intros Hl. unfold added_made. apply fold_is_Some; [|done].
  intros to' [language entries] Hto'. apply fold_is_Some; [|done].
  intros. by apply add_made_is_Some.
Qed.

Lemma cleaned_made_is_Some from order to l :
  is_Some (to !! l) → is_Some (cleaned_made from order to !! l).
Proof.
  intros Hl. unfold cleaned_made. apply fold_is_Some; [|done].
  intros to' [language entries] Hto'. apply fold_is_Some; [|done].
  intros. by apply clean_made_is_Some.
Qed.

(** *** [Merge] into a container whose map was made *)

Lemma with_messages_id c : with_messages c (messages c) = c.
Proof. by destruct c. Qed.

Lemma Merge_add_made strategy language c entry :
  Merge_add strategy language (made c) entry =
  Some (made (with_messages c (add_made strategy language (messages c) entry))).
Proof.
  destruct entry as [key msg]. unfold Merge_add, add_made. cbn [fst snd messages_of].
  assert (match
            match messages c !! language with
            | Some _ => Some (made c)
            | None => assign (made c) language ∅
            end
          with
          | Some to => assign_message to language key msg
          | None => None
          end =
          Some (made (with_messages c
                        (<[language := <[key := msg]> (inner (messages c) language)]>
                           (messages c))))) as Hassign.
  { unfold inner, assign_message, assign, with_messages.
    destruct (messages c !! language) as [msgs|] eqn:E; cbn [messages_of messages
      defaultLanguage].
    - by rewrite E.
    - by rewrite lookup_insert_eq, insert_insert_eq. }
  destruct strategy; cbn [skips andb]; try exact Hassign.
  - destruct (inner (messages c) language !! key) eqn:E.
    + rewrite bool_decide_true by eauto. by rewrite with_messages_id.
    + rewrite bool_decide_false by (by intros [? ?]). exact Hassign.
  - destruct (inner (messages c) language !! key) eqn:E.
    + rewrite bool_decide_true by eauto. by rewrite with_messages_id.
    + rewrite bool_decide_false by (by intros [? ?]). exact Hassign.
Qed.

Lemma range_over_Merge_add_made strategy language entries c :
  range_over (Merge_add strategy language) entries (made c) =
  Some (made (with_messages c (fold_left (add_made strategy language) entries (messages c)))).
Proof.
  revert c. induction entries as [|entry entries IH]; intros c.
  { cbn. by rewrite with_messages_id. }
  cbn [range_over fold_left]. rewrite Merge_add_made, IH. done.
Qed.

Lemma Merge_added_made strategy order c :
  Merge_added strategy order (made c) =
  Some (made (with_messages c (added_made strategy order (messages c)))).
Proof.
  unfold Merge_added, added_made. revert c.
  induction order as [|[language entries] order IH]; intros c.
  { cbn. by rewrite with_messages_id. }
  cbn [range_over fold_left]. rewrite range_over_Merge_add_made, IH. done.
Qed.

Lemma Merge_clean_made from language c entry :
  Merge_clean from language (made c) entry =
  made (with_messages c (clean_made from language (messages c) entry)).
Proof.
  destruct entry as [key msg]. unfold Merge_clean, clean_made, inner. cbn [fst].
  destruct (from !! language) as [msgs|].
  - destruct (msgs !! key); [by rewrite with_messages_id|done].
  - by rewrite lookup_empty.
Qed.

Lemma fold_Merge_clean_made from language entries c :
  fold_left (Merge_clean from language) entries (made c) =
  made (with_messages c (fold_left (clean_made from language) entries (messages c))).
Proof.
  revert c. induction entries as [|entry entries IH]; intros c.
  { cbn. by rewrite with_messages_id. }
  cbn [fold_left]. rewrite Merge_clean_made, IH. done.
Qed.

Lemma Merge_cleaned_made from (order : list (LanguageID * list (Key * Message))) c :
  fold_left (λ to '(language, msgs), fold_left (Merge_clean from language) msgs to) order
    (made c) =
  made (with_messages c (cleaned_made from order (messages c))).
Proof.
  unfold cleaned_made. revert c. induction order as [|[language entries] order IH]; intros c.
  { cbn. by rewrite with_messages_id. }
  cbn [fold_left]. rewrite fold_Merge_clean_made, IH. done.
Qed.

Lemma Merge_made (from c : Container) (strategy : MergeStrategy)
    (order_from order_to : list (LanguageID * list (Key * Message))) :
  Merge from (made c) strategy order_from order_to =
  Some (made (with_messages c
                (if cleans strategy
                 then cleaned_made (messages from) order_to
                        (added_made strategy order_from (messages c))
                 else added_made strategy order_from (messages c)))).
Proof.
  unfold Merge. rewrite Merge_added_made.
  destruct strategy; cbn [cleans]; try done; by rewrite Merge_cleaned_made.
Qed.

Lemma Merge_made_message_of (from c : Container) (strategy : MergeStrategy)
    (order_from order_to : list (LanguageID * list (Key * Message)))
    (language : LanguageID) (key : Key) :
  ranges2 (messages from) order_from →
  (cleans strategy = true →
   ranges2 (added_made strategy order_from (messages c)) order_to) →
  message_of
    (if cleans strategy
     then cleaned_made (messages from) order_to (added_made strategy order_from (messages c))
     else added_made strategy order_from (messages c)) language key =
  merged strategy (message_of (messages from) language key)
    (message_of (messages c) language key).
Proof.
  intros (order' & Hr & HF) Hto.
  destruct (ranges2_list_to_map _ _ Hr) as [Hnd Hm].
  pose proof (message_of_added_made strategy order_from order' (messages c) language key
                HF Hnd) as Hadd.
  rewrite Hm in Hadd. rewrite merged_added_kept, <- Hadd.
  destruct (cleans strategy); [|done].
  rewrite message_of_cleaned_made.
  destruct (covers order_to language key) eqn:Hc; [done|].
  destruct (message_of (added_made strategy order_from (messages c)) language key)
    as [v|] eqn:Hv.
  - rewrite (ranges2_covers _ _ _ _ (Hto eq_refl)) in Hc; [done|]. by rewrite Hv.
  - by destruct (message_of (messages from) language key).
Qed.

(** *** [Merge] into the container with the nil map *)

Lemma Merge_add_unmade strategy language d entry :
  Merge_add strategy language (unmade d) entry = None.
Proof.
  destruct entry as [key msg]. unfold Merge_add, inner. cbn [messages_of].
  rewrite !lookup_empty. by destruct strategy.
Qed.

Lemma Merge_added_unmade_nil strategy (order : list (LanguageID * list (Key * Message))) d :
  Forall (λ x, x.2 = []) order → Merge_added strategy order (unmade d) = Some (unmade d).
Proof.
  unfold Merge_added. induction 1 as [|[language entries] order Hx _ IH]; [done|].
  cbn [snd] in Hx. subst entries. cbn [range_over]. exact IH.
Qed.

Lemma Merge_added_unmade_cons strategy (order : list (LanguageID * list (Key * Message))) d :
  Exists (λ x, x.2 ≠ []) order → Merge_added strategy order (unmade d) = None.
Proof.
  unfold Merge_added. induction order as [|[language entries] order IH].
  { by intros ?%Exists_nil. }
  intros Hex. cbn [range_over]. destruct entries as [|entry entries].
  - cbn [range_over]. apply IH. apply Exists_cons in Hex as [Hx|Hex]; [done|done].
  - cbn [range_over]. by rewrite Merge_add_unmade.
Qed.

Lemma fold_Merge_clean_unmade from (order : list (LanguageID * list (Key * Message))) d :
  fold_left (λ to '(language, msgs), fold_left (Merge_clean from language) msgs to) order
    (unmade d) = unmade d.
Proof.
  induction order as [|[language entries] order IH]; [done|]. cbn [fold_left].
  assert (fold_left (Merge_clean from language) entries (unmade d) = unmade d) as ->; [|done].
  clear IH. induction entries as [|[key msg] entries IH]; [done|]. cbn [fold_left].
  assert (Merge_clean from language (unmade d) (key, msg) = unmade d) as ->; [|done].
  unfold Merge_clean. destruct (from !! language) as [msgs|]; [|done].
  by destruct (msgs !! key).
Qed.

Lemma ranges2_entries (m : gmap LanguageID (gmap Key Message))
    (order : list (LanguageID * list (Key * Message))) :
  ranges2 m order →
  (Forall (λ x, x.2 = []) order ↔ ∀ language key, message_of m language key = None) ∧
  (Exists (λ x, x.2 ≠ []) order ↔ ∃ language key, is_Some (message_of m language key)).
Proof.
  intros Hr.
  assert (∀ x, x ∈ order → x.2 ≠ [] → ∃ language key, is_Some (message_of m language key))
    as Hin.
  { destruct Hr as (order' & Hr & HF). intros x Hx Hne.
    apply list_elem_of_lookup in Hx as [i Hi].
    destruct (Forall2_lookup_l _ _ _ _ _ HF Hi) as ([language msgs] & Hi' & Hl & Hy).
    cbn [fst snd] in Hl, Hy. destruct x as [language' [|[key msg] entries]]; [done|].
    cbn [fst snd] in *. subst language'. exists language, key, msg.
    apply list_elem_of_lookup_2 in Hi'. apply (ranges_elem_of _ _ _ _ Hr) in Hi'.
    unfold message_of, inner. rewrite Hi'. apply (ranges_elem_of _ _ _ _ Hy). by left. }
  assert (∀ language key, is_Some (message_of m language key) →
            Exists (λ x, x.2 ≠ []) order) as Hex.
  { intros language key Hs. pose proof (ranges2_covers m order language key Hr Hs) as Hc.
    unfold covers in Hc. apply existsb_exists in Hc as (x & Hx & Hb).
    apply Exists_exists. exists x. split; [by apply list_elem_of_In|].
    apply andb_true_iff in Hb as [_ Hk%bool_decide_eq_true]. intros Hnil.
    rewrite Hnil in Hk. by apply elem_of_nil in Hk. }
  split; split.
  - intros Hall language key.
    destruct (message_of m language key) as [msg|] eqn:Hm; [|done].
    destruct (proj1 (Exists_exists _ _) (Hex language key ltac:(by rewrite Hm)))
      as (x & Hx & Hne).
    rewrite Forall_forall in Hall. by destruct Hne, (Hall x Hx).
  - intros Hnone. apply Forall_forall. intros x Hx.
    destruct (decide (x.2 = [])) as [|Hne]; [done|].
    destruct (Hin x Hx Hne) as (language & key & Hs). rewrite Hnone in Hs.
    by destruct Hs.
  - intros (x & Hx & Hne)%Exists_exists. by apply (Hin x).
  - intros (language & key & Hs). by apply (Hex language key).
Qed.

(** X20. What [Merge] leaves for each key of each language, in
    whatever order its loops go.  Into a container whose map was made
    it does not panic: with [Skip] the message of [to] stays and the
    message of [from] fills a gap; with [Overwrite] the message of
    [from] is taken and the message of [to] stays where [from] has
    none; the two cleaning strategies do the same and then drop every
    key that [from] does not have.  Into the zero container, whose map
    is nil, it panics when [from] holds a message, and returns the
    container as it is when [from] holds none. *)
Theorem Merge_messages (from : Container) (to : receiver) (strategy : MergeStrategy)
    (order_from order_to : list (LanguageID * list (Key * Message))) :
  ranges2 (messages from) order_from →
  (cleans strategy = true →
   ∀ after, Merge_added strategy order_from to = Some after →
            ranges2 (messages_of after) order_to) →
  match to with
  | made c =>
    ∃ c', Merge from to strategy order_from order_to = Some (made c') ∧
      ∀ language key,
        message_of (messages c') language key =
        match strategy, message_of (messages from) language key,
              message_of (messages c) language key with
        | Skip, _, Some msg => Some msg
        | Skip, from_msg, None => from_msg
        | Overwrite, Some msg, _ => Some msg
        | Overwrite, None, to_msg => to_msg
        | SkipAndClean, Some _, Some msg => Some msg
        | SkipAndClean, from_msg, _ => from_msg
        | OverWriteAndClean, from_msg, _ => from_msg
        end
  | unmade d =>
    ((∃ language key, is_Some (message_of (messages from) language key)) →
     Merge from to strategy order_from order_to = None) ∧
    ((∀ language key, message_of (messages from) language key = None) →
     Merge from to strategy order_from order_to = Some (unmade d))
  end.
Proof.
  intros Hfrom Hto. destruct to as [c|d].
  - eexists. split; [apply Merge_made|]. intros language key. cbn [with_messages messages].
    rewrite (Merge_made_message_of from c strategy order_from order_to language key Hfrom).
    + by destruct strategy, (message_of (messages from) language key),
           (message_of (messages c) language key).
    + intros Hc. exact (Hto Hc _ (Merge_added_made strategy order_from c)).
  - destruct (ranges2_entries _ _ Hfrom) as [Hnil Hcons]. unfold Merge. split.
    + intros Hex%Hcons. by rewrite (Merge_added_unmade_cons strategy order_from d Hex).
    + intros Hnone%Hnil. rewrite (Merge_added_unmade_nil strategy order_from d Hnone).
      destruct strategy; try done; by rewrite fold_Merge_clean_unmade.
Qed.

Lemma ranges2_update : ranges2 (messages update) [(nl, [($"bye", tot_ziens)])].
Proof.
  exists [(nl, {[ $"bye" := tot_ziens ]})]. split; [enumerate|].
  constructor; [split; [done|enumerate]|constructor].
Qed.

Lemma ranges2_update_shop strategy after :
  Merge_added strategy [(nl, [($"bye", tot_ziens)])] (made shop) = Some after →
  ranges2 (messages_of after)
    [(en_GB, [($"hello", hello_en)]);
     (nl, [($"bye", if skips strategy then bye_nl else tot_ziens); ($"hello", hello_nl)])].
Proof.
  rewrite Merge_added_made. intros [= <-]. cbn [messages_of with_messages messages].
  exists [(en_GB, {[ $"hello" := hello_en ]});
          (nl, {[ $"hello" := hello_nl;
                  $"bye" := if skips strategy then bye_nl else tot_ziens ]})].
  split.
  - destruct strategy; enumerate.
  - constructor; [split; [done|enumerate]|].
    constructor; [split; [done|destruct strategy; enumerate]|constructor].
Qed.

Lemma Merge_messages_witness :
  (∃ c', Merge update (made shop) OverWriteAndClean [(nl, [($"bye", tot_ziens)])]
           [(en_GB, [($"hello", hello_en)]);
            (nl, [($"bye", tot_ziens); ($"hello", hello_nl)])] = Some (made c') ∧
         message_of (messages c') nl $"bye" = Some tot_ziens ∧
         message_of (messages c') nl $"hello" = None) ∧
  Merge update (unmade no_language) Skip [(nl, [($"bye", tot_ziens)])] [] = None.
Proof.
  split.
  - destruct (Merge_messages update (made shop) OverWriteAndClean
                [(nl, [($"bye", tot_ziens)])]
                [(en_GB, [($"hello", hello_en)]);
                 (nl, [($"bye", tot_ziens); ($"hello", hello_nl)])]
                ranges2_update (λ _, ranges2_update_shop OverWriteAndClean))
      as (c' & Hm & Hk).
    exists c'. split; [exact Hm|]. split; [exact (Hk nl $"bye")|exact (Hk nl $"hello")].
  - refine (proj1 (Merge_messages update (unmade no_language) Skip
                     [(nl, [($"bye", tot_ziens)])] [] ranges2_update _) _).
    + intros H. discriminate H.
    + exists nl, $"bye". by eexists.
Defined.

(** X21. [Merge] takes no language away from a container whose map was
    made and keeps its default language.  A language of [to] for which
    [from] has no message stays in the container after cleaning, with
    no message left. *)
Theorem Merge_keeps_languages (from to : Container) (strategy : MergeStrategy)
    (order_from order_to : list (LanguageID * list (Key * Message))) (language : LanguageID) :
  ranges2 (messages from) order_from →
  (cleans strategy = true →
   ∀ after, Merge_added strategy order_from (made to) = Some after →
            ranges2 (messages_of after) order_to) →
  is_Some (messages to !! language) →
  ∃ c', Merge from (made to) strategy order_from order_to = Some (made c') ∧
    is_Some (messages c' !! language) ∧
    defaultLanguage c' = defaultLanguage to ∧
    (cleans strategy = true →
     (∀ key, message_of (messages from) language key = None) →
     messages c' !! language = Some ∅).
Proof.
  intros Hfrom Hto Hl. eexists. split; [apply Merge_made|].
  cbn [with_messages messages defaultLanguage].
  assert (is_Some ((if cleans strategy
                    then cleaned_made (messages from) order_to
                           (added_made strategy order_from (messages to))
                    else added_made strategy order_from (messages to)) !! language))
    as [msgs Hm].
  { destruct (cleans strategy).
    - by apply cleaned_made_is_Some, added_made_is_Some.
    - by apply added_made_is_Some. }
  split; [by exists msgs|]. split; [done|]. intros Hc Hnone. rewrite Hm. f_equal.
  apply map_empty. intros key.
  pose proof (Merge_made_message_of from to strategy order_from order_to language key Hfrom)
    as Hk.
  rewrite Hnone in Hk. unfold message_of at 1 in Hk. unfold inner in Hk. rewrite Hm in Hk.
  rewrite Hk.
  - by destruct strategy, (message_of (messages to) language key).
  - intros Hc'. exact (Hto Hc' _ (Merge_added_made strategy order_from to)).
Qed.

Lemma Merge_keeps_languages_witness :
  ∃ c', Merge update (made shop) OverWriteAndClean [(nl, [($"bye", tot_ziens)])]
          [(en_GB, [($"hello", hello_en)]);
           (nl, [($"bye", tot_ziens); ($"hello", hello_nl)])] = Some (made c') ∧
        is_Some (messages c' !! en_GB) ∧
        messages c' !! en_GB = Some ∅.
Proof.
  destruct (Merge_keeps_languages update shop OverWriteAndClean
              [(nl, [($"bye", tot_ziens)])]
              [(en_GB, [($"hello", hello_en)]);
               (nl, [($"bye", tot_ziens); ($"hello", hello_nl)])] en_GB
              ranges2_update (λ _, ranges2_update_shop OverWriteAndClean)
              (ex_intro _ _ eq_refl)) as (c' & Hm & H1 & _ & H2).
  exists c'. split; [exact Hm|]. split; [exact H1|].
  apply H2; [reflexivity|]. intros key. reflexivity.
Defined.

(** ** addFile *)

Lemma addFile_loop_spec (isTerminal : bool) (order : list (bytes * bytes))
    (acc : gmap Key Message) :
  NoDup order.*1 →
  match addFile_loop isTerminal acc order with
  | inr (Some msgs) =>
    Forall (λ entry, ∃ m, Parse isTerminal entry.2 = Done m) order ∧
    ∀ key, msgs !! key =
           match (list_to_map order : gmap bytes bytes) !! key with
           | Some raw => match Parse isTerminal raw with Done m => Some m | _ => None end
           | None => acc !! key
           end
  | inl (key, err) => ∃ raw, (key, raw) ∈ order ∧ Parse isTerminal raw = Fail err
  | inr None => False
  end.
Proof.
  revert acc. induction order as [|[k raw] order IH]; intros acc Hnd.
  { cbn. split; [constructor|done]. }
  apply NoDup_cons in Hnd as [Hk Hnd]. cbn [addFile_loop].
  destruct (Parse isTerminal raw) as [m|err|] eqn:Hp.
  - specialize (IH (<[k := m]> acc) Hnd).
    destruct (addFile_loop isTerminal (<[k := m]> acc) order) as [[key err]|[msgs|]].
    + destruct IH as (raw' & Hin & Hf). exists raw'. split; [by right|done].
    + destruct IH as [Hall Hmsgs]. split.
      * constructor; [by exists m|done].
      * intros key. rewrite Hmsgs. cbn [list_to_map foldr curry fst snd].
        destruct (decide (key = k)) as [->|Hne].
        -- rewrite (not_elem_of_list_to_map_1 _ _ Hk), !lookup_insert_eq. by rewrite Hp.
        -- by rewrite !lookup_insert_ne.
    + done.
  - exists raw. split; [by left|done].
  - by apply Parse_total in Hp.
Qed.

(** X22. What [addFile] does with the decoded file.  It fails with the
    key and the error of a message that [Parse] refuses, and else gives
    the language the parsed messages of all the keys of the file and of
    no other key, whatever the language held before; the other
    languages and the default language are kept. *)
Theorem addFile_loads (isTerminal : bool) (c : Container) (language : LanguageID)
    (rawMessages : gmap bytes bytes) (order : list (bytes * bytes)) :
  ranges rawMessages order →
  match addFile isTerminal c language order with
  | Loaded c' =>
    defaultLanguage c' = defaultLanguage c ∧
    (∀ l, l ≠ language → messages c' !! l = messages c !! l) ∧
    ∃ msgs, messages c' !! language = Some msgs ∧
      ∀ key, match rawMessages !! key with
             | Some raw => ∃ m, Parse isTerminal raw = Done m ∧ msgs !! key = Some m
             | None => msgs !! key = None
             end
  | ErrParseMessage key err =>
    ∃ raw, rawMessages !! key = Some raw ∧ Parse isTerminal raw = Fail err
  | LoadOutOfFuel => False
  end.
Proof.
  intros Hr. unfold addFile.
  pose proof (addFile_loop_spec isTerminal order ∅ (ranges_NoDup _ _ Hr)) as Hloop.
  rewrite (ranges_list_to_map _ _ Hr) in Hloop.
  destruct (addFile_loop isTerminal ∅ order) as [[key err]|[msgs|]]; [| |done].
  - destruct Hloop as (raw & Hin & Hf). exists raw. split; [|done].
    by apply (ranges_elem_of _ _ _ _ Hr).
  - destruct Hloop as [Hall Hmsgs]. cbn [messages defaultLanguage].
    split; [done|]. split; [by intros l Hl; rewrite lookup_insert_ne|].
    exists msgs. split; [by rewrite lookup_insert_eq|]. intros key.
    specialize (Hmsgs key). unfold Key in *.
    destruct (rawMessages !! key) as [raw|] eqn:Hraw;
      [|etransitivity; [exact Hmsgs|apply lookup_empty]].
    apply (ranges_elem_of _ _ _ _ Hr) in Hraw.
    rewrite Forall_forall in Hall. destruct (Hall _ Hraw) as [m Hm]. cbn [snd] in Hm.
    exists m. split; [done|]. etransitivity; [exact Hmsgs|]. by rewrite Hm.
Qed.

Lemma addFile_loads_witness :
  ∃ c', addFile false shop fr [($"bye", $"Au revoir"); ($"hello", $"Bonjour :name")] =
          Loaded c' ∧
        message_of (messages c') fr $"hello" =
          Some {| Ops := [LiteralOp $"Bonjour "; ReplacementOp $"name" []] |} ∧
        messages c' !! nl = messages shop !! nl.
Proof.
  pose proof (addFile_loads false shop fr
                {[ $"hello" := $"Bonjour :name"; $"bye" := $"Au revoir" ]}
                [($"bye", $"Au revoir"); ($"hello", $"Bonjour :name")]
                ltac:(enumerate)) as H.
  destruct (addFile false shop fr [($"bye", $"Au revoir"); ($"hello", $"Bonjour :name")])
    as [c'|key err|] eqn:E; [|exfalso..].
  - exists c'. split; [done|]. destruct H as (_ & Hother & msgs & Hm & Hkeys). split.
    + specialize (Hkeys $"hello"). cbn in Hkeys. destruct Hkeys as (m & Hp & Hk).
      unfold message_of, inner. rewrite Hm. etransitivity; [exact Hk|]. f_equal.
      vm_compute in Hp. by injection Hp as <-.
    + by apply Hother.
  - vm_compute in E. discriminate.
  - done.
Defined.

(** X23. The messages that [Container.Raw] gives for a language load
    again to the messages of that language: [addFile] with them leaves
    a container of parsed messages as it is. *)
Theorem addFile_Raw (isTerminal : bool) (c : Container) (language : LanguageID)
    (entries : list (LanguageID * list (Key * Message))) (rawMessages : gmap bytes bytes)
    (order : list (bytes * bytes)) :
  (∀ l key m, message_of (messages c) l key = Some m →
              ∃ s, Parse isTerminal s = Done m) →
  ranges2 (messages c) entries →
  Container_Raw entries !! language = Some rawMessages →
  ranges rawMessages order →
  addFile isTerminal c language order = Loaded c.
Proof.
  intros Hparsed Hentries Hraw Hr.
  rewrite (Container_Raw_fmap c entries Hentries), lookup_fmap in Hraw.
  destruct (messages c !! language) as [msgs|] eqn:Hl; [|done].
  injection Hraw as <-.
  assert (∀ key m, msgs !! key = Some m → Parse isTerminal (Raw m) = Done m) as Hre.
  { intros key m Hm. destruct (Hparsed language key m) as [s Hs].
    - unfold message_of, inner. by rewrite Hl.
    - by apply Parse_Raw in Hs. }
  unfold addFile.
  pose proof (addFile_loop_spec isTerminal order ∅ (ranges_NoDup _ _ Hr)) as Hloop.
  rewrite (ranges_list_to_map _ _ Hr) in Hloop.
  destruct (addFile_loop isTerminal ∅ order) as [[key err]|[msgs'|]]; [| |done].
  - destruct Hloop as (raw & Hin & Hf). apply (ranges_elem_of _ _ _ _ Hr) in Hin.
    rewrite lookup_fmap in Hin. apply fmap_Some in Hin as (m & Hm & ->).
    by rewrite (Hre key m Hm) in Hf.
  - destruct Hloop as [_ Hmsgs].
    assert (msgs' = msgs) as ->.
    { apply map_eq. intros key. etransitivity; [apply Hmsgs|]. unfold Key in *.
      rewrite lookup_fmap. destruct (msgs !! key) as [m|] eqn:Hm; [|apply lookup_empty].
      cbn [fmap option_fmap option_map]. by rewrite (Hre key m Hm). }
    rewrite insert_id by done. by destruct c.
Qed.

Lemma shop_parsed l key m :
  message_of (messages shop) l key = Some m → ∃ s, Parse false s = Done m.
Proof.
  unfold message_of, inner, shop. cbn [messages].
  destruct (decide (l = en_GB)) as [->|Hen].
  { rewrite lookup_insert_eq. intros [<- <-]%lookup_singleton_Some.
    by exists $"Hello :name|capitalize". }
  rewrite lookup_insert_ne by done.
  destruct (decide (l = nl)) as [->|Hnl].
  - rewrite lookup_singleton_eq. intros Hm.
    apply lookup_insert_Some in Hm as [[<- <-]|[_ Hm]].
    + by exists $"Hallo :name|capitalize".
    + apply lookup_singleton_Some in Hm as [<- <-]. by exists $"Dag".
  - rewrite lookup_singleton_ne by done. by rewrite lookup_empty.
Qed.

Lemma addFile_Raw_witness :
  addFile false shop nl [($"hello", $"Hallo :name|capitalize"); ($"bye", $"Dag")] =
  Loaded shop.
Proof.
  apply (addFile_Raw false shop nl
           [(en_GB, [($"hello", hello_en)]); (nl, [($"bye", bye_nl); ($"hello", hello_nl)])]
           {[ $"hello" := $"Hallo :name|capitalize"; $"bye" := $"Dag" ]}).
  - apply shop_parsed.
  - apply ranges2_shop.
  - reflexivity.
  - enumerate.
Defined.

(** ** The extract command *)

Lemma add_keys_lookup (srcMessages : list bytes) (messages : gmap bytes bytes) (key : bytes) :
  extract_command.add_keys srcMessages messages !! key =
  if bool_decide (key ∈ srcMessages) then Some (default [] (messages !! key))
  else messages !! key.
Proof.
  unfold extract_command.add_keys. revert messages.
  induction srcMessages as [|k srcMessages IH]; intros messages.
  { cbn [fold_left]. rewrite bool_decide_false; [done|]. apply not_elem_of_nil. }
  cbn [fold_left]. rewrite IH. unfold extract_command.add_key.
  destruct (decide (key = k)) as [->|Hne].
  - rewrite (bool_decide_true (k ∈ k :: srcMessages)) by (by left).
    destruct (messages !! k) as [v|] eqn:Hk.
    + rewrite Hk. by destruct (bool_decide _).
    + rewrite lookup_insert_eq. by destruct (bool_decide _).
  - assert (match messages !! k with
            | Some _ => messages
            | None => <[k := []]> messages
            end !! key = messages !! key) as ->.
    { destruct (messages !! k); [done|]. by rewrite lookup_insert_ne. }
    destruct (decide (key ∈ srcMessages)) as [Hin|Hin].
    + rewrite (bool_decide_true _ Hin). by rewrite bool_decide_true by (by right).
    + rewrite (bool_decide_false _ Hin). rewrite bool_decide_false; [done|].
      by intros [?|?]%elem_of_cons.
Qed.

Lemma remove_keys_lookup (srcMessages : list bytes) (order : list (bytes * bytes))
    (messages : gmap bytes bytes) (key : bytes) :
  fold_left (extract_command.remove_key srcMessages) order messages !! key =
  if bool_decide (key ∈ order.*1) && negb (bool_decide (key ∈ srcMessages)) then None
  else messages !! key.
Proof.
  revert messages. induction order as [|[k v] order IH]; intros messages.
  { cbn [fold_left fmap list_fmap]. rewrite (bool_decide_false (key ∈ [])); [done|].
    apply not_elem_of_nil. }
  cbn [fold_left extract_command.remove_key fmap list_fmap fst]. rewrite IH.
  destruct (decide (key = k)) as [->|Hne].
  - rewrite (bool_decide_true (k ∈ k :: _)) by (by left). cbn [andb].
    destruct (bool_decide (k ∈ srcMessages)) eqn:Hsrc; cbn [negb].
    + by rewrite andb_false_r.
    + rewrite lookup_delete_eq. by destruct (_ && _).
  - assert ((if bool_decide (k ∈ srcMessages) then messages else delete k messages) !! key =
            messages !! key) as ->.
    { destruct (bool_decide (k ∈ srcMessages)); [reflexivity|].
      apply lookup_delete_ne. congruence. }
    rewrite (bool_decide_ext (key ∈ k :: order.*1) (key ∈ order.*1)); [done|].
    rewrite elem_of_cons. split; [by intros [?|?]|by right].
Qed.

(** X25. What the extract command leaves of the translations of a
    language.  Each key found in the source code is there, with the
    translation it had or with the empty translation when it is new.
    A key that is not in the source code keeps its translation, and is
    taken away when [remove] is set. *)
Theorem extract_update_language (remove : bool) (srcMessages : list bytes)
    (messages : gmap bytes bytes) (order : list (bytes * bytes)) (key : bytes) :
  (remove = true → ranges (extract_command.add_keys srcMessages messages) order) →
  extract_command.update_language remove srcMessages messages order !! key =
  if bool_decide (key ∈ srcMessages) then Some (default [] (messages !! key))
  else if remove then None
  else messages !! key.
Proof.
  intros Hr. unfold extract_command.update_language. destruct remove.
  - specialize (Hr eq_refl). rewrite remove_keys_lookup, add_keys_lookup.
    destruct (bool_decide (key ∈ srcMessages)) eqn:Hsrc; cbn [negb].
    + by rewrite andb_false_r.
    + rewrite andb_true_r.
      destruct (decide (key ∈ order.*1)) as [Hin|Hin]; [by rewrite bool_decide_true|].
      rewrite bool_decide_false by done.
      destruct (messages !! key) as [v|] eqn:Hk; [|done].
      destruct Hin. apply list_elem_of_fmap. exists (key, v). split; [done|].
      apply (ranges_elem_of _ _ _ _ Hr). by rewrite add_keys_lookup, Hsrc.
  - apply add_keys_lookup.
Qed.

Lemma extract_update_language_witness :
  extract_command.update_language true [$"new"] {[ $"old" := $"Oud" ]}
    [($"new", []); ($"old", $"Oud")] !! $"new" = Some [] ∧
  extract_command.update_language true [$"new"] {[ $"old" := $"Oud" ]}
    [($"new", []); ($"old", $"Oud")] !! $"old" = None.
Proof.
  assert (ranges (extract_command.add_keys [$"new"] {[ $"old" := $"Oud" ]})
            [($"new", []); ($"old", $"Oud")]) as Hr by enumerate.
  split.
  - exact (extract_update_language true _ _ _ $"new" (λ _, Hr)).
  - exact (extract_update_language true _ _ _ $"old" (λ _, Hr)).
Defined.

